(** * PowerSync service: sync pipeline, verified against its TypeScript source

    A shallow embedding of the parts of the service that the specification
    makes checkable statements about:

    - [PostgresSyncRulesStorage] ([getChecksumsInternal], [getBucketDataBatch],
      [watchCheckpointChanges], [watchActiveCheckpoint]),
    - [MongoBucketBatch] ([flush], [commit], [keepalive], [autoActivate],
      [saveOperation], [withReplicationTransaction]),
    - the sync stream of [sync.ts] ([streamResponseInner],
      [bucketDataInBatches], [bucketDataBatch]),
    - [Demultiplexer] ([start], [loop], [addSink], [removeSink], [subscribe]),
    - [BucketChecksumState] ([updateBucketPosition], [buildNextCheckpointLine],
      [getFilteredBucketPositions]),
    - [MongoLSN] ([comparable], [fromSerialized], [fromResumeToken]) and
      [parseResumeTokenTimestamp].

    Integers of the source (BigInt, SQL BIGINT, JS numbers that hold integers)
    are [Z]; 32-bit wrap-around is written out.  JS [Map]/[Set] objects are
    stdpp [gmap]/[gset], and lists in insertion order where the code
    iterates them into its output. *)

From Stdlib Require Import ZArith Lia Sorted Ascii.
From stdpp Require Import gmap strings list fin_maps.

Local Open Scope Z_scope.

(** ** JS 32-bit integer conversions *)

(** [ToInt32] of ECMAScript on an integral Number. *)
Definition ToInt32 (x : Z) : Z :=
  let m := x mod 2 ^ 32 in
  if 2 ^ 31 <=? m then m - 2 ^ 32 else m.

(** The JS operator [x & y] on Numbers: both operands go through [ToInt32]. *)
Definition js_bitand (x y : Z) : Z :=
  ToInt32 (Z.land (ToInt32 x) (ToInt32 y)).

(** 32-bit two's-complement addition. *)
Definition add32 (x y : Z) : Z := ToInt32 (x + y).

(** ** PostgresSyncRulesStorage.getChecksumsInternal *)

Module PostgresSyncRulesStorage.

Inductive OpType := PUT | REMOVE | MOVE | CLEAR.

Definition OpType_eqb (x y : OpType) : bool :=
  match x, y with
  | PUT, PUT | REMOVE, REMOVE | MOVE, MOVE | CLEAR, CLEAR => true
  | _, _ => false
  end.

(** A row of the table [bucket_data] (the columns the query reads). *)
Record BucketDataRow := {
  group_id : Z;
  bucket_name : string;
  op_id : Z;
  op : OpType;
  checksum : Z
}.

(** [storage.FetchPartialBucketChecksum]. *)
Record FetchPartialBucketChecksum := {
  fetch_bucket : string;
  fetch_start : option Z;
  fetch_end : Z
}.

(** [storage.PartialChecksum]. *)
Record PartialChecksum := {
  bucket : string;
  partialCount : Z;
  partialChecksum : Z;
  isFullChecksum : bool
}.

(** A row of the CTE [filter_data]. *)
Record FilterRow := {
  f_bucket_name : string;
  start_op_id : Z;
  end_op_id : Z
}.

(** [rangedBatch]: [start: String(b.start ?? 0n)], [end: String(b.end)]. *)
Definition rangedBatch (batch : list FetchPartialBucketChecksum) : list FilterRow :=
  map (fun b => {| f_bucket_name := fetch_bucket b;
                   start_op_id := default 0 (fetch_start b);
                   end_op_id := fetch_end b |}) batch.

(** The JOIN condition of the query. *)
Definition join_on (b : BucketDataRow) (f : FilterRow) : bool :=
  bool_decide (bucket_name b = f_bucket_name f)
  && (start_op_id f <? op_id b) && (op_id b <=? end_op_id f).

(** [bucket_data b JOIN filter_data f ON ... WHERE b.group_id = group_id]:
    one joined row per matching pair. *)
Definition joined (gid : Z) (data : list BucketDataRow) (filters : list FilterRow)
  : list BucketDataRow :=
  flat_map (fun b => map (fun _ => b) (filter (fun f => join_on b f = true) filters))
           (filter (fun b => group_id b = gid) data).

(** One result row of the aggregate query. *)
Record ResultRow := {
  checksum_total : Z;
  total : Z;
  has_clear_op : Z
}.

Definition clear_case (o : OpType) : Z := if OpType_eqb o CLEAR then 1 else 0.

(** Fold one joined row into its group: SUM, COUNT and MAX. *)
Definition aggregate (g : option ResultRow) (b : BucketDataRow) : ResultRow :=
  match g with
  | None => {| checksum_total := checksum b; total := 1;
               has_clear_op := clear_case (op b) |}
  | Some r => {| checksum_total := checksum_total r + checksum b;
                 total := total r + 1;
                 has_clear_op := Z.max (has_clear_op r) (clear_case (op b)) |}
  end.

(** GROUP BY b.bucket_name. *)
Definition group_by_bucket (rows : list BucketDataRow) : gmap string ResultRow :=
  foldl (fun m b => <[bucket_name b := aggregate (m !! bucket_name b) b]> m) ∅ rows.

(** The mapping of a result row to a [PartialChecksum]:
    [Number(BigInt(doc.checksum_total) & 0xffffffffn) & 0xffffffff]. *)
Definition to_partial (name : string) (doc : ResultRow) : PartialChecksum :=
  {| bucket := name;
     partialCount := total doc;
     partialChecksum := js_bitand (Z.land (checksum_total doc) 0xffffffff) 0xffffffff;
     isFullChecksum := has_clear_op doc =? 1 |}.

Definition getChecksumsInternal (gid : Z) (data : list BucketDataRow)
    (batch : list FetchPartialBucketChecksum) : gmap string PartialChecksum :=
  match batch with
  | [] => ∅
  | _ => map_imap (fun name doc => Some (to_partial name doc))
                  (group_by_bucket (joined gid data (rangedBatch batch)))
  end.

(** A bucket that matched no row has no entry in the result; its partial
    checksum is the empty sum. *)
Definition partial_of (name : string) (m : gmap string PartialChecksum) : PartialChecksum :=
  default {| bucket := name; partialCount := 0; partialChecksum := 0;
             isFullChecksum := false |} (m !! name).

(** The partial checksum of one bucket over [(start, end]]. *)
Definition checksum_range (gid : Z) (data : list BucketDataRow) (name : string)
    (start : option Z) (end_ : Z) : PartialChecksum :=
  partial_of name
    (getChecksumsInternal gid data
       [ {| fetch_bucket := name; fetch_start := start; fetch_end := end_ |} ]).

(** The stored ops of bucket [name] with [lo < op_id <= hi]. *)
Definition ops_in (gid : Z) (data : list BucketDataRow) (name : string) (lo hi : Z)
  : list BucketDataRow :=
  filter (fun b => group_id b = gid ∧ bucket_name b = name ∧ lo < op_id b ∧ op_id b <= hi)
         data.

(** Auxiliary functions for the closed form of the query result. *)
Definition sum_checksums (l : list BucketDataRow) : Z :=
  foldr (fun b acc => checksum b + acc) 0 l.

Definition has_clear (l : list BucketDataRow) : bool :=
  existsb (fun b => OpType_eqb (op b) CLEAR) l.

Definition fold_group (g : option ResultRow) (l : list BucketDataRow) : option ResultRow :=
  foldl (fun g b => Some (aggregate g b)) g l.

Definition tot (g : option ResultRow) : Z := from_option checksum_total 0 g.
Definition cnt (g : option ResultRow) : Z := from_option total 0 g.
Definition clr (g : option ResultRow) : Z := from_option has_clear_op 0 g.

(** A bucket without CLEAR whose checksums wrap around, and a compacted
    bucket that starts with a CLEAR. *)
Definition bucket_plain : list BucketDataRow :=
  [ {| group_id := 1; bucket_name := "global[]"; op_id := 1; op := PUT; checksum := 0x7fffffff |};
    {| group_id := 1; bucket_name := "global[]"; op_id := 2; op := PUT; checksum := 0xfffffff0 |};
    {| group_id := 1; bucket_name := "global[]"; op_id := 3; op := REMOVE; checksum := 0x21 |};
    {| group_id := 1; bucket_name := "other[]"; op_id := 4; op := CLEAR; checksum := 7 |} ].

Definition bucket_compacted : list BucketDataRow :=
  [ {| group_id := 1; bucket_name := "global[]"; op_id := 5; op := CLEAR; checksum := 12 |};
    {| group_id := 1; bucket_name := "global[]"; op_id := 6; op := PUT; checksum := 30 |} ].

(** A bucket that holds an op below its CLEAR. *)
Definition bucket_with_earlier_op : list BucketDataRow :=
  [ {| group_id := 1; bucket_name := "global[]"; op_id := 1; op := PUT; checksum := 5 |};
    {| group_id := 1; bucket_name := "global[]"; op_id := 3; op := CLEAR; checksum := 7 |};
    {| group_id := 1; bucket_name := "global[]"; op_id := 4; op := PUT; checksum := 30 |} ].

End PostgresSyncRulesStorage.
(** ** PostgresSyncRulesStorage.getBucketDataBatch *)

Module PostgresBucketData.

(** [models.BucketData], decoded: the columns that the loop reads.
    [source_key] is a buffer, known here by its bytes. *)
Record BucketData := {
  bucket_name : string;
  op_id : Z;
  data : option string;
  target_op : option Z;
  source_table : option string;
  source_key : option string
}.

Inductive Error :=
| ServiceAssertionError (message : string) (bucket : string).

Section Batch.

(** [utils.OplogEntry] and the functions imported from other packages:
    [mapOpEntry], the assignment [entry.subkey = ...], the field
    [entry.op_id], [replicaIdToSubkey], [storage.deserializeReplicaId] and
    [internalToExternalOpId]. *)
Context {OplogEntry ReplicaId : Type}.
Variable mapOpEntry : BucketData → OplogEntry.
Variable set_subkey : string → OplogEntry → OplogEntry.
Variable entry_op_id : OplogEntry → string.
Variable replicaIdToSubkey : string → ReplicaId → string.
Variable deserializeReplicaId : string → ReplicaId.
Variable internalToExternalOpId : Z → string.

(** [utils.SyncBucketData]. *)
Record SyncBucketData := {
  bucket : string;
  after : string;
  has_more : bool;
  chunk_data : list OplogEntry;
  next_after : string
}.

(** [storage.SyncBucketDataChunk]. *)
Record SyncBucketDataChunk := {
  chunkData : SyncBucketData;
  targetOp : option Z
}.

(** The local variables of the generator, and the chunks yielded so far. *)
Record Locals := {
  chunkSizeBytes : Z;
  currentChunk : option SyncBucketData;
  current_targetOp : option Z;
  batchRowCount : Z;
  yielded : list SyncBucketDataChunk
}.

Definition start_locals : Locals :=
  {| chunkSizeBytes := 0; currentChunk := None; current_targetOp := None;
     batchRowCount := 0; yielded := [] |}.

(** How the body of [for (const row of decodedRows)] ends. *)
Inductive Step :=
| Continue (st : Locals)
| Break (st : Locals)
| Throw (e : Error) (st : Locals).

(** [row.data ? row.data.length : 0]. *)
Definition rowSizeBytes (row : BucketData) : Z :=
  match data row with
  | Some d => Z.of_nat (String.length d)
  | None => 0
  end.

(** The entry pushed for a row: [mapOpEntry(row)], with the subkey set when
    the row has a source table and a source key. *)
Definition entry_of (row : BucketData) : OplogEntry :=
  let entry := mapOpEntry row in
  match source_table row, source_key row with
  | Some tbl, Some key =>
      if bool_decide (tbl = "") then entry
      else set_subkey (replicaIdToSubkey tbl (deserializeReplicaId key)) entry
  | _, _ => entry
  end.

Definition sizeExceeded (chunkSizeLimitBytes batchRowLimit : Z) (st : Locals)
    (row : BucketData) : bool :=
  (chunkSizeLimitBytes <=? chunkSizeBytes st)
  || match currentChunk st with
     | Some c =>
         negb (bool_decide (length (chunk_data c) = 0%nat))
         && (chunkSizeLimitBytes <? chunkSizeBytes st + rowSizeBytes row)
     | None => false
     end
  || (batchRowLimit <=? match currentChunk st with
                        | Some c => Z.of_nat (length (chunk_data c))
                        | None => 0
                        end).

(** The end of the body: the target op, the push and the counters. *)
Definition push_row (row : BucketData) (c : SyncBucketData) (tgt : option Z)
    (st : Locals) : Locals :=
  let entry := entry_of row in
  let tgt :=
    match target_op row with
    | Some rowTargetOp =>
        match tgt with
        | None => Some rowTargetOp
        | Some t => if t <? rowTargetOp then Some rowTargetOp else Some t
        end
    | None => tgt
    end in
  {| chunkSizeBytes := chunkSizeBytes st + rowSizeBytes row;
     currentChunk := Some {| bucket := bucket c; after := after c; has_more := has_more c;
                             chunk_data := chunk_data c ++ [entry];
                             next_after := entry_op_id entry |};
     current_targetOp := tgt;
     batchRowCount := batchRowCount st + 1;
     yielded := yielded st |}.

(** A new chunk for the bucket of the row, after [start] or, when there is
    none, after the position asked for in [dataBuckets]. *)
Definition open_chunk (dataBuckets : gmap string Z) (row : BucketData)
    (start : option string) (st : Locals) : Step :=
  let start :=
    match start with
    | Some s => Some s
    | None => internalToExternalOpId <$> dataBuckets !! bucket_name row
    end in
  match start with
  | None => Throw (ServiceAssertionError "data for unexpected bucket" (bucket_name row)) st
  | Some start =>
      Continue (push_row row
                  {| bucket := bucket_name row; after := start; has_more := false;
                     chunk_data := []; next_after := start |}
                  None st)
  end.

(** The body of [for (const row of decodedRows)]. *)
Definition row_step (dataBuckets : gmap string Z) (chunkSizeLimitBytes batchRowLimit : Z)
    (row : BucketData) (st : Locals) : Step :=
  match currentChunk st with
  | None => open_chunk dataBuckets row None st
  | Some c =>
      if negb (bool_decide (bucket c = bucket_name row))
         || sizeExceeded chunkSizeLimitBytes batchRowLimit st row
      then
        let same := bool_decide (bucket c = bucket_name row) in
        let yieldChunk :=
          if same
          then {| bucket := bucket c; after := after c; has_more := true;
                  chunk_data := chunk_data c; next_after := next_after c |}
          else c in
        let start := if same then Some (next_after c) else None in
        let st := {| chunkSizeBytes := 0; currentChunk := None; current_targetOp := None;
                     batchRowCount := batchRowCount st;
                     yielded := yielded st
                                ++ [ {| chunkData := yieldChunk;
                                        targetOp := current_targetOp st |} ] |} in
        if batchRowLimit <=? batchRowCount st then Break st
        else open_chunk dataBuckets row start st
      else Continue (push_row row c (current_targetOp st) st)
  end.

(** The inner loop over one set of rows. *)
Fixpoint rows_loop (dataBuckets : gmap string Z) (chunkSizeLimitBytes batchRowLimit : Z)
    (rows : list BucketData) (st : Locals) : Step :=
  match rows with
  | [] => Continue st
  | row :: rows =>
      match row_step dataBuckets chunkSizeLimitBytes batchRowLimit row st with
      | Continue st => rows_loop dataBuckets chunkSizeLimitBytes batchRowLimit rows st
      | Break st => Break st
      | Throw e st => Throw e st
      end
  end.

(** The outer loop over the sets of rows that [db.streamRows] delivers; a
    [break] leaves only the inner loop. *)
Fixpoint stream_loop (dataBuckets : gmap string Z) (chunkSizeLimitBytes batchRowLimit : Z)
    (stream : list (list BucketData)) (st : Locals) : Locals + Error * Locals :=
  match stream with
  | [] => inl st
  | rows :: stream =>
      match rows_loop dataBuckets chunkSizeLimitBytes batchRowLimit rows st with
      | Continue st | Break st =>
          stream_loop dataBuckets chunkSizeLimitBytes batchRowLimit stream st
      | Throw e st => inr (e, st)
      end
  end.

(** [getBucketDataBatch(checkpoint, dataBuckets, options)]: the chunks
    yielded, and the error if the generator throws.  [stream] is what the
    query delivers; [batchRowLimit] and [chunkSizeLimitBytes] are the
    options with their defaults filled in. *)
Definition getBucketDataBatch (dataBuckets : gmap string Z)
    (chunkSizeLimitBytes batchRowLimit : Z) (stream : list (list BucketData))
  : list SyncBucketDataChunk * option Error :=
  if bool_decide (size dataBuckets = 0%nat) then ([], None)
  else
    match stream_loop dataBuckets chunkSizeLimitBytes batchRowLimit stream start_locals with
    | inr (e, st) => (yielded st, Some e)
    | inl st =>
        match currentChunk st with
        | Some c =>
            (yielded st
             ++ [ {| chunkData :=
                       {| bucket := bucket c; after := after c;
                          has_more := batchRowLimit <=? batchRowCount st;
                          chunk_data := chunk_data c; next_after := next_after c |};
                     targetOp := current_targetOp st |} ],
             None)
        | None => (yielded st, None)
        end
    end.

(** The largest [target_op] among rows, if any has one. *)
Definition max_target_op (rows : list BucketData) : option Z :=
  foldl (fun tgt row =>
           match target_op row with
           | Some t => match tgt with
                       | None => Some t
                       | Some t' => if t' <? t then Some t else Some t'
                       end
           | None => tgt
           end) None rows.

Definition total_size (rows : list BucketData) : Z :=
  foldr (fun row acc => rowSizeBytes row + acc) 0 rows.

(** A chunk made of the rows [group], as the next chunk after [previous]:
    it starts where the previous chunk of the same bucket stopped, or at the
    position asked for. *)
Definition chunk_of (dataBuckets : gmap string Z) (previous : option SyncBucketData)
    (group : list BucketData) (c : SyncBucketDataChunk) : Prop :=
  group ≠ []
  ∧ Forall (fun row => bucket_name row = bucket (chunkData c)) group
  ∧ chunk_data (chunkData c) = map entry_of group
  ∧ Some (next_after (chunkData c)) = entry_op_id <$> last (chunk_data (chunkData c))
  ∧ targetOp c = max_target_op group
  ∧ Some (after (chunkData c))
    = match previous with
      | Some p =>
          if bool_decide (bucket p = bucket (chunkData c)) then Some (next_after p)
          else internalToExternalOpId <$> dataBuckets !! bucket (chunkData c)
      | None => internalToExternalOpId <$> dataBuckets !! bucket (chunkData c)
      end
  ∧ match previous with
    | Some p => has_more p = bool_decide (bucket p = bucket (chunkData c))
    | None => True
    end.

(** The chunks are made of the consecutive [groups] of rows. *)
Fixpoint chunks_of (dataBuckets : gmap string Z) (previous : option SyncBucketData)
    (groups : list (list BucketData)) (chunks : list SyncBucketDataChunk) : Prop :=
  match groups, chunks with
  | [], [] => True
  | group :: groups, c :: chunks =>
      chunk_of dataBuckets previous group c
      ∧ chunks_of dataBuckets (Some (chunkData c)) groups chunks
  | _, _ => False
  end.

(** The limits that a group of rows put into one chunk respects: at most
    [batchRowLimit] rows (one row is always taken), and at most
    [chunkSizeLimitBytes] bytes unless it is a single row. *)
Definition within_limits (chunkSizeLimitBytes batchRowLimit : Z)
    (group : list BucketData) : Prop :=
  Z.of_nat (length group) <= Z.max 1 batchRowLimit
  ∧ (total_size group <= chunkSizeLimitBytes ∨ length group = 1%nat).

(** The state of the loop after the rows [done], none of which made it
    break: the chunks yielded and the open chunk are made of consecutive
    groups of these rows. *)
Definition loop_inv (dataBuckets : gmap string Z) (chunkSizeLimitBytes batchRowLimit : Z)
    (done : list BucketData) (st : Locals) : Prop :=
  batchRowCount st = Z.of_nat (length done)
  ∧ match currentChunk st with
    | None => done = [] ∧ yielded st = [] ∧ chunkSizeBytes st = 0
    | Some c =>
        ∃ groups group,
          done = concat groups ++ group
          ∧ chunks_of dataBuckets None (groups ++ [group])
              (yielded st ++ [ {| chunkData := c; targetOp := current_targetOp st |} ])
          ∧ has_more c = false
          ∧ chunkSizeBytes st = total_size group
          ∧ Forall (within_limits chunkSizeLimitBytes batchRowLimit) (groups ++ [group])
    end.

End Batch.

(** *** Three rows of bucket ["a[]"] and one of ["b[]"]

    An entry is known by its op id; a chunk may hold 10 bytes. *)
Definition row (name : string) (op : Z) (bytes : string) (target : option Z) : BucketData :=
  {| bucket_name := name; op_id := op; data := Some bytes; target_op := target;
     source_table := None; source_key := None |}.

Definition four_rows : list (list BucketData) :=
  [ [ row "a[]" 1 "123456" None; row "a[]" 2 "123456" (Some 7) ];
    [ row "a[]" 3 "12" None; row "b[]" 4 "1234567890123" None ] ].

Definition op_string (n : Z) : string :=
  match n with
  | 0 => "0" | 1 => "1" | 2 => "2" | 3 => "3" | 4 => "4" | _ => "?"
  end.

Definition positions_ab : gmap string Z := {[ "a[]" := 0; "b[]" := 0 ]}.

Definition four_rows_batch
  : list (@SyncBucketDataChunk Z) * option Error :=
  getBucketDataBatch (ReplicaId := string) op_id (fun _ e => e) op_string
    (fun t _ => t) (fun k => k) op_string positions_ab 10 1000 four_rows.

End PostgresBucketData.
(** ** PostgresSyncRulesStorage: watching checkpoints *)

Module PostgresCheckpoints.

(** [storage.ReplicationCheckpoint]. *)
Record ReplicationCheckpoint := {
  checkpoint : Z;
  lsn : option string
}.

Global Instance ReplicationCheckpoint_eq_dec : EqDecision ReplicationCheckpoint.
Proof. solve_decision. Defined.

(** [models.ActiveCheckpoint], decoded: a row of [sync_rules], or the
    [active_checkpoint] of a notification. *)
Record ActiveCheckpoint := {
  id : Z;
  last_checkpoint : option Z;
  last_checkpoint_lsn : option string
}.

(** [makeActiveCheckpoint(row)]. *)
Definition makeActiveCheckpoint (row : option ActiveCheckpoint) : ReplicationCheckpoint :=
  {| checkpoint := default 0 (row ≫= last_checkpoint);
     lsn := row ≫= last_checkpoint_lsn |}.

(** [storage.CheckpointChanges]; the storage only ever reports
    [CHECKPOINT_INVALIDATE_ALL]. *)
Inductive CheckpointChanges := CHECKPOINT_INVALIDATE_ALL.

(** [storage.StorageCheckpointUpdate]. *)
Record StorageCheckpointUpdate := {
  base : ReplicationCheckpoint;
  writeCheckpoint : option Z;
  update : CheckpointChanges
}.

(** *** watchCheckpointChanges *)

(** One item of the shared iterator, with what [lastWriteCheckpoint]
    answers for the user at that moment, given the [heads] asked for. *)
Record Arrival := {
  cp : ReplicationCheckpoint;
  lastWriteCheckpoint : gmap string string → option Z
}.

(** [lsn ? { 1: lsn } : {}]. *)
Definition lsnFilters (lsn : option string) : gmap string string :=
  match lsn with
  | Some l => if bool_decide (l = "") then ∅ else {[ "1" := l ]}
  | None => ∅
  end.

(** The [for await (const cp of iter)] loop, from the values that
    [lastCheckpoint] and [lastWriteCheckpoint] have. *)
Fixpoint watch_loop (lastCheckpoint lastWriteCheckpoint' : option Z)
    (arrivals : list Arrival) : list StorageCheckpointUpdate :=
  match arrivals with
  | [] => []
  | a :: arrivals =>
      let currentWriteCheckpoint := lastWriteCheckpoint a (lsnFilters (lsn (cp a))) in
      if bool_decide (currentWriteCheckpoint = lastWriteCheckpoint'
                      ∧ Some (checkpoint (cp a)) = lastCheckpoint)
      then watch_loop lastCheckpoint lastWriteCheckpoint' arrivals
      else {| base := cp a; writeCheckpoint := currentWriteCheckpoint;
              update := CHECKPOINT_INVALIDATE_ALL |}
           :: watch_loop (Some (checkpoint (cp a))) currentWriteCheckpoint arrivals
  end.

Definition watchCheckpointChanges (arrivals : list Arrival) : list StorageCheckpointUpdate :=
  watch_loop None None arrivals.

(** What an update tells the client: the op id and the write checkpoint. *)
Definition told (u : StorageCheckpointUpdate) : Z * option Z :=
  (checkpoint (base u), writeCheckpoint u).

(** What an arrival would tell. *)
Definition arrived (a : Arrival) : Z * option Z :=
  (checkpoint (cp a), lastWriteCheckpoint a (lsnFilters (lsn (cp a)))).

(** No two neighbours are equal. *)
Fixpoint changes {A} `{EqDecision A} (l : list A) : Prop :=
  match l with
  | x :: (y :: _) as l => x ≠ y ∧ changes l
  | _ => True
  end.

(** *** watchActiveCheckpoint *)

Inductive Error :=
| ServiceError (code : string) (message : string).

Definition PSYNC_S2302 : string := "PSYNC_S2302".

(** A payload taken from the sink: the decoded notification, and
    [signal.aborted] when it is taken. *)
Record Notification := {
  aborted : bool;
  active_checkpoint : option ActiveCheckpoint
}.

(** The [for await (const payload of sink.withSignal(signal))] loop. *)
Fixpoint notification_loop (doc_id : Z) (lastOp : option ReplicationCheckpoint)
    (notifications : list Notification) : list ReplicationCheckpoint :=
  match notifications with
  | [] => []
  | n :: notifications =>
      if aborted n then []
      else match active_checkpoint n with
           | None => notification_loop doc_id lastOp notifications
           | Some active =>
               if negb (bool_decide (id active = doc_id)) then []
               else
                 let activeCheckpoint := makeActiveCheckpoint (Some active) in
                 if bool_decide (lastOp = None)
                    || negb (bool_decide (Some (lsn activeCheckpoint) = lsn <$> lastOp))
                    || negb (bool_decide (Some (checkpoint activeCheckpoint)
                                          = checkpoint <$> lastOp))
                 then activeCheckpoint
                      :: notification_loop doc_id (Some activeCheckpoint) notifications
                 else notification_loop doc_id lastOp notifications
           end
  end.

(** [watchActiveCheckpoint(signal)]: [doc] is the first row of [sync_rules]
    in state ACTIVE or ERRORED that the query finds, if any. *)
Definition watchActiveCheckpoint (doc : option ActiveCheckpoint)
    (notifications : list Notification) : list ReplicationCheckpoint * option Error :=
  match doc with
  | None => ([], Some (ServiceError PSYNC_S2302 "No active sync rules available"))
  | Some d =>
      (makeActiveCheckpoint doc :: notification_loop (id d) None notifications, None)
  end.

(** The notifications that the loop handles: up to the first one taken
    after the abort or naming other sync rules. *)
Fixpoint handled (doc_id : Z) (notifications : list Notification) : list Notification :=
  match notifications with
  | [] => []
  | n :: notifications =>
      if aborted n then []
      else match active_checkpoint n with
           | Some active =>
               if bool_decide (id active = doc_id) then n :: handled doc_id notifications
               else []
           | None => n :: handled doc_id notifications
           end
  end.

(** The checkpoints announced by notifications. *)
Definition announced (notifications : list Notification) : list ReplicationCheckpoint :=
  omap (fun n => (fun a => makeActiveCheckpoint (Some a)) <$> active_checkpoint n)
       notifications.

(** *** Arrivals of one user *)

Definition at_checkpoint (op : Z) (l : option string) (write : option Z) : Arrival :=
  {| cp := {| checkpoint := op; lsn := l |}; lastWriteCheckpoint := fun _ => write |}.

Definition five_arrivals : list Arrival :=
  [ at_checkpoint 0 None None; at_checkpoint 0 (Some "0/1") None;
    at_checkpoint 3 (Some "0/2") None; at_checkpoint 3 (Some "0/3") (Some 1);
    at_checkpoint 3 (Some "0/4") (Some 1) ].

Definition rules_7 : ActiveCheckpoint :=
  {| id := 7; last_checkpoint := None; last_checkpoint_lsn := None |}.

Definition notify (rules op : Z) : Notification :=
  {| aborted := false;
     active_checkpoint := Some {| id := rules; last_checkpoint := Some op;
                                  last_checkpoint_lsn := Some "0/1" |} |}.

End PostgresCheckpoints.

(** ** Documents of the storage collections ([models.ts]) *)

Module models.

Inductive SyncRuleState := PROCESSING | ACTIVE | STOP | TERMINATED | ERRORED.

Global Instance SyncRuleState_eq_dec : EqDecision SyncRuleState.
Proof. solve_decision. Defined.

(** The fields of a [SyncRuleDocument] that the batch reads or writes.
    Dates are milliseconds. *)
Record SyncRuleDocument := {
  state : SyncRuleState;
  last_checkpoint : option Z;
  last_checkpoint_lsn : option string;
  last_checkpoint_ts : option Z;
  last_keepalive_ts : option Z;
  snapshot_done : bool;
  snapshot_lsn : option string;
  last_fatal_error : option string;
  keepalive_op : option Z;
  no_checkpoint_before : option string
}.

(** A document of [write_checkpoints]: ['lsns.1'] and [processed_at_lsn]. *)
Record WriteCheckpointDocument := {
  lsns_1 : option string;
  processed_at_lsn : option string
}.

Record CurrentBucket := {
  bucket : string;
  table : string;
  id : string
}.

End models.

(** ** MongoBucketBatch *)

Module MongoBucketBatch.

(** [MAX_ROW_SIZE]: 15MB. *)
Definition MAX_ROW_SIZE : Z := 15 * 1024 * 1024.

(** Errors that the batch writer raises or passes on.  A [DriverError] is
    whatever the named function of a library throws: for [bson.serialize], a
    BSONError, or a RangeError when the document does not fit its buffer. *)
Inductive Error :=
| ServiceError (code : string) (message : string)
| ReplicationAssertionError (message : string)
| TypeError
| DriverError (label : string).

(** [ErrorCode.PSYNC_S1002] (row too large) and [ErrorCode.PSYNC_S1402]
    (max transaction tries exceeded). *)
Definition PSYNC_S1002 : string := "PSYNC_S1002".
Definition PSYNC_S1402 : string := "PSYNC_S1402".

(** The outcome of a call: a returned value, a thrown error, or a loop of
    the model that ran out of fuel. *)
Inductive Outcome (A : Type) :=
| Returned (a : A)
| Threw (e : Error)
| OutOfFuel.
Arguments Returned {A} a.
Arguments Threw {A} e.
Arguments OutOfFuel {A}.

Inductive SaveOperationTag := INSERT | UPDATE | DELETE.

Record SourceTable := {
  table_id : string;
  qualifiedName : string;
  syncData : bool;
  syncParameters : bool
}.

(** [x == null]. *)
Definition is_null {A} (x : option A) : bool :=
  match x with None => true | Some _ => false end.

Section Batch.

(** Types and functions that the class imports from packages outside these
    sources: column values, replica ids, BSON binaries, the operation batch,
    the collections written by [PersistedBatch], sync-rule evaluation. *)
Context {Value ReplicaId Binary OperationBatch Store CustomWriteCheckpoint
         EvaluatedParameters : Type}.

(** A [ToastableSqliteRow]: the entries of the object, in order; [None] is
    [undefined]. *)
Definition Row : Type := list (string * option Value).

Record EvaluatedRow := {
  e_bucket : string;
  e_table : string;
  e_id : string;
  e_data : Row
}.

(** [bson.serialize]: [None] when it throws (the document is over 16MB). *)
Variable bson_serialize : Row → option Binary.
(** [Binary.length()]. *)
Variable binary_length : Binary → Z.
Variable deserializeBson : Binary → Row.
Variable mergeToast : Row → Row → Row.
Variable replicaIdEquals : option ReplicaId → option ReplicaId → bool.
(** JS truthiness of a replica id ([if (afterId)]). *)
Variable truthy : ReplicaId → bool.
Variable evaluateRowWithErrors : SourceTable → Row → list EvaluatedRow * list string.
Variable evaluateParameterRowWithErrors :
  SourceTable → Row → list EvaluatedParameters * list string.
Variable serializeLookup : EvaluatedParameters → Binary.

(** [replicateBatch] writes the operations of a batch through
    [PersistedBatch], drawing op ids from the sequence: it returns the batch
    to resume with, the advanced sequence and the collections, or throws. *)
Variable replicateBatch :
  OperationBatch → Z → Store → option (option OperationBatch * Z * Store).
Variable batchCreateCustomWriteCheckpoints :
  list CustomWriteCheckpoint → Z → Store → Store.

(** Modelled from the spec: [isCompleteRow] of service-core (imported, not
    among the sources).  A row is incomplete when some column is a TOAST-like
    placeholder ([undefined]); without [storeCurrentData] every row counts as
    complete. *)
Definition isCompleteRow (storeData : bool) (row : Row) : bool :=
  if storeData then forallb (fun kv => negb (is_null kv.2)) row else true.

Record SourceKey := {
  g : Z;
  t : string;
  k : option ReplicaId
}.

Record CurrentDataDocument := {
  _id : SourceKey;
  data : option Binary;
  buckets : list models.CurrentBucket;
  lookups : list Binary
}.

(** [storage.SaveOptions]. *)
Record SaveOptions := {
  tag : SaveOperationTag;
  sourceTable : SourceTable;
  before : option Row;
  after : option Row
}.

(** [RecordOperation]. *)
Record RecordOperation := {
  record : SaveOptions;
  beforeId : option ReplicaId;
  afterId : option ReplicaId
}.

(** What [saveOperation] does to its environment: calls on the
    [PersistedBatch], the telemetry reporter, the logger and the
    [markRecordUnavailable] callback. *)
Inductive ReportKind := DataTooBig (e : Error) | DataQueryFailed | ParameterQueryFailed.

Inductive Effect :=
| MarkRecordUnavailable (r : SaveOptions)
| LoggerWarn
| LoggerError
| CaptureMessage (kind : ReportKind) (table : string)
| SaveBucketData (sourceKey : option ReplicaId) (table : SourceTable)
    (before_buckets : list models.CurrentBucket) (evaluated : list EvaluatedRow)
| SaveParameterData (sourceKey : option ReplicaId) (table : SourceTable)
    (evaluated : list EvaluatedParameters) (existing_lookups : list Binary)
| UpsertCurrentData (key : SourceKey) (data : option Binary)
    (buckets : list models.CurrentBucket) (lookups : list Binary)
| DeleteCurrentData (key : SourceKey).

(** Effects so far, and how the computation ended. *)
Definition M (A : Type) : Type := list Effect * Outcome A.

Definition ret {A} (a : A) : M A := ([], Returned a).
Definition throw {A} (e : Error) : M A := ([], Threw e).
Definition emit (e : Effect) : M unit := ([e], Returned tt).
Definition bind {A B} (m : M A) (f : A → M B) : M B :=
  match m with
  | (l, Returned a) => let '(l', r) := f a in (l ++ l', r)
  | (l, Threw e) => (l, Threw e)
  | (l, OutOfFuel) => (l, OutOfFuel)
  end.
Definition when (b : bool) (m : M unit) : M unit := if b then m else ret tt.
Fixpoint for_each {A} (l : list A) (f : A → M unit) : M unit :=
  match l with
  | [] => ret tt
  | x :: l => bind (f x) (fun _ => for_each l f)
  end.

Local Instance M_ret : MRet M := @ret.
Local Instance M_bind : MBind M := fun A B f m => bind m f.

(** The fields of a [MongoBucketBatch] object.  [markRecordUnavailable] is
    whether the callback is set. *)
Record BatchObject := {
  group_id : Z;
  slot_name : string;
  storeCurrentData : bool;
  skipExistingRows : bool;
  markRecordUnavailable : bool;
  batch : option OperationBatch;
  write_checkpoint_batch : list CustomWriteCheckpoint;
  last_checkpoint_lsn : option string;
  no_checkpoint_before_lsn : string;
  persisted_op : option Z;
  last_flushed_op : option Z;
  needsActivation : bool;
  lastWaitingLogThottled : Z
}.

(** The placeholder row of the [catch] block: every key kept, every value
    [undefined]. *)
Definition placeholder (row : Row) : Row := map (fun kv => (kv.1, None)) row.

(** The [try] block: serialize [after], then check the size. *)
Definition try_serialize (after : option Row) : Outcome Binary :=
  match after with
  | None => Threw TypeError
  | Some row =>
      match bson_serialize row with
      | None => Threw (DriverError "bson.serialize")
      | Some afterData =>
          if MAX_ROW_SIZE <? binary_length afterData
          then Threw (ServiceError PSYNC_S1002 "Row too large")
          else Returned afterData
      end
  end.

(** The [try]/[catch] around the serialization of [after]: the serialized
    data and the row to continue with. *)
Definition serialize_after (table : SourceTable) (after : option Row)
  : M (option Binary * option Row) :=
  match try_serialize after with
  | Returned afterData => ret (Some afterData, after)
  | OutOfFuel => ([], OutOfFuel)
  | Threw e =>
      match after with
      | None => throw TypeError
      | Some row =>
          let row' := placeholder row in
          match bson_serialize row' with
          | None => throw (DriverError "bson.serialize")
          | Some afterData =>
              emit (CaptureMessage (DataTooBig e) (qualifiedName table));;
              ret (Some afterData, Some row')
          end
      end
  end.

(** The [skipExistingRows] guard: whether the operation is skipped. *)
Definition skip_existing (this : BatchObject) (record : SaveOptions)
    (current_data : option CurrentDataDocument) : M bool :=
  if skipExistingRows this then
    match tag record with
    | INSERT => ret (negb (is_null current_data))
    | _ => throw (ReplicationAssertionError "not supported with skipExistingRows: true")
    end
  else ret false.

(** The branches on [record.tag]: [existing_buckets], [existing_lookups] and
    [after], merged with the stored row on an UPDATE. *)
Definition existing_state (this : BatchObject) (record : SaveOptions)
    (current_data : option CurrentDataDocument)
  : M (list models.CurrentBucket * list Binary * option Row) :=
  let after := after record in
  match tag record with
  | UPDATE =>
      match current_data with
      | None =>
          when (negb (from_option (isCompleteRow (storeCurrentData this)) true after))
               (if markRecordUnavailable this
                then emit (MarkRecordUnavailable record) else emit LoggerWarn);;
          ret ([], [], after)
      | Some result =>
          if storeCurrentData this
          then match after, data result with
               | Some a, Some d =>
                   ret (buckets result, lookups result,
                        Some (mergeToast a (deserializeBson d)))
               | _, _ => throw TypeError
               end
          else ret (buckets result, lookups result, after)
      end
  | DELETE =>
      match current_data with
      | None =>
          when (storeCurrentData this && negb (markRecordUnavailable this))
               (emit LoggerWarn);;
          ret ([], [], after)
      | Some result => ret (buckets result, lookups result, after)
      end
  | INSERT => ret ([], [], after)
  end.

(** [afterData], and [after] as the [catch] block may have replaced it. *)
Definition after_data (this : BatchObject) (operation : RecordOperation)
    (after : option Row) : M (option Binary * option Row) :=
  match afterId operation with
  | None => ret (None, after)
  | Some _ =>
      if negb (storeCurrentData this)
      then match bson_serialize [] with
           | Some d => ret (Some d, after)
           | None => throw (DriverError "bson.serialize")
           end
      else serialize_after (sourceTable (record operation)) after
  end.

(** Steps 2 to 5: bucket data, parameters, current data. *)
Definition save_data (this : BatchObject) (operation : RecordOperation)
    (existing_buckets : list models.CurrentBucket) (existing_lookups : list Binary)
    (after : option Row) (afterData : option Binary) : M (option CurrentDataDocument) :=
  let beforeId := beforeId operation in
  let afterId := afterId operation in
  let sourceTable := sourceTable (record operation) in
  let before_key := {| g := group_id this; t := table_id sourceTable; k := beforeId |} in
  (* 2. Save bucket data *)
  let id_changed :=
    negb (is_null beforeId)
    && (is_null afterId || negb (replicaIdEquals beforeId afterId)) in
  when (id_changed && syncData sourceTable)
       (emit (SaveBucketData beforeId sourceTable existing_buckets []));;
  let existing_buckets :=
    if id_changed && syncData sourceTable then [] else existing_buckets in
  when (id_changed && syncParameters sourceTable)
       (emit (SaveParameterData beforeId sourceTable [] existing_lookups));;
  let existing_lookups :=
    if id_changed && syncParameters sourceTable then [] else existing_lookups in
  let afterId_truthy := from_option truthy false afterId in
  let complete :=
    afterId_truthy
    && from_option (isCompleteRow (storeCurrentData this)) false after in
  new_buckets ←
    (if complete && syncData sourceTable then
       let '(evaluated, syncErrors) :=
         evaluateRowWithErrors sourceTable (default [] after) in
       for_each syncErrors (fun _ =>
         emit (CaptureMessage DataQueryFailed (qualifiedName sourceTable));;
         emit LoggerError);;
       emit (SaveBucketData afterId sourceTable existing_buckets evaluated);;
       ret (map (fun e => {| models.bucket := e_bucket e; models.table := e_table e;
                             models.id := e_id e |}) evaluated)
     else ret []);
  new_lookups ←
    (if complete && syncParameters sourceTable then
       let '(paramEvaluated, paramErrors) :=
         evaluateParameterRowWithErrors sourceTable (default [] after) in
       for_each paramErrors (fun _ =>
         emit (CaptureMessage ParameterQueryFailed (qualifiedName sourceTable));;
         emit LoggerError);;
       emit (SaveParameterData afterId sourceTable paramEvaluated existing_lookups);;
       ret (map serializeLookup paramEvaluated)
     else ret []);
  (* 5. TOAST: Update current data and bucket list. *)
  result ←
    (if afterId_truthy then
       let after_key := {| g := group_id this; t := table_id sourceTable; k := afterId |} in
       emit (UpsertCurrentData after_key afterData new_buckets new_lookups);;
       ret (Some {| _id := after_key; data := afterData; buckets := new_buckets;
                    lookups := new_lookups |})
     else ret None);
  when (is_null afterId || negb (replicaIdEquals beforeId afterId))
       (emit (DeleteCurrentData before_key));;
  ret result.

Definition saveOperation (this : BatchObject) (operation : RecordOperation)
    (current_data : option CurrentDataDocument) : M (option CurrentDataDocument) :=
  skip ← skip_existing this (record operation) current_data;
  if skip : bool then ret None else
  '(existing_buckets, existing_lookups, after) ←
    existing_state this (record operation) current_data;
  '(afterData, after) ← after_data this operation after;
  save_data this operation existing_buckets existing_lookups after afterData.

(** The row that [saveOperation] serializes: [record.after], merged with the
    stored row on an UPDATE of a known row. *)
Definition merged_after (this : BatchObject) (operation : RecordOperation)
    (current_data : option CurrentDataDocument) : option Row :=
  match existing_state this (record operation) current_data with
  | (_, Returned (_, _, after)) => after
  | _ => None
  end.

(** A PUT is written by [saveBucketData] from a non-empty [evaluated]. *)
Definition writes_put (e : Effect) : Prop :=
  match e with
  | SaveBucketData _ _ _ evaluated => evaluated ≠ []
  | _ => False
  end.

Definition is_report (e : Effect) : Prop :=
  match e with CaptureMessage _ _ => True | _ => False end.

Global Instance is_report_dec (e : Effect) : Decision (is_report e).
Proof. destruct e; cbn; apply _. Defined.

(** Effects that are neither a telemetry report nor a PUT. *)
Definition quiet (e : Effect) : Prop := ¬ is_report e ∧ ¬ writes_put e.

(** *** flush, commit and keepalive *)

(** The collections of [PowerSyncMongo] that the batch touches.
    [sync_rules] is keyed by [_id]; [op_id_sequence] is the [op_id] of the
    document ['main']; [store] stands for the collections that
    [PersistedBatch] writes (bucket data, parameters, current data);
    [checkpoint_notifications] counts the calls of [notifyCheckpoint]. *)
Record PowerSyncMongo := {
  sync_rules : gmap Z models.SyncRuleDocument;
  op_id_sequence : option Z;
  write_checkpoints : list models.WriteCheckpointDocument;
  store : Store;
  checkpoint_notifications : nat
}.

(** JS [a < b] and [a <= b] on strings. *)
Definition str_lt (a b : string) : bool := String.ltb a b.
Definition str_le (a b : string) : bool := String.leb a b.

Definition notifyCheckpoint (db : PowerSyncMongo) : PowerSyncMongo :=
  {| sync_rules := sync_rules db; op_id_sequence := op_id_sequence db;
     write_checkpoints := write_checkpoints db; store := store db;
     checkpoint_notifications := S (checkpoint_notifications db) |}.

(** [db.sync_rules.updateOne({ _id }, update)]. *)
Definition update_sync_rules (_id : Z)
    (update : models.SyncRuleDocument → models.SyncRuleDocument)
    (db : PowerSyncMongo) : PowerSyncMongo :=
  {| sync_rules := alter update _id (sync_rules db);
     op_id_sequence := op_id_sequence db;
     write_checkpoints := write_checkpoints db; store := store db;
     checkpoint_notifications := checkpoint_notifications db |}.

Definition set_last_keepalive_ts (now : Z) (d : models.SyncRuleDocument)
  : models.SyncRuleDocument :=
  {| models.state := models.state d;
     models.last_checkpoint := models.last_checkpoint d;
     models.last_checkpoint_lsn := models.last_checkpoint_lsn d;
     models.last_checkpoint_ts := models.last_checkpoint_ts d;
     models.last_keepalive_ts := Some now;
     models.snapshot_done := models.snapshot_done d;
     models.snapshot_lsn := models.snapshot_lsn d;
     models.last_fatal_error := models.last_fatal_error d;
     models.keepalive_op := models.keepalive_op d;
     models.no_checkpoint_before := models.no_checkpoint_before d |}.

Definition set_keepalive_op (v : option Z) (d : models.SyncRuleDocument)
  : models.SyncRuleDocument :=
  {| models.state := models.state d;
     models.last_checkpoint := models.last_checkpoint d;
     models.last_checkpoint_lsn := models.last_checkpoint_lsn d;
     models.last_checkpoint_ts := models.last_checkpoint_ts d;
     models.last_keepalive_ts := models.last_keepalive_ts d;
     models.snapshot_done := models.snapshot_done d;
     models.snapshot_lsn := models.snapshot_lsn d;
     models.last_fatal_error := models.last_fatal_error d;
     models.keepalive_op := v;
     models.no_checkpoint_before := models.no_checkpoint_before d |}.

Definition set_state (v : models.SyncRuleState) (d : models.SyncRuleDocument)
  : models.SyncRuleDocument :=
  {| models.state := v;
     models.last_checkpoint := models.last_checkpoint d;
     models.last_checkpoint_lsn := models.last_checkpoint_lsn d;
     models.last_checkpoint_ts := models.last_checkpoint_ts d;
     models.last_keepalive_ts := models.last_keepalive_ts d;
     models.snapshot_done := models.snapshot_done d;
     models.snapshot_lsn := models.snapshot_lsn d;
     models.last_fatal_error := models.last_fatal_error d;
     models.keepalive_op := models.keepalive_op d;
     models.no_checkpoint_before := models.no_checkpoint_before d |}.

(** The [$set: update, $unset: { snapshot_lsn: 1 }] of [commit]. *)
Definition commit_update (lsn : string) (now : Z) (persisted_op : option Z)
    (d : models.SyncRuleDocument) : models.SyncRuleDocument :=
  {| models.state := models.state d;
     models.last_checkpoint :=
       match persisted_op with Some o => Some o | None => models.last_checkpoint d end;
     models.last_checkpoint_lsn := Some lsn;
     models.last_checkpoint_ts := Some now;
     models.last_keepalive_ts := Some now;
     models.snapshot_done := true;
     models.snapshot_lsn := None;
     models.last_fatal_error := None;
     models.keepalive_op := None;
     models.no_checkpoint_before := models.no_checkpoint_before d |}.

(** The [$set]/[$unset] of [keepalive]. *)
Definition keepalive_update (lsn : string) (now : Z)
    (d : models.SyncRuleDocument) : models.SyncRuleDocument :=
  {| models.state := models.state d;
     models.last_checkpoint := models.last_checkpoint d;
     models.last_checkpoint_lsn := Some lsn;
     models.last_checkpoint_ts := models.last_checkpoint_ts d;
     models.last_keepalive_ts := Some now;
     models.snapshot_done := true;
     models.snapshot_lsn := None;
     models.last_fatal_error := None;
     models.keepalive_op := models.keepalive_op d;
     models.no_checkpoint_before := models.no_checkpoint_before d |}.

(** [write_checkpoints.updateMany({ processed_at_lsn: null,
    'lsns.1': { $lte: lsn } }, { $set: { processed_at_lsn: lsn } })]. *)
Definition mark_processed (lsn : string) (db : PowerSyncMongo) : PowerSyncMongo :=
  {| sync_rules := sync_rules db; op_id_sequence := op_id_sequence db;
     write_checkpoints :=
       map (fun w =>
              match models.processed_at_lsn w, models.lsns_1 w with
              | None, Some l =>
                  if str_le l lsn
                  then {| models.lsns_1 := models.lsns_1 w;
                          models.processed_at_lsn := Some lsn |}
                  else w
              | _, _ => w
              end) (write_checkpoints db);
     store := store db;
     checkpoint_notifications := checkpoint_notifications db |}.

Definition with_batch (this : BatchObject) (b : option OperationBatch)
    (wcb : list CustomWriteCheckpoint) (persisted last_flushed : option Z) : BatchObject :=
  {| group_id := group_id this; slot_name := slot_name this;
     storeCurrentData := storeCurrentData this;
     skipExistingRows := skipExistingRows this;
     markRecordUnavailable := markRecordUnavailable this;
     batch := b; write_checkpoint_batch := wcb;
     last_checkpoint_lsn := last_checkpoint_lsn this;
     no_checkpoint_before_lsn := no_checkpoint_before_lsn this;
     persisted_op := persisted; last_flushed_op := last_flushed;
     needsActivation := needsActivation this;
     lastWaitingLogThottled := lastWaitingLogThottled this |}.

Definition with_checkpoint (this : BatchObject) (lsn : option string)
    (persisted : option Z) : BatchObject :=
  {| group_id := group_id this; slot_name := slot_name this;
     storeCurrentData := storeCurrentData this;
     skipExistingRows := skipExistingRows this;
     markRecordUnavailable := markRecordUnavailable this;
     batch := batch this; write_checkpoint_batch := write_checkpoint_batch this;
     last_checkpoint_lsn := lsn;
     no_checkpoint_before_lsn := no_checkpoint_before_lsn this;
     persisted_op := persisted; last_flushed_op := last_flushed_op this;
     needsActivation := needsActivation this;
     lastWaitingLogThottled := lastWaitingLogThottled this |}.

Definition with_needsActivation (this : BatchObject) (v : bool) : BatchObject :=
  {| group_id := group_id this; slot_name := slot_name this;
     storeCurrentData := storeCurrentData this;
     skipExistingRows := skipExistingRows this;
     markRecordUnavailable := markRecordUnavailable this;
     batch := batch this; write_checkpoint_batch := write_checkpoint_batch this;
     last_checkpoint_lsn := last_checkpoint_lsn this;
     no_checkpoint_before_lsn := no_checkpoint_before_lsn this;
     persisted_op := persisted_op this; last_flushed_op := last_flushed_op this;
     needsActivation := v;
     lastWaitingLogThottled := lastWaitingLogThottled this |}.

Definition with_lastWaitingLogThottled (this : BatchObject) (v : Z) : BatchObject :=
  {| group_id := group_id this; slot_name := slot_name this;
     storeCurrentData := storeCurrentData this;
     skipExistingRows := skipExistingRows this;
     markRecordUnavailable := markRecordUnavailable this;
     batch := batch this; write_checkpoint_batch := write_checkpoint_batch this;
     last_checkpoint_lsn := last_checkpoint_lsn this;
     no_checkpoint_before_lsn := no_checkpoint_before_lsn this;
     persisted_op := persisted_op this; last_flushed_op := last_flushed_op this;
     needsActivation := needsActivation this;
     lastWaitingLogThottled := v |}.

(** [flushInner]: one replication transaction, in the run where the
    transaction commits at its first try (the retries are
    [withReplicationTransaction] below).  The sequence is a
    [MongoIdSequence]: [next()] increments and returns, [last()] returns the
    current value.  An error thrown by the body aborts the transaction. *)
Definition flushInner (now : Z) (this : BatchObject) (db : PowerSyncMongo)
  : Outcome (Z * BatchObject * PowerSyncMongo) :=
  let opSeq := default 0 (op_id_sequence db) in
  let replicated :=
    match batch this with
    | Some b => replicateBatch b opSeq (store db)
    | None => Some (None, opSeq, store db)
    end in
  match replicated with
  | None => Threw (DriverError "replicateBatch")
  | Some (resumeBatch, opSeq, store1) =>
      let '(opSeq, store2) :=
        match write_checkpoint_batch this with
        | [] => (opSeq, store1)
        | wcb => (opSeq + 1, batchCreateCustomWriteCheckpoints wcb (opSeq + 1) store1)
        end in
      let last_op := opSeq in
      let db' :=
        {| sync_rules := alter (set_last_keepalive_ts now) (group_id this) (sync_rules db);
           op_id_sequence := Some last_op;
           write_checkpoints := write_checkpoints db;
           store := store2;
           checkpoint_notifications := checkpoint_notifications db |} in
      Returned (last_op, with_batch this resumeBatch [] (Some last_op) (Some last_op), db')
  end.

(** [flush]: [flushInner] until nothing is left to write. *)
Fixpoint flush_loop (fuel : nat) (now : Z) (result : option Z)
    (this : BatchObject) (db : PowerSyncMongo)
  : Outcome (option Z * BatchObject * PowerSyncMongo) :=
  if negb (is_null (batch this)) || negb (bool_decide (write_checkpoint_batch this = []))
  then match fuel with
       | O => OutOfFuel
       | S fuel =>
           match flushInner now this db with
           | Returned (r, this', db') => flush_loop fuel now (Some r) this' db'
           | Threw e => Threw e
           | OutOfFuel => OutOfFuel
           end
       end
  else Returned (result, this, db).

Definition flush (fuel : nat) (now : Z) (this : BatchObject) (db : PowerSyncMongo)
  : Outcome (option Z * BatchObject * PowerSyncMongo) :=
  flush_loop fuel now None this db.

(** [autoActivate]: switch from processing to active if relevant. *)
Definition autoActivate (this : BatchObject) (db : PowerSyncMongo)
  : BatchObject * PowerSyncMongo :=
  if negb (needsActivation this) then (this, db)
  else
    let activated :=
      match sync_rules db !! group_id this with
      | Some doc => bool_decide (models.state doc = models.PROCESSING)
      | None => false
      end in
    let db' :=
      if activated then
        notifyCheckpoint
          {| sync_rules :=
               map_imap (fun i d =>
                 if bool_decide (i = group_id this) then Some (set_state models.ACTIVE d)
                 else if bool_decide (models.state d = models.ACTIVE)
                         || bool_decide (models.state d = models.ERRORED)
                      then Some (set_state models.STOP d)
                      else Some d) (sync_rules db);
             op_id_sequence := op_id_sequence db;
             write_checkpoints := write_checkpoints db;
             store := store db;
             checkpoint_notifications := checkpoint_notifications db |}
      else db in
    (with_needsActivation this false, db').

(** [commit(lsn, options)], with [createEmptyCheckpoints] as resolved from
    the options and their defaults. *)
Definition commit (fuel : nat) (now : Z) (lsn : string) (createEmptyCheckpoints : bool)
    (this : BatchObject) (db : PowerSyncMongo)
  : Outcome (bool * BatchObject * PowerSyncMongo) :=
  match flush fuel now this db with
  | Threw e => Threw e
  | OutOfFuel => OutOfFuel
  | Returned (_, this, db) =>
      if negb (is_null (last_checkpoint_lsn this))
         && from_option (str_lt lsn) false (last_checkpoint_lsn this)
      then
        (* Cannot create a checkpoint yet - return false *)
        Returned (false, this, db)
      else if str_lt lsn (no_checkpoint_before_lsn this)
      then
        let this :=
          if 5000 <? now - lastWaitingLogThottled this
          then with_lastWaitingLogThottled this now else this in
        let db := update_sync_rules (group_id this)
                    (set_keepalive_op (persisted_op this)) db in
        Returned (false, this, notifyCheckpoint db)
      else if negb createEmptyCheckpoints && is_null (persisted_op this)
      then
        let '(this, db) := autoActivate this db in
        Returned (true, this, db)
      else
        let db := mark_processed lsn db in
        let db := update_sync_rules (group_id this)
                    (commit_update lsn now (persisted_op this)) db in
        let '(this, db) := autoActivate this db in
        let db := notifyCheckpoint db in
        Returned (true, with_checkpoint this (Some lsn) None, db)
  end.

(** [DEFAULT_BUCKET_BATCH_COMMIT_OPTIONS.createEmptyCheckpoints], used by the
    [commit(lsn)] call of [keepalive]. *)
Variable DEFAULT_createEmptyCheckpoints : bool.

Definition keepalive (fuel : nat) (now : Z) (lsn : string)
    (this : BatchObject) (db : PowerSyncMongo)
  : Outcome (bool * BatchObject * PowerSyncMongo) :=
  if negb (is_null (last_checkpoint_lsn this))
     && from_option (str_le lsn) false (last_checkpoint_lsn this)
  then Returned (false, this, db)
  else if str_lt lsn (no_checkpoint_before_lsn this)
  then Returned (false, this, db)
  else if negb (is_null (persisted_op this))
  then commit fuel now lsn DEFAULT_createEmptyCheckpoints this db
  else
    let db := mark_processed lsn db in
    let db := update_sync_rules (group_id this) (keepalive_update lsn now) db in
    let '(this, db) := autoActivate this db in
    let db := notifyCheckpoint db in
    Returned (true, with_checkpoint this (Some lsn) (persisted_op this), db).

(** The checkpoint state stored for the sync rules of the batch: everything
    in the document except the keepalive timestamp. *)
Definition checkpoint_state (d : models.SyncRuleDocument)
  : models.SyncRuleState * option Z * option string * option Z * bool
    * option string * option string * option Z * option string :=
  (models.state d, models.last_checkpoint d, models.last_checkpoint_lsn d,
   models.last_checkpoint_ts d, models.snapshot_done d, models.snapshot_lsn d,
   models.last_fatal_error d, models.keepalive_op d, models.no_checkpoint_before d).

(** What a flush leaves alone: the checkpoint LSN of the batch, the
    checkpoint state of every sync-rules document, the write checkpoints and
    the checkpoint notifications. *)
Definition flush_frame (this this' : BatchObject) (db db' : PowerSyncMongo) : Prop :=
  last_checkpoint_lsn this' = last_checkpoint_lsn this
  ∧ no_checkpoint_before_lsn this' = no_checkpoint_before_lsn this
  ∧ group_id this' = group_id this
  ∧ (∀ i, checkpoint_state <$> sync_rules db' !! i = checkpoint_state <$> sync_rules db !! i)
  ∧ write_checkpoints db' = write_checkpoints db
  ∧ checkpoint_notifications db' = checkpoint_notifications db.

(** *** withReplicationTransaction *)

(** What the environment answers to one run of the transaction body: the
    transaction commits, fails with a transient conflict (the driver runs the
    callback again), or fails with another error. *)
Inductive AttemptOutcome :=
| Committed
| TransientTransactionError
| Failed (e : Error).

(** How [withReplicationTransaction] ends, with the value of [flushTry]:
    it returns, throws, or is still retrying when the recorded attempts end. *)
Inductive TransactionResult :=
| TxReturned (flushTry : Z)
| TxThrew (e : Error) (flushTry : Z)
| TxRetrying (flushTry : Z).

(** The callback given to [withTransaction], run once per attempt.  Each
    attempt comes with the value of [Date.now()] when it starts.  The
    [ServiceError] carries no transient label, so the driver passes it on. *)
Fixpoint transaction_tries (lastTry : Z) (flushTry : Z)
    (attempts : list (Z * AttemptOutcome)) : TransactionResult :=
  match attempts with
  | [] => TxRetrying flushTry
  | (now, outcome) :: attempts =>
      let flushTry := flushTry + 1 in
      if (20 <? flushTry) && (lastTry <? now)
      then TxThrew (ServiceError PSYNC_S1402 "Max transaction tries exceeded") flushTry
      else match outcome with
           | Committed => TxReturned flushTry
           | TransientTransactionError => transaction_tries lastTry flushTry attempts
           | Failed e => TxThrew e flushTry
           end
  end.

Definition withReplicationTransaction (start : Z) (attempts : list (Z * AttemptOutcome))
  : TransactionResult :=
  let flushTry := 0 in
  let lastTry := start + 90000 in
  transaction_tries lastTry flushTry attempts.

(** The condition of the [if] for try number [n] (from 1) that starts at
    [now]: [flushTry > 20 && Date.now() > lastTry]. *)
Definition refused (start : Z) (n : Z) (now : Z) : Prop :=
  20 < n ∧ start + 90000 < now.

(** The time at which try [n] (counted from 1) starts. *)
Definition try_time (attempts : list (Z * AttemptOutcome)) (n : Z) : option Z :=
  fst <$> attempts !! Z.to_nat (n - 1).

(** How a run of conflicting tries goes: it ends with PSYNC_S1402 at the
    first try that is both past the 20th and later than 90 seconds after the
    start, every earlier try having run; or every try so far has run. *)
Definition retried_until_refused (start : Z) (attempts : list (Z * AttemptOutcome))
  : Prop :=
  match withReplicationTransaction start attempts with
  | TxThrew e n =>
      e = ServiceError PSYNC_S1402 "Max transaction tries exceeded"
      ∧ 0 < n <= Z.of_nat (length attempts)
      ∧ (∃ now, try_time attempts n = Some now ∧ refused start n now)
      ∧ (∀ m now, 0 < m < n → try_time attempts m = Some now → ¬ refused start m now)
  | TxRetrying n =>
      n = Z.of_nat (length attempts)
      ∧ (∀ m now, 0 < m <= n → try_time attempts m = Some now → ¬ refused start m now)
  | TxReturned _ => False
  end.

(** Twenty-five conflicts, one every 4.2 seconds from the start at time
    1000: tries 1 to 20 run, as do tries 21 and 22 at 84 and 88.2 seconds;
    try 23, at 92.4 seconds, is refused. *)
Definition conflicts_every_4s : list (Z * AttemptOutcome) :=
  map (fun i => (1000 + 4200 * Z.of_nat i, TransientTransactionError)) (seq 0 25).

(** Three hundred conflicts one millisecond apart, and twenty conflicts one
    hour apart, from the start at time 0. *)
Definition conflicts_every_ms : list (Z * AttemptOutcome) :=
  map (fun i => (Z.of_nat i, TransientTransactionError)) (seq 0 300).

Definition conflicts_every_hour : list (Z * AttemptOutcome) :=
  map (fun i => (3600000 * Z.of_nat i, TransientTransactionError)) (seq 0 20).

End Batch.

(** *** A batch resumed at checkpoint LSN 5

    An instance for examples: an operation batch is the list of the op
    checksums it will write, the store is the list of ops written, and
    [replicateBatch] appends one op per buffered operation. *)

Definition append_ops (b : list Z) (opSeq : Z) (st : list Z)
  : option (option (list Z) * Z * list Z) :=
  Some (None, opSeq + Z.of_nat (length b), st ++ b).

Definition keep_store (wcb : list unit) (opSeq : Z) (st : list Z) : list Z := st.

Definition doc_at_5 : models.SyncRuleDocument :=
  {| models.state := models.ACTIVE;
     models.last_checkpoint := Some 5;
     models.last_checkpoint_lsn := Some "0000000000000005";
     models.last_checkpoint_ts := Some 100;
     models.last_keepalive_ts := Some 100;
     models.snapshot_done := true;
     models.snapshot_lsn := None;
     models.last_fatal_error := None;
     models.keepalive_op := None;
     models.no_checkpoint_before := Some "0000000000000001" |}.

Definition batch_at_5 (buffered : option (list Z)) (persisted : option Z)
  : @BatchObject (list Z) unit :=
  {| group_id := 1; slot_name := "powersync_1"; storeCurrentData := true;
     skipExistingRows := false; markRecordUnavailable := false;
     batch := buffered; write_checkpoint_batch := [];
     last_checkpoint_lsn := Some "0000000000000005";
     no_checkpoint_before_lsn := "0000000000000001";
     persisted_op := persisted; last_flushed_op := None;
     needsActivation := false; lastWaitingLogThottled := 0 |}.

Definition batch_no_current_data : @BatchObject (list Z) unit :=
  {| group_id := 1; slot_name := "powersync_1"; storeCurrentData := false;
     skipExistingRows := false; markRecordUnavailable := false;
     batch := None; write_checkpoint_batch := [];
     last_checkpoint_lsn := None;
     no_checkpoint_before_lsn := "0000000000000001";
     persisted_op := None; last_flushed_op := None;
     needsActivation := false; lastWaitingLogThottled := 0 |}.

Definition db_at_5 : @PowerSyncMongo (list Z) :=
  {| sync_rules := {[ 1 := doc_at_5 ]};
     op_id_sequence := Some 7;
     write_checkpoints := [];
     store := [];
     checkpoint_notifications := 0 |}.

(** *** Rows with known sizes

    An instance for examples: a column value is a binary of the given number
    of bytes, a serialized document is known by its length, and the length is
    that of the BSON encoding (an int32 size, the elements and a final NUL;
    an element is a type byte, the key with its NUL and the value: an int32
    length, a subtype byte and the bytes for a binary).  A column that is
    [undefined] is left out, so the placeholder row is the empty document of
    5 bytes.  [bson.serialize] throws when the document does not fit its
    buffer of 17 MiB. *)

Definition bson_size (row : @Row Z) : Z :=
  5 + foldr (fun kv acc =>
               match kv.2 with
               | Some n => 2 + Z.of_nat (String.length kv.1) + 5 + n
               | None => 0
               end + acc) 0 row.

Definition serialize_sized (row : @Row Z) : option Z :=
  if 17 * 1024 * 1024 <? bson_size row then None else Some (bson_size row).

Definition id_equals (a b : option string) : bool := bool_decide (a = b).

Definition non_empty (s : string) : bool := negb (bool_decide (s = "")).

Definition evaluate_global (tbl : SourceTable) (row : @Row Z)
  : list (@EvaluatedRow Z) * list string :=
  ([ {| e_bucket := "global[]"; e_table := qualifiedName tbl; e_id := "u1";
        e_data := row |} ], []).

Definition no_parameters (tbl : SourceTable) (row : @Row Z) : list unit * list string :=
  ([], []).

Definition users : SourceTable :=
  {| table_id := "t1"; qualifiedName := "public.users"; syncData := true;
     syncParameters := false |}.

(** An INSERT of a row ["u1"] with a binary column of [n] bytes. *)
Definition insert_blob (n : Z) : @RecordOperation Z string :=
  {| record := {| tag := INSERT; sourceTable := users; before := None;
                  after := Some [("id", Some 4); ("blob", Some n)] |};
     beforeId := Some "u1";
     afterId := Some "u1" |}.

(** The error with which the [try] block rejects a row that is not
    serialized within [MAX_ROW_SIZE]: PSYNC_S1002 when [bson.serialize]
    returns, the error of [bson.serialize] when it throws. *)
Definition rejection {Value Binary : Type} (bson_serialize : @Row Value → option Binary)
    (row : @Row Value) : Error :=
  match bson_serialize row with
  | Some _ => ServiceError PSYNC_S1002 "Row too large"
  | None => DriverError "bson.serialize"
  end.

Definition save_sized (this : @BatchObject (list Z) unit)
    (operation : @RecordOperation Z string)
    (current_data : option (@CurrentDataDocument string Z))
  : @M Z string Z unit (option (@CurrentDataDocument string Z)) :=
  saveOperation serialize_sized id (fun _ => []) (fun a _ => a) id_equals non_empty
    evaluate_global no_parameters (fun _ => 0) this operation current_data.

(** *** What saveOperation writes *)

(** The [current_data] documents upserted, the keys deleted, and the calls
    of [saveBucketData] among the effects of a call. *)
Definition upserts {Value ReplicaId Binary EvaluatedParameters : Type}
    (l : list (@Effect Value ReplicaId Binary EvaluatedParameters))
  : list (@CurrentDataDocument ReplicaId Binary) :=
  omap (fun e => match e with
                 | UpsertCurrentData key d b lk =>
                     Some {| _id := key; data := d; buckets := b; lookups := lk |}
                 | _ => None
                 end) l.

Definition deletes {Value ReplicaId Binary EvaluatedParameters : Type}
    (l : list (@Effect Value ReplicaId Binary EvaluatedParameters))
  : list (@SourceKey ReplicaId) :=
  omap (fun e => match e with DeleteCurrentData key => Some key | _ => None end) l.

Definition bucket_writes {Value ReplicaId Binary EvaluatedParameters : Type}
    (l : list (@Effect Value ReplicaId Binary EvaluatedParameters))
  : list (option ReplicaId * list models.CurrentBucket * list (@EvaluatedRow Value)) :=
  omap (fun e => match e with
                 | SaveBucketData key _ before evaluated => Some (key, before, evaluated)
                 | _ => None
                 end) l.

Definition parameter_writes {Value ReplicaId Binary EvaluatedParameters : Type}
    (l : list (@Effect Value ReplicaId Binary EvaluatedParameters))
  : list (option ReplicaId * list EvaluatedParameters * list Binary) :=
  omap (fun e => match e with
                 | SaveParameterData key _ evaluated existing => Some (key, evaluated, existing)
                 | _ => None
                 end) l.

(** The replica id of the row changed or the row is gone: there is a before
    id, and the after id is missing or differs from it. *)
Definition id_changed {Value ReplicaId : Type}
    (replicaIdEquals : option ReplicaId → option ReplicaId → bool)
    (operation : @RecordOperation Value ReplicaId) : bool :=
  negb (is_null (beforeId operation))
  && (is_null (afterId operation)
      || negb (replicaIdEquals (beforeId operation) (afterId operation))).

(** The before key is left behind: the row is deleted or has a new id. *)
Definition leaves_before_key {Value ReplicaId : Type}
    (replicaIdEquals : option ReplicaId → option ReplicaId → bool)
    (operation : @RecordOperation Value ReplicaId) : bool :=
  is_null (afterId operation)
  || negb (replicaIdEquals (beforeId operation) (afterId operation)).

(** A report that a row was too big. *)
Definition is_too_big {Value ReplicaId Binary EvaluatedParameters : Type}
    (e : @Effect Value ReplicaId Binary EvaluatedParameters) : Prop :=
  match e with CaptureMessage (DataTooBig _) _ => True | _ => False end.

(** The row ["u1"] of [users] as stored, in bucket ["global[]"], and an
    UPDATE that moves it to the replica id ["u2"]. *)
Definition stored_u1 : @CurrentDataDocument string Z :=
  {| _id := {| g := 1; t := "t1"; k := Some "u1" |};
     data := Some 23;
     buckets := [ {| models.bucket := "global[]"; models.table := "public.users";
                     models.id := "u1" |} ];
     lookups := [] |}.

Definition rekey_u1 : @RecordOperation Z string :=
  {| record := {| tag := UPDATE; sourceTable := users; before := None;
                  after := Some [("id", Some 4)] |};
     beforeId := Some "u1";
     afterId := Some "u2" |}.

Definition delete_u1 : @RecordOperation Z string :=
  {| record := {| tag := DELETE; sourceTable := users; before := None; after := None |};
     beforeId := Some "u1";
     afterId := None |}.

Definition batch_initial : @BatchObject (list Z) unit :=
  {| group_id := 1; slot_name := "powersync_1"; storeCurrentData := true;
     skipExistingRows := true; markRecordUnavailable := false;
     batch := None; write_checkpoint_batch := [];
     last_checkpoint_lsn := None;
     no_checkpoint_before_lsn := "0000000000000001";
     persisted_op := None; last_flushed_op := None;
     needsActivation := true; lastWaitingLogThottled := 0 |}.

(** *** What the batch and the stored sync rules agree on *)

(** The sync-rules document of the batch stores the checkpoint LSN that the
    batch holds in [last_checkpoint_lsn]. *)
Definition lsn_in_sync {OperationBatch Store CustomWriteCheckpoint : Type}
    (this : @BatchObject OperationBatch CustomWriteCheckpoint)
    (db : @PowerSyncMongo Store) : Prop :=
  models.last_checkpoint_lsn <$> sync_rules db !! group_id this
  = Some (last_checkpoint_lsn this).

(** The sync rules that serve clients: the documents in state ACTIVE or
    ERRORED. *)
Definition serving {Store : Type} (db : @PowerSyncMongo Store) : gmap Z models.SyncRuleDocument :=
  filter (fun kv => models.state kv.2 = models.ACTIVE ∨ models.state kv.2 = models.ERRORED)
         (sync_rules db).

(** Everything in a sync-rules document except [state]. *)
Definition without_state (d : models.SyncRuleDocument)
  : option Z * option string * option Z * option Z * bool
    * option string * option string * option Z * option string :=
  (models.last_checkpoint d, models.last_checkpoint_lsn d, models.last_checkpoint_ts d,
   models.last_keepalive_ts d, models.snapshot_done d, models.snapshot_lsn d,
   models.last_fatal_error d, models.keepalive_op d, models.no_checkpoint_before d).

(** A batch with op 9 persisted that waits for LSN 8 before its first
    checkpoint, and its sync rules, still PROCESSING, next to the active
    sync rules 1. *)
Definition doc_processing : models.SyncRuleDocument :=
  {| models.state := models.PROCESSING;
     models.last_checkpoint := None;
     models.last_checkpoint_lsn := None;
     models.last_checkpoint_ts := None;
     models.last_keepalive_ts := Some 100;
     models.snapshot_done := false;
     models.snapshot_lsn := Some "0000000000000003";
     models.last_fatal_error := None;
     models.keepalive_op := None;
     models.no_checkpoint_before := Some "0000000000000008" |}.

Definition batch_snapshot : @BatchObject (list Z) unit :=
  {| group_id := 2; slot_name := "powersync_2"; storeCurrentData := true;
     skipExistingRows := false; markRecordUnavailable := false;
     batch := None; write_checkpoint_batch := [];
     last_checkpoint_lsn := None;
     no_checkpoint_before_lsn := "0000000000000008";
     persisted_op := Some 9; last_flushed_op := Some 9;
     needsActivation := true; lastWaitingLogThottled := 0 |}.

Definition db_snapshot : @PowerSyncMongo (list Z) :=
  {| sync_rules := {[ 1 := doc_at_5; 2 := doc_processing ]};
     op_id_sequence := Some 9;
     write_checkpoints := [];
     store := [];
     checkpoint_notifications := 0 |}.

End MongoBucketBatch.

(** ** The sync stream ([sync.ts]) *)

Module sync.

(** [BucketDescription]. *)
Record BucketDescription := {
  bucket : string;
  priority : Z
}.

(** [util.SyncBucketData]; the operations of [data] are known by their op
    ids. *)
Record SyncBucketData := {
  data_bucket : string;
  data : list Z;
  has_more : bool;
  after : Z;
  next_after : Z
}.

(** How [send_data] is encoded. *)
Inductive Encoding := BinaryObject | RawJson | LegacyJson.

(** The lines that the stream yields. *)
Inductive Line :=
| SyncData (encoding : Encoding) (r : SyncBucketData)
| Null
| PartialCheckpointComplete (last_op_id : Z) (for_priority : Z)
| CheckpointComplete (last_op_id : Z).

(** [BucketDataBatchResult]. *)
Record BucketDataBatchResult := {
  done : bool;
  line : Line
}.

(** One item of [storage.getBucketDataBatch], with the state of the two
    abort signals around it: [abort_connection.aborted] when the item
    arrives, [abort_batch.aborted] after the item was sent. *)
Record Chunk := {
  batch : SyncBucketData;
  targetOp : option Z;
  connection_aborted : bool;
  batch_aborted : bool
}.

(** Calls that [bucketDataBatch] makes besides yielding. *)
Inductive Call :=
| onRowsSent (amount : Z)
| updateState (bucket : string) (next_after : Z).

(** The part of a [BucketDataRequest] that decides what is yielded. *)
Record BucketDataRequest := {
  checkpoint : Z;
  bucketsToFetch : list BucketDescription;
  raw_data : bool;
  binary_data : bool;
  forPriority : option Z
}.

Section BucketData.

(** [send_data.length] of an encoded line ([undefined] for the object sent
    with [binary_data]). *)
Variable encoded_length : Encoding → SyncBucketData → option Z.

Definition encoding_of (request : BucketDataRequest) : Encoding :=
  if binary_data request then BinaryObject
  else if raw_data request then RawJson else LegacyJson.

(** The local variables at the end of the [for await] loop, and whether the
    loop left the function through [return]. *)
Record LoopEnd := {
  yielded : list BucketDataBatchResult;
  calls : list Call;
  loop_has_more : bool;
  checkpointInvalidated : bool;
  returned : bool
}.

Definition invalidates (checkpointOp : Z) (c : Chunk) : bool :=
  match targetOp c with
  | Some t => checkpointOp <? t
  | None => false
  end.

(** The [for await (let { batch: r, targetOp } of data)] loop. *)
Fixpoint bucketDataLoop (request : BucketDataRequest) (chunks : list Chunk)
    (more invalidated : bool) : LoopEnd :=
  match chunks with
  | [] => {| yielded := []; calls := []; loop_has_more := more;
             checkpointInvalidated := invalidated; returned := false |}
  | c :: chunks =>
      if connection_aborted c
      then {| yielded := []; calls := []; loop_has_more := more;
              checkpointInvalidated := invalidated; returned := true |}
      else
        let r := batch c in
        let more := if has_more r then true else more in
        let invalidated :=
          if invalidates (checkpoint request) c then true else invalidated in
        if bool_decide (length (data r) = 0%nat)
        then bucketDataLoop request chunks more invalidated
        else
          let encoding := encoding_of request in
          let sent :=
            {| done := false; line := SyncData encoding r |}
            :: match encoded_length encoding r with
               | Some n => if 50000 <? n then [ {| done := false; line := Null |} ] else []
               | None => []
               end in
          let called := [ onRowsSent (Z.of_nat (length (data r)));
                          updateState (data_bucket r) (next_after r) ] in
          let rest :=
            if batch_aborted c
            then {| yielded := []; calls := []; loop_has_more := more;
                    checkpointInvalidated := invalidated; returned := false |}
            else bucketDataLoop request chunks more invalidated in
          {| yielded := sent ++ yielded rest;
             calls := called ++ calls rest;
             loop_has_more := loop_has_more rest;
             checkpointInvalidated := checkpointInvalidated rest;
             returned := returned rest |}
  end.

(** What follows the loop when no bucket has more data. *)
Definition completion (request : BucketDataRequest) (invalidated : bool)
  : BucketDataBatchResult :=
  if invalidated
  then {| done := true; line := Null |}
  else match forPriority request with
       | Some p => {| done := true;
                      line := PartialCheckpointComplete (checkpoint request) p |}
       | None => {| done := true; line := CheckpointComplete (checkpoint request) |}
       end.

(** [bucketDataBatch]: [acquired] is whether the semaphore was acquired
    (rather than the wait being aborted); [chunks] is what storage
    delivers. *)
Definition bucketDataBatch (request : BucketDataRequest) (acquired : bool)
    (chunks : list Chunk) : list BucketDataBatchResult * list Call :=
  if negb acquired then ([], [])
  else
    let e := bucketDataLoop request chunks false false in
    if returned e then (yielded e, calls e)
    else if negb (loop_has_more e)
    then (yielded e ++ [completion request (checkpointInvalidated e)], calls e)
    else (yielded e, calls e).

(** The chunks that the loop takes from storage: up to and including the
    one at which it returns or breaks. *)
Fixpoint received (chunks : list Chunk) : list Chunk :=
  match chunks with
  | [] => []
  | c :: chunks =>
      c :: if connection_aborted c then []
           else if negb (bool_decide (length (data (batch c)) = 0%nat)) && batch_aborted c
                then [] else received chunks
  end.

Definition is_completion_line (r : BucketDataBatchResult) : bool :=
  match line r with
  | PartialCheckpointComplete _ _ | CheckpointComplete _ => true
  | _ => false
  end.

(** A result yielded inside the loop is a data line or a null line, never
    [done]. *)
Definition in_loop (r : BucketDataBatchResult) : Prop :=
  done r = false ∧ is_completion_line r = false.

(** One run of [bucketDataBatch] as the environment answers it. *)
Record BatchRun := {
  acquired : bool;
  chunks : list Chunk
}.

(** [bucketDataInBatches]: run [bucketDataBatch] until a result is [done] or
    the connection is aborted.  [runs] are the answers of the environment to
    the successive runs, each with [abort_connection.aborted] at the head of
    the [while] loop; the lines yielded are the [data] of the results. *)
Fixpoint bucketDataInBatches (request : BucketDataRequest)
    (runs : list (bool * BatchRun)) : list Line :=
  match runs with
  | [] => []
  | (connection_aborted, run) :: runs =>
      if connection_aborted then []
      else
        let results := (bucketDataBatch request (acquired run) (chunks run)).1 in
        map line results
        ++ if existsb done results then [] else bucketDataInBatches request runs
  end.

(** [Map.groupBy(bucketsToFetch, (bucket) => bucket.priority)]: the groups in
    the order in which their keys first occur. *)
Fixpoint group_insert (b : BucketDescription)
    (groups : list (Z * list BucketDescription)) : list (Z * list BucketDescription) :=
  match groups with
  | [] => [(priority b, [b])]
  | (p, bs) :: groups =>
      if bool_decide (p = priority b) then (p, bs ++ [b]) :: groups
      else (p, bs) :: group_insert b groups
  end.

Definition groupBy (l : list BucketDescription) : list (Z * list BucketDescription) :=
  foldl (fun groups b => group_insert b groups) [] l.

(** [Array.prototype.sort(compare)], a stable sort: [a] goes before [b] when
    [compare(a, b) <= 0]. *)
Fixpoint sort_insert {A} (compare : A → A → Z) (x : A) (l : list A) : list A :=
  match l with
  | [] => [x]
  | y :: l' => if compare x y <=? 0 then x :: l else y :: sort_insert compare x l'
  end.

Definition sort {A} (compare : A → A → Z) (l : list A) : list A :=
  foldr (sort_insert compare) [] l.

(** [bucketsByPriority], sorted with [(a, b) => b[0] - a[0]]. *)
Definition bucketsByPriority (bucketsToFetch : list BucketDescription)
  : list (Z * list BucketDescription) :=
  sort (fun a b => b.1 - a.1) (groupBy bucketsToFetch).

(** [bucketsByPriority.at(-1)?.[0]]. *)
Definition lowestPriority (groups : list (Z * list BucketDescription)) : option Z :=
  fst <$> last groups.

(** The requests that one checkpoint iteration of [streamResponseInner]
    passes to [bucketDataInBatches], in order, when the batch is not
    aborted. *)
Definition fetch_requests (checkpoint : Z) (raw_data binary_data : bool)
    (bucketsToFetch : list BucketDescription) : list BucketDataRequest :=
  let groups := bucketsByPriority bucketsToFetch in
  map (fun '(priority, buckets) =>
         let isLast := bool_decide (Some priority = lowestPriority groups) in
         {| checkpoint := checkpoint; bucketsToFetch := buckets;
            raw_data := raw_data; binary_data := binary_data;
            forPriority := if isLast then None else Some priority |})
      groups.

(** The [for (const [priority, buckets] of bucketsByPriority)] loop.  The
    environment answers each request with [abortCheckpointSignal.aborted] at
    the head of the loop and the runs of [bucketDataInBatches]. *)
Fixpoint fetch_loop (requests : list BucketDataRequest)
    (environment : BucketDataRequest → bool * list (bool * BatchRun)) : list Line :=
  match requests with
  | [] => []
  | request :: requests =>
      let '(aborted, runs) := environment request in
      if aborted then []
      else bucketDataInBatches request runs ++ fetch_loop requests environment
  end.

End BucketData.

(** *** Two buckets, priorities 0 and 3 *)

Definition user_bucket : BucketDescription := {| bucket := "by_user[u1]"; priority := 0 |}.
Definition global_bucket : BucketDescription := {| bucket := "global[]"; priority := 3 |}.

(** Storage holds one op for each bucket, below checkpoint 10; nothing is
    aborted. *)
Definition one_op_each (request : BucketDataRequest) : bool * list (bool * BatchRun) :=
  (false,
   [ (false,
      {| acquired := true;
         chunks :=
           map (fun b =>
                  {| batch := {| data_bucket := bucket b; data := [priority b + 1];
                                 has_more := false; after := 0;
                                 next_after := priority b + 1 |};
                     targetOp := None;
                     connection_aborted := false; batch_aborted := false |})
               (bucketsToFetch request) |}) ]).

Definition no_length (e : Encoding) (r : SyncBucketData) : option Z := None.

Definition request_10 : BucketDataRequest :=
  {| checkpoint := 10; bucketsToFetch := [global_bucket]; raw_data := false;
     binary_data := false; forPriority := None |}.

(** A chunk whose ops were moved to op 12, past checkpoint 10, and one that
    stays within the checkpoint. *)
Definition moved_past_checkpoint : Chunk :=
  {| batch := {| data_bucket := "global[]"; data := [8; 9]; has_more := false;
                 after := 7; next_after := 9 |};
     targetOp := Some 12; connection_aborted := false; batch_aborted := false |}.

Definition within_checkpoint : Chunk :=
  {| batch := {| data_bucket := "global[]"; data := [8; 9]; has_more := false;
                 after := 7; next_after := 9 |};
     targetOp := Some 10; connection_aborted := false; batch_aborted := false |}.

(** *** What a run sends and reports *)

(** The bucket data on the data lines among the results. *)
Definition sent_data (results : list BucketDataBatchResult) : list SyncBucketData :=
  omap (fun r => match line r with SyncData _ d => Some d | _ => None end) results.

(** The bucket data that a run sends: that of the chunks it takes from
    storage which have data, bar a chunk at which the connection is found
    aborted. *)
Definition has_data (c : Chunk) : bool :=
  negb (bool_decide (length (data (batch c)) = 0%nat)).

Definition sent_chunks (chunks : list Chunk) : list SyncBucketData :=
  map batch
    (List.filter (fun c => negb (connection_aborted c) && has_data c) (received chunks)).

(** The calls that follow one data line: [onRowsSent(r.data.length)] and
    [checksumState.updateState(r.bucket, r.next_after)]. *)
Definition calls_for (d : SyncBucketData) : list Call :=
  [ onRowsSent (Z.of_nat (length (data d))); updateState (data_bucket d) (next_after d) ].

(** The total passed to [onRowsSent]. *)
Definition rows_sent (calls : list Call) : Z :=
  foldr (fun c acc => match c with onRowsSent n => n + acc | _ => acc end) 0 calls.

(** A [checkpoint_complete] or [partial_checkpoint_complete] line. *)
Definition is_completion (l : Line) : bool :=
  match l with
  | PartialCheckpointComplete _ _ | CheckpointComplete _ => true
  | _ => false
  end.

(** What [Map.groupBy] keeps: distinct keys, each with a non-empty group of
    the buckets of that priority. *)
Definition grouped (groups : list (Z * list BucketDescription)) : Prop :=
  NoDup (map fst groups)
  ∧ Forall (fun g => g.2 ≠ [] ∧ Forall (fun b => priority b = g.1) g.2) groups.

(** Three buckets of two priorities, and storage that delivers bucket
    ["a[]"] in two chunks and nothing for ["b[]"]. *)
Definition three_buckets : list BucketDescription :=
  [ {| bucket := "a[]"; priority := 1 |}; {| bucket := "b[]"; priority := 3 |};
    {| bucket := "c[]"; priority := 1 |} ].

Definition two_chunks : list Chunk :=
  [ {| batch := {| data_bucket := "a[]"; data := [1; 2]; has_more := true;
                   after := 0; next_after := 2 |};
       targetOp := None; connection_aborted := false; batch_aborted := false |};
    {| batch := {| data_bucket := "b[]"; data := []; has_more := false;
                   after := 0; next_after := 0 |};
       targetOp := None; connection_aborted := false; batch_aborted := false |};
    {| batch := {| data_bucket := "a[]"; data := [3]; has_more := false;
                   after := 2; next_after := 3 |};
       targetOp := None; connection_aborted := false; batch_aborted := false |} ].

End sync.

(** ** Demultiplexer *)

Module Demultiplexer.

Section Demux.
Context {T : Type}.

(** Modelled from the spec: [LastValueSink] (['./LastValueSink.js'] is
    imported, not among the sources).  A bounded single-slot cell: the
    producer overwrites, the consumer reads and clears; ending or failing the
    sink closes it, and nothing is accepted after that. *)
Inductive Item :=
| Value (v : T)
| Closed.

Record LastValueSink := {
  buffer : option Item
}.

Definition is_closed (s : LastValueSink) : bool :=
  match buffer s with Some Closed => true | _ => false end.

Definition sink_write (v : T) (s : LastValueSink) : LastValueSink :=
  if is_closed s then s else {| buffer := Some (Value v) |}.

(** [sink.end()] and [sink.error(e)]. *)
Definition sink_close (s : LastValueSink) : LastValueSink :=
  {| buffer := Some Closed |}.

(** [DemultiplexerSource.getFirstValue] of the source with the given id. *)
Variable getFirstValue : nat → string → T.

(** How far a call of [subscribe] has come. *)
Inductive Phase := AwaitingFirstValue | Streaming | Finished.

(** A running [subscribe(key, signal)] generator: its key, the source that
    [addSink] returned, and the values it has yielded. *)
Record Subscription := {
  sub_key : string;
  sub_source : nat;
  phase : Phase;
  yielded : list T
}.

(** The fields of a [Demultiplexer] and the objects they refer to.  Each
    call of [start] creates one [Map] of listeners, one [AbortController]
    and one source, known by the same id; [subscribers], [abortController]
    and [currentSource] hold such ids.  [listeners] are the [Map] objects,
    [aborted] the [signal.aborted] flags of the controllers, [running] the
    sources whose [loop] has not finished.  Sinks are known by ids too. *)
Record State := {
  subscribers : option nat;
  abortController : option nat;
  currentSource : option nat;
  listeners : gmap nat (gmap string (gset nat));
  aborted : gmap nat bool;
  running : gset nat;
  next_source : nat;
  sinks : gmap nat LastValueSink;
  subscriptions : gmap nat Subscription
}.

Definition initial : State :=
  {| subscribers := None; abortController := None; currentSource := None;
     listeners := ∅; aborted := ∅; running := ∅; next_source := 0%nat;
     sinks := ∅; subscriptions := ∅ |}.

(** The [Map] object with the given id. *)
Definition listeners_of (st : State) (m : nat) : gmap string (gset nat) :=
  default ∅ (listeners st !! m).

(** [start(filter, sink)]. *)
Definition start (filter : string) (sink : nat) (st : State) : State * nat :=
  let n := next_source st in
  ({| subscribers := Some n;
      abortController := Some n;
      currentSource := Some n;
      listeners := <[n := {[ filter := {[ sink ]} ]}]> (listeners st);
      aborted := <[n := false]> (aborted st);
      running := {[ n ]} ∪ running st;
      next_source := S n;
      sinks := sinks st;
      subscriptions := subscriptions st |}, n).

(** [this.abortController?.abort()]. *)
Definition abort (c : option nat) (flags : gmap nat bool) : gmap nat bool :=
  match c with
  | Some c => <[c := true]> flags
  | None => flags
  end.

(** [removeSink(key, sink)]. *)
Definition removeSink (key : string) (sink : nat) (st : State) : State :=
  match subscribers st with
  | None => st
  | Some m =>
      match listeners_of st m !! key with
      | None => st
      | Some existing =>
          let existing := existing ∖ {[ sink ]} in
          let map :=
            if bool_decide (size existing = 0%nat)
            then delete key (listeners_of st m)
            else <[key := existing]> (listeners_of st m) in
          if bool_decide (size map = 0%nat)
          then {| subscribers := None;
                  abortController := None;
                  currentSource := None;
                  listeners := <[m := map]> (listeners st);
                  aborted := abort (abortController st) (aborted st);
                  running := running st;
                  next_source := next_source st;
                  sinks := sinks st;
                  subscriptions := subscriptions st |}
          else {| subscribers := subscribers st;
                  abortController := abortController st;
                  currentSource := currentSource st;
                  listeners := <[m := map]> (listeners st);
                  aborted := aborted st;
                  running := running st;
                  next_source := next_source st;
                  sinks := sinks st;
                  subscriptions := subscriptions st |}
      end
  end.

(** [addSink(key, sink)]: the new state and the source returned; [None] when
    [this.subscribers!] is undefined, a TypeError. *)
Definition addSink (key : string) (sink : nat) (st : State) : option (State * nat) :=
  match currentSource st with
  | None => Some (start key sink st)
  | Some source =>
      match subscribers st with
      | None => None
      | Some m =>
          let map :=
            match listeners_of st m !! key with
            | Some existing => <[key := existing ∪ {[ sink ]}]> (listeners_of st m)
            | None => <[key := {[ sink ]}]> (listeners_of st m)
            end in
          Some ({| subscribers := subscribers st;
                   abortController := abortController st;
                   currentSource := currentSource st;
                   listeners := <[m := map]> (listeners st);
                   aborted := aborted st;
                   running := running st;
                   next_source := next_source st;
                   sinks := sinks st;
                   subscriptions := subscriptions st |}, source)
      end
  end.

(** All sinks of a [Map] of listeners. *)
Definition all_sinks (map : gmap string (gset nat)) : gset nat :=
  map_fold (fun _ keySinks acc => keySinks ∪ acc) ∅ map.

(** Apply [f] to each sink of the set. *)
Definition for_sinks (f : LastValueSink → LastValueSink) (targets : gset nat)
    (all : gmap nat LastValueSink) : gmap nat LastValueSink :=
  map_imap (fun i s => Some (if bool_decide (i ∈ targets) then f s else s)) all.

(** The [finally] block of [loop], for the loop of source [n]. *)
Definition loop_finally (n : nat) (st : State) : State :=
  let same := bool_decide (subscribers st = Some n) in
  {| subscribers := if same then None else subscribers st;
     abortController := if same then None else abortController st;
     currentSource := if same then None else currentSource st;
     listeners := listeners st;
     aborted := aborted st;
     running := running st ∖ {[ n ]};
     next_source := next_source st;
     sinks := sinks st;
     subscriptions := subscriptions st |}.

(** The [catch] block of [loop], then [finally]. *)
Definition loop_catch (n : nat) (st : State) : State :=
  loop_finally n
    {| subscribers := subscribers st;
       abortController := abortController st;
       currentSource := currentSource st;
       listeners := listeners st;
       aborted := <[n := true]> (aborted st);
       running := running st;
       next_source := next_source st;
       sinks := for_sinks sink_close (all_sinks (listeners_of st n)) (sinks st);
       subscriptions := subscriptions st |}.

(** One iteration of [for await (let doc of source.iterator)] in the loop
    of source [n]. *)
Definition loop_doc (n : nat) (key : string) (value : T) (st : State) : State :=
  if bool_decide (n ∈ running st) then
    if default false (aborted st !! n) || bool_decide (size (listeners_of st n) = 0%nat)
    then loop_catch n st
    else match listeners_of st n !! key with
         | None => st
         | Some keySinks =>
             {| subscribers := subscribers st;
                abortController := abortController st;
                currentSource := currentSource st;
                listeners := listeners st;
                aborted := aborted st;
                running := running st;
                next_source := next_source st;
                sinks := for_sinks (sink_write value) keySinks (sinks st);
                subscriptions := subscriptions st |}
         end
  else st.

(** The source of loop [n] ends: every sink is ended. *)
Definition loop_end (n : nat) (st : State) : State :=
  if bool_decide (n ∈ running st) then
    loop_finally n
      {| subscribers := subscribers st;
         abortController := abortController st;
         currentSource := currentSource st;
         listeners := listeners st;
         aborted := aborted st;
         running := running st;
         next_source := next_source st;
         sinks := for_sinks sink_close (all_sinks (listeners_of st n)) (sinks st);
         subscriptions := subscriptions st |}
  else st.

(** The source of loop [n] fails. *)
Definition loop_error (n : nat) (st : State) : State :=
  if bool_decide (n ∈ running st) then loop_catch n st else st.

(** The operations on the demultiplexer and the events of its sources. *)
Inductive Op :=
| AddSink (key : string) (sink : nat)
| RemoveSink (key : string) (sink : nat)
| SourceValue (n : nat) (key : string) (value : T)
| SourceEnd (n : nat)
| SourceError (n : nat).

Definition step (st : State) (op : Op) : option State :=
  match op with
  | AddSink key sink => fst <$> addSink key sink st
  | RemoveSink key sink => Some (removeSink key sink st)
  | SourceValue n key value => Some (loop_doc n key value st)
  | SourceEnd n => Some (loop_end n st)
  | SourceError n => Some (loop_error n st)
  end.

Fixpoint run (st : State) (ops : list Op) : option State :=
  match ops with
  | [] => Some st
  | op :: ops =>
      match step st op with
      | Some st => run st ops
      | None => None
      end
  end.

(** A source is an active upstream subscription while its loop runs and its
    controller is not aborted. *)
Definition active (st : State) (n : nat) : Prop :=
  n ∈ running st ∧ aborted st !! n = Some false.

(** There is at least one subscriber. *)
Definition has_subscribers (st : State) : Prop :=
  ∃ m key keySinks sink,
    subscribers st = Some m ∧ listeners_of st m !! key = Some keySinks ∧ sink ∈ keySinks.

(** [sink] is registered under [key] in the [Map] that [subscribers] holds. *)
Definition registered (st : State) (key : string) (sink : nat) : Prop :=
  ∃ m keySinks,
    subscribers st = Some m ∧ listeners_of st m !! key = Some keySinks ∧ sink ∈ keySinks.

(** The lazy lifecycle in the words of the specification, read off the calls
    alone.  The subscribers are the pairs given to [addSink] and not yet to
    [removeSink]; the end or the failure of the upstream they share ends
    them all.  An upstream is started by an [addSink] that finds no
    subscriber, and only then; it is shared by all subscribers until the
    last one leaves.  [started] counts the upstreams started so far, which
    numbers them; events of an upstream that is no longer the shared one
    change nothing. *)
Record Lifecycle := {
  members : gset (string * nat);
  upstream : option nat;
  started : nat
}.

Definition lifecycle_step (u : Lifecycle) (op : Op) : Lifecycle :=
  match op with
  | AddSink key sink =>
      if bool_decide (members u = ∅)
      then {| members := {[ (key, sink) ]};
              upstream := Some (started u);
              started := S (started u) |}
      else {| members := {[ (key, sink) ]} ∪ members u;
              upstream := upstream u;
              started := started u |}
  | RemoveSink key sink =>
      let rest := members u ∖ {[ (key, sink) ]} in
      {| members := rest;
         upstream := if bool_decide (rest = ∅) then None else upstream u;
         started := started u |}
  | SourceValue _ _ _ => u
  | SourceEnd n | SourceError n =>
      if bool_decide (upstream u = Some n)
      then {| members := ∅; upstream := None; started := started u |}
      else u
  end.

Definition lifecycle_of (ops : list Op) : Lifecycle :=
  foldl lifecycle_step {| members := ∅; upstream := None; started := 0%nat |} ops.

(** *** subscribe *)

Definition set_sinks (v : gmap nat LastValueSink) (st : State) : State :=
  {| subscribers := subscribers st; abortController := abortController st;
     currentSource := currentSource st; listeners := listeners st;
     aborted := aborted st; running := running st; next_source := next_source st;
     sinks := v; subscriptions := subscriptions st |}.

Definition set_subscriptions (v : gmap nat Subscription) (st : State) : State :=
  {| subscribers := subscribers st; abortController := abortController st;
     currentSource := currentSource st; listeners := listeners st;
     aborted := aborted st; running := running st; next_source := next_source st;
     sinks := sinks st; subscriptions := v |}.

Definition with_phase (p : Phase) (vs : list T) (sub : Subscription) : Subscription :=
  {| sub_key := sub_key sub; sub_source := sub_source sub; phase := p; yielded := vs |}.

(** [subscribe(key, signal)] up to the [await]: a new sink, registered with
    [addSink] before the first value is asked for.  [sink] is the identity of
    the new object. *)
Definition subscribe_start (key : string) (sink : nat) (st : State) : option State :=
  match sinks st !! sink with
  | Some _ => Some st
  | None =>
      match addSink key sink (set_sinks (<[sink := {| buffer := None |}]> (sinks st)) st) with
      | None => None
      | Some (st, source) =>
          Some (set_subscriptions
                  (<[sink := {| sub_key := key; sub_source := source;
                                phase := AwaitingFirstValue; yielded := [] |}]>
                     (subscriptions st)) st)
      end
  end.

(** [yield firstValue]. *)
Definition subscribe_first (sink : nat) (st : State) : State :=
  match subscriptions st !! sink with
  | Some sub =>
      match phase sub with
      | AwaitingFirstValue =>
          set_subscriptions
            (<[sink := with_phase Streaming
                         [getFirstValue (sub_source sub) (sub_key sub)] sub]>
               (subscriptions st)) st
      | _ => st
      end
  | None => st
  end.

(** The [finally] block: [removeSink(key, sink)]. *)
Definition subscribe_finally (sink : nat) (sub : Subscription) (st : State) : State :=
  set_subscriptions
    (<[sink := with_phase Finished (yielded sub) sub]> (subscriptions st))
    (removeSink (sub_key sub) sink st).

(** The consumer asks for the next value of [yield* sink.withSignal(signal)]:
    a buffered value is taken and yielded; a closed sink ends the
    generator. *)
Definition subscribe_next (sink : nat) (st : State) : State :=
  match subscriptions st !! sink with
  | Some sub =>
      match phase sub, sinks st !! sink with
      | Streaming, Some s =>
          match buffer s with
          | Some (Value v) =>
              set_subscriptions
                (<[sink := with_phase Streaming (yielded sub ++ [v]) sub]>
                   (subscriptions st))
                (set_sinks (<[sink := {| buffer := None |}]> (sinks st)) st)
          | Some Closed => subscribe_finally sink sub st
          | None => st
          end
      | _, _ => st
      end
  | None => st
  end.

(** The generator is closed from outside: the signal aborts, the consumer
    returns, or [getFirstValue] fails. *)
Definition subscribe_return (sink : nat) (st : State) : State :=
  match subscriptions st !! sink with
  | Some sub =>
      match phase sub with
      | Finished => st
      | _ => subscribe_finally sink sub st
      end
  | None => st
  end.

Inductive Event :=
| Subscribe (key : string) (sink : nat)
| FirstValue (sink : nat)
| Next (sink : nat)
| Return (sink : nat)
| UpstreamValue (n : nat) (key : string) (value : T)
| UpstreamEnd (n : nat)
| UpstreamError (n : nat).

Definition handle (st : State) (e : Event) : option State :=
  match e with
  | Subscribe key sink => subscribe_start key sink st
  | FirstValue sink => Some (subscribe_first sink st)
  | Next sink => Some (subscribe_next sink st)
  | Return sink => Some (subscribe_return sink st)
  | UpstreamValue n key value => Some (loop_doc n key value st)
  | UpstreamEnd n => Some (loop_end n st)
  | UpstreamError n => Some (loop_error n st)
  end.

(** The events in order, from the first. *)
Definition handle_all (st : State) (events : list Event) : option State :=
  foldl (fun st e => st ≫= fun st => handle st e) (Some st) events.

(** The values that source [n] has published under [key]. *)
Definition upstream_values (n : nat) (key : string) (events : list Event) : list T :=
  omap (fun e => match e with
                 | UpstreamValue n' key' v =>
                     if bool_decide (n' = n ∧ key' = key) then Some v else None
                 | _ => None
                 end) events.

(** The value waiting in a sink, if any. *)
Definition buffered (s : option LastValueSink) : list T :=
  match s with
  | Some {| buffer := Some (Value v) |} => [v]
  | _ => []
  end.

(** The invariant of the demultiplexer: the three fields are set or cleared
    together; the current source is active and has listeners, none of them
    with an empty set; no other source is active. *)
Record inv (st : State) : Prop := {
  inv_controller : abortController st = subscribers st;
  inv_source : currentSource st = subscribers st;
  inv_current : ∀ n, subscribers st = Some n →
    active st n ∧ listeners_of st n ≠ ∅
    ∧ ∀ key keySinks, listeners_of st n !! key = Some keySinks → keySinks ≠ ∅;
  inv_active : ∀ n, active st n → subscribers st = Some n;
  inv_fresh : ∀ n, n ∈ running st → (n < next_source st)%nat
}.

(** The state of the demultiplexer against the lifecycle of the calls. *)
Definition follows (st : State) (u : Lifecycle) : Prop :=
  inv st
  ∧ currentSource st = upstream u
  ∧ next_source st = started u
  ∧ (∀ key sink, registered st key sink ↔ (key, sink) ∈ members u)
  ∧ (upstream u = None ↔ members u = ∅).

(** A source that is running but no longer the one of [subscribers] has no
    listeners left in its own [Map]. *)
Definition stale_empty (st : State) : Prop :=
  ∀ n, n ∈ running st → subscribers st ≠ Some n → listeners_of st n = ∅.

(** What a subscription has yielded so far, against what was published. *)
Definition yields_own_values (events : list Event) (st : State) (s : nat)
    (sub : Subscription) : Prop :=
  match phase sub with
  | AwaitingFirstValue => yielded sub = []
  | Streaming => ∃ vs, yielded sub = getFirstValue (sub_source sub) (sub_key sub) :: vs
  | Finished =>
      yielded sub = [] ∨ ∃ vs, yielded sub = getFirstValue (sub_source sub) (sub_key sub) :: vs
  end
  ∧ (tail (yielded sub) ++ buffered (sinks st !! s))
      `sublist_of` upstream_values (sub_source sub) (sub_key sub) events.

Record consistent (events : list Event) (st : State) : Prop := {
  c_inv : inv st;
  c_registered : ∀ m map key keySinks s,
    listeners st !! m = Some map → map !! key = Some keySinks → s ∈ keySinks →
    ∃ sub, subscriptions st !! s = Some sub ∧ sub_key sub = key ∧ sub_source sub = m;
  c_sinks : ∀ s sub, subscriptions st !! s = Some sub → is_Some (sinks st !! s);
  c_values : ∀ s sub, subscriptions st !! s = Some sub → yields_own_values events st s sub
}.

(** [sink] was created by a [subscribe] among the events. *)
Definition subscribed (sink : nat) (events : list Event) : bool :=
  existsb (fun e => match e with
                    | Subscribe _ s => bool_decide (s = sink)
                    | _ => false
                    end) events.

(** The events that follow the [subscribe] that created [sink]. *)
Fixpoint since_subscribed (sink : nat) (events : list Event) : list Event :=
  match events with
  | [] => []
  | Subscribe _ s :: rest =>
      if bool_decide (s = sink) then rest else since_subscribed sink rest
  | _ :: rest => since_subscribed sink rest
  end.

(** A subscription is listening while its generator has not finished and its
    sink has been neither ended nor failed. *)
Definition listening (st : State) (s : nat) (sub : Subscription) : Prop :=
  phase sub ≠ Finished ∧ ∃ x, sinks st !! s = Some x ∧ is_closed x = false.

(** Last value wins: the last value that the source has published under the
    key since the subscription was made is the last one received, or it is
    waiting in the sink; with nothing published, nothing follows the first
    value. *)
Definition last_value_wins (events : list Event) (st : State) (s : nat)
    (sub : Subscription) : Prop :=
  last (tail (yielded sub) ++ buffered (sinks st !! s))
  = last (upstream_values (sub_source sub) (sub_key sub) (since_subscribed s events)).

Record delivering (events : list Event) (st : State) : Prop := {
  d_consistent : consistent events st;
  d_subscribed : ∀ s, is_Some (sinks st !! s) ↔ subscribed s events = true;
  d_registered : ∀ s sub, subscriptions st !! s = Some sub → listening st s sub →
    registered st (sub_key sub) s;
  d_last : ∀ s sub, subscriptions st !! s = Some sub → listening st s sub →
    last_value_wins events st s sub
}.

End Demux.

(** *** Two subscribers on one source *)

Definition first_value (n : nat) (key : string) : Z := 0.

(** Two keys subscribe; the source publishes 10 and then 11 for "u1" and 20
    for "u2" before "u1" asks for its next value. *)
Definition two_subscribers : list (@Event Z) :=
  [ Subscribe "u1" 0%nat; Subscribe "u2" 1%nat; FirstValue 0%nat; FirstValue 1%nat;
    UpstreamValue 0%nat "u1" 10; UpstreamValue 0%nat "u2" 20; UpstreamValue 0%nat "u1" 11;
    Next 0%nat; Next 0%nat; Next 1%nat ].

(** The same, up to the last value published: nothing has been asked for
    since the first values. *)
Definition two_subscribers_published : list (@Event Z) := take 7 two_subscribers.

(** A second subscriber joins, then the first one leaves. *)
Definition first_of_two_leaves : list (@Op Z) :=
  [ AddSink "u1" 0%nat; AddSink "u2" 1%nat; RemoveSink "u1" 0%nat ].

(** The only subscriber leaves while source 0 still runs; a new subscriber
    then starts source 1, and a value is waiting for it. *)
Definition resubscribed : list (@Op Z) :=
  [ AddSink "u1" 0%nat; RemoveSink "u1" 0%nat; AddSink "u2" 1%nat ].

End Demultiplexer.

(** ** BucketChecksumState.updateBucketPosition *)

Module BucketChecksumState.

(** [BucketSyncState]. *)
Record BucketSyncState := {
  description : option sync.BucketDescription;
  start_op_id : Z
}.

(** [util.BucketChecksum]. *)
Record BucketChecksum := {
  bucket : string;
  checksum : Z;
  count : Z
}.

(** What [BucketParameterState] keeps between checkpoints. *)
Record BucketParameterState := {
  cachedDynamicBuckets : option (list sync.BucketDescription);
  cachedDynamicBucketSet : option (gset string)
}.

(** The mutable fields of a [BucketChecksumState]. *)
Record State := {
  bucketDataPositions : gmap string BucketSyncState;
  lastChecksums : option (gmap string BucketChecksum);
  lastWriteCheckpoint : option Z;
  parameterState : BucketParameterState;
  pendingBucketDownloads : gset string
}.

(** [updateBucketPosition({ bucket, nextAfter, hasMore })]. *)
Definition updateBucketPosition (bucket : string) (nextAfter : Z) (hasMore : bool)
    (this : State) : State :=
  {| bucketDataPositions :=
       match bucketDataPositions this !! bucket with
       | Some state =>
           <[bucket := {| description := description state; start_op_id := nextAfter |}]>
             (bucketDataPositions this)
       | None => bucketDataPositions this
       end;
     lastChecksums := lastChecksums this;
     lastWriteCheckpoint := lastWriteCheckpoint this;
     parameterState := parameterState this;
     pendingBucketDownloads :=
       if negb hasMore then pendingBucketDownloads this ∖ {[ bucket ]}
       else pendingBucketDownloads this |}.

End BucketChecksumState.

(** ** BucketChecksumState.buildNextCheckpointLine *)

Module CheckpointLine.

Abbreviation BucketDescription := sync.BucketDescription.
Abbreviation BucketSyncState := BucketChecksumState.BucketSyncState.
Abbreviation BucketChecksum := BucketChecksumState.BucketChecksum.

(** *** JS [Map] and [Set] with their insertion order

    [buildNextCheckpointLine] iterates its maps and sets, so their order
    shows in the lines it builds: a [Map] is the list of its entries and a
    [Set] the list of its members, both in insertion order. *)

Section Ordered.
Context {V : Type}.

(** [Map.prototype.get]. *)
Fixpoint Map_get (key : string) (m : list (string * V)) : option V :=
  match m with
  | [] => None
  | (k, v) :: m => if bool_decide (k = key) then Some v else Map_get key m
  end.

(** [Map.prototype.set]: the value of a key that is present is replaced
    where it stands; a new key goes to the end. *)
Fixpoint Map_set (key : string) (value : V) (m : list (string * V)) : list (string * V) :=
  match m with
  | [] => [(key, value)]
  | (k, v) :: m =>
      if bool_decide (k = key) then (k, value) :: m else (k, v) :: Map_set key value m
  end.

(** [Map.prototype.has]. *)
Definition Map_has (key : string) (m : list (string * V)) : bool :=
  bool_decide (is_Some (Map_get key m)).

End Ordered.

(** [Set.prototype.add]. *)
Fixpoint Set_add (x : string) (s : list string) : list string :=
  match s with
  | [] => [x]
  | y :: s' => if bool_decide (y = x) then s else y :: Set_add x s'
  end.

(** [new Set(items)]. *)
Definition Set_of (items : list string) : list string :=
  foldl (fun s x => Set_add x s) [] items.

(** [util.ChecksumMap]. *)
Definition ChecksumMap : Type := list (string * BucketChecksum).

(** The mutable fields of a [BucketChecksumState] that
    [buildNextCheckpointLine] reads and writes. *)
Record State := {
  bucketDataPositions : list (string * BucketSyncState);
  lastChecksums : option ChecksumMap;
  lastWriteCheckpoint : option Z;
  pendingBucketDownloads : list string
}.

(** The fields of [storage.StorageCheckpointUpdate] that are read:
    [base.checkpoint] and [writeCheckpoint]. *)
Record StorageCheckpointUpdate := {
  checkpoint : Z;
  writeCheckpoint : option Z
}.

(** [Set<string> | typeof INVALIDATE_ALL_BUCKETS]; of the set, only [has]
    is used. *)
Inductive UpdatedBuckets :=
| INVALIDATE_ALL_BUCKETS
| Updated (buckets : gset string).

(** [CheckpointUpdate]. *)
Record CheckpointUpdate := {
  buckets : list BucketDescription;
  updatedBuckets : UpdatedBuckets
}.

(** What [util.checksumsDiff] returns. *)
Record ChecksumsDiff := {
  diff_updatedBuckets : list BucketChecksum;
  diff_removedBuckets : list string
}.

(** [{ ...e, priority }]. *)
Record BucketChecksumWithDescription := {
  of_checksum : BucketChecksum;
  with_priority : Z
}.

(** [util.StreamingSyncCheckpointDiff | util.StreamingSyncCheckpoint]; op
    ids and write checkpoints are known by their numbers. *)
Inductive StreamingSyncLine :=
| checkpoint_diff (last_op_id : Z) (write_checkpoint : option Z)
    (removed_buckets : list string) (updated_buckets : list BucketChecksumWithDescription)
| full_checkpoint (last_op_id : Z) (write_checkpoint : option Z)
    (line_buckets : list BucketChecksumWithDescription).

(** [CheckpointLine]. *)
Record CheckpointLine := {
  checkpointLine : StreamingSyncLine;
  bucketsToFetch : list BucketDescription
}.

(** What the function throws: [ServiceError(PSYNC_S2305, `Too many buckets:
    ${size} (limit of ${maxBuckets})`)], a [ServiceAssertionError] with its
    message, or the [TypeError] of reading a property of [undefined]. *)
Inductive Error :=
| TooManyBuckets (size limit : Z)
| ServiceAssertionError (message : string)
| TypeError.

Definition set_positions (positions : list (string * BucketSyncState)) (this : State)
  : State :=
  {| bucketDataPositions := positions;
     lastChecksums := lastChecksums this;
     lastWriteCheckpoint := lastWriteCheckpoint this;
     pendingBucketDownloads := pendingBucketDownloads this |}.

(** The [dataBucketsNew] that the first loop builds. *)
Definition new_positions (allBuckets : list BucketDescription)
    (positions : list (string * BucketSyncState)) : list (string * BucketSyncState) :=
  foldl (fun dataBucketsNew bucket =>
           Map_set (sync.bucket bucket)
             {| BucketChecksumState.description := Some bucket;
                BucketChecksumState.start_op_id :=
                  default 0 (BucketChecksumState.start_op_id
                               <$> Map_get (sync.bucket bucket) positions) |}
             dataBucketsNew)
        [] allBuckets.

(** [this.bucketDataPositions.get(b)!.description!.priority]. *)
Definition priority_of (positions : list (string * BucketSyncState)) (b : string)
  : Z + Error :=
  match Map_get b positions with
  | Some state =>
      match BucketChecksumState.description state with
      | Some description => inl (sync.priority description)
      | None => inr TypeError
      end
  | None => inr TypeError
  end.

(** [Array.prototype.map] with a callback that may throw. *)
Fixpoint map_throwing {A B} (f : A → B + Error) (l : list A) : list B + Error :=
  match l with
  | [] => inl []
  | x :: l =>
      match f x with
      | inr e => inr e
      | inl y =>
          match map_throwing f l with
          | inr e => inr e
          | inl ys => inl (y :: ys)
          end
      end
  end.

Definition with_description (positions : list (string * BucketSyncState))
    (e : BucketChecksum) : BucketChecksumWithDescription + Error :=
  match priority_of positions (BucketChecksumState.bucket e) with
  | inl priority => inl {| of_checksum := e; with_priority := priority |}
  | inr err => inr err
  end.

Definition describe (positions : list (string * BucketSyncState)) (b : string)
  : BucketDescription + Error :=
  match priority_of positions b with
  | inl priority => inl {| sync.bucket := b; sync.priority := priority |}
  | inr err => inr err
  end.

(** [writeCheckpoint ? String(writeCheckpoint) : undefined]: [0n] is
    falsy. *)
Definition write_checkpoint_of (writeCheckpoint : option Z) : option Z :=
  match writeCheckpoint with
  | Some w => if w =? 0 then None else Some w
  | None => None
  end.

Section Build.

(** [this.context.maxBuckets]. *)
Variable maxBuckets : Z.

(** [storage.getChecksums(checkpoint, buckets)], as storage answers it. *)
Variable getChecksums : Z → list string → ChecksumMap.

(** [util.checksumsDiff(previous, current)]. *)
Variable checksumsDiff : ChecksumMap → ChecksumMap → ChecksumsDiff.

(** The loop over [dataBucketsNew.keys()] that re-checks the updated
    buckets only. *)
Fixpoint recheck (updated : gset string) (last : ChecksumMap) (keys : list string)
    (newChecksums : ChecksumMap) (checksumLookups : list string)
  : ChecksumMap * list string + Error :=
  match keys with
  | [] => inl (newChecksums, checksumLookups)
  | bucket :: keys =>
      if negb (bool_decide (bucket ∈ updated)) then
        match Map_get bucket last with
        | None =>
            inr (ServiceAssertionError
                   ("Existing checksum not found for bucket " +:+ bucket))
        | Some existing =>
            recheck updated last keys (Map_set bucket existing newChecksums) checksumLookups
        end
      else recheck updated last keys newChecksums (checksumLookups ++ [bucket])
  end.

(** The [checksumMap] of the checkpoint. *)
Definition checksums_for (next : StorageCheckpointUpdate) (updatedBuckets : UpdatedBuckets)
    (dataBucketsNew : list (string * BucketSyncState)) (lastChecksums : option ChecksumMap)
  : ChecksumMap + Error :=
  match updatedBuckets with
  | Updated updated =>
      match lastChecksums with
      | None => inr (ServiceAssertionError "Bucket diff received without existing checksums")
      | Some last =>
          match recheck updated last (map fst dataBucketsNew) [] [] with
          | inr e => inr e
          | inl (newChecksums, checksumLookups) =>
              if (0 <? length checksumLookups)%nat
              then inl (foldl (fun newChecksums '(bucket, value) =>
                                 Map_set bucket value newChecksums)
                              newChecksums
                              (getChecksums (checkpoint next) checksumLookups))
              else inl newChecksums
          end
      end
  | INVALIDATE_ALL_BUCKETS =>
      inl (getChecksums (checkpoint next) (map fst dataBucketsNew))
  end.

(** [generateBucketsToFetch]: the updated buckets of the diff, then the
    pending downloads that the checkpoint still has. *)
Definition generateBucketsToFetch (diff : ChecksumsDiff) (pending : list string)
    (checksumMap : ChecksumMap) : list string :=
  foldl (fun s bucket => if Map_has bucket checksumMap then Set_add bucket s else s)
        (foldl (fun s e => Set_add (BucketChecksumState.bucket e) s) []
               (diff_updatedBuckets diff))
        pending.

(** The three assignments before [return]. *)
Definition finish (next : StorageCheckpointUpdate) (checksumMap : ChecksumMap)
    (line : CheckpointLine) (this : State) : State :=
  {| bucketDataPositions := bucketDataPositions this;
     lastChecksums := Some checksumMap;
     lastWriteCheckpoint := writeCheckpoint next;
     pendingBucketDownloads := Set_of (map sync.bucket (bucketsToFetch line)) |}.

(** [buildNextCheckpointLine(next)]: the state afterwards, and the line,
    [null] or the error thrown.  [update] is what
    [this.parameterState.getCheckpointUpdate(next)] resolved to. *)
Definition buildNextCheckpointLine (next : StorageCheckpointUpdate)
    (update : option CheckpointUpdate) (this : State)
  : State * (option CheckpointLine + Error) :=
  match update with
  | None =>
      if bool_decide (lastWriteCheckpoint this = writeCheckpoint next)
      then (this, inl None)
      else (this, inr TypeError)
  | Some update =>
      let allBuckets := buckets update in
      let dataBucketsNew := new_positions allBuckets (bucketDataPositions this) in
      let this := set_positions dataBucketsNew this in
      if maxBuckets <? Z.of_nat (length dataBucketsNew)
      then (this, inr (TooManyBuckets (Z.of_nat (length dataBucketsNew)) maxBuckets))
      else
        match checksums_for next (updatedBuckets update) dataBucketsNew
                (lastChecksums this) with
        | inr e => (this, inr e)
        | inl checksumMap =>
            match lastChecksums this with
            | Some last =>
                let diff := checksumsDiff last checksumMap in
                if bool_decide (lastWriteCheckpoint this = writeCheckpoint next)
                   && bool_decide (length (diff_removedBuckets diff) = 0%nat)
                   && bool_decide (length (diff_updatedBuckets diff) = 0%nat)
                then (this, inl None)
                else
                  let generated :=
                    generateBucketsToFetch diff (pendingBucketDownloads this) checksumMap in
                  match map_throwing (with_description dataBucketsNew)
                          (diff_updatedBuckets diff) with
                  | inr e => (this, inr e)
                  | inl updatedBucketDescriptions =>
                      match map_throwing (describe dataBucketsNew) generated with
                      | inr e => (this, inr e)
                      | inl bucketsToFetch =>
                          let line :=
                            {| checkpointLine :=
                                 checkpoint_diff (checkpoint next)
                                   (write_checkpoint_of (writeCheckpoint next))
                                   (diff_removedBuckets diff) updatedBucketDescriptions;
                               bucketsToFetch := bucketsToFetch |} in
                          (finish next checksumMap line this, inl (Some line))
                      end
                  end
            | None =>
                match map_throwing (with_description dataBucketsNew)
                        (map snd checksumMap) with
                | inr e => (this, inr e)
                | inl described =>
                    let line :=
                      {| checkpointLine :=
                           full_checkpoint (checkpoint next)
                             (write_checkpoint_of (writeCheckpoint next)) described;
                         bucketsToFetch := allBuckets |} in
                    (finish next checksumMap line this, inl (Some line))
                end
            end
        end
  end.

(** [getFilteredBucketPositions(bucketsToFetch)]. *)
Definition getFilteredBucketPositions (bucketsToFetch : list BucketDescription)
    (this : State) : list (string * Z) :=
  foldl (fun filtered bucket =>
           match Map_get (sync.bucket bucket) (bucketDataPositions this) with
           | Some state =>
               Map_set (sync.bucket bucket) (BucketChecksumState.start_op_id state) filtered
           | None => filtered
           end)
        [] bucketsToFetch.

End Build.

(** The description that [allBuckets] gives last for a bucket name. *)
Definition described_last (allBuckets : list BucketDescription) (b : string)
  : option BucketDescription :=
  last (filter (fun d => sync.bucket d = b) allBuckets).

(** *** A client with one bucket, then a second one *)

Definition connected : State :=
  {| bucketDataPositions :=
       [("global[]", {| BucketChecksumState.description := None;
                        BucketChecksumState.start_op_id := 7 |})];
     lastChecksums := None; lastWriteCheckpoint := None; pendingBucketDownloads := [] |}.

Definition both_buckets : CheckpointUpdate :=
  {| buckets := [sync.user_bucket; sync.global_bucket];
     updatedBuckets := INVALIDATE_ALL_BUCKETS |}.

(** Storage with the same checksum for every bucket asked. *)
Definition flat_checksums (checkpoint : Z) (names : list string) : ChecksumMap :=
  map (fun b => (b, {| BucketChecksumState.bucket := b;
                       BucketChecksumState.checksum := checkpoint;
                       BucketChecksumState.count := 1 |})) names.

(** A diff that reports every bucket of the new map as updated. *)
Definition all_updated (previous current : ChecksumMap) : ChecksumsDiff :=
  {| diff_updatedBuckets := map snd current; diff_removedBuckets := [] |}.

(** A diff by comparison: the buckets whose checksum or count is new or
    has changed, and the names that are gone. *)
Definition changed (previous current : ChecksumMap) : ChecksumsDiff :=
  {| diff_updatedBuckets :=
       List.filter
         (fun e => match Map_get (BucketChecksumState.bucket e) previous with
                   | Some p =>
                       negb ((BucketChecksumState.checksum p =? BucketChecksumState.checksum e)
                             && (BucketChecksumState.count p =? BucketChecksumState.count e))
                   | None => true
                   end)
         (map snd current);
     diff_removedBuckets :=
       List.filter (fun b => negb (Map_has b current)) (map fst previous) |}.

Definition at_10 : StorageCheckpointUpdate := {| checkpoint := 10; writeCheckpoint := None |}.

Definition at_11 : StorageCheckpointUpdate :=
  {| checkpoint := 11; writeCheckpoint := Some 0 |}.

(** The first line for [connected], and the state after it. *)
Definition first_line : CheckpointLine :=
  {| checkpointLine :=
       full_checkpoint 10 None
         [ {| of_checksum := {| BucketChecksumState.bucket := "by_user[u1]";
                                BucketChecksumState.checksum := 10;
                                BucketChecksumState.count := 1 |};
              with_priority := 0 |};
           {| of_checksum := {| BucketChecksumState.bucket := "global[]";
                                BucketChecksumState.checksum := 10;
                                BucketChecksumState.count := 1 |};
              with_priority := 3 |} ];
     bucketsToFetch := [sync.user_bucket; sync.global_bucket] |}.

(** The client of [connected] after its first checkpoint, the download of
    ["global[]"] still pending. *)
Definition interrupted : State :=
  {| bucketDataPositions :=
       [("by_user[u1]", {| BucketChecksumState.description := Some sync.user_bucket;
                           BucketChecksumState.start_op_id := 1 |});
        ("global[]", {| BucketChecksumState.description := Some sync.global_bucket;
                        BucketChecksumState.start_op_id := 7 |})];
     lastChecksums := Some (flat_checksums 10 ["by_user[u1]"; "global[]"]);
     lastWriteCheckpoint := None;
     pendingBucketDownloads := ["global[]"] |}.

(** Only the bucket of the user has new data. *)
Definition user_updated : CheckpointUpdate :=
  {| buckets := [sync.user_bucket; sync.global_bucket];
     updatedBuckets := Updated {[ "by_user[u1]" ]} |}.

Definition second_line : CheckpointLine :=
  {| checkpointLine :=
       checkpoint_diff 11 None []
         [ {| of_checksum := {| BucketChecksumState.bucket := "by_user[u1]";
                                BucketChecksumState.checksum := 11;
                                BucketChecksumState.count := 1 |};
              with_priority := 0 |} ];
     bucketsToFetch := [sync.user_bucket; sync.global_bucket] |}.

End CheckpointLine.

(** ** MongoLSN *)

Module MongoLSN.

Definition ZERO_LSN : string := "0000000000000000".

Definition DELIMINATOR : ascii := "|"%char.

(** [mongo.Timestamp]: the cluster time as its two 32-bit words, as the
    numbers that [timestamp.high] and [timestamp.low] give.  bson keeps the
    words of a [Long] as signed 32-bit integers, so these are between -2^31
    and 2^31 - 1. *)
Record Timestamp := {
  high : Z;
  low : Z
}.

(** [Timestamp.fromBits(lowBits, highBits)]: the constructor of [Long]
    stores [low | 0] and [high | 0]. *)
Definition fromBits (lowBits highBits : Z) : Timestamp :=
  {| high := ToInt32 highBits; low := ToInt32 lowBits |}.

(** The cluster time as one number: the unsigned 64-bit value of the two
    words. *)
Definition time_of (t : Timestamp) : Z :=
  (high t mod 2 ^ 32) * 2 ^ 32 + low t mod 2 ^ 32.

(** *** The JS string functions that the class uses *)

Definition hex_digit (d : Z) : ascii :=
  match d with
  | 0 => "0" | 1 => "1" | 2 => "2" | 3 => "3" | 4 => "4" | 5 => "5" | 6 => "6"
  | 7 => "7" | 8 => "8" | 9 => "9" | 10 => "a" | 11 => "b" | 12 => "c"
  | 13 => "d" | 14 => "e" | _ => "f"
  end%char.

(** The hex digits of [n > 0], most significant first, in front of [acc]. *)
Fixpoint digits16 (fuel : nat) (n : Z) (acc : string) : string :=
  match fuel with
  | O => acc
  | S fuel =>
      if n =? 0 then acc
      else digits16 fuel (n / 16) (String (hex_digit (n mod 16)) acc)
  end.

(** [Number.prototype.toString(16)] on an integer. *)
Definition toString16 (n : Z) : string :=
  let magnitude (m : Z) : string :=
    if m =? 0 then "0" else digits16 (S (Z.to_nat (Z.log2 m))) m "" in
  if n <? 0 then String "-"%char (magnitude (- n)) else magnitude n.

Fixpoint repeat_char (c : ascii) (n : nat) : string :=
  match n with
  | O => ""
  | S n => String c (repeat_char c n)
  end.

(** [String.prototype.padStart(targetLength, padString)] with a pad of one
    character. *)
Definition padStart (targetLength : nat) (pad : ascii) (s : string) : string :=
  repeat_char pad (targetLength - String.length s) +:+ s.

(** [String.prototype.split(separator)] with a separator of one character. *)
Fixpoint split (separator : ascii) (s : string) : list string :=
  match s with
  | "" => [""]
  | String c s =>
      if Ascii.eqb c separator then "" :: split separator s
      else match split separator s with
           | first :: rest => String c first :: rest
           | [] => [String c ""]
           end
  end.

(** [String.prototype.substring(start, end)] for [start <= end]. *)
Definition substring (start end_ : nat) (s : string) : string :=
  String.substring start (end_ - start) s.

(** The value of a hex digit, in either case. *)
Definition digit_value (c : ascii) : option Z :=
  let n := Z.of_N (N_of_ascii c) in
  if (48 <=? n) && (n <=? 57) then Some (n - 48)
  else if (97 <=? n) && (n <=? 102) then Some (n - 87)
  else if (65 <=? n) && (n <=? 70) then Some (n - 55)
  else None.

(** The number read from the longest prefix of hex digits, after the digits
    read so far; [None] when there is no digit at all. *)
Fixpoint parse_digits (s : string) (acc : option Z) : option Z :=
  match s with
  | "" => acc
  | String c s =>
      match digit_value c with
      | Some d => parse_digits s (Some (default 0 acc * 16 + d))
      | None => acc
      end
  end.

Definition is_whitespace (c : ascii) : bool :=
  let n := N_of_ascii c in
  ((9 <=? n) && (n <=? 13))%N || (n =? 32)%N || (n =? 160)%N.

Fixpoint skip_whitespace (s : string) : string :=
  match s with
  | String c s' => if is_whitespace c then skip_whitespace s' else s
  | "" => s
  end.

(** [parseInt(s, 16)]: leading white space, a sign, an optional [0x], then
    hex digits; [None] is [NaN]. *)
Definition parseInt16 (s : string) : option Z :=
  let s := skip_whitespace s in
  let '(negative, s) :=
    match s with
    | String "-"%char s' => (true, s')
    | String "+"%char s' => (false, s')
    | _ => (false, s)
    end in
  let s :=
    match s with
    | String "0"%char (String "x"%char s')
    | String "0"%char (String "X"%char s') => s'
    | _ => s
    end in
  (fun n => if negative : bool then - n else n) <$> parse_digits s None.

(** Lowercase hex strings and their values. *)
Definition lower_hex (c : ascii) : Prop := ∃ d, 0 <= d < 16 ∧ c = hex_digit d.

Fixpoint all_hex (s : string) : Prop :=
  match s with
  | EmptyString => True
  | String c s => lower_hex c ∧ all_hex s
  end.

Fixpoint hex_value (s : string) : Z :=
  match s with
  | EmptyString => 0
  | String c s => default 0 (digit_value c) * 16 ^ Z.of_nat (String.length s) + hex_value s
  end.

Section Serialization.

(** Resume tokens, with [storage.serializeBson({ resumeToken })
    .toString('base64')] and its inverse. *)
Context {ResumeToken : Type}.
Variable serialize_token : ResumeToken → string.
Variable deserialize_token : string → ResumeToken.

(** [MongoLSNSpecification]; a [MongoLSN] holds one as its [options]. *)
Record MongoLSNSpecification := {
  timestamp : Timestamp;
  resume_token : option ResumeToken
}.

(** [segments.join(DELIMINATOR)]. *)
Fixpoint join (separator : ascii) (segments : list string) : string :=
  match segments with
  | [] => ""
  | [s] => s
  | s :: segments => s +:+ String separator (join separator segments)
  end.

(** [get comparable()]. *)
Definition comparable (this : MongoLSNSpecification) : string :=
  let a := padStart 8 "0"%char (toString16 (high (timestamp this))) in
  let b := padStart 8 "0"%char (toString16 (low (timestamp this))) in
  let segments :=
    [a +:+ b] ++ match resume_token this with
                | Some resumeToken => [serialize_token resumeToken]
                | None => []
                end in
  join DELIMINATOR segments.

(** [MongoLSN.deserialize], [None] when a word does not parse. *)
Definition deserialize (comparable : string) : option MongoLSNSpecification :=
  let segments := split DELIMINATOR comparable in
  let timestampString := default "" (segments !! 0%nat) in
  let resumeString := segments !! 1%nat in
  a ← parseInt16 (substring 0 8 timestampString);
  b ← parseInt16 (substring 8 16 timestampString);
  Some {| timestamp := fromBits b a;
          resume_token :=
            match resumeString with
            | Some r => if String.eqb r "" then None else Some (deserialize_token r)
            | None => None
            end |}.

Definition fromSerialized (comparable : string) : option MongoLSNSpecification :=
  deserialize comparable.

(** [MongoLSN.ZERO]. *)
Definition ZERO : option MongoLSNSpecification := fromSerialized ZERO_LSN.

(** Both words of the timestamp are non-negative: as unsigned words they
    are below 2^31 (for the high word, the seconds: a time before 19 January
    2038). *)
Definition words_in_range (t : Timestamp) : Prop :=
  0 <= high t < 2 ^ 31 ∧ 0 <= low t < 2 ^ 31.

(** What [comparable] and [fromSerialized] give for two LSNs: sixteen
    hex digits that spell the cluster time, high word first; string order
    that follows the order of the cluster times; the timestamp read back;
    [ZERO_LSN] below every LSN. *)
Definition order_and_roundtrip (x y : MongoLSNSpecification) : Prop :=
  (∃ digits rest,
     comparable x = digits +:+ rest
     ∧ String.length digits = 16%nat ∧ all_hex digits
     ∧ hex_value digits = time_of (timestamp x))
  ∧ (time_of (timestamp x) < time_of (timestamp y) →
     String.compare (comparable x) (comparable y) = Lt)
  ∧ (time_of (timestamp y) < time_of (timestamp x) →
     String.compare (comparable x) (comparable y) = Gt)
  ∧ (resume_token x = None → resume_token y = None →
     String.compare (comparable x) (comparable y)
     = (time_of (timestamp x) ?= time_of (timestamp y)))
  ∧ timestamp <$> fromSerialized (comparable x) = Some (timestamp x)
  ∧ String.leb ZERO_LSN (comparable x) = true.

(** *** Resume tokens *)

(** [Buffer.from(hex, 'hex')]: one byte for every two hex digits, up to the
    first pair that is not two hex digits; a single last character is
    dropped. *)
Fixpoint from_hex (hex : string) : list Z :=
  match hex with
  | String a (String b hex) =>
      match digit_value a, digit_value b with
      | Some x, Some y => (16 * x + y) :: from_hex hex
      | _, _ => []
      end
  | _ => []
  end.

(** What [parseResumeTokenTimestamp] throws: its own [Error], with the
    message, or the [RangeError] of a [DataView] read outside the buffer. *)
Inductive Error :=
| InvalidResumeToken (message : string)
| RangeError.

(** [view.getUint8(byteOffset)]. *)
Definition getUint8 (view : list Z) (byteOffset : nat) : Z + Error :=
  match view !! byteOffset with
  | Some b => inl b
  | None => inr RangeError
  end.

(** [view.getUint32(byteOffset)], big-endian. *)
Definition getUint32 (view : list Z) (byteOffset : nat) : Z + Error :=
  match view !! byteOffset, view !! (byteOffset + 1)%nat,
        view !! (byteOffset + 2)%nat, view !! (byteOffset + 3)%nat with
  | Some a, Some b, Some c, Some d => inl (((a * 256 + b) * 256 + c) * 256 + d)
  | _, _, _, _ => inr RangeError
  end.

(** [(resumeToken as any)._data as string]. *)
Variable _data : ResumeToken → string.

Definition parseResumeTokenTimestamp (resumeToken : ResumeToken) : Timestamp + Error :=
  let hex := _data resumeToken in
  let buffer := from_hex hex in
  match getUint8 buffer 0 with
  | inr e => inr e
  | inl first =>
      if negb (first =? 130)
      then inr (InvalidResumeToken ("Invalid resume token: " +:+ hex))
      else match getUint32 buffer 1 with
           | inr e => inr e
           | inl t =>
               match getUint32 buffer 5 with
               | inr e => inr e
               | inl i => inl (fromBits i t)
               end
           end
  end.

(** [MongoLSN.fromResumeToken]. *)
Definition fromResumeToken (resumeToken : ResumeToken) : MongoLSNSpecification + Error :=
  match parseResumeTokenTimestamp resumeToken with
  | inl timestamp => inl {| timestamp := timestamp; resume_token := Some resumeToken |}
  | inr e => inr e
  end.

(** Hex digits of either case. *)
Fixpoint hex_digits (s : string) : bool :=
  match s with
  | EmptyString => true
  | String c s => bool_decide (is_Some (digit_value c)) && hex_digits s
  end.

(** No [DELIMINATOR] in the string. *)
Fixpoint undelimited (s : string) : bool :=
  match s with
  | EmptyString => true
  | String c s => negb (Ascii.eqb c DELIMINATOR) && undelimited s
  end.

End Serialization.

(** *** Two LSNs of the same second *)

Definition lsn_plain : @MongoLSNSpecification string :=
  {| timestamp := {| high := 1700000000; low := 5 |}; resume_token := None |}.

Definition lsn_with_token : @MongoLSNSpecification string :=
  {| timestamp := {| high := 1700000000; low := 6 |}; resume_token := Some "gmVT8QAAAAY=" |}.

(** A resume token as its [_data]: a change at cluster time
    (1700000000, 6). *)
Definition token_data : string := "826553F100000000062B022C0100296E5A1004".

End MongoLSN.

(** * Proofs *)

(** ** 32-bit arithmetic *)

Lemma ToInt32_mod (x : Z) : ToInt32 (x mod 2 ^ 32) = ToInt32 x.
Proof. unfold ToInt32. by rewrite Z.mod_mod. Qed.

Lemma ToInt32_congr (x y : Z) : x mod 2 ^ 32 = y mod 2 ^ 32 → ToInt32 x = ToInt32 y.
Proof. unfold ToInt32. by intros ->. Qed.

Lemma ToInt32_mod_eq (x : Z) : ToInt32 x mod 2 ^ 32 = x mod 2 ^ 32.
Proof.
  unfold ToInt32. cbv zeta.
  destruct (Z.leb_spec (2 ^ 31) (x mod 2 ^ 32)) as [H|H].
  - replace (x mod 2 ^ 32 - 2 ^ 32) with (x mod 2 ^ 32 + (-1) * 2 ^ 32) by lia.
    by rewrite Z.mod_add, Z.mod_mod.
  - by rewrite Z.mod_mod.
Qed.

Lemma ToInt32_idemp (x : Z) : ToInt32 (ToInt32 x) = ToInt32 x.
Proof. apply ToInt32_congr, ToInt32_mod_eq. Qed.

Lemma ToInt32_range (x : Z) : - 2 ^ 31 <= ToInt32 x < 2 ^ 31.
Proof.
  unfold ToInt32. cbv zeta.
  pose proof (Z.mod_pos_bound x (2 ^ 32) ltac:(lia)).
  destruct (Z.leb_spec (2 ^ 31) (x mod 2 ^ 32)); lia.
Qed.

Lemma js_bitand_mask (x : Z) :
  js_bitand (Z.land x 0xffffffff) 0xffffffff = ToInt32 x.
Proof.
  unfold js_bitand.
  change (ToInt32 0xffffffff) with (-1).
  rewrite Z.land_m1_r, ToInt32_idemp.
  change 0xffffffff with (Z.ones 32).
  rewrite Z.land_ones by lia.
  apply ToInt32_mod.
Qed.

Lemma add32_ToInt32 (x y : Z) : add32 (ToInt32 x) (ToInt32 y) = ToInt32 (x + y).
Proof.
  unfold add32. apply ToInt32_congr.
  rewrite Z.add_mod, !ToInt32_mod_eq, <- Z.add_mod; lia.
Qed.

(** ** Partial checksums *)

Module PostgresSyncRulesStorageFacts.
Import PostgresSyncRulesStorage.

Lemma lookup_group_fold (rows : list BucketDataRow) (m : gmap string ResultRow) (k : string) :
  foldl (fun m b => <[bucket_name b := aggregate (m !! bucket_name b) b]> m) m rows !! k
  = fold_group (m !! k) (filter (fun b => bucket_name b = k) rows).
Proof.
  revert m. induction rows as [|b rows IH]; intros m; [done|].
  cbn [foldl]. rewrite IH, filter_cons.
  destruct (decide (bucket_name b = k)) as [->|Hne].
  - by rewrite lookup_insert_eq.
  - by rewrite lookup_insert_ne.
Qed.

Lemma fold_group_spec (l : list BucketDataRow) (g : option ResultRow) :
  0 <= clr g <= 1 →
  tot (fold_group g l) = tot g + sum_checksums l
  ∧ cnt (fold_group g l) = cnt g + Z.of_nat (length l)
  ∧ clr (fold_group g l) = Z.max (clr g) (if has_clear l then 1 else 0).
Proof.
  revert g. induction l as [|b l IH]; intros g Hg.
  - unfold fold_group, sum_checksums, has_clear. cbn [foldl foldr existsb length].
    repeat split; lia.
  - cbn [fold_group foldl]. fold (fold_group (Some (aggregate g b)) l).
    assert (Hc : 0 <= clear_case (op b) <= 1)
      by (unfold clear_case; destruct (OpType_eqb _ _); lia).
    destruct (IH (Some (aggregate g b))) as (Ht & Hn & Hk).
    { destruct g; cbn in *; lia. }
    rewrite Ht, Hn, Hk. cbn [sum_checksums foldr has_clear existsb length].
    fold (sum_checksums l). fold (has_clear l).
    unfold clear_case in *.
    destruct g as [r|]; cbn in *; unfold clear_case in *;
      destruct (op b), (has_clear l); cbn in *; repeat split; lia.
Qed.

Lemma joined_one_filter (gid : Z) (data : list BucketDataRow) (f : FilterRow) :
  joined gid data [f] = filter (fun b => group_id b = gid ∧ join_on b f = true) data.
Proof.
  unfold joined. induction data as [|b data IH]; [done|].
  rewrite !filter_cons.
  destruct (decide (group_id b = gid)) as [Hg|Hg].
  - cbn [flat_map]. rewrite IH, filter_cons, filter_nil.
    destruct (join_on b f) eqn:E.
    + rewrite decide_True by done. by rewrite decide_True by done.
    + rewrite decide_False by done. by rewrite decide_False by (intros [_ ?]; done).
  - rewrite IH. by rewrite decide_False by (intros [? _]; done).
Qed.

Lemma joined_single (gid : Z) (data : list BucketDataRow) (f : FilterRow) (k : string) :
  filter (fun b => bucket_name b = k) (joined gid data [f])
  = if decide (f_bucket_name f = k)
    then ops_in gid data k (start_op_id f) (end_op_id f) else [].
Proof.
  rewrite joined_one_filter, list_filter_filter. unfold ops_in, join_on.
  destruct (decide (f_bucket_name f = k)) as [<-|Hk].
  - apply list_filter_iff. intros b.
    rewrite !andb_true_iff, bool_decide_eq_true, Z.ltb_lt, Z.leb_le. tauto.
  - induction data as [|b data IH]; [done|].
    rewrite filter_cons, IH, decide_False; [done|].
    rewrite !andb_true_iff, bool_decide_eq_true. intros (? & ? & (? & ?) & ?). congruence.
Qed.

(** What [getChecksumsInternal] returns for one bucket and one range, in
    closed form. *)
Lemma checksum_range_eq (gid : Z) (data : list BucketDataRow) (name : string)
    (start : option Z) (end_ : Z) :
  let ops := ops_in gid data name (default 0 start) end_ in
  checksum_range gid data name start end_
  = {| bucket := name;
       partialCount := Z.of_nat (length ops);
       partialChecksum := ToInt32 (sum_checksums ops);
       isFullChecksum := has_clear ops |}.
Proof.
  intros ops. unfold checksum_range, partial_of, getChecksumsInternal.
  rewrite map_lookup_imap. unfold group_by_bucket.
  rewrite lookup_group_fold, lookup_empty. unfold rangedBatch. cbn [map].
  rewrite joined_single. cbn [f_bucket_name start_op_id end_op_id fetch_bucket
    fetch_start fetch_end].
  rewrite decide_True by done. fold ops.
  destruct (fold_group_spec ops None) as (Ht & Hn & Hk); [cbn; lia|].
  destruct (fold_group None ops) as [r|] eqn:E; cbn in *.
  - unfold to_partial. rewrite js_bitand_mask. f_equal; [lia|by rewrite Ht|].
    rewrite Hk. by destruct (has_clear ops).
  - assert (length ops = 0%nat) as Hl by lia.
    destruct ops; [|done]. done.
Qed.

Lemma ops_in_split_sum (gid : Z) (data : list BucketDataRow) (name : string) (a b c : Z) :
  a <= b <= c →
  sum_checksums (ops_in gid data name a c)
  = sum_checksums (ops_in gid data name a b) + sum_checksums (ops_in gid data name b c)
  ∧ length (ops_in gid data name a c)
    = (length (ops_in gid data name a b) + length (ops_in gid data name b c))%nat.
Proof.
  intros Habc. unfold ops_in, sum_checksums.
  induction data as [|r data [IHs IHl]]; [done|].
  rewrite !filter_cons.
  repeat case_decide; cbn [foldr length]; rewrite ?IHs, ?IHl; try (split; lia).
  all: exfalso; intuition lia.
Qed.

Lemma has_clear_true (l : list BucketDataRow) :
  has_clear l = true ↔ ∃ r, r ∈ l ∧ op r = CLEAR.
Proof.
  unfold has_clear. rewrite existsb_exists. split.
  - intros (r & Hin & Hop). exists r. split; [by apply list_elem_of_In|].
    by destruct (op r).
  - intros (r & Hin & Hop). exists r. split; [by apply list_elem_of_In|].
    by rewrite Hop.
Qed.

Lemma filter_ext_elem {A} (P Q : A → Prop) `{!∀ x, Decision (P x)} `{!∀ x, Decision (Q x)}
    (l : list A) :
  (∀ x, x ∈ l → P x ↔ Q x) → filter P l = filter Q l.
Proof.
  induction l as [|x l IH]; intros Hext; [done|].
  rewrite !filter_cons, IH by (intros y Hy; apply Hext; by right).
  destruct (decide (P x)) as [HP|HP], (decide (Q x)) as [HQ|HQ]; try done.
  - exfalso. apply HQ, Hext; [by left|done].
  - exfalso. apply HP, Hext; [by left|done].
Qed.

Lemma has_clear_app (l1 l2 : list BucketDataRow) :
  has_clear (l1 ++ l2) = has_clear l1 || has_clear l2.
Proof. unfold has_clear. apply existsb_app. Qed.

Lemma ops_in_split_clear (gid : Z) (data : list BucketDataRow) (name : string) (a b c : Z) :
  a <= b <= c →
  has_clear (ops_in gid data name a c)
  = has_clear (ops_in gid data name a b) || has_clear (ops_in gid data name b c).
Proof.
  intros Habc. unfold ops_in, has_clear.
  induction data as [|r data IH]; [done|].
  rewrite !filter_cons.
  repeat case_decide; cbn [existsb]; rewrite ?IH;
    try (by destruct (OpType_eqb (op r) CLEAR), (existsb _ _), (existsb _ _)).
  all: exfalso; intuition lia.
Qed.

(** The ops of [(a, c]] are those of [(0, c]] exactly when the bucket
    stores no op in [(0, a]]. *)
Lemma ops_in_from_zero (gid : Z) (data : list BucketDataRow) (name : string) (a c : Z) :
  0 <= a <= c →
  ops_in gid data name 0 a = [] → ops_in gid data name a c = ops_in gid data name 0 c.
Proof.
  intros Hac Hnil. unfold ops_in. apply filter_ext_elem. intros r Hr.
  split; intros (Hg & Hn & Hlo & Hhi); repeat split; auto; try lia.
  destruct (Z.lt_ge_cases a (op_id r)) as [?|Hle]; [done|].
  assert (r ∈ ops_in gid data name 0 a) as Hin
    by (apply list_elem_of_filter; repeat split; auto; lia).
  rewrite Hnil in Hin. by apply elem_of_nil in Hin.
Qed.

End PostgresSyncRulesStorageFacts.

Module ChecksumAdditivity.
Import PostgresSyncRulesStorage PostgresSyncRulesStorageFacts.

(** C1, with what a CLEAR in the range gives.  For a bucket [name] and
    op-id bounds [a < b < c], write [ck x y] for the partial checksum that
    [getChecksumsInternal] computes for the range [(x, y]].
    - The checksum over [(a, c]] is the 32-bit two's-complement sum of the
      checksums over [(a, b]] and [(b, c]], and the counts add; the result
      is flagged when one of the two parts is, so with no CLEAR in [(a, c]]
      it is not flagged.
    - The result over any range is flagged [isFullChecksum] exactly when an
      op of the range is a CLEAR.
    - A flagged result is still computed from the ops of its range only:
      the checksum over [(0, c]] is the sum of those over [(0, a]] and
      [(a, c]], and the result over [(a, c]] is the one over [(0, c]], the
      full checksum from 0, exactly when the bucket stores no op at or
      below [a]. *)
Theorem checksum_additivity (gid : Z) (data : list BucketDataRow) (name : string)
    (a b c : Z) :
  0 <= a → a < b → b < c →
  let ck x y := checksum_range gid data name x y in
  (partialChecksum (ck (Some a) c)
     = add32 (partialChecksum (ck (Some a) b)) (partialChecksum (ck (Some b) c))
   ∧ partialCount (ck (Some a) c)
     = partialCount (ck (Some a) b) + partialCount (ck (Some b) c)
   ∧ isFullChecksum (ck (Some a) c)
     = isFullChecksum (ck (Some a) b) || isFullChecksum (ck (Some b) c)
   ∧ (has_clear (ops_in gid data name a c) = false →
      isFullChecksum (ck (Some a) c) = false))
  ∧ (∀ lo hi, isFullChecksum (ck lo hi) = has_clear (ops_in gid data name (default 0 lo) hi))
  ∧ (has_clear (ops_in gid data name a c) = true →
       isFullChecksum (ck (Some a) c) = true
       ∧ partialChecksum (ck None c)
         = add32 (partialChecksum (ck None a)) (partialChecksum (ck (Some a) c))
       ∧ partialCount (ck None c) = partialCount (ck None a) + partialCount (ck (Some a) c)
       ∧ (ck (Some a) c = ck None c ↔ ops_in gid data name 0 a = [])).
Proof.
  intros Ha Hab Hbc ck. subst ck. cbv beta.
  destruct (ops_in_split_sum gid data name a b c) as [Hs Hl]; [lia|].
  destruct (ops_in_split_sum gid data name 0 a c) as [Hs0 Hl0]; [lia|].
  rewrite !checksum_range_eq.
  cbn [partialChecksum partialCount isFullChecksum default]. unfold id.
  split; [|split].
  - rewrite add32_ToInt32, Hs, Hl, Nat2Z.inj_add.
    split; [done|]. split; [done|]. split; [|done].
    apply ops_in_split_clear. lia.
  - intros lo hi. by rewrite checksum_range_eq.
  - intros Hclear. split; [done|].
    split; [by rewrite add32_ToInt32, Hs0|].
    split; [by rewrite Hl0, Nat2Z.inj_add|]. split.
    + intros Heq. apply (f_equal partialCount) in Heq. cbn [partialCount] in Heq.
      apply length_zero_iff_nil. lia.
    + intros Hnil. by rewrite (ops_in_from_zero gid data name a c ltac:(lia) Hnil).
Qed.

Lemma checksum_additivity_witness :
  (0 <= 2 ∧ 2 < 4 ∧ 4 < 6)
  ∧ has_clear (ops_in 1 bucket_compacted "global[]" 2 6) = true
  ∧ partialChecksum (checksum_range 1 bucket_compacted "global[]" (Some 2) 6)
    = add32 (partialChecksum (checksum_range 1 bucket_compacted "global[]" (Some 2) 4))
            (partialChecksum (checksum_range 1 bucket_compacted "global[]" (Some 4) 6))
  ∧ checksum_range 1 bucket_compacted "global[]" (Some 2) 6
    = checksum_range 1 bucket_compacted "global[]" None 6.
Proof.
  split; [lia|]. split; [reflexivity|].
  destruct (checksum_additivity 1 bucket_compacted "global[]" 2 4 6)
    as ((Hsum & _) & _ & Hfull); [lia|lia|lia|].
  split; [exact Hsum|].
  destruct (Hfull eq_refl) as (_ & _ & _ & Hiff). by apply Hiff.
Defined.

(** C1, counterexample.  Op 1 of the bucket is stored below the CLEAR at op
    3.  The checksum over [(2, 4]] is flagged as a full checksum, but it is
    not the checksum over [(0, 4]]: it leaves out op 1. *)
Lemma flagged_checksum_is_not_from_zero :
  has_clear (ops_in 1 bucket_with_earlier_op "global[]" 2 4) = true
  ∧ checksum_range 1 bucket_with_earlier_op "global[]" (Some 2) 4
    = {| bucket := "global[]"; partialCount := 2; partialChecksum := 37;
         isFullChecksum := true |}
  ∧ checksum_range 1 bucket_with_earlier_op "global[]" None 4
    = {| bucket := "global[]"; partialCount := 3; partialChecksum := 42;
         isFullChecksum := true |}.
Proof. repeat split; vm_compute; reflexivity. Qed.

Example checksum_range_wraps :
  checksum_range 1 bucket_plain "global[]" (Some 0) 3
  = {| bucket := "global[]"; partialCount := 3; partialChecksum := - 2 ^ 31 + 0x10;
       isFullChecksum := false |}.
Proof. vm_compute. reflexivity. Qed.

End ChecksumAdditivity.
(** ** The chunks of getBucketDataBatch *)

Module BucketDataChunks.
Import PostgresBucketData.

Section Facts.
Context {OplogEntry ReplicaId : Type}.
Variable mapOpEntry : BucketData → OplogEntry.
Variable set_subkey : string → OplogEntry → OplogEntry.
Variable entry_op_id : OplogEntry → string.
Variable replicaIdToSubkey : string → ReplicaId → string.
Variable deserializeReplicaId : string → ReplicaId.
Variable internalToExternalOpId : Z → string.
Variable dataBuckets : gmap string Z.
Variable chunkSizeLimitBytes batchRowLimit : Z.

Local Abbreviation SyncBucketData := (@SyncBucketData OplogEntry).
Local Abbreviation SyncBucketDataChunk := (@SyncBucketDataChunk OplogEntry).
Local Abbreviation Locals := (@Locals OplogEntry).
Local Abbreviation entry_of :=
  (entry_of mapOpEntry set_subkey replicaIdToSubkey deserializeReplicaId).
Local Abbreviation chunk_of :=
  (chunk_of mapOpEntry set_subkey entry_op_id replicaIdToSubkey deserializeReplicaId
     internalToExternalOpId dataBuckets).
Local Abbreviation chunks_of :=
  (chunks_of mapOpEntry set_subkey entry_op_id replicaIdToSubkey deserializeReplicaId
     internalToExternalOpId dataBuckets).
Local Abbreviation loop_inv :=
  (loop_inv mapOpEntry set_subkey entry_op_id replicaIdToSubkey deserializeReplicaId
     internalToExternalOpId dataBuckets chunkSizeLimitBytes batchRowLimit).
Local Abbreviation row_step :=
  (row_step mapOpEntry set_subkey entry_op_id replicaIdToSubkey deserializeReplicaId
     internalToExternalOpId dataBuckets chunkSizeLimitBytes batchRowLimit).
Local Abbreviation rows_loop :=
  (rows_loop mapOpEntry set_subkey entry_op_id replicaIdToSubkey deserializeReplicaId
     internalToExternalOpId dataBuckets chunkSizeLimitBytes batchRowLimit).
Local Abbreviation stream_loop :=
  (stream_loop mapOpEntry set_subkey entry_op_id replicaIdToSubkey deserializeReplicaId
     internalToExternalOpId dataBuckets chunkSizeLimitBytes batchRowLimit).
Local Abbreviation getBucketDataBatch :=
  (getBucketDataBatch mapOpEntry set_subkey entry_op_id replicaIdToSubkey
     deserializeReplicaId internalToExternalOpId dataBuckets chunkSizeLimitBytes
     batchRowLimit).
Local Abbreviation within_limits := (within_limits chunkSizeLimitBytes batchRowLimit).

(** The chunk before the next one. *)
Local Abbreviation previous_of prev chunks :=
  (match last chunks with Some c => Some (chunkData c) | None => prev end).

Lemma chunks_of_snoc (prev : option SyncBucketData) (groups : list (list BucketData))
    (chunks : list SyncBucketDataChunk) (group : list BucketData) (c : SyncBucketDataChunk) :
  chunks_of prev (groups ++ [group]) (chunks ++ [c])
  ↔ chunks_of prev groups chunks ∧ chunk_of (previous_of prev chunks) group c.
Proof.
  revert prev chunks. induction groups as [|g groups IH]; intros prev chunks.
  - destruct chunks as [|c' chunks]; cbn.
    + tauto.
    + split; [|tauto]. intros [_ H]. by destruct chunks.
  - destruct chunks as [|c' chunks]; cbn.
    + split; [|tauto]. intros [_ H]. by destruct groups.
    + rewrite IH. destruct chunks as [|c'' chunks]; [cbn; tauto|].
      rewrite !last_cons_cons. destruct (last (c'' :: chunks)) eqn:E; [tauto|].
      by apply last_None in E.
Qed.

Lemma chunks_of_data (prev : option SyncBucketData) (groups : list (list BucketData))
    (chunks : list SyncBucketDataChunk) :
  chunks_of prev groups chunks →
  flat_map (fun c => chunk_data (chunkData c)) chunks = map entry_of (concat groups).
Proof.
  revert prev chunks. induction groups as [|g groups IH]; intros prev [|c chunks]; cbn; try done.
  intros [(_ & _ & Hd & _) H]. rewrite map_app, Hd. f_equal. by eapply IH.
Qed.

Lemma max_target_op_snoc (group : list BucketData) (row : BucketData) :
  max_target_op (group ++ [row])
  = match target_op row with
    | Some t => match max_target_op group with
                | None => Some t
                | Some t' => if t' <? t then Some t else Some t'
                end
    | None => max_target_op group
    end.
Proof. unfold max_target_op. by rewrite foldl_app. Qed.

Lemma total_size_snoc (group : list BucketData) (row : BucketData) :
  total_size (group ++ [row]) = total_size group + rowSizeBytes row.
Proof. unfold total_size. induction group as [|r group IH]; cbn; lia. Qed.

(** The chunk of a group does not depend on its own [has_more]. *)
Lemma chunk_of_has_more (prev : option SyncBucketData) (group : list BucketData)
    (c : SyncBucketData) (tgt : option Z) (more : bool) :
  chunk_of prev group {| chunkData := c; targetOp := tgt |} →
  chunk_of prev group
    {| chunkData := {| bucket := bucket c; after := after c; has_more := more;
                       chunk_data := chunk_data c; next_after := next_after c |};
       targetOp := tgt |}.
Proof. by intros H. Qed.

(** One row, of a bucket that was asked for and short of the row limit:
    the loop goes on, and the chunks stay made of consecutive groups. *)
Lemma row_step_inv (done : list BucketData) (row : BucketData) (st : Locals) :
  loop_inv done st →
  is_Some (dataBuckets !! bucket_name row) →
  Z.of_nat (length done) < batchRowLimit →
  ∃ st', row_step row st = Continue st' ∧ loop_inv (done ++ [row]) st'.
Proof.
  intros [Hcount Hinv] [start Hstart] Hlimit. unfold PostgresBucketData.row_step.
  assert (Hnew : ∀ prev, chunk_of prev [row]
            {| chunkData :=
                 {| bucket := bucket_name row;
                    after := match prev with
                             | Some p => if bool_decide (bucket p = bucket_name row)
                                         then next_after p
                                         else internalToExternalOpId start
                             | None => internalToExternalOpId start
                             end;
                    has_more := false;
                    chunk_data := [entry_of row];
                    next_after := entry_op_id (entry_of row) |};
               targetOp := match target_op row with
                           | Some rowTargetOp => Some rowTargetOp
                           | None => None
                           end |}
            ↔ match prev with
              | Some p => has_more p = bool_decide (bucket p = bucket_name row)
              | None => True
              end).
  { intros prev. unfold PostgresBucketData.chunk_of, max_target_op. cbn.
    rewrite Hstart. cbn. split; [by intros (_ & _ & _ & _ & _ & _ & H)|].
    intros H. repeat split; try done; try (by repeat constructor);
      try (by destruct (target_op row)).
    destruct prev as [p|]; [|done]. by case_bool_decide. }
  destruct (currentChunk st) as [c|] eqn:Hc.
  - destruct Hinv as (groups & group & -> & Hchunks & Hmore & Hsize & Hlimits).
    apply chunks_of_snoc in Hchunks as [Hchunks Hopen].
    apply Forall_app in Hlimits as [Hlimits Hgroup%Forall_inv].
    pose proof Hopen as (Hne & Hbucket & Hdata & Hnext & Htarget & Hafter & Hprev).
    cbn in Hbucket, Hdata, Hnext, Htarget, Hafter, Hprev.
    assert (Hlen : length (chunk_data c) = length group) by (by rewrite Hdata, length_map).
    destruct (negb (bool_decide (bucket c = bucket_name row))
              || sizeExceeded chunkSizeLimitBytes batchRowLimit st row) eqn:Hclose.
    + cbn [batchRowCount]. rewrite Hcount.
      rewrite (proj2 (Z.leb_gt batchRowLimit _)) by lia.
      unfold open_chunk. cbn [fmap option_fmap option_map]. rewrite Hstart.
      set (same := bool_decide (bucket c = bucket_name row)).
      set (c_y := if same
                  then {| bucket := bucket c; after := after c; has_more := true;
                          chunk_data := chunk_data c; next_after := next_after c |}
                  else c).
      assert (Hcy : bucket c_y = bucket c ∧ next_after c_y = next_after c ∧ has_more c_y = same
                    ∧ chunk_of (previous_of None (yielded st)) group
                        {| chunkData := c_y; targetOp := current_targetOp st |}).
      { subst c_y. destruct same; [|done]. by repeat split. }
      destruct Hcy as (Hcy1 & Hcy2 & Hcy3 & Hcy4).
      assert (Hstart' : match (if same then Some (next_after c) else None) with
                        | Some s => Some s
                        | None => internalToExternalOpId <$> Some start
                        end
                        = Some (if same then next_after c else internalToExternalOpId start))
        by (by destruct same).
      rewrite Hstart'. eexists. split; [reflexivity|].
      split; [cbn; rewrite !length_app; cbn; lia|].
      unfold push_row;
        cbn [currentChunk yielded current_targetOp chunkSizeBytes batchRowCount
             bucket after has_more chunk_data next_after app]. exists (groups ++ [group]), [row].
      split; [by rewrite concat_app; cbn; rewrite app_nil_r|].
      split; [|split; [done|split]].
      * cbn [yielded]. apply chunks_of_snoc. split; [by apply chunks_of_snoc|].
        rewrite last_snoc. cbn [chunkData].
        specialize (Hnew (Some c_y)). cbn in Hnew. rewrite Hcy1, Hcy2, Hcy3 in Hnew.
        fold same in Hnew. by apply Hnew.
      * cbn. unfold total_size. cbn. lia.
      * apply Forall_app. split; [by apply Forall_app; split; [|apply Forall_singleton]|].
        apply Forall_singleton. split; [cbn; lia|by right].
    + apply orb_false_elim in Hclose as [Hsame Hnot].
      apply negb_false_iff, bool_decide_eq_true in Hsame.
      unfold sizeExceeded in Hnot. rewrite Hc in Hnot.
      apply orb_false_elim in Hnot as [Hnot Hrows].
      apply orb_false_elim in Hnot as [Hbytes Hfit].
      apply Z.leb_gt in Hbytes, Hrows.
      assert (Hfits : chunkSizeBytes st + rowSizeBytes row <= chunkSizeLimitBytes).
      { apply andb_false_iff in Hfit as [Hz|Hfit]; [|by apply Z.ltb_ge in Hfit].
        apply negb_false_iff, bool_decide_eq_true in Hz. rewrite Hlen in Hz.
        by destruct group. }
      eexists. split; [reflexivity|].
      split; [cbn; rewrite Hcount, !length_app; cbn; lia|].
      unfold push_row;
        cbn [currentChunk yielded current_targetOp chunkSizeBytes batchRowCount
             bucket after has_more chunk_data next_after app]. exists groups, (group ++ [row]).
      split; [by rewrite app_assoc|]. split; [|split; [done|split]].
      * cbn [yielded]. apply chunks_of_snoc. split; [done|].
        unfold PostgresBucketData.chunk_of. cbn.
        split; [by destruct group|]. split; [apply Forall_app; split; [done|by repeat constructor]|].
        split; [by rewrite map_app, Hdata|]. split; [by rewrite last_snoc|].
        split; [by rewrite max_target_op_snoc, Htarget|]. done.
      * cbn. rewrite total_size_snoc. lia.
      * apply Forall_app. split; [done|]. apply Forall_singleton.
        split; [rewrite length_app; cbn; lia|]. left. rewrite total_size_snoc. lia.
  - destruct Hinv as (-> & Hy & Hzero). unfold open_chunk. rewrite Hstart. cbn [fmap option_fmap option_map].
    eexists. split; [reflexivity|]. split; [cbn in *; lia|].
    unfold push_row;
        cbn [currentChunk yielded current_targetOp chunkSizeBytes batchRowCount
             bucket after has_more chunk_data next_after app]. exists [], [row]. split; [done|].
    split; [|split; [done|split]].
    + cbn [yielded]. rewrite Hy. cbn. split; [|done]. by apply (Hnew None).
    + rewrite Hzero. unfold total_size. cbn. lia.
    + apply Forall_singleton. split; [cbn; lia|by right].
Qed.

Lemma rows_loop_inv (done rows : list BucketData) (st : Locals) :
  loop_inv done st →
  Forall (fun row => is_Some (dataBuckets !! bucket_name row)) rows →
  Z.of_nat (length (done ++ rows)) <= batchRowLimit →
  ∃ st', rows_loop rows st = Continue st' ∧ loop_inv (done ++ rows) st'.
Proof.
  revert done st. induction rows as [|row rows IH]; intros done st Hinv Hknown Hlimit.
  - exists st. by rewrite app_nil_r.
  - apply Forall_cons in Hknown as [Hrow Hknown].
    destruct (row_step_inv done row st Hinv Hrow) as (st1 & Hstep & Hinv1).
    { rewrite length_app in Hlimit. cbn in Hlimit. lia. }
    cbn. rewrite Hstep.
    replace (done ++ row :: rows) with ((done ++ [row]) ++ rows) in * by (by rewrite <- app_assoc).
    by apply IH.
Qed.

Lemma stream_loop_inv (done : list BucketData) (stream : list (list BucketData))
    (st : Locals) :
  loop_inv done st →
  Forall (fun row => is_Some (dataBuckets !! bucket_name row)) (concat stream) →
  Z.of_nat (length (done ++ concat stream)) <= batchRowLimit →
  ∃ st', stream_loop stream st = inl st' ∧ loop_inv (done ++ concat stream) st'.
Proof.
  revert done st. induction stream as [|rows stream IH]; intros done st Hinv Hknown Hlimit.
  - exists st. cbn. by rewrite app_nil_r.
  - cbn in Hknown, Hlimit. apply Forall_app in Hknown as [Hrows Hknown].
    destruct (rows_loop_inv done rows st Hinv Hrows) as (st1 & Hloop & Hinv1).
    { rewrite !length_app in *. lia. }
    cbn. rewrite Hloop, app_assoc. apply IH; [done|done|by rewrite <- app_assoc].
Qed.

Lemma loop_inv_start : loop_inv [] start_locals.
Proof. by split. Qed.

(** Everything about the result of a query that stays within the row limit
    and only has rows of the buckets asked for. *)
Lemma getBucketDataBatch_groups (stream : list (list BucketData)) :
  size dataBuckets ≠ 0%nat →
  Forall (fun row => is_Some (dataBuckets !! bucket_name row)) (concat stream) →
  Z.of_nat (length (concat stream)) <= batchRowLimit →
  ∃ chunks groups,
    getBucketDataBatch stream = (chunks, None)
    ∧ concat groups = concat stream
    ∧ chunks_of None groups chunks
    ∧ Forall within_limits groups
    ∧ (∀ c, last chunks = Some c →
         has_more (chunkData c) = (batchRowLimit <=? Z.of_nat (length (concat stream)))).
Proof.
  intros Hsize Hknown Hlimit. unfold PostgresBucketData.getBucketDataBatch.
  rewrite bool_decide_eq_false_2 by done.
  destruct (stream_loop_inv [] stream start_locals loop_inv_start Hknown Hlimit)
    as (st & -> & Hcount & Hinv). cbn [app] in *.
  destruct (currentChunk st) as [c|].
  - destruct Hinv as (groups & group & Hdone & Hchunks & Hmore & _ & Hlimits).
    eexists _, (groups ++ [group]). split; [reflexivity|].
    split; [by rewrite concat_app; cbn; rewrite app_nil_r|].
    apply chunks_of_snoc in Hchunks as [Hchunks Hopen].
    split; [|split; [done|]].
    + apply chunks_of_snoc. split; [done|]. by apply (chunk_of_has_more _ _ c).
    + intros c'. rewrite last_snoc. intros [= <-]. cbn. by rewrite Hcount.
  - destruct Hinv as (Hdone & -> & _). exists [], []. rewrite Hdone. by repeat split.
Qed.

(** With a query result that stays within the row limit and only has rows
    of the buckets asked for, [getBucketDataBatch] throws nothing and cuts
    the rows, in their order and without losing or repeating one, into
    consecutive chunks: each chunk holds rows of one bucket, its
    [next_after] is the op id of its last entry and its [targetOp] the
    largest target op of its rows; it starts after the position asked for,
    or where the previous chunk stopped when that one is of the same bucket,
    which is exactly when the previous chunk says [has_more].  The last
    chunk says [has_more] exactly when the row limit was reached. *)
Theorem getBucketDataBatch_chunks (stream : list (list BucketData)) :
  size dataBuckets ≠ 0%nat →
  Forall (fun row => is_Some (dataBuckets !! bucket_name row)) (concat stream) →
  Z.of_nat (length (concat stream)) <= batchRowLimit →
  ∃ chunks groups,
    getBucketDataBatch stream = (chunks, None)
    ∧ concat groups = concat stream
    ∧ chunks_of None groups chunks
    ∧ flat_map (fun c => chunk_data (chunkData c)) chunks = map entry_of (concat stream)
    ∧ (∀ c, last chunks = Some c →
         has_more (chunkData c) = (batchRowLimit <=? Z.of_nat (length (concat stream)))).
Proof.
  intros Hsize Hknown Hlimit.
  destruct (getBucketDataBatch_groups stream Hsize Hknown Hlimit)
    as (chunks & groups & Hr & Hg & Hc & _ & Hlast).
  exists chunks, groups. repeat split; try done.
  rewrite <- Hg. by eapply chunks_of_data.
Qed.

(** The chunks respect the limits: a chunk holds at most [batchRowLimit]
    rows, and more than [chunkSizeLimitBytes] bytes of row data only when it
    holds a single row. *)
Theorem getBucketDataBatch_limits (stream : list (list BucketData)) :
  size dataBuckets ≠ 0%nat →
  Forall (fun row => is_Some (dataBuckets !! bucket_name row)) (concat stream) →
  Z.of_nat (length (concat stream)) <= batchRowLimit →
  ∃ groups,
    concat groups = concat stream
    ∧ Forall2 (fun group c => chunk_data (chunkData c) = map entry_of group)
        groups (getBucketDataBatch stream).1
    ∧ Forall (fun group =>
                Z.of_nat (length group) <= Z.max 1 batchRowLimit
                ∧ (total_size group <= chunkSizeLimitBytes ∨ length group = 1%nat)) groups.
Proof.
  intros Hsize Hknown Hlimit.
  destruct (getBucketDataBatch_groups stream Hsize Hknown Hlimit)
    as (chunks & groups & Hr & Hg & Hc & Hl & _).
  exists groups. rewrite Hr. split; [done|]. split; [|done].
  clear Hg Hl Hr. revert Hc. generalize (@None SyncBucketData).
  revert chunks. induction groups as [|g groups IH]; intros [|c chunks] prev; cbn; try done.
  intros [(_ & _ & Hd & _) H]. constructor; [done|]. by eapply IH.
Qed.

Lemma rows_loop_app (rows1 rows2 : list BucketData) (st : Locals) :
  rows_loop (rows1 ++ rows2) st
  = match rows_loop rows1 st with
    | Continue st' => rows_loop rows2 st'
    | other => other
    end.
Proof.
  revert st. induction rows1 as [|row rows1 IH]; intros st; [done|]. cbn.
  by destruct (row_step row st).
Qed.

Lemma stream_loop_app (stream1 stream2 : list (list BucketData)) (st : Locals) :
  stream_loop (stream1 ++ stream2) st
  = match stream_loop stream1 st with
    | inl st' => stream_loop stream2 st'
    | inr e => inr e
    end.
Proof.
  revert st. induction stream1 as [|rows stream1 IH]; intros st; [done|]. cbn.
  by destruct (rows_loop rows st).
Qed.

(** A row of a bucket that was not asked for: the open chunk is yielded and
    the generator throws, so that everything before the row has been
    delivered. *)
Lemma row_step_unexpected (done : list BucketData) (row : BucketData) (st : Locals) :
  loop_inv done st →
  Forall (fun row => is_Some (dataBuckets !! bucket_name row)) done →
  dataBuckets !! bucket_name row = None →
  Z.of_nat (length done) < batchRowLimit →
  ∃ st', row_step row st
         = Throw (ServiceAssertionError "data for unexpected bucket" (bucket_name row)) st'
         ∧ flat_map (fun c => chunk_data (chunkData c)) (yielded st') = map entry_of done.
Proof.
  intros [Hcount Hinv] Hknown Hrow Hlimit. unfold PostgresBucketData.row_step.
  destruct (currentChunk st) as [c|] eqn:Hc.
  - destruct Hinv as (groups & group & -> & Hchunks & Hmore & _).
    pose proof Hchunks as Hall.
    apply chunks_of_snoc in Hchunks as [_ (Hne & Hbucket & _)]. cbn in Hbucket.
    assert (Hdiff : bucket c ≠ bucket_name row).
    { intros Heq. destruct group as [|r group]; [done|].
      apply Forall_app in Hknown as [_ Hknown].
      apply Forall_inv in Hknown, Hbucket. rewrite Hbucket, Heq, Hrow in Hknown.
      by destruct Hknown. }
    rewrite (bool_decide_eq_false_2 _ Hdiff). cbn [negb orb batchRowCount].
    rewrite Hcount, (proj2 (Z.leb_gt batchRowLimit _)) by lia.
    unfold open_chunk. rewrite Hrow. cbn [fmap option_fmap option_map].
    eexists. split; [reflexivity|]. cbn [yielded].
    rewrite (chunks_of_data _ _ _ Hall), concat_app. cbn. by rewrite app_nil_r.
  - destruct Hinv as (-> & Hy & _). unfold open_chunk. rewrite Hrow.
    cbn [fmap option_fmap option_map]. eexists. split; [reflexivity|]. by rewrite Hy.
Qed.

(** An empty [dataBuckets] yields nothing, whatever the query would
    deliver.  A row of a bucket that was not asked for makes the generator
    throw the assertion error 'data for unexpected bucket', after all the
    rows before it have been yielded in chunks. *)
Theorem getBucketDataBatch_unexpected_bucket (sets_before sets_after : list (list BucketData))
    (rows_before rows_after : list BucketData) (row : BucketData) :
  let stream := sets_before ++ (rows_before ++ row :: rows_after) :: sets_after in
  let before := concat sets_before ++ rows_before in
  (size dataBuckets = 0%nat → getBucketDataBatch stream = ([], None))
  ∧ (size dataBuckets ≠ 0%nat →
     Forall (fun row => is_Some (dataBuckets !! bucket_name row)) before →
     dataBuckets !! bucket_name row = None →
     Z.of_nat (length before) < batchRowLimit →
     ∃ chunks,
       getBucketDataBatch stream
       = (chunks,
          Some (ServiceAssertionError "data for unexpected bucket" (bucket_name row)))
       ∧ flat_map (fun c => chunk_data (chunkData c)) chunks = map entry_of before).
Proof.
  cbv zeta. unfold PostgresBucketData.getBucketDataBatch. split.
  { intros Hsize. by rewrite bool_decide_eq_true_2. }
  intros Hsize Hknown Hrow Hlimit. rewrite bool_decide_eq_false_2 by done.
  pose proof Hknown as Hknown'. apply Forall_app in Hknown' as [Hsets Hrows].
  destruct (stream_loop_inv [] sets_before start_locals loop_inv_start Hsets)
    as (st1 & Hloop1 & Hinv1).
  { rewrite length_app in Hlimit. cbn. lia. }
  cbn [app] in Hinv1.
  destruct (rows_loop_inv (concat sets_before) rows_before st1 Hinv1 Hrows)
    as (st2 & Hloop2 & Hinv2); [lia|].
  destruct (row_step_unexpected _ row st2 Hinv2 Hknown Hrow Hlimit) as (st3 & Hstep & Hdata).
  rewrite stream_loop_app, Hloop1. cbn [PostgresBucketData.stream_loop].
  rewrite rows_loop_app, Hloop2. cbn [PostgresBucketData.rows_loop]. rewrite Hstep.
  by exists (yielded st3).
Qed.

End Facts.

(** Four rows in two sets, with 10 bytes to a chunk: row 1 fills a chunk,
    rows 2 and 3 share the next one, whose target op is that of row 2, and
    row 4, of 13 bytes and of another bucket, gets a chunk to itself. *)
Example four_rows_chunks :
  four_rows_batch
  = ([ {| chunkData := {| bucket := "a[]"; after := "0"; has_more := true;
                          chunk_data := [1]; next_after := "1" |};
          targetOp := None |};
       {| chunkData := {| bucket := "a[]"; after := "1"; has_more := false;
                          chunk_data := [2; 3]; next_after := "3" |};
          targetOp := Some 7 |};
       {| chunkData := {| bucket := "b[]"; after := "0"; has_more := false;
                          chunk_data := [4]; next_after := "4" |};
          targetOp := None |} ], None).
Proof. vm_compute. reflexivity. Qed.

Lemma four_rows_known :
  size positions_ab ≠ 0%nat
  ∧ Forall (fun row => is_Some (positions_ab !! bucket_name row)) (concat four_rows)
  ∧ Z.of_nat (length (concat four_rows)) <= 1000.
Proof.
  split; [by vm_compute|]. split; [|by vm_compute].
  unfold four_rows. cbn [concat app].
  repeat first [ apply List.Forall_nil
               | apply List.Forall_cons; [eexists; vm_compute; reflexivity|] ].
Qed.

Lemma getBucketDataBatch_chunks_witness :
  ∃ chunks groups,
    four_rows_batch = (chunks, None)
    ∧ concat groups = concat four_rows
    ∧ chunks_of (ReplicaId := string) op_id (fun _ e => e) op_string (fun t _ => t)
        (fun k => k) op_string positions_ab None groups chunks
    ∧ flat_map (fun c => chunk_data (chunkData c)) chunks = [1; 2; 3; 4]
    ∧ (∀ c, last chunks = Some c → has_more (chunkData c) = false).
Proof.
  destruct four_rows_known as (H1 & H2 & H3).
  exact (getBucketDataBatch_chunks (ReplicaId := string) op_id (fun _ e => e) op_string
           (fun t _ => t) (fun k => k) op_string positions_ab 10 1000 four_rows H1 H2 H3).
Defined.

Lemma getBucketDataBatch_limits_witness :
  ∃ groups,
    concat groups = concat four_rows
    ∧ Forall2 (fun group c =>
                 chunk_data (chunkData c)
                 = map (entry_of (ReplicaId := string) op_id (fun _ e => e)
                          (fun t _ => t) (fun k => k)) group)
        groups four_rows_batch.1
    ∧ Forall (fun group =>
                Z.of_nat (length group) <= Z.max 1 1000
                ∧ (total_size group <= 10 ∨ length group = 1%nat)) groups.
Proof.
  destruct four_rows_known as (H1 & H2 & H3).
  exact (getBucketDataBatch_limits (ReplicaId := string) op_id (fun _ e => e) op_string
           (fun t _ => t) (fun k => k) op_string positions_ab 10 1000 four_rows H1 H2 H3).
Defined.

Lemma getBucketDataBatch_unexpected_bucket_witness :
  ∃ chunks,
    getBucketDataBatch (ReplicaId := string) op_id (fun _ e => e) op_string
      (fun t _ => t) (fun k => k) op_string positions_ab 10 1000
      [ [ row "a[]" 1 "123456" None; row "c[]" 2 "12" None ] ]
    = (chunks, Some (ServiceAssertionError "data for unexpected bucket" "c[]"))
    ∧ flat_map (fun c => chunk_data (chunkData c)) chunks = [1].
Proof.
  destruct (getBucketDataBatch_unexpected_bucket (ReplicaId := string) op_id
              (fun _ e => e) op_string (fun t _ => t) (fun k => k) op_string
              positions_ab 10 1000 [] [] [row "a[]" 1 "123456" None] []
              (row "c[]" 2 "12" None)) as [_ H].
  apply H.
  - by vm_compute.
  - cbn [concat app]. apply List.Forall_cons; [eexists; vm_compute; reflexivity|].
    apply List.Forall_nil.
  - by vm_compute.
  - by vm_compute.
Defined.

End BucketDataChunks.
(** ** Watching checkpoints: every change is reported once *)

Module PostgresCheckpointFacts.
Import PostgresCheckpoints.

Lemma changes_cons {A} `{EqDecision A} (x : A) (l : list A) :
  changes (x :: l) ↔ (∀ y, head l = Some y → x ≠ y) ∧ changes l.
Proof.
  destruct l as [|y l]; cbn.
  - split; [|done]. intros _. split; [|done]. by intros y [=].
  - split; intros [Hxy Hl]; (split; [|done]).
    + by intros ? [= <-].
    + by apply Hxy.
Qed.

Lemma watch_loop_spec (lastCheckpoint lastWriteCheckpoint' : option Z)
    (arrivals : list Arrival) :
  let updates := watch_loop lastCheckpoint lastWriteCheckpoint' arrivals in
  (∀ u, head updates = Some u →
     (Some (checkpoint (base u)), writeCheckpoint u) ≠ (lastCheckpoint, lastWriteCheckpoint'))
  ∧ changes (map told updates)
  ∧ map base updates `sublist_of` map cp arrivals
  ∧ default (lastCheckpoint, lastWriteCheckpoint')
      (last (map (fun u => (Some (told u).1, (told u).2)) updates))
    = default (lastCheckpoint, lastWriteCheckpoint')
        (last (map (fun a => (Some (arrived a).1, (arrived a).2)) arrivals)).
Proof.
  cbv zeta. revert lastCheckpoint lastWriteCheckpoint'.
  induction arrivals as [|a arrivals IH]; intros lc lw.
  { cbn. repeat split; try done; by intros ? [=]. }
  cbn [watch_loop]. case_bool_decide as Hsame.
  - destruct (IH lc lw) as (Hhead & Hchanges & Hsub & Hlast).
    split; [done|]. split; [done|]. split; [by apply sublist_cons|].
    rewrite Hlast. cbn [map]. destruct Hsame as [Hw Hc].
    destruct arrivals as [|a' arrivals]; cbn; [by rewrite <- Hc, Hw|].
    destruct (last _); done.
  - destruct (IH (Some (checkpoint (cp a))) (lastWriteCheckpoint a (lsnFilters (lsn (cp a)))))
      as (Hhead & Hchanges & Hsub & Hlast).
    split; [|split; [|split]].
    + intros u [= <-]. cbn. intros [= Hc Hw]. apply Hsame. by rewrite Hw, <- Hc.
    + cbn [map]. apply changes_cons. split; [|done].
      intros y Hy. destruct (watch_loop _ _ arrivals) as [|u us]; [done|].
      cbn in Hy. injection Hy as <-. intros Heq.
      apply (Hhead u eq_refl). unfold told in Heq. cbn in Heq. by injection Heq as -> ->.
    + cbn [map]. by apply sublist_skip.
    + cbn [map]. rewrite !last_cons.
      destruct (last (map _ (watch_loop _ _ arrivals))) as [x|] eqn:E1;
        destruct (last (map _ arrivals)) as [y|] eqn:E2; cbn in *; done.
Qed.

(** [watchCheckpointChanges] reports every change of the checkpoint op id or
    of the user's write checkpoint once: the updates are arrivals of the
    shared iterator, in order; the first arrival is always reported; no two
    successive updates tell the same op id and write checkpoint (a change of
    the LSN alone is not reported); and the last update tells what the last
    arrival holds. *)
Theorem watchCheckpointChanges_reports_changes (arrivals : list Arrival) :
  let updates := watchCheckpointChanges arrivals in
  map base updates `sublist_of` map cp arrivals
  ∧ changes (map told updates)
  ∧ (base <$> head updates) = (cp <$> head arrivals)
  ∧ last (map told updates) = last (map arrived arrivals).
Proof.
  cbv zeta. unfold watchCheckpointChanges.
  destruct (watch_loop_spec None None arrivals) as (_ & Hchanges & Hsub & Hlast).
  split; [done|]. split; [done|].
  destruct arrivals as [|a arrivals]; [done|].
  cbn [watch_loop] in *. rewrite bool_decide_eq_false_2 in * by (by intros [_ [=]]).
  split; [done|]. cbn [map] in *. rewrite !last_cons in *.
  destruct (last (map _ (watch_loop _ _ arrivals))) as [x|] eqn:E1;
    destruct (last (map _ arrivals)) as [y|] eqn:E2; cbn in Hlast.
  all: rewrite !fmap_last in *.
  all: destruct (last (watch_loop _ _ arrivals)) as [u|], (last arrivals) as [a'|];
    cbn in *; try done.
  all: unfold told, arrived in *; cbn in *; congruence.
Qed.

Lemma notification_loop_spec (doc_id : Z) (lastOp : option ReplicationCheckpoint)
    (notifications : list Notification) :
  let out := notification_loop doc_id lastOp notifications in
  (∀ c, head out = Some c → lastOp ≠ Some c)
  ∧ changes out
  ∧ out `sublist_of` announced (handled doc_id notifications)
  ∧ from_option Some lastOp (last out)
    = from_option Some lastOp (last (announced (handled doc_id notifications))).
Proof.
  cbv zeta. revert lastOp. induction notifications as [|n notifications IH]; intros lastOp.
  { cbn. repeat split; try done; by intros ? [=]. }
  cbn [notification_loop handled]. destruct (aborted n).
  { cbn. repeat split; try done; by intros ? [=]. }
  destruct (active_checkpoint n) as [active|] eqn:Hactive.
  2: { destruct (IH lastOp) as (H1 & H2 & H3 & H4).
       unfold announced. cbn [omap list_omap]. rewrite Hactive. cbn. done. }
  case_bool_decide as Hid; cbn [negb].
  2: { cbn. repeat split; try done; by intros ? [=]. }
  unfold announced. cbn [omap list_omap]. rewrite Hactive. cbn [fmap option_fmap option_map].
  fold (announced (handled doc_id notifications)).
  set (c := makeActiveCheckpoint (Some active)).
  destruct (bool_decide (lastOp = None)
            || negb (bool_decide (Some (lsn c) = lsn <$> lastOp))
            || negb (bool_decide (Some (checkpoint c) = checkpoint <$> lastOp))) eqn:Hnew.
  - destruct (IH (Some c)) as (H1 & H2 & H3 & H4).
    split; [|split; [|split]].
    + intros c' [= <-] ->. cbn in Hnew.
      by rewrite !bool_decide_eq_true_2 in Hnew.
    + apply changes_cons. split; [|done]. intros y Hy Heq. subst y. by eapply H1.
    + by apply sublist_skip.
    + rewrite !last_cons.
      destruct (last (notification_loop _ _ _)) as [x|],
        (last (announced _)) as [y|]; cbn in *; done.
  - destruct (IH lastOp) as (H1 & H2 & H3 & H4).
    split; [done|]. split; [done|]. split; [by apply sublist_cons|].
    rewrite H4, last_cons.
    destruct (last (announced _)) as [y|]; [done|]. cbn.
    apply orb_false_elim in Hnew as [Hnew Hcp]. apply orb_false_elim in Hnew as [Hnone Hlsn].
    apply negb_false_iff, bool_decide_eq_true in Hcp, Hlsn.
    destruct lastOp as [l|]; [|done]. cbn in Hcp, Hlsn.
    subst c. unfold makeActiveCheckpoint in *. destruct l. cbn in *. congruence.
Qed.

(** [watchActiveCheckpoint] throws PSYNC_S2302 when there are no active sync
    rules.  Otherwise it first yields the stored checkpoint of the sync
    rules found (op id 0 and no LSN when none is stored), then checkpoints
    announced by notifications for the same sync rules, in order, never the
    same one twice in a row, up to the first notification for other sync
    rules or taken after the abort; the latest of these announcements is
    the last checkpoint yielded. *)
Theorem watchActiveCheckpoint_follows_notifications (doc : option ActiveCheckpoint)
    (notifications : list Notification) :
  match doc with
  | None =>
      watchActiveCheckpoint doc notifications
      = ([], Some (ServiceError PSYNC_S2302 "No active sync rules available"))
  | Some d =>
      ∃ rest,
        watchActiveCheckpoint doc notifications
        = ({| checkpoint := default 0 (last_checkpoint d); lsn := last_checkpoint_lsn d |}
           :: rest, None)
        ∧ rest `sublist_of` announced (handled (id d) notifications)
        ∧ changes rest
        ∧ last rest = last (announced (handled (id d) notifications))
        ∧ Forall (fun n => ∀ a, active_checkpoint n = Some a → id a = id d)
            (handled (id d) notifications)
  end.
Proof.
  destruct doc as [d|]; [|done]. unfold watchActiveCheckpoint.
  destruct (notification_loop_spec (id d) None notifications) as (_ & H2 & H3 & H4).
  eexists. split; [reflexivity|]. split; [done|]. split; [done|]. split.
  - destruct (last (notification_loop _ _ _)), (last (announced _)); cbn in H4; congruence.
  - clear. induction notifications as [|n notifications IH]; cbn; [constructor|].
    destruct (aborted n); [constructor|].
    destruct (active_checkpoint n) as [a|] eqn:Ha.
    + case_bool_decide; [|constructor]. constructor; [|done]. intros a' Ha'. congruence.
    + constructor; [|done]. intros a' Ha'. congruence.
Qed.

(** Five arrivals: the LSN moves twice without a change of the op id or the
    write checkpoint, and these two arrivals are not reported. *)
Example five_arrivals_updates :
  map (fun u => (told u, lsn (base u))) (watchCheckpointChanges five_arrivals)
  = [ ((0, None), None); ((3, None), Some "0/2"); ((3, Some 1), Some "0/3") ].
Proof. reflexivity. Qed.

(** The stored checkpoint, then the announcements for sync rules 7, with
    op 4 announced twice and yielded once; the notification for sync rules 8
    ends the stream. *)
Example notifications_for_rules_7 :
  map checkpoint
    (watchActiveCheckpoint (Some rules_7)
       [ notify 7 0; notify 7 4; notify 7 4; notify 8 9; notify 7 5 ]).1
  = [0; 0; 4].
Proof. reflexivity. Qed.

End PostgresCheckpointFacts.

(** ** Bounded transaction retries *)

Module TransactionRetries.
Import MongoBucketBatch.

Lemma transaction_tries_transient (lastTry : Z) (attempts : list (Z * AttemptOutcome))
    (done : Z) :
  0 <= done →
  Forall (fun a => a.2 = TransientTransactionError) attempts →
  match transaction_tries lastTry done attempts with
  | TxThrew e n =>
      e = ServiceError PSYNC_S1402 "Max transaction tries exceeded"
      ∧ done < n <= done + Z.of_nat (length attempts)
      ∧ (∃ now, fst <$> attempts !! Z.to_nat (n - done - 1) = Some now
                ∧ 20 < n ∧ lastTry < now)
      ∧ (∀ m now, done < m < n →
           fst <$> attempts !! Z.to_nat (m - done - 1) = Some now →
           m <= 20 ∨ now <= lastTry)
  | TxRetrying n =>
      n = done + Z.of_nat (length attempts)
      ∧ (∀ m now, done < m <= n →
           fst <$> attempts !! Z.to_nat (m - done - 1) = Some now →
           m <= 20 ∨ now <= lastTry)
  | TxReturned _ => False
  end.
Proof.
  intros Hdone Hall. revert done Hdone.
  induction Hall as [|a attempts Ho Hall IH]; intros done Hdone; [|destruct a as [now o]].
  - cbn. split; [lia|]. intros m now Hm. lia.
  - cbn [transaction_tries]. cbn in Ho. subst o.
    destruct (Z.ltb_spec 20 (done + 1)) as [H20|H20];
      destruct (Z.ltb_spec lastTry now) as [Ht|Ht]; cbn [andb].
    1: { repeat split; [lia|cbn [length]; lia| |].
         - exists now. replace (Z.to_nat (done + 1 - done - 1)) with 0%nat by lia.
           cbn. split; [done|lia].
         - intros m now' Hm. lia. }
    all: specialize (IH (done + 1) ltac:(lia));
      destruct (transaction_tries lastTry (done + 1) attempts) as [n|e n|n]; [done| |].
    all: try destruct IH as (He & Hn & (now' & Hnow' & Hcap) & Hbefore).
    all: try destruct IH as (Hn & Hbefore).
    all: cbn [length]; repeat split; try lia; try done.
    all: try (exists now';
              replace (Z.to_nat (n - done - 1)) with (S (Z.to_nat (n - (done + 1) - 1))) by lia;
              by cbn).
    all: intros m now'' Hm Hlook;
      destruct (decide (m = done + 1)) as [->|Hne];
      [ replace (Z.to_nat (done + 1 - done - 1)) with 0%nat in Hlook by lia;
        cbn in Hlook; injection Hlook as <-; lia
      | apply (Hbefore m now''); [lia|];
        replace (Z.to_nat (m - done - 1)) with (S (Z.to_nat (m - (done + 1) - 1))) in Hlook by lia;
        by cbn in Hlook ].
Qed.

(** C6, with the condition of the code.  A replication transaction that
    keeps failing with transient conflicts is tried again until a try is
    both past the 20th and started later than 90 seconds after the start: at
    the first such try the error PSYNC_S1402, 'Max transaction tries
    exceeded', is thrown and no further try is made; every earlier try ran,
    being among the first 20 or within the 90 seconds. *)
Theorem transaction_refused_past_20_tries_and_90s (start : Z)
    (attempts : list (Z * AttemptOutcome)) :
  Forall (fun a => a.2 = TransientTransactionError) attempts →
  retried_until_refused start attempts.
Proof.
  intros Hall. unfold retried_until_refused, withReplicationTransaction, try_time, refused.
  cbv zeta.
  pose proof (transaction_tries_transient (start + 90000) attempts 0 ltac:(lia) Hall) as H.
  destruct (transaction_tries (start + 90000) 0 attempts) as [n|e n|n]; [done| |].
  - destruct H as (He & Hn & (now & Hnow & H20 & Ht) & Hbefore).
    repeat split; [done|lia|lia| |].
    + exists now. rewrite Z.sub_0_r in Hnow. split; [done|]. lia.
    + intros m now' Hm Hl. specialize (Hbefore m now' ltac:(lia)).
      rewrite Z.sub_0_r in Hbefore. specialize (Hbefore Hl). lia.
  - destruct H as (Hn & Hbefore).
    split; [lia|]. intros m now' Hm Hl. specialize (Hbefore m now' ltac:(lia)).
    rewrite Z.sub_0_r in Hbefore. specialize (Hbefore Hl). lia.
Qed.

Lemma transaction_refused_past_20_tries_and_90s_witness :
  Forall (fun a => a.2 = TransientTransactionError) conflicts_every_4s
  ∧ retried_until_refused 1000 conflicts_every_4s.
Proof.
  assert (Hall : Forall (fun a : Z * AttemptOutcome => a.2 = TransientTransactionError)
                        conflicts_every_4s).
  { apply Forall_forall. intros a Ha. apply list_elem_of_fmap in Ha as (i & -> & _). done. }
  split; [exact Hall|].
  exact (transaction_refused_past_20_tries_and_90s 1000 conflicts_every_4s Hall).
Defined.

Example conflicts_every_4s_run :
  withReplicationTransaction 1000 conflicts_every_4s
  = TxThrew (ServiceError PSYNC_S1402 "Max transaction tries exceeded") 23.
Proof. vm_compute. reflexivity. Qed.

(** C6, counterexample.  Neither the tries nor the time are capped on their
    own.  Three hundred conflicts one millisecond apart are all tried again:
    the 21st try and 279 more run, and no error is surfaced.  Twenty
    conflicts one hour apart are all tried again: the tries go on for
    nineteen hours, and no error is surfaced. *)
Lemma retries_not_capped_at_20_tries_nor_at_90s :
  withReplicationTransaction 0 conflicts_every_ms = TxRetrying 300
  ∧ withReplicationTransaction 0 conflicts_every_hour = TxRetrying 20
  ∧ try_time conflicts_every_hour 20 = Some (19 * 3600000).
Proof. repeat split; vm_compute; reflexivity. Qed.

End TransactionRetries.

(** ** commit and keepalive below the last checkpoint LSN *)

Module CommitSkip.
Import MongoBucketBatch.

Section Facts.
Context {OperationBatch Store CustomWriteCheckpoint : Type}.
Variable replicateBatch :
  OperationBatch → Z → Store → option (option OperationBatch * Z * Store).
Variable batchCreateCustomWriteCheckpoints :
  list CustomWriteCheckpoint → Z → Store → Store.

Local Abbreviation BatchObject := (@BatchObject OperationBatch CustomWriteCheckpoint).
Local Abbreviation PowerSyncMongo := (@PowerSyncMongo Store).
Local Abbreviation flushInner := (flushInner replicateBatch batchCreateCustomWriteCheckpoints).
Local Abbreviation flush := (flush replicateBatch batchCreateCustomWriteCheckpoints).
Local Abbreviation flush_loop := (flush_loop replicateBatch batchCreateCustomWriteCheckpoints).
Local Abbreviation commit := (commit replicateBatch batchCreateCustomWriteCheckpoints).
Local Abbreviation keepalive := (keepalive replicateBatch batchCreateCustomWriteCheckpoints).

Lemma flush_frame_refl (this : BatchObject) (db : PowerSyncMongo) :
  flush_frame this this db db.
Proof. by repeat split. Qed.

Lemma flush_frame_trans (t1 t2 t3 : BatchObject) (d1 d2 d3 : PowerSyncMongo) :
  flush_frame t1 t2 d1 d2 → flush_frame t2 t3 d2 d3 → flush_frame t1 t3 d1 d3.
Proof.
  intros (?&?&?&Hs1&?&?) (?&?&?&Hs2&?&?). repeat split; try congruence.
Qed.

Lemma flushInner_frame (now : Z) (this this' : BatchObject) (db db' : PowerSyncMongo)
    (r : Z) :
  flushInner now this db = Returned (r, this', db') → flush_frame this this' db db'.
Proof.
  unfold MongoBucketBatch.flushInner. intros H.
  destruct (match batch this with Some b => _ | None => _ end)
    as [[[resume opSeq] store1]|]; [|done].
  destruct (write_checkpoint_batch this); injection H as <- <- <-.
  all: repeat split; cbn; try done.
  all: intros i; rewrite lookup_alter; case_decide; [subst i|done].
  all: by destruct (sync_rules db !! group_id this).
Qed.

Lemma flush_loop_frame (fuel : nat) (now : Z) (r0 r : option Z)
    (this this' : BatchObject) (db db' : PowerSyncMongo) :
  flush_loop fuel now r0 this db = Returned (r, this', db') →
  flush_frame this this' db db'.
Proof.
  revert r0 this db. induction fuel as [|fuel IH]; intros r0 this db; cbn.
  - destruct (_ || _); [done|]. intros [= <- <- <-]. apply flush_frame_refl.
  - destruct (_ || _); [|intros [= <- <- <-]; apply flush_frame_refl].
    destruct (flushInner now this db) as [[[r1 this1] db1]| |] eqn:E; [|done..].
    intros H. eapply flush_frame_trans; [by eapply flushInner_frame|by eapply IH].
Qed.

Lemma flush_nothing_buffered (fuel : nat) (now : Z) (this : BatchObject)
    (db : PowerSyncMongo) :
  batch this = None → write_checkpoint_batch this = [] →
  flush fuel now this db = Returned (None, this, db).
Proof.
  intros Hb Hw. unfold MongoBucketBatch.flush. destruct fuel; cbn; by rewrite Hb, Hw.
Qed.

Variable DEFAULT_createEmptyCheckpoints : bool.

(** C2, with the strict bound of [commit].  With [last_checkpoint_lsn = L]:
    - [commit(lsn)] for [lsn < L] flushes what is buffered and then skips:
      it returns false with exactly the state the flush left, so it creates
      no checkpoint, leaves [last_checkpoint_lsn] and the checkpoint state of
      the stored sync rules unchanged and notifies nobody; with nothing
      buffered it changes nothing at all.
    - [keepalive(lsn)] for [lsn <= L] changes nothing and returns false. *)
Theorem commit_below_last_checkpoint_skips (fuel : nat) (now : Z) (lsn L : string)
    (createEmptyCheckpoints : bool) (this this1 : BatchObject)
    (db db1 : PowerSyncMongo) (flushed : option Z) :
  last_checkpoint_lsn this = Some L →
  flush fuel now this db = Returned (flushed, this1, db1) →
  (str_lt lsn L = true →
     commit fuel now lsn createEmptyCheckpoints this db = Returned (false, this1, db1)
     ∧ last_checkpoint_lsn this1 = Some L
     ∧ (∀ i, checkpoint_state <$> sync_rules db1 !! i = checkpoint_state <$> sync_rules db !! i)
     ∧ checkpoint_notifications db1 = checkpoint_notifications db
     ∧ (batch this = None → write_checkpoint_batch this = [] → this1 = this ∧ db1 = db))
  ∧ (str_le lsn L = true →
     keepalive DEFAULT_createEmptyCheckpoints fuel now lsn this db
     = Returned (false, this, db)).
Proof.
  intros HL Hflush. split.
  - intros Hlt.
    pose proof (flush_loop_frame _ _ _ _ _ _ _ _ Hflush) as (Hl & _ & _ & Hs & _ & Hn).
    unfold MongoBucketBatch.commit. rewrite Hflush, Hl, HL. cbn. rewrite Hlt.
    split; [done|]. split; [congruence|]. split; [exact Hs|]. split; [exact Hn|].
    intros Hb Hw. rewrite (flush_nothing_buffered fuel now this db Hb Hw) in Hflush.
    by injection Hflush as _ <- <-.
  - intros Hle. unfold MongoBucketBatch.keepalive. rewrite HL. cbn. by rewrite Hle.
Qed.

End Facts.

(** C2, counterexample.  The batch is at [last_checkpoint_lsn = L] with op 7
    persisted and nothing buffered.  [commit(L)], with [lsn <= L], is not a
    skip: it returns true, moves the stored checkpoint from 5 to 7 and
    notifies the checkpoint watchers. *)
Lemma commit_at_last_checkpoint_lsn_not_skipped :
  let L := "0000000000000005" in
  let this := batch_at_5 None (Some 7) in
  last_checkpoint_lsn this = Some L
  ∧ str_le L L = true
  ∧ ∃ this' db',
      commit append_ops keep_store 0 200 L true this db_at_5 = Returned (true, this', db')
      ∧ models.last_checkpoint <$> sync_rules db_at_5 !! 1 = Some (Some 5)
      ∧ models.last_checkpoint <$> sync_rules db' !! 1 = Some (Some 7)
      ∧ checkpoint_notifications db_at_5 = 0%nat
      ∧ checkpoint_notifications db' = 1%nat.
Proof.
  cbv zeta. split; [reflexivity|]. split; [reflexivity|].
  eexists _, _. split; [vm_compute; reflexivity|].
  repeat split; vm_compute; reflexivity.
Qed.

Lemma commit_below_last_checkpoint_skips_witness :
  let L := "0000000000000005" in
  let lsn := "0000000000000004" in
  let this := batch_at_5 (Some [11; 12]) None in
  last_checkpoint_lsn this = Some L
  ∧ str_lt lsn L = true
  ∧ commit append_ops keep_store 1 200 lsn true this db_at_5
    = Returned (false, with_batch this None [] (Some 9) (Some 9),
                {| sync_rules := {[ 1 := set_last_keepalive_ts 200 doc_at_5 ]};
                   op_id_sequence := Some 9;
                   write_checkpoints := [];
                   store := [11; 12];
                   checkpoint_notifications := 0 |})
  ∧ keepalive append_ops keep_store true 1 200 L this db_at_5
    = Returned (false, this, db_at_5).
Proof.
  cbv zeta.
  assert (Hflush : flush append_ops keep_store 1 200 (batch_at_5 (Some [11; 12]) None) db_at_5
          = Returned (Some 9, with_batch (batch_at_5 (Some [11; 12]) None) None []
                                (Some 9) (Some 9),
                      {| sync_rules := {[ 1 := set_last_keepalive_ts 200 doc_at_5 ]};
                         op_id_sequence := Some 9;
                         write_checkpoints := [];
                         store := [11; 12];
                         checkpoint_notifications := 0 |})).
  { vm_compute. reflexivity. }
  split; [reflexivity|]. split; [reflexivity|]. split.
  - eapply (commit_below_last_checkpoint_skips append_ops keep_store true 1 200
              "0000000000000004" "0000000000000005" true); [reflexivity|exact Hflush|reflexivity].
  - eapply (commit_below_last_checkpoint_skips append_ops keep_store true 1 200
              "0000000000000005" "0000000000000005" true); [reflexivity|exact Hflush|reflexivity].
Defined.

End CommitSkip.
(** ** Checkpoints created by commit and keepalive *)

Module BatchCheckpoints.
Import MongoBucketBatch.

Lemma str_lt_false_le (a b : string) : str_lt a b = false → str_le b a = true.
Proof.
  unfold str_lt, str_le, String.ltb, String.leb.
  rewrite (String.compare_antisym b a). by destruct (String.compare a b).
Qed.

Lemma str_le_false_le (a b : string) : str_le a b = false → str_le b a = true.
Proof.
  unfold str_le, String.leb.
  rewrite (String.compare_antisym b a). by destruct (String.compare a b).
Qed.

Lemma str_le_refl (a : string) : str_le a a = true.
Proof.
  unfold str_le, String.leb.
  assert (H : String.compare a a = Eq).
  { induction a as [|c a IH]; [done|]. cbn. rewrite IH.
    unfold Ascii.compare. by rewrite N.compare_refl. }
  by rewrite H.
Qed.

Section Facts.
Context {OperationBatch Store CustomWriteCheckpoint : Type}.
Variable replicateBatch :
  OperationBatch → Z → Store → option (option OperationBatch * Z * Store).
Variable batchCreateCustomWriteCheckpoints :
  list CustomWriteCheckpoint → Z → Store → Store.
Variable DEFAULT_createEmptyCheckpoints : bool.

Local Abbreviation BatchObject := (@BatchObject OperationBatch CustomWriteCheckpoint).
Local Abbreviation PowerSyncMongo := (@PowerSyncMongo Store).
Local Abbreviation flushInner := (flushInner replicateBatch batchCreateCustomWriteCheckpoints).
Local Abbreviation flush := (flush replicateBatch batchCreateCustomWriteCheckpoints).
Local Abbreviation flush_loop := (flush_loop replicateBatch batchCreateCustomWriteCheckpoints).
Local Abbreviation commit := (commit replicateBatch batchCreateCustomWriteCheckpoints).
Local Abbreviation keepalive :=
  (keepalive replicateBatch batchCreateCustomWriteCheckpoints DEFAULT_createEmptyCheckpoints).

(** *** autoActivate *)

Lemma autoActivate_batch (this this' : BatchObject) (db db' : PowerSyncMongo) :
  autoActivate this db = (this', db') →
  group_id this' = group_id this
  ∧ last_checkpoint_lsn this' = last_checkpoint_lsn this
  ∧ no_checkpoint_before_lsn this' = no_checkpoint_before_lsn this
  ∧ persisted_op this' = persisted_op this
  ∧ batch this' = batch this
  ∧ write_checkpoint_batch this' = write_checkpoint_batch this.
Proof.
  unfold autoActivate. destruct (negb (needsActivation this)); intros [= <- <-]; done.
Qed.

Lemma autoActivate_documents (this this' : BatchObject) (db db' : PowerSyncMongo) (i : Z) :
  autoActivate this db = (this', db') →
  without_state <$> sync_rules db' !! i = without_state <$> sync_rules db !! i.
Proof.
  unfold autoActivate. destruct (negb (needsActivation this)); intros [= <- <-]; [done|].
  destruct (match sync_rules db !! group_id this with Some _ => _ | None => _ end); [|done].
  cbn. rewrite map_lookup_imap. destruct (sync_rules db !! i) as [d|]; [|done]. cbn.
  repeat case_bool_decide; cbn; done.
Qed.

Lemma autoActivate_notifications (this this' : BatchObject) (db db' : PowerSyncMongo) :
  autoActivate this db = (this', db') →
  (checkpoint_notifications db <= checkpoint_notifications db')%nat
  ∧ write_checkpoints db' = write_checkpoints db.
Proof.
  unfold autoActivate. destruct (negb (needsActivation this)); intros [= <- <-]; [done|].
  destruct (match sync_rules db !! group_id this with Some _ => _ | None => _ end); cbn; [|done].
  split; [lia|done].
Qed.

(** [autoActivate] on a batch that still needs activation and whose sync
    rules are PROCESSING: these sync rules become ACTIVE and are then the
    only ones that are ACTIVE or ERRORED, every other such document being
    set to STOP; documents in other states and all other fields are left as
    they were; the checkpoint watchers are notified once.  In every other
    case no document changes.  Either way the batch needs no activation
    afterwards, and a second call does nothing. *)
Theorem autoActivate_single_active (this : BatchObject) (db : PowerSyncMongo) :
  let this' := (autoActivate this db).1 in
  let db' := (autoActivate this db).2 in
  (needsActivation this = true →
   models.state <$> sync_rules db !! group_id this = Some models.PROCESSING →
   models.state <$> sync_rules db' !! group_id this = Some models.ACTIVE
   ∧ (∀ i d, serving db' !! i = Some d → i = group_id this)
   ∧ (∀ i d, i ≠ group_id this → sync_rules db !! i = Some d →
        sync_rules db' !! i
        = Some (if bool_decide (models.state d = models.ACTIVE ∨ models.state d = models.ERRORED)
                then set_state models.STOP d else d))
   ∧ checkpoint_notifications db' = S (checkpoint_notifications db))
  ∧ (needsActivation this = false
     ∨ models.state <$> sync_rules db !! group_id this ≠ Some models.PROCESSING →
     db' = db)
  ∧ (∀ i, without_state <$> sync_rules db' !! i = without_state <$> sync_rules db !! i)
  ∧ needsActivation this' = false
  ∧ autoActivate this' db' = (this', db').
Proof.
  cbv zeta. split; [|split; [|split; [|split]]].
  - intros Hneeds Hstate. unfold autoActivate. rewrite Hneeds. cbn [negb].
    destruct (sync_rules db !! group_id this) as [doc|] eqn:Hdoc; [|done].
    cbn in Hstate. injection Hstate as Hstate. rewrite Hstate.
    rewrite bool_decide_eq_true_2 by done. cbn.
    split; [|split; [|split]].
    + rewrite map_lookup_imap, Hdoc. cbn. by rewrite bool_decide_eq_true_2.
    + intros i d Hserving. unfold serving in Hserving. cbn in Hserving.
      apply map_lookup_filter_Some in Hserving as [Hi Hs]. cbn in Hs.
      rewrite map_lookup_imap in Hi.
      destruct (sync_rules db !! i) as [d0|]; [|done]. cbn in Hi.
      case_bool_decide as Hid; [done|].
      destruct (bool_decide (models.state d0 = models.ACTIVE)
                || bool_decide (models.state d0 = models.ERRORED)) eqn:Hor.
      * injection Hi as <-. cbn in Hs. by destruct Hs.
      * injection Hi as <-. apply orb_false_elim in Hor as [Ha He].
        apply bool_decide_eq_false in Ha, He. by destruct Hs.
    + intros i d Hi Hd. rewrite map_lookup_imap, Hd. cbn.
      rewrite bool_decide_eq_false_2 by done.
      destruct (decide (models.state d = models.ACTIVE)) as [Ha|Ha].
      { rewrite (bool_decide_eq_true_2 _ Ha). cbn.
        by rewrite bool_decide_eq_true_2 by (by left). }
      rewrite (bool_decide_eq_false_2 _ Ha). cbn.
      destruct (decide (models.state d = models.ERRORED)) as [He|He].
      { rewrite (bool_decide_eq_true_2 _ He).
        by rewrite bool_decide_eq_true_2 by (by right). }
      rewrite (bool_decide_eq_false_2 _ He).
      by rewrite bool_decide_eq_false_2 by (by intros [?|?]).
    + done.
  - intros Hcase. unfold autoActivate.
    destruct (needsActivation this) eqn:Hneeds; cbn [negb]; [|done].
    destruct Hcase as [?|Hstate]; [done|].
    destruct (sync_rules db !! group_id this) as [doc|]; [|done].
    cbn in Hstate. rewrite bool_decide_eq_false_2; [done|]. intros Heq. by rewrite Heq in Hstate.
  - intros i. eapply autoActivate_documents. apply surjective_pairing.
  - unfold autoActivate. by destruct (needsActivation this) eqn:E; cbn.
  - assert (Hn : needsActivation (autoActivate this db).1 = false).
    { unfold autoActivate. by destruct (needsActivation this) eqn:E; cbn. }
    unfold autoActivate at 1. by rewrite Hn.
Qed.

(** *** flush *)

Lemma flushInner_result (now : Z) (this this' : BatchObject) (db db' : PowerSyncMongo)
    (r : Z) :
  flushInner now this db = Returned (r, this', db') →
  write_checkpoint_batch this' = []
  ∧ persisted_op this' = Some r ∧ last_flushed_op this' = Some r
  ∧ op_id_sequence db' = Some r.
Proof.
  unfold MongoBucketBatch.flushInner. intros H.
  destruct (match batch this with Some b => _ | None => _ end)
    as [[[resume opSeq] store1]|]; [|done].
  by destruct (write_checkpoint_batch this); injection H as <- <- <-.
Qed.

Lemma flush_loop_result (fuel : nat) (now : Z) (r0 r : option Z)
    (this this' : BatchObject) (db db' : PowerSyncMongo) :
  flush_loop fuel now r0 this db = Returned (r, this', db') →
  batch this' = None ∧ write_checkpoint_batch this' = []
  ∧ ((batch this = None ∧ write_checkpoint_batch this = [] ∧ r = r0 ∧ this' = this ∧ db' = db)
     ∨ ((batch this ≠ None ∨ write_checkpoint_batch this ≠ [])
        ∧ ∃ op, r = Some op ∧ persisted_op this' = Some op
                ∧ last_flushed_op this' = Some op ∧ op_id_sequence db' = Some op)).
Proof.
  revert r0 this db. induction fuel as [|fuel IH]; intros r0 this db; cbn.
  - destruct (batch this) as [b|] eqn:Hb; cbn; [done|].
    case_bool_decide as Hw; cbn; [|done]. intros [= <- <- <-]. split; [done|]. split; [done|].
    by left.
  - destruct (batch this) as [b|] eqn:Hb; cbn.
    + destruct (flushInner now this db) as [[[r1 this1] db1]| |] eqn:E; [|done..].
      intros H. destruct (IH _ _ _ H) as (Hb' & Hw' & Hcase).
      split; [done|]. split; [done|]. right. split; [by left|].
      destruct Hcase as [(_ & _ & -> & -> & ->)|(_ & op & -> & ? & ? & ?)].
      * destruct (flushInner_result _ _ _ _ _ _ E) as (_ & ? & ? & ?). by exists r1.
      * by exists op.
    + case_bool_decide as Hw; cbn.
      { intros [= <- <- <-]. split; [done|]. split; [done|]. by left. }
      destruct (flushInner now this db) as [[[r1 this1] db1]| |] eqn:E; [|done..].
      intros H. destruct (IH _ _ _ H) as (Hb' & Hw' & Hcase).
      split; [done|]. split; [done|]. right. split; [by right|].
      destruct Hcase as [(_ & _ & -> & -> & ->)|(_ & op & -> & ? & ? & ?)].
      * destruct (flushInner_result _ _ _ _ _ _ E) as (_ & ? & ? & ?). by exists r1.
      * by exists op.
Qed.

(** A [flush] that returns leaves nothing buffered: no operation batch and
    no custom write checkpoints.  It returns null exactly when nothing was
    buffered, and then changes nothing; otherwise it returns the last op id
    of its last transaction, which is then the persisted op of the batch
    and the value of the op-id sequence.  One transaction suffices when
    [replicateBatch] leaves no batch to resume. *)
Theorem flush_leaves_nothing_buffered (fuel : nat) (now : Z) (this : BatchObject)
    (db : PowerSyncMongo) :
  (∀ r this' db',
     flush fuel now this db = Returned (r, this', db') →
     batch this' = None ∧ write_checkpoint_batch this' = []
     ∧ (r = None ↔ batch this = None ∧ write_checkpoint_batch this = [])
     ∧ (r = None → this' = this ∧ db' = db)
     ∧ (∀ op, r = Some op →
          persisted_op this' = Some op ∧ last_flushed_op this' = Some op
          ∧ op_id_sequence db' = Some op))
  ∧ (∀ b opSeq store1,
       fuel ≠ 0%nat →
       batch this = Some b →
       replicateBatch b (default 0 (op_id_sequence db)) (store db)
       = Some (None, opSeq, store1) →
       ∃ op this' db', flush fuel now this db = Returned (Some op, this', db')
                       ∧ opSeq <= op <= opSeq + 1).
Proof.
  split.
  - intros r this' db' H. apply flush_loop_result in H as (Hb & Hw & Hcase).
    split; [done|]. split; [done|].
    destruct Hcase as [(? & ? & -> & -> & ->)|(Hne & op & -> & ? & ? & ?)].
    + repeat split; try done.
    + split; [|split; [done|]].
      * split; [done|]. intros [? ?]. by destruct Hne.
      * by intros ? [= <-].
  - intros b opSeq store1 Hfuel Hb Hrep. destruct fuel as [|fuel]; [done|].
    unfold MongoBucketBatch.flush. cbn. rewrite Hb. cbn.
    unfold MongoBucketBatch.flushInner. rewrite Hb, Hrep.
    destruct (write_checkpoint_batch this) as [|w wcb] eqn:Hw.
    + exists opSeq. eexists _, _. split; [|lia].
      destruct fuel; cbn; done.
    + exists (opSeq + 1). eexists _, _. split; [|lia].
      destruct fuel; cbn; done.
Qed.

(** *** commit *)

(** The branch of [commit] that stores a checkpoint. *)
Lemma commit_checkpoint_branch (fuel : nat) (now : Z) (lsn : string)
    (createEmptyCheckpoints : bool) (this this1 : BatchObject)
    (db db1 : PowerSyncMongo) (flushed : option Z) :
  flush fuel now this db = Returned (flushed, this1, db1) →
  (∀ L, last_checkpoint_lsn this = Some L → str_lt lsn L = false) →
  str_lt lsn (no_checkpoint_before_lsn this) = false →
  createEmptyCheckpoints = true ∨ persisted_op this1 ≠ None →
  commit fuel now lsn createEmptyCheckpoints this db
  = let '(this2, db2) :=
      autoActivate this1
        (update_sync_rules (group_id this1) (commit_update lsn now (persisted_op this1))
           (mark_processed lsn db1)) in
    Returned (true, with_checkpoint this2 (Some lsn) None, notifyCheckpoint db2).
Proof.
  intros Hflush Hlast Hbefore Hop.
  pose proof (CommitSkip.flush_loop_frame _ _ _ _ _ _ _ _ _ _ Hflush)
    as (Hl & Hn & Hg & _ & _ & _).
  unfold MongoBucketBatch.commit. rewrite Hflush.
  assert (Hgate : negb (is_null (last_checkpoint_lsn this1))
                  && from_option (str_lt lsn) false (last_checkpoint_lsn this1) = false).
  { rewrite Hl. destruct (last_checkpoint_lsn this) as [L|]; [|done]. cbn. by apply Hlast. }
  rewrite Hgate, Hn, Hbefore.
  assert (Hempty : negb createEmptyCheckpoints && is_null (persisted_op this1) = false).
  { destruct Hop as [->|Hop]; [done|]. destruct (persisted_op this1); [|done].
    by rewrite andb_false_r. }
  rewrite Hempty. by destruct (autoActivate this1 _).
Qed.

(** What [commit(lsn)] does when it is not held back: [lsn] is not below the
    last checkpoint LSN nor below [no_checkpoint_before_lsn], and there is a
    persisted op or empty checkpoints are allowed.  After the flush it
    returns true, the batch holds [lsn] as its last checkpoint LSN and no
    persisted op, and the sync-rules document stores the checkpoint: [lsn],
    the op persisted by then (the stored op stays when there is none),
    [snapshot_done], no [snapshot_lsn], no [keepalive_op], no fatal error.
    The checkpoint watchers are notified. *)
Theorem commit_creates_checkpoint (fuel : nat) (now : Z) (lsn : string)
    (createEmptyCheckpoints : bool) (this this1 : BatchObject)
    (db db1 : PowerSyncMongo) (flushed : option Z) :
  flush fuel now this db = Returned (flushed, this1, db1) →
  (∀ L, last_checkpoint_lsn this = Some L → str_lt lsn L = false) →
  str_lt lsn (no_checkpoint_before_lsn this) = false →
  createEmptyCheckpoints = true ∨ persisted_op this1 ≠ None →
  ∃ this' db',
    commit fuel now lsn createEmptyCheckpoints this db = Returned (true, this', db')
    ∧ last_checkpoint_lsn this' = Some lsn
    ∧ persisted_op this' = None
    ∧ (∀ doc1, sync_rules db1 !! group_id this = Some doc1 →
         without_state <$> sync_rules db' !! group_id this
         = Some (without_state (commit_update lsn now (persisted_op this1) doc1)))
    ∧ (∀ i, i ≠ group_id this →
         without_state <$> sync_rules db' !! i = without_state <$> sync_rules db1 !! i)
    ∧ (checkpoint_notifications db1 < checkpoint_notifications db')%nat.
Proof.
  intros Hflush Hlast Hbefore Hop.
  pose proof (CommitSkip.flush_loop_frame _ _ _ _ _ _ _ _ _ _ Hflush)
    as (_ & _ & Hg & _ & _ & _).
  rewrite (commit_checkpoint_branch _ _ _ _ _ _ _ _ _ Hflush Hlast Hbefore Hop).
  destruct (autoActivate this1 _) as [this2 db2] eqn:Hauto.
  eexists _, _. split; [reflexivity|].
  destruct (autoActivate_batch _ _ _ _ Hauto) as (Hg2 & _).
  destruct (autoActivate_notifications _ _ _ _ Hauto) as [Hnot _].
  split; [done|]. split; [done|]. split; [|split].
  - intros doc1 Hdoc1. cbn. rewrite (autoActivate_documents _ _ _ _ (group_id this) Hauto).
    cbn. rewrite Hg, lookup_alter_eq, Hdoc1. done.
  - intros i Hi. cbn. rewrite (autoActivate_documents _ _ _ _ i Hauto).
    cbn. rewrite Hg, lookup_alter_ne by done. done.
  - cbn. cbn in Hnot. lia.
Qed.

(** *** The checkpoint LSN of the batch and of the stored sync rules *)

Lemma in_sync_frame (this this1 : BatchObject) (db db1 : PowerSyncMongo) :
  flush_frame this this1 db db1 → lsn_in_sync this db → lsn_in_sync this1 db1.
Proof.
  intros (Hl & _ & Hg & Hs & _) Hsync. unfold lsn_in_sync in *.
  rewrite Hl, Hg, <- Hsync. specialize (Hs (group_id this)).
  destruct (sync_rules db1 !! group_id this) as [d1|], (sync_rules db !! group_id this) as [d|];
    cbn in *; try done.
  unfold checkpoint_state in Hs. congruence.
Qed.

Lemma in_sync_autoActivate (this this' : BatchObject) (db db' : PowerSyncMongo) :
  autoActivate this db = (this', db') → lsn_in_sync this db → lsn_in_sync this' db'.
Proof.
  intros Hauto Hsync. unfold lsn_in_sync in *.
  destruct (autoActivate_batch _ _ _ _ Hauto) as (Hg & Hl & _).
  rewrite Hl, Hg, <- Hsync.
  pose proof (autoActivate_documents _ _ _ _ (group_id this) Hauto) as Hs.
  destruct (sync_rules db' !! group_id this) as [d1|], (sync_rules db !! group_id this) as [d|];
    cbn in *; try done.
  unfold without_state in Hs. cbn in Hs. congruence.
Qed.

Lemma in_sync_alter (this : BatchObject) (db : PowerSyncMongo) (v : option string)
    (p : option Z) (f : models.SyncRuleDocument → models.SyncRuleDocument) :
  (∀ d, models.last_checkpoint_lsn (f d) = v) →
  is_Some (sync_rules db !! group_id this) →
  lsn_in_sync (with_checkpoint this v p) (update_sync_rules (group_id this) f db).
Proof.
  intros Hf [d Hd]. unfold lsn_in_sync. cbn. rewrite lookup_alter_eq, Hd. cbn. by rewrite Hf.
Qed.

Lemma commit_lsn_monotone (fuel : nat) (now : Z) (lsn : string)
    (createEmptyCheckpoints r : bool) (this this' : BatchObject)
    (db db' : PowerSyncMongo) (L : string) :
  last_checkpoint_lsn this = Some L →
  lsn_in_sync this db →
  commit fuel now lsn createEmptyCheckpoints this db = Returned (r, this', db') →
  ∃ L', last_checkpoint_lsn this' = Some L' ∧ str_le L L' = true
        ∧ (L' = L ∨ L' = lsn) ∧ lsn_in_sync this' db'.
Proof.
  intros HL Hsync. unfold MongoBucketBatch.commit.
  destruct (flush fuel now this db) as [[[flushed this1] db1]| |] eqn:Hflush; [|done..].
  pose proof (CommitSkip.flush_loop_frame _ _ _ _ _ _ _ _ _ _ Hflush) as Hframe.
  pose proof (in_sync_frame _ _ _ _ Hframe Hsync) as Hsync1.
  destruct Hframe as (Hl & _).
  rewrite Hl, HL. cbn [is_null negb andb from_option].
  destruct (str_lt lsn L) eqn:Hlt.
  { intros [= <- <- <-]. exists L. rewrite Hl, HL. split; [done|].
    split; [apply str_le_refl|]. split; [by left|done]. }
  destruct (str_lt lsn (no_checkpoint_before_lsn this1)).
  { intros [= <- <- <-]. exists L. split.
    { destruct (5000 <? _); cbn; by rewrite Hl, HL. }
    split; [apply str_le_refl|]. split; [by left|].
    unfold lsn_in_sync in *.
    assert (Hg : ∀ t : BatchObject,
              group_id (if 5000 <? now - lastWaitingLogThottled this1
                        then with_lastWaitingLogThottled t now else t) = group_id t)
      by (intros t; by destruct (5000 <? _)).
    assert (Hk : ∀ t : BatchObject,
              last_checkpoint_lsn (if 5000 <? now - lastWaitingLogThottled this1
                                   then with_lastWaitingLogThottled t now else t)
              = last_checkpoint_lsn t)
      by (intros t; by destruct (5000 <? _)).
    rewrite Hg, Hk. cbn. rewrite lookup_alter_eq.
    destruct (sync_rules db1 !! group_id this1); cbn in *; done. }
  destruct (negb createEmptyCheckpoints && is_null (persisted_op this1)).
  { destruct (autoActivate this1 db1) as [this2 db2] eqn:Hauto.
    intros [= <- <- <-]. exists L.
    destruct (autoActivate_batch _ _ _ _ Hauto) as (_ & Hl2 & _).
    rewrite Hl2, Hl, HL. split; [done|]. split; [apply str_le_refl|]. split; [by left|].
    by eapply in_sync_autoActivate. }
  destruct (autoActivate this1 _) as [this2 db2] eqn:Hauto.
  intros [= <- <- <-]. exists lsn. split; [done|].
  split; [by apply str_lt_false_le|]. split; [by right|].
  unfold lsn_in_sync in *. cbn.
  destruct (autoActivate_batch _ _ _ _ Hauto) as (Hg2 & _).
  pose proof (autoActivate_documents _ _ _ _ (group_id this1) Hauto) as Hs.
  cbn in Hs. rewrite lookup_alter_eq in Hs. rewrite Hg2.
  destruct (sync_rules db2 !! group_id this1) as [d2|], (sync_rules db1 !! group_id this1) as [d1|];
    cbn in *; try done.
  unfold without_state in Hs. cbn in Hs. congruence.
Qed.

(** The checkpoint LSN never moves backwards, and the batch and the stored
    sync rules keep agreeing on it.  If the batch holds checkpoint LSN [L],
    which is also the one stored, then after [commit(lsn)] or
    [keepalive(lsn)], whatever they return, both hold an LSN that is [L] or
    [lsn] and is not below [L]. *)
Theorem checkpoint_lsn_never_decreases (fuel : nat) (now : Z) (lsn : string)
    (createEmptyCheckpoints r : bool) (this this' : BatchObject)
    (db db' : PowerSyncMongo) (L : string) :
  last_checkpoint_lsn this = Some L →
  lsn_in_sync this db →
  commit fuel now lsn createEmptyCheckpoints this db = Returned (r, this', db')
  ∨ keepalive fuel now lsn this db = Returned (r, this', db') →
  ∃ L', last_checkpoint_lsn this' = Some L' ∧ str_le L L' = true
        ∧ (L' = L ∨ L' = lsn) ∧ lsn_in_sync this' db'.
Proof.
  intros HL Hsync [Hcommit|Hkeep]; [by eapply commit_lsn_monotone|].
  revert Hkeep. unfold MongoBucketBatch.keepalive.
  rewrite HL. cbn [is_null negb andb from_option].
  destruct (str_le lsn L) eqn:Hle.
  { intros [= <- <- <-]. exists L. split; [done|]. split; [apply str_le_refl|].
    split; [by left|done]. }
  destruct (str_lt lsn (no_checkpoint_before_lsn this)).
  { intros [= <- <- <-]. exists L. split; [done|]. split; [apply str_le_refl|].
    split; [by left|done]. }
  destruct (persisted_op this) as [op|] eqn:Hop; cbn [is_null negb].
  { intros Hcommit. by eapply commit_lsn_monotone. }
  destruct (autoActivate this _) as [this2 db2] eqn:Hauto.
  intros [= <- <- <-]. exists lsn. split; [done|].
  split; [by apply str_le_false_le|]. split; [by right|].
  unfold lsn_in_sync in *. cbn.
  destruct (autoActivate_batch _ _ _ _ Hauto) as (Hg2 & _).
  pose proof (autoActivate_documents _ _ _ _ (group_id this) Hauto) as Hs.
  cbn in Hs. rewrite lookup_alter_eq in Hs. rewrite Hg2.
  destruct (sync_rules db2 !! group_id this) as [d2|], (sync_rules db !! group_id this) as [d1|];
    cbn in *; try done.
  unfold without_state in Hs. cbn in Hs. congruence.
Qed.

(** A commit held back by [no_checkpoint_before_lsn] is applied by a later
    keepalive.  With op [op] persisted and nothing buffered, [commit(lsn1)]
    for [lsn1] below [no_checkpoint_before_lsn] returns false, keeps the
    persisted op in the batch, stores it as [keepalive_op] and leaves the
    stored checkpoint alone; [keepalive(lsn2)] at or past
    [no_checkpoint_before_lsn] then returns true and stores the checkpoint
    [lsn2] with [op] as its op id, clearing [keepalive_op]. *)
Theorem deferred_commit_applied_by_keepalive (fuel : nat) (now now' : Z)
    (lsn1 lsn2 : string) (createEmptyCheckpoints : bool) (this : BatchObject)
    (db : PowerSyncMongo) (op : Z) (doc : models.SyncRuleDocument) :
  batch this = None → write_checkpoint_batch this = [] →
  persisted_op this = Some op →
  sync_rules db !! group_id this = Some doc →
  (∀ L, last_checkpoint_lsn this = Some L → str_lt lsn1 L = false ∧ str_le lsn2 L = false) →
  str_lt lsn1 (no_checkpoint_before_lsn this) = true →
  str_lt lsn2 (no_checkpoint_before_lsn this) = false →
  ∃ this1 db1 this2 db2,
    commit fuel now lsn1 createEmptyCheckpoints this db = Returned (false, this1, db1)
    ∧ persisted_op this1 = Some op
    ∧ last_checkpoint_lsn this1 = last_checkpoint_lsn this
    ∧ sync_rules db1 !! group_id this = Some (set_keepalive_op (Some op) doc)
    ∧ keepalive fuel now' lsn2 this1 db1 = Returned (true, this2, db2)
    ∧ last_checkpoint_lsn this2 = Some lsn2
    ∧ persisted_op this2 = None
    ∧ without_state <$> sync_rules db2 !! group_id this
      = Some (without_state (commit_update lsn2 now' (Some op) doc)).
Proof.
  intros Hb Hw Hop Hdoc Hlast Hlt1 Hlt2.
  pose proof (CommitSkip.flush_nothing_buffered replicateBatch
                batchCreateCustomWriteCheckpoints fuel now this db Hb Hw) as Hflush.
  set (this1 := if 5000 <? now - lastWaitingLogThottled this
                then with_lastWaitingLogThottled this now else this).
  set (db1 := notifyCheckpoint
                (update_sync_rules (group_id this) (set_keepalive_op (persisted_op this)) db)).
  assert (H1 : (group_id this1 = group_id this ∧ batch this1 = None
                ∧ write_checkpoint_batch this1 = [] ∧ persisted_op this1 = Some op)
               ∧ last_checkpoint_lsn this1 = last_checkpoint_lsn this
               ∧ no_checkpoint_before_lsn this1 = no_checkpoint_before_lsn this).
  { subst this1. by destruct (5000 <? _). }
  destruct H1 as ((Hg1 & Hb1 & Hw1 & Hop1) & Hl1 & Hn1).
  assert (Hgate1 : negb (is_null (last_checkpoint_lsn this))
                   && from_option (str_lt lsn1) false (last_checkpoint_lsn this) = false).
  { destruct (last_checkpoint_lsn this) as [L|]; [|done]. cbn. by apply Hlast. }
  assert (Hcommit1 : commit fuel now lsn1 createEmptyCheckpoints this db
                     = Returned (false, this1, db1)).
  { unfold MongoBucketBatch.commit. rewrite Hflush, Hgate1, Hlt1. subst this1 db1.
    by destruct (5000 <? _). }
  assert (Hdoc1 : sync_rules db1 !! group_id this = Some (set_keepalive_op (Some op) doc)).
  { subst db1. cbn. by rewrite lookup_alter_eq, Hdoc, Hop. }
  pose proof (CommitSkip.flush_nothing_buffered replicateBatch
                batchCreateCustomWriteCheckpoints fuel now' this1 db1 Hb1 Hw1) as Hflush1.
  pose proof (commit_checkpoint_branch fuel now' lsn2 DEFAULT_createEmptyCheckpoints
                this1 this1 db1 db1 None Hflush1) as Hcommit2.
  destruct (autoActivate this1 _) as [this2' db2'] eqn:Hauto in Hcommit2.
  set (this2 := with_checkpoint this2' (Some lsn2) None) in *.
  set (db2 := notifyCheckpoint db2') in *.
  assert (Hcommit2' : commit fuel now' lsn2 DEFAULT_createEmptyCheckpoints this1 db1
                      = Returned (true, this2, db2)).
  { apply Hcommit2.
    - intros L HL. rewrite Hl1 in HL. destruct (Hlast L HL) as [_ Hle].
      unfold str_lt, str_le, String.ltb, String.leb in *.
      by destruct (String.compare lsn2 L).
    - by rewrite Hn1.
    - right. by rewrite Hop1. }
  clear Hcommit2. rename Hcommit2' into Hcommit2.
  assert (Hl2 : last_checkpoint_lsn this2 = Some lsn2) by done.
  assert (Hp2 : persisted_op this2 = None) by done.
  assert (Hdoc2 : without_state <$> sync_rules db2 !! group_id this
                  = Some (without_state (commit_update lsn2 now' (Some op) doc))).
  { subst db2. cbn [notifyCheckpoint sync_rules].
    rewrite (autoActivate_documents _ _ _ _ (group_id this) Hauto).
    cbn [update_sync_rules mark_processed sync_rules].
    by rewrite Hg1, lookup_alter_eq, Hdoc1, Hop1. }
  exists this1, db1, this2, db2.
  split; [done|]. split; [done|]. split; [done|]. split; [done|].
  split; [|split; [done|split; [done|]]].
  - unfold MongoBucketBatch.keepalive. rewrite Hl1, Hn1, Hlt2, Hop1.
    assert (Hgate2 : negb (is_null (last_checkpoint_lsn this))
                     && from_option (str_le lsn2) false (last_checkpoint_lsn this) = false).
    { destruct (last_checkpoint_lsn this) as [L|]; [|done]. cbn. by apply Hlast. }
    rewrite Hgate2. cbn [is_null negb]. exact Hcommit2.
  - exact Hdoc2.
Qed.

End Facts.

Lemma autoActivate_single_active_witness :
  needsActivation batch_snapshot = true
  ∧ models.state <$> sync_rules db_snapshot !! group_id batch_snapshot
    = Some models.PROCESSING
  ∧ models.state <$> sync_rules (autoActivate batch_snapshot db_snapshot).2 !! 2
    = Some models.ACTIVE
  ∧ models.state <$> sync_rules (autoActivate batch_snapshot db_snapshot).2 !! 1
    = Some models.STOP.
Proof.
  split; [reflexivity|]. split; [reflexivity|].
  destruct (autoActivate_single_active batch_snapshot db_snapshot) as (Hactive & _).
  destruct (Hactive eq_refl eq_refl) as (H2 & _ & H1 & _).
  split; [exact H2|].
  by rewrite (H1 1 doc_at_5 ltac:(done) eq_refl).
Defined.

Lemma commit_creates_checkpoint_witness :
  ∃ this' db',
    commit append_ops keep_store 1 200 "0000000000000009" false batch_snapshot db_snapshot
    = Returned (true, this', db')
    ∧ last_checkpoint_lsn this' = Some "0000000000000009"
    ∧ models.last_checkpoint <$> sync_rules db' !! 2 = Some (Some 9).
Proof.
  destruct (commit_creates_checkpoint append_ops keep_store 1 200 "0000000000000009" false
              batch_snapshot batch_snapshot db_snapshot db_snapshot None)
    as (this' & db' & Hc & Hl & _ & Hdoc & _).
  - reflexivity.
  - intros L HL. discriminate HL.
  - reflexivity.
  - right. discriminate.
  - exists this', db'. split; [exact Hc|]. split; [exact Hl|].
    specialize (Hdoc doc_processing eq_refl). cbn in Hdoc.
    destruct (sync_rules db' !! 2) as [d|]; [|discriminate Hdoc].
    cbn in *. unfold without_state in Hdoc. cbn in Hdoc. congruence.
Defined.

Lemma checkpoint_lsn_never_decreases_witness :
  ∃ L', last_checkpoint_lsn
          (with_checkpoint (batch_at_5 None (Some 7)) (Some "0000000000000006") None)
        = Some L'
        ∧ str_le "0000000000000005" L' = true.
Proof.
  destruct (checkpoint_lsn_never_decreases append_ops keep_store true 1 200
              "0000000000000006" true true (batch_at_5 None (Some 7))
              (with_checkpoint (batch_at_5 None (Some 7)) (Some "0000000000000006") None)
              db_at_5
              (notifyCheckpoint
                 (update_sync_rules 1 (commit_update "0000000000000006" 200 (Some 7))
                    (mark_processed "0000000000000006" db_at_5)))
              "0000000000000005")
    as (L' & HL' & Hle & _).
  - reflexivity.
  - reflexivity.
  - left. vm_compute. reflexivity.
  - by exists L'.
Defined.

Lemma deferred_commit_applied_by_keepalive_witness :
  ∃ this1 db1 this2 db2,
    commit append_ops keep_store 1 200 "0000000000000007" true batch_snapshot db_snapshot
    = Returned (false, this1, db1)
    ∧ keepalive append_ops keep_store true 1 300 "0000000000000008" this1 db1
      = Returned (true, this2, db2)
    ∧ models.last_checkpoint <$> sync_rules db2 !! 2 = Some (Some 9)
    ∧ models.last_checkpoint_lsn <$> sync_rules db2 !! 2 = Some (Some "0000000000000008").
Proof.
  destruct (deferred_commit_applied_by_keepalive append_ops keep_store true 1 200 300
              "0000000000000007" "0000000000000008" true batch_snapshot db_snapshot
              9 doc_processing)
    as (this1 & db1 & this2 & db2 & Hc & _ & _ & _ & Hk & _ & _ & Hdoc).
  - reflexivity.
  - reflexivity.
  - reflexivity.
  - reflexivity.
  - intros L HL. discriminate HL.
  - reflexivity.
  - reflexivity.
  - exists this1, db1, this2, db2. split; [exact Hc|]. split; [exact Hk|].
    cbn in Hdoc. destruct (sync_rules db2 !! 2) as [d|]; [|discriminate Hdoc].
    unfold without_state in Hdoc. cbn in Hdoc. split; cbn; congruence.
Defined.

Lemma flush_leaves_nothing_buffered_witness :
  ∃ op this' db',
    flush append_ops keep_store 1 200 (batch_at_5 (Some [11; 12]) None) db_at_5
    = Returned (Some op, this', db')
    ∧ 9 <= op <= 10
    ∧ batch this' = None.
Proof.
  destruct (flush_leaves_nothing_buffered append_ops keep_store 1 200
              (batch_at_5 (Some [11; 12]) None) db_at_5) as [Hpost Hone].
  destruct (Hone [11; 12] 9 [11; 12] ltac:(lia) eq_refl eq_refl)
    as (op & this' & db' & Hf & Hop).
  exists op, this', db'. split; [exact Hf|]. split; [exact Hop|].
  by destruct (Hpost _ _ _ Hf) as (Hb & _).
Defined.

End BatchCheckpoints.

(** ** Oversized rows in saveOperation *)

Module OversizedRow.
Import MongoBucketBatch.

Section Facts.
Context {Value ReplicaId Binary OperationBatch CustomWriteCheckpoint
         EvaluatedParameters : Type}.
Variable bson_serialize : @Row Value → option Binary.
Variable binary_length : Binary → Z.
Variable deserializeBson : Binary → @Row Value.
Variable mergeToast : @Row Value → @Row Value → @Row Value.
Variable replicaIdEquals : option ReplicaId → option ReplicaId → bool.
Variable truthy : ReplicaId → bool.
Variable evaluateRowWithErrors :
  SourceTable → @Row Value → list (@EvaluatedRow Value) * list string.
Variable evaluateParameterRowWithErrors :
  SourceTable → @Row Value → list EvaluatedParameters * list string.
Variable serializeLookup : EvaluatedParameters → Binary.

Local Abbreviation BatchObject := (@BatchObject OperationBatch CustomWriteCheckpoint).
Local Abbreviation Effect := (@Effect Value ReplicaId Binary EvaluatedParameters).
Local Abbreviation saveOperation :=
  (saveOperation bson_serialize binary_length deserializeBson mergeToast replicaIdEquals
     truthy evaluateRowWithErrors evaluateParameterRowWithErrors serializeLookup).
Local Abbreviation save_data :=
  (save_data (OperationBatch := OperationBatch)
     (CustomWriteCheckpoint := CustomWriteCheckpoint) replicaIdEquals
     truthy evaluateRowWithErrors evaluateParameterRowWithErrors serializeLookup).
Local Abbreviation existing_state :=
  (existing_state (OperationBatch := OperationBatch) (ReplicaId := ReplicaId)
     (EvaluatedParameters := EvaluatedParameters)
     (CustomWriteCheckpoint := CustomWriteCheckpoint) deserializeBson mergeToast).
Local Abbreviation merged_after :=
  (merged_after (OperationBatch := OperationBatch) (ReplicaId := ReplicaId)
     (EvaluatedParameters := EvaluatedParameters)
     (CustomWriteCheckpoint := CustomWriteCheckpoint) deserializeBson mergeToast).
Local Abbreviation try_serialize := (try_serialize bson_serialize binary_length).

Ltac M_simpl :=
  unfold when, mbind, M_bind, bind, mret, M_ret, ret, emit, throw in *; cbn in *.

Lemma placeholder_all_empty (row : @Row Value) :
  map fst (placeholder row) = map fst row
  ∧ Forall (fun kv => kv.2 = None) (placeholder row).
Proof.
  unfold placeholder. split.
  - rewrite map_map. by apply map_ext.
  - apply Forall_forall. intros kv Hkv. apply list_elem_of_fmap in Hkv as (x & -> & _). done.
Qed.

Lemma placeholder_incomplete (row : @Row Value) :
  row ≠ [] → isCompleteRow true (placeholder row) = false.
Proof. by destruct row. Qed.

Lemma existing_state_quiet (this : BatchObject) (record : SaveOptions)
    (current_data : option CurrentDataDocument) :
  Forall quiet (existing_state this record current_data).1.
Proof.
  unfold MongoBucketBatch.existing_state.
  destruct (tag record), current_data as [result|],
    (storeCurrentData this), (markRecordUnavailable this), (after record) as [a|];
    cbn [from_option]; try destruct (data result);
    try destruct (isCompleteRow _ a); M_simpl.
  all: repeat (apply List.Forall_cons; [unfold quiet; cbn; tauto|]).
  all: apply List.Forall_nil.
Qed.

Lemma save_data_incomplete (this : BatchObject) (operation : RecordOperation)
    (existing_buckets : list models.CurrentBucket) (existing_lookups : list Binary)
    (row : @Row Value) (afterData : option Binary) (aid : ReplicaId) :
  afterId operation = Some aid → truthy aid = true →
  isCompleteRow (storeCurrentData this) row = false →
  let after_key := {| g := group_id this; t := table_id (sourceTable (record operation));
                      k := Some aid |} in
  let stored := {| _id := after_key; data := afterData; buckets := []; lookups := [] |} in
  ∃ effects,
    save_data this operation existing_buckets existing_lookups (Some row) afterData
    = (effects, Returned (Some stored))
    ∧ Forall quiet effects
    ∧ UpsertCurrentData after_key afterData [] [] ∈ effects.
Proof.
  intros Hid Htruthy Hinc. cbv zeta. unfold MongoBucketBatch.save_data.
  rewrite Hid. cbn [from_option]. rewrite Htruthy, Hinc. cbn [andb is_null orb].
  destruct (beforeId operation) as [bid|]; cbn [is_null negb andb];
    destruct (replicaIdEquals _ _); cbn [negb andb];
    destruct (syncData (sourceTable (record operation))),
             (syncParameters (sourceTable (record operation))); M_simpl;
    eexists; (split; [reflexivity|]); cbn.
  all: split; [repeat (apply List.Forall_cons; [unfold quiet; cbn; tauto|]);
               apply List.Forall_nil|].
  all: set_solver.
Qed.

Lemma filter_report_quiet (l : list Effect) :
  Forall quiet l → filter is_report l = [].
Proof.
  induction 1 as [|e l [He _] _ IH]; [done|].
  by rewrite filter_cons, decide_False, IH.
Qed.

Lemma quiet_no_put (l : list Effect) :
  Forall quiet l → Forall (fun e => ¬ writes_put e) l.
Proof. intros H. eapply Forall_impl; [exact H|]. by intros e [_ He]. Qed.

(** C5, with the strict size bound.  With [storeCurrentData], take an
    INSERT or UPDATE with an after id that [skipExistingRows] lets through
    (it is off, or the record is an INSERT of a row not yet stored), and
    whose row, with at least one column, is not serialized within
    [MAX_ROW_SIZE] (15 MiB): [bson.serialize] gives more than [MAX_ROW_SIZE]
    bytes, or throws.  The [try] block rejects the row, with PSYNC_S1002 in
    the first case and with the error of [bson.serialize] in the second; the
    row is replaced by a placeholder that keeps every column and empties
    every value; the error goes to the telemetry reporter, as the only
    report, and is not thrown; the call returns and [current_data] is
    upserted with the serialized placeholder.  No PUT is written for the
    placeholder row. *)
Theorem oversized_row_replaced (this : BatchObject) (operation : RecordOperation)
    (current_data : option CurrentDataDocument) (row : @Row Value) (aid : ReplicaId)
    (placeholderData : Binary) :
  storeCurrentData this = true →
  (skipExistingRows this = true →
   tag (record operation) = INSERT ∧ current_data = None) →
  tag (record operation) ≠ DELETE →
  afterId operation = Some aid → truthy aid = true →
  merged_after this operation current_data = Some row →
  row ≠ [] →
  (∀ afterData, bson_serialize row = Some afterData →
     MAX_ROW_SIZE < binary_length afterData) →
  bson_serialize (placeholder row) = Some placeholderData →
  let rejected := rejection bson_serialize row in
  let table := sourceTable (record operation) in
  let after_key := {| g := group_id this; t := table_id table; k := Some aid |} in
  let stored := {| _id := after_key; data := Some placeholderData;
                   buckets := []; lookups := [] |} in
  try_serialize (Some row) = Threw rejected
  ∧ (rejected = ServiceError PSYNC_S1002 "Row too large"
     ↔ is_Some (bson_serialize row))
  ∧ map fst (placeholder row) = map fst row
  ∧ Forall (fun kv => kv.2 = None) (placeholder row)
  ∧ ∃ effects,
      saveOperation this operation current_data = (effects, Returned (Some stored))
      ∧ filter is_report effects = [CaptureMessage (DataTooBig rejected) (qualifiedName table)]
      ∧ UpsertCurrentData after_key (Some placeholderData) [] [] ∈ effects
      ∧ Forall (fun e => ¬ writes_put e) effects.
Proof.
  intros Hstore Hskip Htag Hid Htruthy Hafter Hrow Hlen Hph. cbv zeta.
  assert (Htry : try_serialize (Some row) = Threw (rejection bson_serialize row)).
  { unfold MongoBucketBatch.try_serialize, rejection.
    destruct (bson_serialize row) as [afterData|] eqn:Hser; [|done].
    specialize (Hlen afterData eq_refl).
    by destruct (Z.ltb_spec MAX_ROW_SIZE (binary_length afterData)); [|lia]. }
  destruct (placeholder_all_empty row) as [Hkeys Hempty].
  split; [exact Htry|]. split.
  { unfold rejection. destruct (bson_serialize row); split; try done; by intros [? ?]. }
  split; [exact Hkeys|]. split; [exact Hempty|].
  pose proof (existing_state_quiet this (record operation) current_data) as Hq0.
  unfold MongoBucketBatch.merged_after in Hafter.
  destruct (existing_state this (record operation) current_data) as [l0 o0] eqn:E0.
  destruct o0 as [[[eb el] after]| |]; [|done..]. subst after. cbn in Hq0.
  destruct (save_data_incomplete this operation eb el (placeholder row)
              (Some placeholderData) aid Hid Htruthy) as (l2 & E2 & Hq2 & Hin2).
  { rewrite Hstore. by apply placeholder_incomplete. }
  exists (l0 ++ CaptureMessage (DataTooBig (rejection bson_serialize row))
                  (qualifiedName (sourceTable (record operation))) :: l2).
  split; [|split; [|split]].
  - unfold MongoBucketBatch.saveOperation, skip_existing.
    destruct (skipExistingRows this).
    + destruct (Hskip eq_refl) as [Hinsert Hnone]. rewrite Hinsert, Hnone in *.
      cbn [is_null negb].
      unfold after_data, serialize_after. rewrite Hid, Hstore. cbn [negb].
      unfold mbind, M_bind, bind, ret. cbn [app]. rewrite E0.
      rewrite Htry, Hph. unfold emit. cbn [app]. rewrite E2. done.
    + unfold after_data, serialize_after. rewrite Hid, Hstore. cbn [negb].
      unfold mbind, M_bind, bind, ret. cbn [app]. rewrite E0.
      rewrite Htry, Hph. unfold emit. cbn [app]. rewrite E2. done.
  - rewrite filter_app, filter_cons, decide_True by done.
    by rewrite !filter_report_quiet.
  - apply elem_of_app. right. by right.
  - apply Forall_app. split; [by apply quiet_no_put|].
    apply List.Forall_cons; [cbn; tauto|by apply quiet_no_put].
Qed.

End Facts.

(** C5, counterexample.  A row that serializes to exactly [MAX_ROW_SIZE]
    bytes (15 MiB) is not rejected: nothing is reported, and the PUT and
    [current_data] are written with the row itself. *)
Lemma row_of_15MiB_not_rejected :
  let row := [("id", Some 4); ("blob", Some 15728611)] in
  let this := batch_at_5 None None in
  serialize_sized row = Some MAX_ROW_SIZE
  ∧ MAX_ROW_SIZE >= 15 * 1024 * 1024
  ∧ try_serialize serialize_sized id (Some row) = Returned MAX_ROW_SIZE
  ∧ ∃ effects stored,
      save_sized this (insert_blob 15728611) None = (effects, Returned (Some stored))
      ∧ filter is_report effects = []
      ∧ Exists writes_put effects
      ∧ data stored = Some MAX_ROW_SIZE.
Proof.
  cbv zeta. split; [reflexivity|]. split; [by vm_compute|]. split; [reflexivity|].
  eexists _, _. split; [vm_compute; reflexivity|].
  split; [reflexivity|]. split; [|reflexivity].
  apply Exists_cons_hd. cbn. done.
Qed.

Lemma oversized_row_replaced_witness :
  let row := [("id", Some 4); ("blob", Some 15728612)] in
  let this := batch_at_5 None None in
  let too_large := ServiceError PSYNC_S1002 "Row too large" in
  let after_key := {| g := 1; t := "t1"; k := Some "u1" |} in
  serialize_sized row = Some (MAX_ROW_SIZE + 1)
  ∧ serialize_sized (placeholder row) = Some 5
  ∧ ∃ effects,
      save_sized this (insert_blob 15728612) None
      = (effects, Returned (Some {| _id := after_key; data := Some 5;
                                    buckets := []; lookups := [] |}))
      ∧ filter is_report effects = [CaptureMessage (DataTooBig too_large) "public.users"]
      ∧ UpsertCurrentData after_key (Some 5) [] [] ∈ effects
      ∧ Forall (fun e => ¬ writes_put e) effects.
Proof.
  cbv zeta. split; [reflexivity|]. split; [reflexivity|].
  apply (oversized_row_replaced serialize_sized id (fun _ => []) (fun a _ => a) id_equals
           non_empty evaluate_global no_parameters (fun _ => 0)
           (batch_at_5 None None) (insert_blob 15728612) None
           [("id", Some 4); ("blob", Some 15728612)] "u1" 5);
    try reflexivity; try done.
  intros afterData [= <-]. vm_compute. reflexivity.
Defined.

(** A row that [bson.serialize] cannot render (20 MB, more than its
    buffer), inserted during the initial replication: it is replaced by the
    placeholder as well, and the report carries the error of
    [bson.serialize], not PSYNC_S1002. *)
Example unserializable_row_replaced :
  serialize_sized [("id", Some 4); ("blob", Some 20000000)] = None
  ∧ skipExistingRows batch_initial = true
  ∧ ∃ effects stored,
      save_sized batch_initial (insert_blob 20000000) None
      = (effects, Returned (Some stored))
      ∧ data stored = Some 5
      ∧ filter is_report effects
        = [CaptureMessage (DataTooBig (DriverError "bson.serialize")) "public.users"].
Proof.
  split; [reflexivity|]. split; [reflexivity|].
  eexists _, _. split; [vm_compute; reflexivity|]. split; reflexivity.
Qed.

(** Without [storeCurrentData] the row is not serialized and its size is not
    checked: a 20 MB row is evaluated and written as it is. *)
Example large_row_without_current_data :
  ∃ effects stored,
    save_sized batch_no_current_data (insert_blob 20000000) None
    = (effects, Returned (Some stored))
    ∧ filter is_report effects = []
    ∧ Exists writes_put effects.
Proof.
  eexists _, _. split; [vm_compute; reflexivity|].
  split; [reflexivity|]. apply Exists_cons_hd. cbn. done.
Qed.

End OversizedRow.
(** ** What saveOperation writes to current_data and to the buckets *)

Module SaveOperationEffects.
Import MongoBucketBatch.

Section Facts.
Context {Value ReplicaId Binary OperationBatch CustomWriteCheckpoint
         EvaluatedParameters : Type}.
Variable bson_serialize : @Row Value → option Binary.
Variable binary_length : Binary → Z.
Variable deserializeBson : Binary → @Row Value.
Variable mergeToast : @Row Value → @Row Value → @Row Value.
Variable replicaIdEquals : option ReplicaId → option ReplicaId → bool.
Variable truthy : ReplicaId → bool.
Variable evaluateRowWithErrors :
  SourceTable → @Row Value → list (@EvaluatedRow Value) * list string.
Variable evaluateParameterRowWithErrors :
  SourceTable → @Row Value → list EvaluatedParameters * list string.
Variable serializeLookup : EvaluatedParameters → Binary.

Local Abbreviation BatchObject := (@BatchObject OperationBatch CustomWriteCheckpoint).
Local Abbreviation Effect := (@Effect Value ReplicaId Binary EvaluatedParameters).
Local Abbreviation CurrentDataDocument := (@CurrentDataDocument ReplicaId Binary).
Local Abbreviation saveOperation :=
  (saveOperation bson_serialize binary_length deserializeBson mergeToast replicaIdEquals
     truthy evaluateRowWithErrors evaluateParameterRowWithErrors serializeLookup).
Local Abbreviation save_data :=
  (save_data (OperationBatch := OperationBatch)
     (CustomWriteCheckpoint := CustomWriteCheckpoint) replicaIdEquals
     truthy evaluateRowWithErrors evaluateParameterRowWithErrors serializeLookup).
Local Abbreviation existing_state :=
  (existing_state (OperationBatch := OperationBatch) (ReplicaId := ReplicaId)
     (EvaluatedParameters := EvaluatedParameters)
     (CustomWriteCheckpoint := CustomWriteCheckpoint) deserializeBson mergeToast).
Local Abbreviation after_data :=
  (after_data (OperationBatch := OperationBatch) (ReplicaId := ReplicaId)
     (EvaluatedParameters := EvaluatedParameters)
     (CustomWriteCheckpoint := CustomWriteCheckpoint) bson_serialize binary_length).
Local Abbreviation skip_existing :=
  (skip_existing (Value := Value) (OperationBatch := OperationBatch) (ReplicaId := ReplicaId)
     (EvaluatedParameters := EvaluatedParameters) (Binary := Binary)
     (CustomWriteCheckpoint := CustomWriteCheckpoint)).

Local Existing Instances M_ret M_bind.

Ltac M_unfold :=
  unfold when, mbind, M_bind, bind, mret, M_ret, ret, emit, throw in *; cbn in *.

(** The reports of a [for (let error of errors)] loop. *)
Lemma for_each_reports {A} (l : list A) (a b : Effect) :
  for_each l (fun _ => emit a;; emit b) = (flat_map (fun _ => [a; b]) l, Returned tt).
Proof.
  induction l as [|x l IH]; [done|]. cbn [for_each]. rewrite IH. by M_unfold.
Qed.

Lemma upserts_reports {A} (l : list A) (k : ReportKind) (t : string) :
  upserts (flat_map (fun _ => [CaptureMessage k t; LoggerError : Effect]) l) = []
  ∧ deletes (flat_map (fun _ => [CaptureMessage k t; LoggerError : Effect]) l) = []
  ∧ bucket_writes (flat_map (fun _ => [CaptureMessage k t; LoggerError : Effect]) l) = []
  ∧ parameter_writes (flat_map (fun _ => [CaptureMessage k t; LoggerError : Effect]) l) = [].
Proof. by induction l. Qed.

Lemma reports_not_too_big {A} (l : list A) (t : string) (k : ReportKind) :
  (∀ e, k ≠ DataTooBig e) →
  Forall (fun e : Effect => ¬ is_too_big e)
    (flat_map (fun _ => [CaptureMessage k t; LoggerError : Effect]) l).
Proof.
  intros Hk. induction l as [|x l IH]; cbn; [constructor|].
  constructor; [destruct k; cbn; [by intros _; eapply Hk|tauto..]|].
  constructor; [cbn; tauto|done].
Qed.

(** Steps 2 to 5 in closed form: what is upserted, deleted and passed to
    [saveBucketData] and [saveParameterData]. *)
Lemma save_data_writes (this : BatchObject) (operation : RecordOperation)
    (existing_buckets : list models.CurrentBucket) (existing_lookups : list Binary)
    (after : option (@Row Value)) (afterData : option Binary) :
  let table := sourceTable (record operation) in
  let changed := id_changed replicaIdEquals operation in
  let complete :=
    from_option truthy false (afterId operation)
    && from_option (isCompleteRow (storeCurrentData this)) false after in
  let before_key := {| g := group_id this; t := table_id table; k := beforeId operation |} in
  let after_key := {| g := group_id this; t := table_id table; k := afterId operation |} in
  let evaluated := (evaluateRowWithErrors table (default [] after)).1 in
  let paramEvaluated := (evaluateParameterRowWithErrors table (default [] after)).1 in
  ∃ effects r,
    save_data this operation existing_buckets existing_lookups after afterData
    = (effects, Returned r)
    ∧ upserts effects = option_list r
    ∧ r = (if from_option truthy false (afterId operation)
           then Some {| _id := after_key; data := afterData;
                        buckets :=
                          if complete && syncData table
                          then map (fun e => {| models.bucket := e_bucket e;
                                                models.table := e_table e;
                                                models.id := e_id e |}) evaluated
                          else [];
                        lookups :=
                          if complete && syncParameters table
                          then map serializeLookup paramEvaluated else [] |}
           else None)
    ∧ deletes effects
      = (if leaves_before_key replicaIdEquals operation then [before_key] else [])
    ∧ bucket_writes effects
      = (if changed && syncData table
         then [(beforeId operation, existing_buckets, [])] else [])
        ++ (if complete && syncData table
            then [(afterId operation,
                   if changed && syncData table then [] else existing_buckets,
                   evaluated)]
            else [])
    ∧ parameter_writes effects
      = (if changed && syncParameters table
         then [(beforeId operation, [], existing_lookups)] else [])
        ++ (if complete && syncParameters table
            then [(afterId operation, paramEvaluated,
                   if changed && syncParameters table then [] else existing_lookups)]
            else [])
    ∧ Forall (fun e => ¬ is_too_big e) effects.
Proof.
  cbv zeta. unfold MongoBucketBatch.save_data, id_changed, leaves_before_key.
  destruct (evaluateRowWithErrors _ _) as [evaluated syncErrors].
  destruct (evaluateParameterRowWithErrors _ _) as [paramEvaluated paramErrors].
  destruct (beforeId operation) as [bid|], (afterId operation) as [aid|];
    cbn [is_null negb andb orb from_option];
    try destruct (truthy aid); try destruct (replicaIdEquals _ _);
    try destruct after as [row|]; cbn [from_option default];
    try destruct (isCompleteRow _ row);
    destruct (syncData (sourceTable (record operation))),
             (syncParameters (sourceTable (record operation)));
    cbn [is_null negb andb orb from_option fst snd];
    rewrite ?for_each_reports; M_unfold.
  all: eexists _, _; split; [reflexivity|].
  all: unfold upserts, deletes, bucket_writes, parameter_writes;
    cbn; rewrite ?omap_app; cbn;
    repeat match goal with
           | |- context [omap ?f (flat_map ?g ?l)] =>
               let H := fresh in
               assert (H : omap f (flat_map g l) = []) by (clear; by induction l);
               rewrite H; clear H
           end; cbn.
  all: repeat split; try done.
  all: repeat first [ apply List.Forall_nil
                    | apply reports_not_too_big; done
                    | apply List.Forall_cons; [cbn; tauto|]
                    | apply Forall_app_2 ].
Qed.

Lemma bind_inv {A B} (m : M A) (f : A → M B) (effects : list Effect) (out : Outcome B) :
  bind m f = (effects, out) →
  (∃ l1 a l2, m = (l1, Returned a) ∧ f a = (l2, out) ∧ effects = l1 ++ l2)
  ∨ (∃ e, m = (effects, Threw e) ∧ out = Threw e)
  ∨ (m = (effects, OutOfFuel) ∧ out = OutOfFuel).
Proof.
  unfold bind. destruct m as [l1 [a|e|]].
  - destruct (f a) as [l2 r] eqn:E. intros [= <- <-]. left. by exists l1, a, l2.
  - intros [= <- <-]. right. left. by exists e.
  - intros [= <- <-]. right. by right.
Qed.

Lemma bind_returned {A B} (m : M A) (f : A → M B) (effects : list Effect) (r : B) :
  bind m f = (effects, Returned r) →
  ∃ l1 a l2, m = (l1, Returned a) ∧ f a = (l2, Returned r) ∧ effects = l1 ++ l2.
Proof.
  intros H. by apply bind_inv in H as [H|[(e & _ & [=])|[_ [=]]]].
Qed.

(** The [skipExistingRows] guard writes nothing. *)
Lemma skip_existing_writes (this : BatchObject) (record : SaveOptions)
    (current_data : option CurrentDataDocument) :
  (skip_existing this record current_data).1 = [].
Proof.
  unfold MongoBucketBatch.skip_existing.
  by destruct (skipExistingRows this), (tag record).
Qed.

(** The branches on the tag only log or mark the record; they hand on the
    buckets and lookups of the stored row, none for an INSERT. *)
Lemma existing_state_writes (this : BatchObject) (record : SaveOptions)
    (current_data : option CurrentDataDocument) :
  ∃ l out,
    existing_state this record current_data = (l, out)
    ∧ upserts l = [] ∧ deletes l = [] ∧ bucket_writes l = [] ∧ parameter_writes l = []
    ∧ Forall (fun e => ¬ is_too_big e) l
    ∧ ∀ eb el after', out = Returned (eb, el, after') →
        eb = match tag record, current_data with
             | INSERT, _ | _, None => []
             | _, Some result => buckets result
             end
        ∧ el = match tag record, current_data with
               | INSERT, _ | _, None => []
               | _, Some result => lookups result
               end
        ∧ (storeCurrentData this = false → after' = after record).
Proof.
  unfold MongoBucketBatch.existing_state.
  destruct (tag record), current_data as [result|],
    (storeCurrentData this), (markRecordUnavailable this), (after record) as [a|];
    cbn [from_option]; try destruct (data result);
    try destruct (isCompleteRow _ a); M_unfold.
  all: eexists _, _; split; [reflexivity|]; cbn.
  all: repeat split; try done.
  all: repeat first [ apply List.Forall_nil | apply List.Forall_cons; [cbn; tauto|] ].
  all: intros; by simplify_eq.
Qed.

(** Serializing [after] upserts and deletes nothing; without
    [storeCurrentData] it reports nothing, keeps the row and yields the
    serialized empty document. *)
Lemma after_data_writes (this : BatchObject) (operation : RecordOperation)
    (after : option (@Row Value)) :
  ∃ l out,
    after_data this operation after = (l, out)
    ∧ upserts l = [] ∧ deletes l = [] ∧ bucket_writes l = [] ∧ parameter_writes l = []
    ∧ (storeCurrentData this = false →
       l = [] ∧ ∀ d a, out = Returned (d, a) →
                       a = after ∧ d = (afterId operation ≫= fun _ => bson_serialize [])).
Proof.
  unfold MongoBucketBatch.after_data, serialize_after, MongoBucketBatch.try_serialize.
  destruct (afterId operation) as [aid|], (storeCurrentData this); cbn [negb].
  all: try destruct (bson_serialize []) as [d0|] eqn:E0.
  all: try destruct after as [row|]; try destruct (bson_serialize row) as [d|];
    try destruct (MAX_ROW_SIZE <? binary_length d);
    try destruct (bson_serialize (placeholder row)) as [d'|]; M_unfold.
  all: eexists _, _; split; [reflexivity|]; cbn.
  all: repeat split; try done.
  all: intros; by simplify_eq.
Qed.

(** How a call of [saveOperation] that returns is put together: it was
    skipped, or it went through the three stages. *)
Lemma saveOperation_stages (this : BatchObject) (operation : RecordOperation)
    (current_data : option CurrentDataDocument) (effects : list Effect)
    (out : Outcome (option CurrentDataDocument)) :
  saveOperation this operation current_data = (effects, out) →
  (effects = [] ∧ skipExistingRows this = true
   ∧ (out = Returned None ∨ ∃ e, out = Threw e))
  ∨ (∃ l1 out1, existing_state this (record operation) current_data = (l1, out1)
       ∧ ((effects = l1 ∧ (∀ r, out ≠ Returned r))
          ∨ ∃ eb el after1 l2 out2,
              out1 = Returned (eb, el, after1)
              ∧ after_data this operation after1 = (l2, out2)
              ∧ ((effects = l1 ++ l2 ∧ (∀ r, out ≠ Returned r))
                 ∨ ∃ afterData after2 l3,
                     out2 = Returned (afterData, after2)
                     ∧ save_data this operation eb el after2 afterData = (l3, out)
                     ∧ effects = l1 ++ l2 ++ l3))).
Proof.
  unfold MongoBucketBatch.saveOperation, mbind, M_bind. intros H.
  pose proof (skip_existing_writes this (record operation) current_data) as Hnone.
  assert (Hguard : skipExistingRows this = false →
                   skip_existing this (record operation) current_data = ([], Returned false)).
  { unfold MongoBucketBatch.skip_existing. by intros ->. }
  assert (Hfuel : ∀ l, skip_existing this (record operation) current_data ≠ (l, OutOfFuel)).
  { unfold MongoBucketBatch.skip_existing.
    by destruct (skipExistingRows this), (tag (record operation)). }
  destruct (skipExistingRows this) eqn:Hskips.
  2: { rewrite (Hguard eq_refl) in H. unfold bind at 1 in H. cbn [app] in H. right.
       destruct (bind (existing_state _ _ _) _) as [l r] eqn:Hb. injection H as <- <-.
       apply bind_inv in Hb
         as [(l1 & [[eb el] after1] & l' & Hex & H & ->)|[(e & Hex & ->)|(Hex & ->)]].
       2,3: eexists _, _; (split; [exact Hex|]); by left.
       exists l1, (Returned (eb, el, after1)). split; [done|]. right.
       apply bind_inv in H
         as [(l2 & [afterData after2] & l3 & Had & H & ->)|[(e & Had & ->)|(Had & ->)]].
       2,3: eexists eb, el, after1, l', _; (split; [done|]); (split; [exact Had|]); by left.
       exists eb, el, after1, l2, (Returned (afterData, after2)).
       split; [done|]. split; [done|]. right.
       by exists afterData, after2, l3. }
  apply bind_inv in H as [(l0 & skip & l' & Hskip & H & ->)|[(e & Hskip & ->)|(Hskip & ->)]].
  - rewrite Hskip in Hnone. cbn in Hnone. subst l0. cbn [app].
    destruct skip.
    { left. injection H as <- <-. split; [done|]. split; [done|]. by left. }
    right.
    apply bind_inv in H
      as [(l1 & [[eb el] after1] & l'' & Hex & H & ->)|[(e & Hex & ->)|(Hex & ->)]].
    2,3: eexists _, _; (split; [exact Hex|]); by left.
    exists l1, (Returned (eb, el, after1)). split; [done|]. right.
    apply bind_inv in H
      as [(l2 & [afterData after2] & l3 & Had & H & ->)|[(e & Had & ->)|(Had & ->)]].
    2,3: eexists eb, el, after1, l'', _; (split; [done|]); (split; [exact Had|]); by left.
    exists eb, el, after1, l2, (Returned (afterData, after2)).
    split; [done|]. split; [done|]. right.
    by exists afterData, after2, l3.
  - left. rewrite Hskip in Hnone. cbn in Hnone. subst effects.
    split; [done|]. split; [done|]. right. by exists e.
  - by destruct (Hfuel effects).
Qed.

(** What [saveOperation] returns is what it upserted into [current_data]:
    one document under the after key when the after id is set, none
    otherwise.  The only key it ever deletes is the before key, and only
    when the row is gone or has a new replica id; in that case, unless the
    operation was skipped, it does delete it. *)
Theorem saveOperation_current_data (this : BatchObject) (operation : RecordOperation)
    (current_data : option CurrentDataDocument) (effects : list Effect)
    (r : option CurrentDataDocument) :
  saveOperation this operation current_data = (effects, Returned r) →
  let table := sourceTable (record operation) in
  let before_key := {| g := group_id this; t := table_id table; k := beforeId operation |} in
  let after_key := {| g := group_id this; t := table_id table; k := afterId operation |} in
  upserts effects = option_list r
  ∧ (∀ doc, r = Some doc →
       _id doc = after_key ∧ from_option truthy false (afterId operation) = true)
  ∧ (∀ key, key ∈ deletes effects →
       key = before_key ∧ leaves_before_key replicaIdEquals operation = true)
  ∧ (skipExistingRows this = false →
     (r = None ↔ from_option truthy false (afterId operation) = false)
     ∧ (leaves_before_key replicaIdEquals operation = true →
        deletes effects = [before_key])).
Proof.
  intros H. cbv zeta.
  apply saveOperation_stages in H
    as [(-> & Hskip & [[= ->]|[e [=]]])
       |(l1 & out1 & Hex & [[_ Hout]|(eb & el & after1 & l2 & out2 & -> & Had
          & [[_ Hout]|(afterData & after2 & l3 & -> & Hsave & ->)])])];
    [|by destruct (Hout r)|by destruct (Hout r)|].
  { split; [done|]. split; [by intros doc [=]|]. split; [by intros key Hkey; inversion Hkey|].
    intros Hno. by rewrite Hno in Hskip. }
  destruct (existing_state_writes this (record operation) current_data)
    as (l1' & out1' & Hex' & Hu1 & Hd1 & _).
  rewrite Hex in Hex'. injection Hex' as <- <-.
  destruct (after_data_writes this operation after1) as (l2' & out2' & Had' & Hu2 & Hd2 & _).
  rewrite Had in Had'. injection Had' as <- <-.
  destruct (save_data_writes this operation eb el after2 afterData)
    as (l3' & r' & Hsave' & Hu3 & Hr & Hd3 & _).
  rewrite Hsave in Hsave'. injection Hsave' as <- <-.
  unfold upserts, deletes in *. rewrite !omap_app, Hu1, Hu2, Hu3, Hd1, Hd2, Hd3. cbn [app].
  split; [done|]. split; [|split; [|split]].
  - intros doc ->. destruct (from_option truthy false (afterId operation)); [|done].
    by injection Hr as ->.
  - intros key Hkey. destruct (leaves_before_key _ _); [|by inversion Hkey].
    apply list_elem_of_singleton in Hkey. done.
  - rewrite Hr. by destruct (from_option truthy false (afterId operation)).
  - by intros ->.
Qed.

(** A row that is deleted or re-keyed is removed under its old id.  For an
    UPDATE or DELETE of a stored row whose before id is left behind, the
    first call of [saveBucketData] (when the table syncs data) is for the
    before id, with the buckets of the stored row and nothing evaluated, so
    that a REMOVE is written to each of them; any later call carries no
    before buckets.  Likewise for the parameter lookups.  The stored
    document under the before key is deleted. *)
Theorem saveOperation_removes_old_id (this : BatchObject) (operation : RecordOperation)
    (result : CurrentDataDocument) (bid : ReplicaId) (effects : list Effect)
    (r : option CurrentDataDocument) :
  skipExistingRows this = false →
  tag (record operation) ≠ INSERT →
  beforeId operation = Some bid →
  leaves_before_key replicaIdEquals operation = true →
  saveOperation this operation (Some result) = (effects, Returned r) →
  let table := sourceTable (record operation) in
  let before_key := {| g := group_id this; t := table_id table; k := Some bid |} in
  deletes effects = [before_key]
  ∧ (syncData table = true →
     ∃ rest, bucket_writes effects = (Some bid, buckets result, []) :: rest
             ∧ Forall (fun w => w.1.2 = []) rest)
  ∧ (syncParameters table = true →
     ∃ rest, parameter_writes effects = (Some bid, [], lookups result) :: rest
             ∧ Forall (fun w => w.2 = []) rest).
Proof.
  intros Hskip Htag Hbid Hleaves H. cbv zeta.
  apply saveOperation_stages in H
    as [(-> & Hskip' & _)
       |(l1 & out1 & Hex & [[_ Hout]|(eb & el & after1 & l2 & out2 & -> & Had
          & [[_ Hout]|(afterData & after2 & l3 & -> & Hsave & ->)])])];
    [by rewrite Hskip in Hskip'|by destruct (Hout r)|by destruct (Hout r)|].
  destruct (existing_state_writes this (record operation) (Some result))
    as (l1' & out1' & Hex' & _ & Hd1 & Hb1 & Hp1 & _ & Hst).
  rewrite Hex in Hex'. injection Hex' as <- <-.
  destruct (Hst eb el after1 eq_refl) as (Heb & Hel & _).
  assert (eb = buckets result ∧ el = lookups result) as [-> ->].
  { by destruct (tag (record operation)). }
  destruct (after_data_writes this operation after1)
    as (l2' & out2' & Had' & _ & Hd2 & Hb2 & Hp2 & _).
  rewrite Had in Had'. injection Had' as <- <-.
  destruct (save_data_writes this operation (buckets result) (lookups result) after2 afterData)
    as (l3' & r' & Hsave' & _ & _ & Hd3 & Hb3 & Hp3 & _).
  rewrite Hsave in Hsave'. injection Hsave' as <- <-.
  assert (Hchanged : id_changed replicaIdEquals operation = true).
  { unfold id_changed. unfold leaves_before_key in Hleaves. by rewrite Hleaves, Hbid. }
  unfold deletes, bucket_writes, parameter_writes in *.
  rewrite !omap_app, Hd1, Hd2, Hd3, Hb1, Hb2, Hb3, Hp1, Hp2, Hp3, Hleaves, Hchanged, Hbid.
  cbn [app andb]. split; [done|]. split.
  - intros ->. eexists. split; [reflexivity|].
    destruct (_ && true); repeat constructor.
  - intros ->. eexists. split; [reflexivity|].
    destruct (_ && true); repeat constructor.
Qed.

(** Without [storeCurrentData] no row is serialized or measured: nothing is
    ever reported as too big, the stored document holds the serialized
    empty document, and what is evaluated is [record.after] as it came. *)
Theorem saveOperation_without_current_data (this : BatchObject)
    (operation : RecordOperation) (current_data : option CurrentDataDocument)
    (effects : list Effect) (out : Outcome (option CurrentDataDocument)) :
  storeCurrentData this = false →
  saveOperation this operation current_data = (effects, out) →
  let table := sourceTable (record operation) in
  Forall (fun e => ¬ is_too_big e) effects
  ∧ (∀ doc, out = Returned (Some doc) → data doc = bson_serialize [])
  ∧ (∀ w, w ∈ bucket_writes effects →
       w.2 = []
       ∨ w.2 = (evaluateRowWithErrors table (default [] (after (record operation)))).1).
Proof.
  intros Hstore H. cbv zeta.
  destruct (existing_state_writes this (record operation) current_data)
    as (l1' & out1' & Hex' & _ & _ & Hb1 & _ & Hbig1 & Hst).
  apply saveOperation_stages in H
    as [(-> & _ & [->|[e ->]])
       |(l1 & out1 & Hex & [[-> Hout]|(eb & el & after1 & l2 & out2 & -> & Had & H)])].
  1,2: by (split; [constructor|]; split; [|intros w Hw; inversion Hw]).
  { rewrite Hex in Hex'. injection Hex' as <- <-. split; [done|].
    split; [by intros doc ->; destruct (Hout (Some doc))|].
    intros w Hw. rewrite Hb1 in Hw. inversion Hw. }
  rewrite Hex in Hex'. injection Hex' as <- <-.
  destruct (Hst eb el after1 eq_refl) as (_ & _ & Hafter). rewrite (Hafter Hstore) in *.
  destruct (after_data_writes this operation (after (record operation)))
    as (l2' & out2' & Had' & _ & _ & Hb2 & _ & Hplain).
  rewrite Had in Had'. injection Had' as <- <-.
  destruct (Hplain Hstore) as [-> Hdata].
  destruct H as [[-> Hout]|(afterData & after2 & l3 & -> & Hsave & ->)].
  { rewrite app_nil_r. split; [done|].
    split; [by intros doc ->; destruct (Hout (Some doc))|].
    intros w Hw. rewrite Hb1 in Hw. inversion Hw. }
  destruct (Hdata afterData after2 eq_refl) as [-> ->].
  destruct (save_data_writes this operation eb el (after (record operation))
              (afterId operation ≫= fun _ => bson_serialize []))
    as (l3' & r' & Hsave' & _ & Hr & _ & Hb3 & _ & Hbig3).
  rewrite Hsave in Hsave'. injection Hsave' as <- ->.
  cbn [app]. split; [by apply Forall_app_2|]. split.
  - intros doc [= ->]. destruct (from_option truthy false (afterId operation)) eqn:Ht; [|done].
    injection Hr as ->. cbn. by destruct (afterId operation).
  - intros w Hw. unfold bucket_writes in *. rewrite omap_app, Hb1, Hb3 in Hw. cbn [app] in Hw.
    apply elem_of_app in Hw as [Hw|Hw].
    + left. match type of Hw with context [if ?b then _ else _] => destruct b end;
        [|by inversion Hw].
      apply list_elem_of_singleton in Hw. by subst w.
    + right. match type of Hw with context [if ?b then _ else _] => destruct b end;
        [|by inversion Hw].
      apply list_elem_of_singleton in Hw. by subst w.
Qed.

(** With [skipExistingRows] (initial replication) only INSERTs are accepted:
    an UPDATE or DELETE throws a ReplicationAssertionError, and an INSERT of
    a row that is already stored is skipped.  Either way nothing is
    written. *)
Theorem saveOperation_skipExistingRows (this : BatchObject) (operation : RecordOperation)
    (current_data : option CurrentDataDocument) :
  skipExistingRows this = true →
  (tag (record operation) ≠ INSERT →
   saveOperation this operation current_data
   = ([], Threw (ReplicationAssertionError "not supported with skipExistingRows: true")))
  ∧ (tag (record operation) = INSERT → current_data ≠ None →
     saveOperation this operation current_data = ([], Returned None)).
Proof.
  intros Hskip. unfold MongoBucketBatch.saveOperation, MongoBucketBatch.skip_existing.
  rewrite Hskip. split.
  - intros Htag. by destruct (tag (record operation)).
  - intros -> Hcd. by destruct current_data.
Qed.

End Facts.

Lemma saveOperation_current_data_witness :
  ∃ effects doc,
    save_sized (batch_at_5 None None) rekey_u1 (Some stored_u1)
    = (effects, Returned (Some doc))
    ∧ upserts effects = [doc]
    ∧ k (_id doc) = Some "u2".
Proof.
  eexists _, _. split; [vm_compute; reflexivity|].
  destruct (saveOperation_current_data serialize_sized id (fun _ => []) (fun a _ => a)
              id_equals non_empty evaluate_global no_parameters (fun _ => 0)
              (batch_at_5 None None) rekey_u1 (Some stored_u1) _ _
              ltac:(vm_compute; reflexivity)) as (Hu & _).
  split; [exact Hu|reflexivity].
Defined.

Lemma saveOperation_removes_old_id_witness :
  ∃ effects r rest,
    save_sized (batch_at_5 None None) delete_u1 (Some stored_u1) = (effects, Returned r)
    ∧ deletes effects = [ {| g := 1; t := "t1"; k := Some "u1" |} ]
    ∧ bucket_writes effects = (Some "u1", buckets stored_u1, []) :: rest.
Proof.
  destruct (saveOperation_removes_old_id serialize_sized id (fun _ => []) (fun a _ => a)
              id_equals non_empty evaluate_global no_parameters (fun _ => 0)
              (batch_at_5 None None) delete_u1 stored_u1 "u1" _ _
              eq_refl ltac:(discriminate) eq_refl eq_refl ltac:(vm_compute; reflexivity))
    as (Hd & Hb & _).
  destruct (Hb eq_refl) as (rest & Hrest & _).
  eexists _, _, rest. split; [vm_compute; reflexivity|]. split; [exact Hd|exact Hrest].
Defined.

Lemma saveOperation_without_current_data_witness :
  ∃ effects doc,
    save_sized batch_no_current_data (insert_blob 20000000) None
    = (effects, Returned (Some doc))
    ∧ Forall (fun e => ¬ is_too_big e) effects
    ∧ data doc = Some 5.
Proof.
  eexists _, _. split; [vm_compute; reflexivity|].
  destruct (saveOperation_without_current_data serialize_sized id (fun _ => [])
              (fun a _ => a) id_equals non_empty evaluate_global no_parameters (fun _ => 0)
              batch_no_current_data (insert_blob 20000000) None _ _
              eq_refl ltac:(vm_compute; reflexivity)) as (Hbig & Hdata & _).
  split; [exact Hbig|]. exact (Hdata _ eq_refl).
Defined.

Lemma saveOperation_skipExistingRows_witness :
  save_sized batch_initial rekey_u1 (Some stored_u1)
  = ([], Threw (ReplicationAssertionError "not supported with skipExistingRows: true"))
  ∧ save_sized batch_initial (insert_blob 10) (Some stored_u1) = ([], Returned None).
Proof.
  destruct (saveOperation_skipExistingRows serialize_sized id (fun _ => [])
              (fun a _ => a) id_equals non_empty evaluate_global no_parameters (fun _ => 0)
              batch_initial rekey_u1 (Some stored_u1) eq_refl) as [Hthrow _].
  destruct (saveOperation_skipExistingRows serialize_sized id (fun _ => [])
              (fun a _ => a) id_equals non_empty evaluate_global no_parameters (fun _ => 0)
              batch_initial (insert_blob 10) (Some stored_u1) eq_refl) as [_ Hskip].
  split; [apply Hthrow; discriminate|apply Hskip; [reflexivity|discriminate]].
Defined.

End SaveOperationEffects.

(** ** The sync stream *)

Module SyncStream.
Import sync.

Section Facts.
Variable encoded_length : Encoding → SyncBucketData → option Z.

Local Abbreviation bucketDataLoop := (bucketDataLoop encoded_length).
Local Abbreviation bucketDataBatch := (bucketDataBatch encoded_length).

Lemma sent_in_loop (e : Encoding) (r : SyncBucketData) (l : list BucketDataBatchResult) :
  Forall in_loop l →
  Forall in_loop
    (({| done := false; line := SyncData e r |}
      :: match encoded_length e r with
         | Some n => if 50000 <? n then [ {| done := false; line := Null |} ] else []
         | None => []
         end) ++ l).
Proof.
  intros Hl. apply Forall_app. split; [|done].
  destruct (encoded_length e r) as [n|]; [destruct (50000 <? n)|];
    repeat (apply List.Forall_cons; [by split|]); apply List.Forall_nil.
Qed.

Lemma bucketDataLoop_spec (request : BucketDataRequest) (chunks : list Chunk)
    (more invalidated : bool) :
  let e := bucketDataLoop request chunks more invalidated in
  returned e = existsb connection_aborted (received chunks)
  ∧ Forall in_loop (yielded e)
  ∧ (returned e = false →
     loop_has_more e = more || existsb (fun c => has_more (batch c)) (received chunks)
     ∧ checkpointInvalidated e
       = invalidated || existsb (invalidates (checkpoint request)) (received chunks)).
Proof.
  cbv zeta. revert more invalidated.
  induction chunks as [|c chunks IH]; intros more invalidated.
  - cbn. rewrite !orb_false_r. repeat split; [apply List.Forall_nil|..]; done.
  - cbn [sync.bucketDataLoop received existsb].
    destruct (connection_aborted c) eqn:Hc.
    { cbn. repeat split; [apply List.Forall_nil|done..]. }
    cbn [orb].
    set (m' := if has_more (batch c) then true else more).
    set (i' := if invalidates (checkpoint request) c then true else invalidated).
    assert (Hm' : ∀ x, m' || x = more || (has_more (batch c) || x))
      by (intros x; subst m'; by destruct (has_more (batch c)), more, x).
    assert (Hi' : ∀ x, i' || x = invalidated || (invalidates (checkpoint request) c || x))
      by (intros x; subst i'; by destruct (invalidates (checkpoint request) c), invalidated, x).
    destruct (IH m' i') as (Hr & Hy & Hf).
    destruct (bool_decide (length (data (batch c)) = 0%nat)) eqn:Hd; cbn [negb andb].
    + split; [done|]. split; [done|]. intros Hret. destruct (Hf Hret) as [E1 E2].
      by rewrite E1, E2, Hm', Hi'.
    + destruct (batch_aborted c) eqn:Hb;
        cbn [yielded calls loop_has_more checkpointInvalidated returned existsb].
      * split; [done|]. split; [apply sent_in_loop, List.Forall_nil|].
        intros _. by rewrite <- Hm', <- Hi', !orb_false_r.
      * split; [done|]. split; [by apply sent_in_loop|].
        intros Hret. destruct (Hf Hret) as [E1 E2]. by rewrite E1, E2, Hm', Hi'.
Qed.

Lemma in_loop_no_completion (l : list BucketDataBatchResult) :
  Forall in_loop l → existsb is_completion_line l = false ∧ existsb done l = false.
Proof.
  induction 1 as [|r l [Hd Hc] _ [IH1 IH2]]; [done|]. cbn. by rewrite Hd, Hc, IH1, IH2.
Qed.

(** C4.  No completion line for an invalidated checkpoint.  In one run of
    [bucketDataBatch], over the chunks that the loop takes from storage:
    - the checkpoint is marked invalidated exactly when one of them carries a
      [targetOp] strictly greater than the checkpoint op id;
    - when one does, no [checkpoint_complete] or
      [partial_checkpoint_complete] line is yielded;
    - when the run is not cut short by an abort and every chunk reports
      [has_more = false], a completion line is yielded if and only if the
      checkpoint was not invalidated; the run ends with that line, or with
      the null line for an invalidated checkpoint. *)
Theorem invalidated_checkpoint_gets_no_completion (request : BucketDataRequest)
    (acquired : bool) (chunks : list Chunk) :
  let out := (bucketDataBatch request acquired chunks).1 in
  let got := received chunks in
  let past_checkpoint := existsb (invalidates (checkpoint request)) got in
  (existsb connection_aborted got = false →
     checkpointInvalidated (bucketDataLoop request chunks false false) = past_checkpoint)
  ∧ (past_checkpoint = true → existsb is_completion_line out = false)
  ∧ (acquired = true →
     existsb connection_aborted got = false →
     existsb (fun c => has_more (batch c)) got = false →
     existsb is_completion_line out = negb past_checkpoint
     ∧ last out = Some (completion request past_checkpoint)).
Proof.
  cbv zeta.
  destruct (bucketDataLoop_spec request chunks false false) as (Hr & Hy & Hf).
  cbn [orb] in Hf. apply in_loop_no_completion in Hy as [Hy _].
  split; [|split].
  - intros Hconn. rewrite Hconn in Hr. by destruct (Hf Hr).
  - intros Hpast. unfold sync.bucketDataBatch.
    destruct acquired; cbn [negb]; [|done].
    destruct (returned (bucketDataLoop request chunks false false)) eqn:Hret; [done|].
    destruct (Hf eq_refl) as [Hm Hi]. rewrite Hi, Hpast.
    destruct (loop_has_more _); cbn [negb fst]; [done|].
    rewrite existsb_app, Hy. unfold completion. by cbn.
  - intros -> Hconn Hmore. unfold sync.bucketDataBatch. cbn [negb].
    rewrite Hconn in Hr. rewrite Hr. destruct (Hf Hr) as [Hm Hi].
    rewrite Hm, Hi, Hmore. cbn [negb fst].
    rewrite existsb_app, Hy, last_snoc. split; [|done].
    unfold completion. destruct (existsb (invalidates (checkpoint request)) (received chunks));
      [done|]. by destruct (forPriority request).
Qed.

End Facts.

(** C4 at two runs for checkpoint 10: a chunk whose [targetOp] is 12 ends
    the run with the null line; without it the run ends with
    [checkpoint_complete]. *)
Lemma invalidated_checkpoint_gets_no_completion_witness :
  (bucketDataBatch no_length request_10 true [moved_past_checkpoint]).1
  = [ {| done := false; line := SyncData LegacyJson (batch moved_past_checkpoint) |};
      {| done := true; line := Null |} ]
  ∧ existsb is_completion_line
      (bucketDataBatch no_length request_10 true [moved_past_checkpoint]).1 = false
  ∧ existsb is_completion_line
      (bucketDataBatch no_length request_10 true [within_checkpoint]).1 = true
  ∧ last (bucketDataBatch no_length request_10 true [within_checkpoint]).1
    = Some {| done := true; line := CheckpointComplete 10 |}.
Proof.
  split; [reflexivity|]. split.
  - destruct (invalidated_checkpoint_gets_no_completion no_length request_10 true
                [moved_past_checkpoint]) as (_ & Hnever & _).
    apply Hnever. reflexivity.
  - destruct (invalidated_checkpoint_gets_no_completion no_length request_10 true
                [within_checkpoint]) as (_ & _ & Hiff).
    apply Hiff; reflexivity.
Defined.

(** *** The order of the priority groups *)

Lemma sort_insert_sorted {A} (compare : A → A → Z) (x : A) (l : list A) :
  (∀ a b, 0 < compare a b → compare b a <= 0) →
  (∀ a b c, compare a b <= 0 → compare b c <= 0 → compare a c <= 0) →
  StronglySorted (fun a b => compare a b <= 0) l →
  StronglySorted (fun a b => compare a b <= 0) (sort_insert compare x l).
Proof.
  intros Htotal Htrans. induction 1 as [|y l Hl IH Hy]; cbn.
  - repeat constructor.
  - destruct (Z.leb_spec (compare x y) 0) as [Hxy|Hxy].
    + constructor; [by constructor|]. constructor; [done|].
      eapply Forall_impl; [exact Hy|]. intros z Hz. by eapply Htrans.
    + constructor; [done|].
      assert (Hin : ∀ z, z ∈ sort_insert compare x l → z = x ∨ z ∈ l).
      { clear. induction l as [|w l IHl]; cbn; intros z Hz.
        - apply list_elem_of_singleton in Hz. by left.
        - destruct (compare x w <=? 0).
          + apply elem_of_cons in Hz as [->|Hz]; [by left|by right].
          + apply elem_of_cons in Hz as [->|Hz]; [right; by left|].
            destruct (IHl z Hz) as [->|?]; [by left|right; by right]. }
      apply Forall_forall. intros z Hz. destruct (Hin z Hz) as [->|Hzl].
      * by apply Htotal.
      * rewrite Forall_forall in Hy. by apply Hy.
Qed.

(** The groups are fetched from the numerically largest priority value down
    to the smallest, whatever the order of [bucketsToFetch]. *)
Lemma bucketsByPriority_descending (bucketsToFetch : list BucketDescription) :
  StronglySorted (fun a b => b.1 <= a.1) (bucketsByPriority bucketsToFetch).
Proof.
  unfold bucketsByPriority, sort.
  assert (H : StronglySorted (fun a b : Z * list BucketDescription => b.1 - a.1 <= 0)
                (foldr (sort_insert (fun a b => b.1 - a.1)) [] (groupBy bucketsToFetch))).
  { induction (groupBy bucketsToFetch) as [|g gs IH]; cbn; [constructor|].
    apply (sort_insert_sorted (fun a b : Z * list BucketDescription => b.1 - a.1));
      [intros; lia|intros; lia|exact IH]. }
  induction H as [|g gs _ IH Hg]; constructor; [exact IH|].
  eapply Forall_impl; [exact Hg|]. intros b Hb. cbn in Hb. lia.
Qed.

(** C3, at two buckets of priorities 0 and 3: the group of priority 3, the
    lower priority, is fetched first and is the one reported with
    [partial_checkpoint_complete]; the group of priority 0 comes last and is
    followed by [checkpoint_complete]. *)
Theorem lower_priority_fetched_first :
  bucketsByPriority [user_bucket; global_bucket]
  = [(3, [global_bucket]); (0, [user_bucket])]
  ∧ map forPriority (fetch_requests 10 false false [user_bucket; global_bucket])
    = [Some 3; None]
  ∧ fetch_loop no_length (fetch_requests 10 false false [user_bucket; global_bucket])
      one_op_each
    = [ SyncData LegacyJson {| data_bucket := "global[]"; data := [4]; has_more := false;
                               after := 0; next_after := 4 |};
        PartialCheckpointComplete 10 3;
        SyncData LegacyJson {| data_bucket := "by_user[u1]"; data := [1]; has_more := false;
                               after := 0; next_after := 1 |};
        CheckpointComplete 10 ].
Proof. repeat split; vm_compute; reflexivity. Qed.

End SyncStream.
(** ** The sync stream: accounting, completion lines and priority groups *)

Module SyncStreamMore.
Import sync.

Section Facts.
Variable encoded_length : Encoding → SyncBucketData → option Z.

Local Abbreviation bucketDataLoop := (bucketDataLoop encoded_length).
Local Abbreviation bucketDataBatch := (bucketDataBatch encoded_length).
Local Abbreviation bucketDataInBatches := (bucketDataInBatches encoded_length).

Lemma sent_data_app (l1 l2 : list BucketDataBatchResult) :
  sent_data (l1 ++ l2) = sent_data l1 ++ sent_data l2.
Proof. apply omap_app. Qed.

Lemma sent_data_data (e : Encoding) (d : SyncBucketData) (l : list BucketDataBatchResult) :
  sent_data ({| done := false; line := SyncData e d |} :: l) = d :: sent_data l.
Proof. done. Qed.

Lemma rows_sent_app (l1 l2 : list Call) : rows_sent (l1 ++ l2) = rows_sent l1 + rows_sent l2.
Proof. unfold rows_sent. induction l1 as [|[n|b n] l1 IH]; cbn [foldr app]; lia. Qed.

Lemma rows_sent_calls (l : list SyncBucketData) :
  rows_sent (flat_map calls_for l) = Z.of_nat (length (flat_map data l)).
Proof.
  induction l as [|d l IH]; [done|]. cbn [flat_map]. rewrite rows_sent_app, IH, length_app.
  cbn. lia.
Qed.

(** The loop sends each chunk it takes that has data, as one data line in
    the encoding of the request, followed by its two calls. *)
Lemma bucketDataLoop_accounting (request : BucketDataRequest) (chunks : list Chunk)
    (more invalidated : bool) :
  let e := bucketDataLoop request chunks more invalidated in
  calls e = flat_map calls_for (sent_data (yielded e))
  ∧ Forall (fun d => data d ≠ []) (sent_data (yielded e))
  ∧ sent_data (yielded e) `sublist_of` map batch chunks
  ∧ Forall (fun r => ∀ enc d, line r = SyncData enc d → enc = encoding_of request)
      (yielded e).
Proof.
  cbv zeta. revert more invalidated.
  induction chunks as [|c chunks IH]; intros more invalidated.
  - cbn. repeat split; constructor.
  - cbn [sync.bucketDataLoop map].
    destruct (connection_aborted c).
    { cbn. repeat split; try constructor. apply sublist_nil_l. }
    set (m' := if has_more (batch c) then true else more).
    set (i' := if invalidates (checkpoint request) c then true else invalidated).
    destruct (IH m' i') as (Hc & Hd & Hs & He).
    case_bool_decide as Hlen.
    { split; [done|]. split; [done|]. split; [by apply sublist_cons|done]. }
    assert (Hnull : sent_data
                      match encoded_length (encoding_of request) (batch c) with
                      | Some n => if 50000 <? n then [ {| done := false; line := Null |} ] else []
                      | None => []
                      end = []).
    { destruct (encoded_length _ _) as [n|]; [by destruct (50000 <? n)|done]. }
    assert (Henc : Forall (fun r => ∀ enc d, line r = SyncData enc d →
                                             enc = encoding_of request)
                     match encoded_length (encoding_of request) (batch c) with
                     | Some n => if 50000 <? n then [ {| done := false; line := Null |} ] else []
                     | None => []
                     end).
    { destruct (encoded_length _ _) as [n|]; [destruct (50000 <? n)|];
        repeat constructor; by intros enc d [=]. }
    assert (Hdata : data (batch c) ≠ []).
    { intros Hnil. apply Hlen. by rewrite Hnil. }
    destruct (batch_aborted c);
      cbn [yielded calls]; rewrite sent_data_app, sent_data_data, Hnull; cbn [app flat_map].
    + split; [done|]. split; [by repeat constructor|].
      split; [apply sublist_skip, sublist_nil_l|].
      constructor; [by intros enc d [= <- _]|]. by rewrite app_nil_r.
    + split; [by rewrite Hc|]. split; [by constructor|].
      split; [by apply sublist_skip|].
      constructor; [by intros enc d [= <- _]|]. by apply Forall_app_2.
Qed.

Lemma bucketDataLoop_sent (request : BucketDataRequest) (chunks : list Chunk)
    (more invalidated : bool) :
  sent_data (yielded (bucketDataLoop request chunks more invalidated))
  = sent_chunks chunks.
Proof.
  unfold sent_chunks. revert more invalidated.
  induction chunks as [|c chunks IH]; intros more invalidated; [done|].
  cbn [sync.bucketDataLoop received List.filter]. unfold has_data at 1.
  destruct (connection_aborted c); [done|]. cbn [negb andb].
  set (m' := if has_more (batch c) then true else more).
  set (i' := if invalidates (checkpoint request) c then true else invalidated).
  destruct (bool_decide (length (data (batch c)) = 0%nat)); cbn [negb andb].
  { apply IH. }
  assert (Hnull : sent_data
                    match encoded_length (encoding_of request) (batch c) with
                    | Some n => if 50000 <? n then [ {| done := false; line := Null |} ] else []
                    | None => []
                    end = []).
  { destruct (encoded_length _ _) as [n|]; [by destruct (50000 <? n)|done]. }
  destruct (batch_aborted c);
    cbn [yielded map List.filter]; rewrite sent_data_app, sent_data_data, Hnull;
    cbn [app]; [done|]. by rewrite IH.
Qed.

Lemma received_all (chunks : list Chunk) :
  Forall (fun c => connection_aborted c = false ∧ batch_aborted c = false) chunks →
  received chunks = chunks.
Proof.
  induction 1 as [|c chunks [Hc Hb] _ IH]; [done|].
  cbn [received]. rewrite Hc, Hb, andb_false_r, IH. done.
Qed.

(** In one run of [bucketDataBatch] every data line is followed by its two
    calls and nothing else is reported: the calls are exactly those of the
    data lines, in order, so the rows counted by [onRowsSent] are the ops
    sent.  The data lines are exactly the chunks taken from storage that
    have data, in the order delivered and in the encoding of the request,
    bar a chunk at which the connection is found aborted; when nothing is
    aborted these are all the chunks of storage that have data.  When the
    wait for the semaphore is aborted nothing is yielded or called. *)
Theorem bucketDataBatch_accounting (request : BucketDataRequest) (acquired : bool)
    (chunks : list Chunk) :
  let results := (bucketDataBatch request acquired chunks).1 in
  let calls := (bucketDataBatch request acquired chunks).2 in
  calls = flat_map calls_for (sent_data results)
  ∧ rows_sent calls = Z.of_nat (length (flat_map data (sent_data results)))
  ∧ Forall (fun d => data d ≠ []) (sent_data results)
  ∧ sent_data results `sublist_of` map batch chunks
  ∧ Forall (fun r => ∀ enc d, line r = SyncData enc d → enc = encoding_of request) results
  ∧ (acquired = false → results = [] ∧ calls = [])
  ∧ (acquired = true →
     sent_data results = sent_chunks chunks
     ∧ calls = flat_map calls_for (sent_chunks chunks)
     ∧ (Forall (fun c => connection_aborted c = false ∧ batch_aborted c = false) chunks →
        sent_data results = map batch (List.filter has_data chunks)))
  ∧ ∀ d, d ∈ sent_data results →
      ∃ e, {| done := false; line := SyncData e d |} ∈ results.
Proof.
  cbv zeta.
  assert (Hsent : acquired = true →
            sent_data (bucketDataBatch request acquired chunks).1 = sent_chunks chunks).
  { intros ->. unfold sync.bucketDataBatch. cbn [negb].
    pose proof (bucketDataLoop_sent request chunks false false) as Hs.
    assert (Hcompl : sent_data [completion request
                       (checkpointInvalidated (bucketDataLoop request chunks false false))] = []).
    { unfold completion. destruct (checkpointInvalidated _); [done|].
      by destruct (forPriority request). }
    destruct (returned _); [done|]. destruct (negb (loop_has_more _)); [|done].
    cbn [fst]. by rewrite sent_data_app, Hcompl, app_nil_r. }
  assert (Hlines : ∀ (l : list BucketDataBatchResult) d,
            Forall (fun r => done r = false ∨ line r = Null ∨ is_completion_line r = true) l →
            d ∈ sent_data l → ∃ e, {| done := false; line := SyncData e d |} ∈ l).
  { intros l d Hl. induction Hl as [|r l Hr _ IH]; [by intros ?%elem_of_nil|].
    destruct r as [dn ln]. destruct ln as [e d'| | |]; cbn.
    - intros [->|Hd]%elem_of_cons.
      + exists e. destruct Hr as [Hr|[Hr|Hr]]; cbn in Hr; try done. subst dn. by left.
      + destruct (IH Hd) as [e' He']. exists e'. by right.
    - intros Hd. destruct (IH Hd) as [e' He']. exists e'. by right.
    - intros Hd. destruct (IH Hd) as [e' He']. exists e'. by right.
    - intros Hd. destruct (IH Hd) as [e' He']. exists e'. by right. }
  assert (H : (bucketDataBatch request acquired chunks).2
              = flat_map calls_for (sent_data (bucketDataBatch request acquired chunks).1)
            ∧ Forall (fun d => data d ≠ []) (sent_data (bucketDataBatch request acquired chunks).1)
            ∧ sent_data (bucketDataBatch request acquired chunks).1 `sublist_of` map batch chunks
            ∧ Forall (fun r => ∀ enc d, line r = SyncData enc d → enc = encoding_of request)
                (bucketDataBatch request acquired chunks).1).
  { unfold sync.bucketDataBatch. destruct acquired; cbn [negb].
    2: { cbn. repeat split; try constructor. apply sublist_nil_l. }
    destruct (bucketDataLoop_accounting request chunks false false) as (Hc & Hd & Hs & He).
    assert (Hcompl : sent_data [completion request
                       (checkpointInvalidated (bucketDataLoop request chunks false false))] = []).
    { unfold completion. destruct (checkpointInvalidated _); [done|].
      by destruct (forPriority request). }
    destruct (returned _); [done|]. destruct (negb (loop_has_more _)); [|done].
    cbn [fst snd]. rewrite sent_data_app, Hcompl, app_nil_r.
    split; [done|]. split; [done|]. split; [done|].
    apply Forall_app_2; [done|]. constructor; [|constructor].
    unfold completion. destruct (checkpointInvalidated _); [by intros enc d [=]|].
    by destruct (forPriority request); intros enc d [=]. }
  destruct H as (Hc & Hd & Hs & He).
  split; [done|]. split; [by rewrite Hc, rows_sent_calls|].
  split; [done|]. split; [done|]. split; [done|].
  split; [by intros ->|]. split.
  - intros Hacq. split; [by apply Hsent|]. split; [by rewrite Hc, Hsent|].
    intros Hall. rewrite Hsent by done. unfold sent_chunks.
    rewrite received_all by done. f_equal. apply List.filter_ext_in.
    intros c Hin. apply list_elem_of_In in Hin. rewrite Forall_forall in Hall.
    destruct (Hall c Hin) as [-> _]. done.
  - intros d Hin. apply (Hlines _ d); [|done].
    unfold sync.bucketDataBatch. destruct acquired; cbn [negb fst]; [|constructor].
    destruct (SyncStream.bucketDataLoop_spec encoded_length request chunks false false)
      as (_ & Hloop & _).
    assert (Hl : Forall (fun r => done r = false ∨ line r = Null
                                  ∨ is_completion_line r = true)
                   (yielded (bucketDataLoop request chunks false false))).
    { eapply Forall_impl; [exact Hloop|]. intros r [Hr _]. by left. }
    destruct (returned _); [done|]. destruct (negb (loop_has_more _)); [|done].
    cbn [fst]. apply Forall_app_2; [done|]. constructor; [|constructor].
    unfold completion. destruct (checkpointInvalidated _); [right; by left|].
    destruct (forPriority request); right; right; done.
Qed.

(** *** Completion lines *)

Lemma clean_prefix {A} (P : A → Prop) (clean rest l1 l2 : list A) (x : A) :
  Forall (fun a => ¬ P a) clean → P x →
  clean ++ rest = l1 ++ x :: l2 →
  ∃ l1', rest = l1' ++ x :: l2.
Proof.
  intros Hclean Hx. revert l1.
  induction Hclean as [|a clean Ha _ IH]; intros l1 Heq; [by exists l1|].
  destruct l1 as [|b l1]; cbn in Heq; injection Heq as -> Heq; [done|]. by eapply IH.
Qed.

Lemma in_loop_lines (l : list BucketDataBatchResult) :
  Forall in_loop l → Forall (fun x => ¬ is_completion x = true) (map line l).
Proof.
  induction 1 as [|r l [_ Hr] _ IH]; cbn; constructor; [|done].
  unfold is_completion_line in Hr. unfold is_completion. by rewrite Hr.
Qed.

(** The results of one run: lines of the loop, then at most one [done]
    result, which is the completion of the request or the null line. *)
Lemma bucketDataBatch_shape (request : BucketDataRequest) (acquired : bool)
    (chunks : list Chunk) :
  ∃ inside,
    Forall in_loop inside
    ∧ ((bucketDataBatch request acquired chunks).1 = inside
       ∨ ∃ invalidated,
           (bucketDataBatch request acquired chunks).1
           = inside ++ [completion request invalidated]).
Proof.
  unfold sync.bucketDataBatch. destruct acquired; cbn [negb].
  2: { exists []. split; [constructor|by left]. }
  destruct (SyncStream.bucketDataLoop_spec encoded_length request chunks false false)
    as (_ & Hy & _).
  exists (yielded (bucketDataLoop request chunks false false)). split; [done|].
  destruct (returned _); [by left|]. destruct (negb (loop_has_more _)); [|by left].
  right. by eexists.
Qed.

Lemma completion_done (request : BucketDataRequest) (invalidated : bool) :
  done (completion request invalidated) = true
  ∧ (is_completion (line (completion request invalidated)) = true →
     completion request invalidated = completion request false).
Proof.
  unfold completion. destruct invalidated; [done|]. by destruct (forPriority request).
Qed.

(** [bucketDataInBatches] yields at most one completion line, as its last
    line: nothing is sent for the request once [checkpoint_complete] or
    [partial_checkpoint_complete] went out.  That line is
    [partial_checkpoint_complete] with the priority of the request when
    [forPriority] is set and [checkpoint_complete] otherwise, for the
    checkpoint of the request. *)
Theorem completion_line_is_last (request : BucketDataRequest)
    (runs : list (bool * BatchRun)) (l1 l2 : list Line) (x : Line) :
  bucketDataInBatches request runs = l1 ++ x :: l2 →
  is_completion x = true →
  l2 = []
  ∧ x = match forPriority request with
        | Some p => PartialCheckpointComplete (checkpoint request) p
        | None => CheckpointComplete (checkpoint request)
        end.
Proof.
  intros Heq Hx. revert l1 Heq.
  induction runs as [|[aborted run] runs IH]; intros l1 Heq; cbn in Heq.
  { by destruct l1. }
  destruct aborted; [by destruct l1|].
  destruct (bucketDataBatch_shape request (acquired run) (chunks run))
    as (inside & Hin & [Hr|[invalidated Hr]]); rewrite Hr in Heq.
  - destruct (SyncStream.in_loop_no_completion _ Hin) as [_ Hdone]. rewrite Hdone in Heq.
    destruct (clean_prefix (fun y => is_completion y = true) _ _ _ _ _
                (in_loop_lines _ Hin) Hx Heq) as [l1' Hrest].
    by eapply IH.
  - destruct (completion_done request invalidated) as [Hd Hc].
    rewrite existsb_app in Heq. cbn [existsb] in Heq. rewrite Hd, orb_true_r, app_nil_r in Heq.
    rewrite map_app in Heq.
    destruct (clean_prefix (fun y => is_completion y = true) _ _ _ _ _
                (in_loop_lines _ Hin) Hx Heq) as [l1' Hrest].
    cbn in Hrest. destruct l1' as [|y l1']; [|by destruct l1'].
    injection Hrest as Hline <-. split; [done|]. subst x.
    rewrite (Hc Hx). unfold completion. by destruct (forPriority request).
Qed.

(** *** Priority groups *)

Lemma sort_insert_perm {A} (compare : A → A → Z) (x : A) (l : list A) :
  sort_insert compare x l ≡ₚ x :: l.
Proof.
  induction l as [|y l IH]; [done|]. cbn. destruct (compare x y <=? 0); [done|].
  rewrite IH. apply Permutation_swap.
Qed.

Lemma sort_perm {A} (compare : A → A → Z) (l : list A) : sort compare l ≡ₚ l.
Proof.
  unfold sort. induction l as [|x l IH]; [done|]. cbn. by rewrite sort_insert_perm, IH.
Qed.

Lemma group_insert_grouped (b : BucketDescription)
    (groups : list (Z * list BucketDescription)) :
  grouped groups →
  grouped (group_insert b groups)
  ∧ (∀ p, p ∈ map fst (group_insert b groups) → p = priority b ∨ p ∈ map fst groups)
  ∧ flat_map snd (group_insert b groups) ≡ₚ b :: flat_map snd groups.
Proof.
  induction groups as [|[p bs] groups IH]; intros [Hnd Hall].
  - cbn. split; [|split; [|done]].
    + split; [apply NoDup_singleton|]. repeat constructor; done.
    + intros p Hp. apply list_elem_of_singleton in Hp. by left.
  - cbn [group_insert]. cbn [map fst] in Hnd. apply NoDup_cons in Hnd as [Hp Hnd].
    apply Forall_cons in Hall as [[Hne Hbs] Hall]. cbn in Hne, Hbs.
    case_bool_decide as Heq.
    + subst p. split; [|split].
      * split; [cbn; by apply NoDup_cons|]. constructor; [|done]. cbn.
        split; [by destruct bs|]. apply Forall_app_2; [done|]. by repeat constructor.
      * intros p Hin. by right.
      * cbn. rewrite <- app_assoc. cbn. by rewrite <- Permutation_middle.
    + destruct (IH (conj Hnd Hall)) as ([Hnd' Hall'] & Hkeys & Hperm).
      split; [|split].
      * split; [|by constructor]. cbn. apply NoDup_cons. split; [|done].
        intros Hin. destruct (Hkeys p Hin) as [?|?]; done.
      * intros q Hin. cbn in Hin. apply elem_of_cons in Hin as [->|Hin].
        { right. cbn. by left. }
        destruct (Hkeys q Hin) as [?|?]; [by left|]. right. cbn. by right.
      * cbn. rewrite Hperm. by rewrite Permutation_middle.
Qed.

Lemma foldl_group_insert (l : list BucketDescription)
    (groups : list (Z * list BucketDescription)) :
  grouped groups →
  grouped (foldl (fun groups b => group_insert b groups) groups l)
  ∧ flat_map snd (foldl (fun groups b => group_insert b groups) groups l)
    ≡ₚ flat_map snd groups ++ l.
Proof.
  revert groups. induction l as [|b l IH]; intros groups Hg; cbn.
  - split; [done|]. by rewrite app_nil_r.
  - destruct (group_insert_grouped b groups Hg) as (Hg' & _ & Hp).
    destruct (IH _ Hg') as [Hg'' Hp']. split; [done|].
    rewrite Hp', Hp. by rewrite <- Permutation_middle.
Qed.

Lemma groupBy_grouped (l : list BucketDescription) :
  grouped (groupBy l) ∧ flat_map snd (groupBy l) ≡ₚ l.
Proof.
  apply (foldl_group_insert l []). split; constructor.
Qed.

Lemma grouped_perm (g1 g2 : list (Z * list BucketDescription)) :
  g1 ≡ₚ g2 → grouped g1 → grouped g2.
Proof. intros Hp [Hnd Hall]. split; by rewrite <- Hp. Qed.

Lemma flat_map_perm {A B} (f : A → list B) (l1 l2 : list A) :
  l1 ≡ₚ l2 → flat_map f l1 ≡ₚ flat_map f l2.
Proof.
  induction 1 as [|x l1 l2 _ IH|x y l|l1 l2 l3 _ IH1 _ IH2]; cbn.
  - done.
  - by rewrite IH.
  - rewrite !app_assoc. by rewrite (Permutation_app_comm (f y) (f x)).
  - by rewrite IH1.
Qed.

(** One checkpoint iteration of [streamResponseInner] requests every bucket
    of [bucketsToFetch] exactly once, in one request per priority that holds
    all the buckets of that priority.  When there is anything to fetch, the
    last request, and only that one, is made without [forPriority], so it
    alone can end in [checkpoint_complete]; every earlier request carries the
    priority of its buckets. *)
Theorem fetch_requests_partition (checkpoint : Z) (raw_data binary_data : bool)
    (bucketsToFetch : list BucketDescription) :
  let requests := fetch_requests checkpoint raw_data binary_data bucketsToFetch in
  flat_map sync.bucketsToFetch requests ≡ₚ bucketsToFetch
  ∧ NoDup (map (fun r => priority <$> head (sync.bucketsToFetch r)) requests)
  ∧ Forall (fun r => sync.bucketsToFetch r ≠ []
                     ∧ sync.checkpoint r = checkpoint
                     ∧ ∃ p, Forall (fun b => priority b = p) (sync.bucketsToFetch r)
                            ∧ (forPriority r = Some p ∨ forPriority r = None)) requests
  ∧ (bucketsToFetch ≠ [] →
     ∃ earlier final,
       requests = earlier ++ [final]
       ∧ forPriority final = None
       ∧ Forall (fun r => forPriority r ≠ None) earlier).
Proof.
  cbv zeta. unfold fetch_requests.
  destruct (groupBy_grouped bucketsToFetch) as [Hg Hp].
  assert (Hsorted : bucketsByPriority bucketsToFetch ≡ₚ groupBy bucketsToFetch)
    by apply sort_perm.
  apply (grouped_perm _ _ (symmetry Hsorted)) in Hg.
  assert (Hp' : flat_map snd (bucketsByPriority bucketsToFetch) ≡ₚ bucketsToFetch)
    by (by rewrite (flat_map_perm snd _ _ Hsorted)).
  clear Hp Hsorted. rename Hp' into Hp.
  set (groups := bucketsByPriority bucketsToFetch) in *.
  set (lowest := lowestPriority groups).
  assert (Hlowest : lowest = fst <$> last groups) by done.
  clearbody lowest groups. destruct Hg as [Hnd Hall].
  split; [|split; [|split]].
  - rewrite <- Hp. clear. induction groups as [|[p bs] groups IH]; [done|]. cbn. by rewrite IH.
  - assert (Hheads : map (fun r => priority <$> head (sync.bucketsToFetch r))
                       (map (fun '(priority, buckets) =>
                               {| sync.checkpoint := checkpoint;
                                  sync.bucketsToFetch := buckets;
                                  raw_data := raw_data; binary_data := binary_data;
                                  forPriority :=
                                    if bool_decide (Some priority = lowest)
                                    then None else Some priority |}) groups)
                     = map (fun g => Some g.1) groups).
    { clear Hnd Hlowest Hp. induction Hall as [|[p bs] groups [Hne Hbs] _ IH]; [done|].
      cbn in *. rewrite IH. f_equal. destruct bs as [|b bs]; [done|]. cbn.
      by apply Forall_cons in Hbs as [-> _]. }
    rewrite Hheads. rewrite <- (map_map fst Some). apply NoDup_fmap_2; [|done].
    by intros ? ? [=].
  - clear Hnd Hlowest Hp. induction Hall as [|[p bs] groups [Hne Hbs] _ IH]; [constructor|].
    cbn in *. constructor; [|done]. cbn. split; [done|]. split; [done|].
    exists p. split; [done|]. case_bool_decide; [by right|by left].
  - intros Hnonempty.
    destruct groups as [|g groups _] using rev_ind.
    { cbn in Hp. symmetry in Hp. apply Permutation_nil_r in Hp. done. }
    destruct g as [p bs]. rewrite last_snoc in Hlowest. cbn in Hlowest. subst lowest.
    rewrite map_app. cbn [map]. eexists _, _. split; [reflexivity|].
    split; [cbn; by rewrite bool_decide_eq_true_2|].
    rewrite map_app in Hnd. cbn in Hnd. apply NoDup_app in Hnd as (_ & Hdisj & _).
    apply Forall_forall. intros r Hr. apply list_elem_of_fmap in Hr as ([q qs] & -> & Hq).
    cbn. rewrite bool_decide_eq_false_2; [done|]. intros [= ->].
    apply (Hdisj p); [|by left]. apply list_elem_of_fmap. by exists (p, qs).
Qed.

End Facts.

Lemma completion_line_is_last_witness :
  bucketDataInBatches no_length request_10
    [ (false, {| acquired := true; chunks := [within_checkpoint] |}) ]
  = [ SyncData LegacyJson (batch within_checkpoint) ] ++ CheckpointComplete 10 :: []
  ∧ (@nil Line = []
     ∧ CheckpointComplete 10
       = match forPriority request_10 with
         | Some p => PartialCheckpointComplete (checkpoint request_10) p
         | None => CheckpointComplete (checkpoint request_10)
         end).
Proof.
  split; [reflexivity|].
  exact (completion_line_is_last no_length request_10
           [ (false, {| acquired := true; chunks := [within_checkpoint] |}) ]
           [ SyncData LegacyJson (batch within_checkpoint) ] [] (CheckpointComplete 10)
           eq_refl eq_refl).
Defined.

(** Two chunks with data and an empty one: three ops are sent and
    counted, and the position of bucket ["a[]"] is updated twice. *)
Example two_chunks_accounting :
  (bucketDataBatch no_length request_10 true two_chunks).2
  = [ onRowsSent 2; updateState "a[]" 2; onRowsSent 1; updateState "a[]" 3 ]
  ∧ rows_sent (bucketDataBatch no_length request_10 true two_chunks).2 = 3.
Proof. split; reflexivity. Qed.

(** Priority 3 is requested first and carries [forPriority]; the two buckets
    of priority 1 go into the last request. *)
Example three_buckets_requests :
  map (fun r => (map bucket (sync.bucketsToFetch r), forPriority r))
      (fetch_requests 10 false false three_buckets)
  = [ (["b[]"], Some 3); (["a[]"; "c[]"], None) ].
Proof. vm_compute. reflexivity. Qed.

End SyncStreamMore.

(** ** Demultiplexer: at most one upstream *)

Module DemultiplexerUpstream.
Import Demultiplexer.

Section Facts.
Context {T : Type}.

Local Abbreviation State := (@State T).

Lemma inv_initial : inv (@initial T).
Proof.
  split; cbn; try done.
  all: intros n; try intros [Hn _]; try intros Hn; cbn in *;
    by apply not_elem_of_empty in Hn.
Qed.

Lemma listeners_of_insert_eq (st : State) (m : nat) (map : gmap string (gset nat))
    (l : gmap nat (gmap string (gset nat))) :
  default ∅ (<[m := map]> l !! m) = map.
Proof. by rewrite lookup_insert_eq. Qed.

Lemma inv_start (key : string) (sink : nat) (st : State) :
  inv st → currentSource st = None → inv (start key sink st).1.
Proof.
  intros [Hc Hs Hcur Hact Hfresh] Hnone. rewrite Hs in Hnone.
  split; cbn; try done.
  - intros n [= <-]. split; [|split].
    + split; cbn; [apply elem_of_union; left; by apply elem_of_singleton
                  |by rewrite lookup_insert_eq].
    + unfold listeners_of. cbn. rewrite lookup_insert_eq. cbn.
      apply insert_non_empty.
    + unfold listeners_of. cbn. rewrite lookup_insert_eq. cbn.
      intros k ks Hk. apply lookup_singleton_Some in Hk as [_ <-].
      apply non_empty_singleton_L.
  - intros n [Hrun Hab]. cbn in *.
    destruct (decide (n = next_source st)) as [->|Hne]; [done|].
    rewrite lookup_insert_ne in Hab by done.
    assert (active st n) as Ha.
    { split; [|done]. apply elem_of_union in Hrun as [Hrun|Hrun]; [|done].
      by apply elem_of_singleton in Hrun. }
    apply Hact in Ha. congruence.
  - intros n Hn. apply elem_of_union in Hn as [Hn|Hn].
    + apply elem_of_singleton in Hn. lia.
    + apply Hfresh in Hn. lia.
Qed.

Lemma inv_addSink (key : string) (sink : nat) (st : State) :
  inv st → ∃ st' n, addSink key sink st = Some (st', n) ∧ inv st'.
Proof.
  intros Hinv. unfold addSink.
  destruct (currentSource st) as [src|] eqn:Hsrc.
  - destruct Hinv as [Hc Hs Hcur Hact Hfresh]. rewrite Hsrc in Hs.
    rewrite <- Hs. eexists _, _. split; [done|].
    destruct (Hcur src (eq_sym Hs)) as ([Hrun Hab] & Hne & Hsets).
    set (M := listeners_of st src) in *.
    split; cbn; try congruence; try exact Hfresh;
      try (intros n Hn; rewrite <- Hs in Hact; by apply Hact).
    + intros n Hn. assert (n = src) as -> by congruence. clear Hn.
      unfold listeners_of. cbn. rewrite lookup_insert_eq. cbn.
      split; [done|]. split.
      * destruct (M !! key); apply insert_non_empty.
      * intros k ks Hk.
        destruct (M !! key) as [existing|] eqn:Hex;
          (destruct (decide (k = key)) as [->|Hkne];
           [rewrite lookup_insert_eq in Hk; injection Hk as <-
           |rewrite lookup_insert_ne in Hk by done; by eapply Hsets]).
        -- intros Hempty. apply (Hsets key existing Hex).
           apply empty_union_L in Hempty. tauto.
        -- apply non_empty_singleton_L.
  - eexists _, _. split; [done|]. by apply inv_start.
Qed.

Lemma inv_removeSink (key : string) (sink : nat) (st : State) :
  inv st → inv (removeSink key sink st).
Proof.
  intros Hinv. unfold removeSink.
  destruct (subscribers st) as [m|] eqn:Hm; [|done].
  set (M := listeners_of st m) in *.
  destruct (M !! key) as [existing|] eqn:Hex; [|done].
  destruct Hinv as [Hc Hs Hcur Hact Hfresh].
  destruct (Hcur m Hm) as ([Hrun Hab] & Hne & Hsets).
  set (M' := if bool_decide (size (existing ∖ {[sink]}) = 0%nat)
             then delete key M else <[key := existing ∖ {[sink]}]> M).
  destruct (bool_decide (size M' = 0%nat)) eqn:Hsize.
  - split; cbn; try done.
    + intros n [Hn Hab']. cbn in *. rewrite Hc, Hm in Hab'. cbn in Hab'.
      destruct (decide (n = m)) as [->|Hnm].
      * by rewrite lookup_insert_eq in Hab'.
      * rewrite lookup_insert_ne in Hab' by done.
        assert (active st n) as Ha by done. apply Hact in Ha. congruence.
  - apply bool_decide_eq_false in Hsize.
    split; cbn; try congruence; try exact Hfresh; try exact Hact.
    + intros n Hn. assert (n = m) as -> by congruence.
      unfold listeners_of. cbn. rewrite lookup_insert_eq. cbn.
      split; [done|]. split.
      * intros ->. by rewrite map_size_empty in Hsize.
      * intros k ks Hk. subst M'.
        destruct (bool_decide (size (existing ∖ {[sink]}) = 0%nat)) eqn:Hes.
        -- apply lookup_delete_Some in Hk as [_ Hk]. by eapply Hsets.
        -- apply bool_decide_eq_false in Hes.
           destruct (decide (k = key)) as [->|Hkne].
           ++ rewrite lookup_insert_eq in Hk. injection Hk as <-.
              intros Hempty. by rewrite Hempty, size_empty in Hes.
           ++ rewrite lookup_insert_ne in Hk by done. by eapply Hsets.
    + intros n Hn. rewrite <- Hm. by apply Hact.
Qed.

Lemma inv_loop_finally (n : nat) (st : State) :
  abortController st = subscribers st → currentSource st = subscribers st →
  (∀ m, m ≠ n → subscribers st = Some m →
     active st m ∧ listeners_of st m ≠ ∅
     ∧ ∀ key keySinks, listeners_of st m !! key = Some keySinks → keySinks ≠ ∅) →
  (∀ m, m ≠ n → active st m → subscribers st = Some m) →
  (∀ m, m ∈ running st → (m < next_source st)%nat) →
  inv (loop_finally n st).
Proof.
  intros Hc Hs Hcur Hact Hfresh. unfold loop_finally.
  destruct (bool_decide (subscribers st = Some n)) eqn:Hsame.
  - apply bool_decide_eq_true in Hsame. split; cbn; try done.
    + intros m [Hrun Hab]. cbn in *. apply elem_of_difference in Hrun as [Hrun Hne].
      assert (m ≠ n) as Hmn by (intros ->; apply Hne; by apply elem_of_singleton).
      assert (active st m) as Ha by done. apply (Hact m Hmn) in Ha. congruence.
    + intros m Hrun. apply elem_of_difference in Hrun as [Hrun _]. by apply Hfresh.
  - apply bool_decide_eq_false in Hsame. split; cbn; try done.
    + intros m Hm. assert (m ≠ n) as Hmn by congruence.
      destruct (Hcur m Hmn Hm) as ([Hrun Hab] & Hne & Hsets).
      split; [|by split]. split; cbn; [|done].
      apply elem_of_difference. split; [done|]. by intros ?%elem_of_singleton.
    + intros m [Hrun Hab]. cbn in *. apply elem_of_difference in Hrun as [Hrun Hne].
      assert (m ≠ n) as Hmn by (intros ->; apply Hne; by apply elem_of_singleton).
      by apply (Hact m Hmn).
    + intros m Hrun. apply elem_of_difference in Hrun as [Hrun _]. by apply Hfresh.
Qed.

Lemma inv_loop_catch (n : nat) (st : State) : inv st → inv (loop_catch n st).
Proof.
  intros [Hc Hs Hcur Hact Hfresh]. unfold loop_catch.
  apply inv_loop_finally; cbn; try done.
  - intros m Hmn Hm. destruct (Hcur m Hm) as ([Hrun Hab] & Hne & Hsets).
    split; [|by split]. split; cbn; [done|]. by rewrite lookup_insert_ne.
  - intros m Hmn [Hrun Hab]. cbn in *. rewrite lookup_insert_ne in Hab by done.
    by apply Hact.
Qed.

Lemma inv_loop_end (n : nat) (st : State) : inv st → inv (loop_end n st).
Proof.
  intros Hinv. unfold loop_end. destruct (bool_decide (n ∈ running st)); [|done].
  destruct Hinv as [Hc Hs Hcur Hact Hfresh].
  apply inv_loop_finally; cbn; try done.
  - intros m _. apply Hcur.
  - intros m _. apply Hact.
Qed.

Lemma inv_loop_error (n : nat) (st : State) : inv st → inv (loop_error n st).
Proof.
  intros Hinv. unfold loop_error. destruct (bool_decide (n ∈ running st)); [|done].
  by apply inv_loop_catch.
Qed.

Lemma inv_loop_doc (n : nat) (key : string) (value : T) (st : State) :
  inv st → inv (loop_doc n key value st).
Proof.
  intros Hinv. unfold loop_doc. destruct (bool_decide (n ∈ running st)); [|done].
  destruct (_ || _); [by apply inv_loop_catch|].
  destruct (listeners_of st n !! key); [|done].
  destruct Hinv as [Hc Hs Hcur Hact Hfresh]. by split.
Qed.

Lemma inv_step (st : State) (op : Op) :
  inv st → ∃ st', step st op = Some st' ∧ inv st'.
Proof.
  intros Hinv. destruct op as [key sink|key sink|n key value|n|n]; cbn.
  - destruct (inv_addSink key sink st Hinv) as (st' & n & -> & Hinv'). by exists st'.
  - eexists. split; [done|]. by apply inv_removeSink.
  - eexists. split; [done|]. by apply inv_loop_doc.
  - eexists. split; [done|]. by apply inv_loop_end.
  - eexists. split; [done|]. by apply inv_loop_error.
Qed.

Lemma inv_run (ops : list Op) (st : State) :
  inv st → ∃ st', run st ops = Some st' ∧ inv st'.
Proof.
  revert st. induction ops as [|op ops IH]; intros st Hinv; cbn.
  - by exists st.
  - destruct (inv_step st op Hinv) as (st1 & -> & Hinv1). by apply IH.
Qed.


Lemma size_zero_empty (map : gmap string (gset nat)) : size map = 0%nat ↔ map = ∅.
Proof. apply map_size_empty_iff. Qed.

Lemma registered_in (st : State) (n : nat) (k : string) (s : nat) :
  subscribers st = Some n →
  registered st k s ↔ ∃ ks, listeners_of st n !! k = Some ks ∧ s ∈ ks.
Proof.
  intros Hn. unfold registered. split.
  - intros (m & ks & Hm & Hk & Hin). assert (m = n) as -> by congruence. by exists ks.
  - intros (ks & Hk & Hin). by exists n, ks.
Qed.

Lemma registered_none (st : State) (k : string) (s : nat) :
  subscribers st = None → ¬ registered st k s.
Proof. intros Hn (m & ks & Hm & _). congruence. Qed.

Lemma registered_current (st : State) :
  inv st → is_Some (currentSource st) ↔ ∃ k s, registered st k s.
Proof.
  intros [Hc Hs Hcur Hact Hfresh]. split.
  - intros [n Hn]. rewrite Hs in Hn.
    destruct (Hcur n Hn) as (_ & Hne & Hsets).
    apply map_choose in Hne as (key & keySinks & Hkey).
    destruct (set_choose_L keySinks) as [sink Hsink]; [by eapply Hsets|].
    by exists key, sink, n, keySinks.
  - intros (k & s & m & _ & Hm & _). rewrite Hs, Hm. by eexists.
Qed.

(** What [existing.add(sink)] or [set(key, new Set([sink]))] leaves in the
    [Map]. *)
Lemma added_to_map (M : gmap string (gset nat)) (key : string) (sink : nat)
    (k : string) (s : nat) :
  (∃ ks, match M !! key with
         | Some existing => <[key := existing ∪ {[ sink ]}]> M
         | None => <[key := {[ sink ]}]> M
         end !! k = Some ks ∧ s ∈ ks)
  ↔ (∃ ks, M !! k = Some ks ∧ s ∈ ks) ∨ (k = key ∧ s = sink).
Proof.
  destruct (decide (k = key)) as [->|Hne].
  - destruct (M !! key) as [existing|] eqn:Hex; rewrite lookup_insert_eq; split.
    + intros (ks & [= <-] & Hin). apply elem_of_union in Hin as [Hin|Hin].
      * left. by exists existing.
      * right. by apply elem_of_singleton in Hin.
    + intros [(ks & [= <-] & Hin)|[_ ->]]; eexists; (split; [done|]); set_solver.
    + intros (ks & [= <-] & Hin). right. by apply elem_of_singleton in Hin.
    + intros [(ks & [=] & _)|[_ ->]]. eexists. split; [done|]. set_solver.
  - assert (Hk : match M !! key with
                 | Some existing => <[key := existing ∪ {[ sink ]}]> M
                 | None => <[key := {[ sink ]}]> M
                 end !! k = M !! k).
    { destruct (M !! key); by rewrite lookup_insert_ne. }
    rewrite Hk. split; [by left|]. by intros [H|[? _]].
Qed.

(** What [existing.delete(sink)] and the [delete(key)] of an emptied set
    leave in the [Map]. *)
Lemma removed_from_map (M : gmap string (gset nat)) (key : string) (sink : nat)
    (existing : gset nat) (k : string) (s : nat) :
  M !! key = Some existing →
  (∃ ks, (if bool_decide (size (existing ∖ {[ sink ]}) = 0%nat)
          then delete key M
          else <[key := existing ∖ {[ sink ]}]> M) !! k = Some ks ∧ s ∈ ks)
  ↔ (∃ ks, M !! k = Some ks ∧ s ∈ ks) ∧ ¬ (k = key ∧ s = sink).
Proof.
  intros Hex. destruct (decide (k = key)) as [->|Hne].
  - split.
    + intros (ks & Hk & Hin). destruct (bool_decide _).
      * by rewrite lookup_delete_eq in Hk.
      * rewrite lookup_insert_eq in Hk. injection Hk as <-.
        apply elem_of_difference in Hin as [Hin Hns]. split; [by exists existing|].
        intros [_ ->]. apply Hns. by apply elem_of_singleton.
    + intros [(ks & Hk & Hin) Hns]. assert (ks = existing) as -> by congruence.
      assert (Hin' : s ∈ existing ∖ {[ sink ]}).
      { apply elem_of_difference. split; [done|]. intros ->%elem_of_singleton. by apply Hns. }
      rewrite bool_decide_false.
      * exists (existing ∖ {[ sink ]}). by rewrite lookup_insert_eq.
      * intros H0%size_empty_iff. rewrite leibniz_equiv_iff in H0.
        rewrite H0 in Hin'. by apply not_elem_of_empty in Hin'.
  - assert (Hk : (if bool_decide (size (existing ∖ {[ sink ]}) = 0%nat)
                  then delete key M
                  else <[key := existing ∖ {[ sink ]}]> M) !! k = M !! k).
    { destruct (bool_decide _); [by rewrite lookup_delete_ne|by rewrite lookup_insert_ne]. }
    rewrite Hk. split; [|by intros [? _]]. intros H. split; [done|]. by intros [? _].
Qed.

Lemma addSink_start_registered (key : string) (sink : nat) (st st' : State) (n : nat) :
  currentSource st = None → addSink key sink st = Some (st', n) →
  n = next_source st ∧ currentSource st' = Some n ∧ next_source st' = S n
  ∧ ∀ k s, registered st' k s ↔ k = key ∧ s = sink.
Proof.
  intros Hnone. unfold addSink. rewrite Hnone. intros [= <- <-].
  split; [done|]. split; [done|]. split; [done|]. intros k s.
  rewrite (registered_in _ (next_source st)) by done.
  unfold listeners_of. cbn. rewrite lookup_insert_eq. cbn. split.
  - intros (ks & Hk & Hin). apply lookup_singleton_Some in Hk as [<- <-].
    by apply elem_of_singleton in Hin.
  - intros [-> ->]. exists {[ sink ]}. rewrite lookup_singleton_eq.
    split; [done|]. by apply elem_of_singleton.
Qed.

Lemma addSink_shared_registered (key : string) (sink : nat) (st st' : State) (n n' : nat) :
  inv st → currentSource st = Some n → addSink key sink st = Some (st', n') →
  n' = n ∧ currentSource st' = Some n ∧ next_source st' = next_source st
  ∧ ∀ k s, registered st' k s ↔ registered st k s ∨ (k = key ∧ s = sink).
Proof.
  intros [Hc Hs Hcur Hact Hfresh] Hn. unfold addSink. rewrite Hn.
  rewrite Hs in Hn. rewrite Hn. intros [= <- <-].
  split; [done|]. split; [cbn; congruence|]. split; [done|]. intros k s.
  rewrite (registered_in _ n), (registered_in st n) by done.
  unfold listeners_of at 1. cbn [listeners]. rewrite lookup_insert_eq. cbn [default].
  apply added_to_map.
Qed.

Lemma removeSink_cases (key : string) (sink : nat) (st : State) :
  let st' := removeSink key sink st in
  running st' = running st ∧ next_source st' = next_source st
  ∧ ((currentSource st' = currentSource st ∧ subscribers st' = subscribers st
      ∧ abortController st' = abortController st ∧ aborted st' = aborted st)
     ∨ (currentSource st' = None ∧ subscribers st' = None ∧ abortController st' = None
        ∧ aborted st' = abort (abortController st) (aborted st))).
Proof.
  cbv zeta. unfold removeSink.
  destruct (subscribers st) as [m|] eqn:Hm; [|by repeat split; left].
  destruct (listeners_of st m !! key); [|by repeat split; left].
  destruct (bool_decide (size _ = 0%nat)); cbn; (split; [done|]); (split; [done|]);
    [by right|by left].
Qed.

Lemma removeSink_registered (key : string) (sink : nat) (st : State) (k : string) (s : nat) :
  registered (removeSink key sink st) k s
  ↔ registered st k s ∧ ¬ (k = key ∧ s = sink).
Proof.
  unfold removeSink.
  destruct (subscribers st) as [m|] eqn:Hm.
  2:{ split; [by intros ?%registered_none|]. by intros [?%registered_none _]. }
  destruct (listeners_of st m !! key) as [existing|] eqn:Hex.
  2:{ split; [|by intros [? _]]. intros Hr. split; [done|]. intros [-> ->].
      apply (registered_in st m) in Hr as (ks & Hk & _); [congruence|done]. }
  rewrite (registered_in st m) by done.
  rewrite <- (removed_from_map _ key sink existing k s Hex).
  set (M' := if bool_decide (size (existing ∖ {[ sink ]}) = 0%nat)
             then delete key (listeners_of st m)
             else <[key := existing ∖ {[ sink ]}]> (listeners_of st m)).
  destruct (bool_decide (size M' = 0%nat)) eqn:Hsize.
  - apply bool_decide_eq_true, map_size_empty_iff in Hsize. split.
    + by intros ?%registered_none.
    + intros (ks & Hk & _). by rewrite Hsize, lookup_empty in Hk.
  - rewrite (registered_in _ m) by done.
    unfold listeners_of at 1. cbn [listeners]. by rewrite lookup_insert_eq.
Qed.

(** The upstream survives [removeSink] exactly when another subscriber is
    left. *)
Lemma removeSink_upstream (key : string) (sink : nat) (st : State) (n : nat) :
  inv st → currentSource st = Some n →
  let st' := removeSink key sink st in
  ((∃ k s, registered st' k s) →
     currentSource st' = Some n ∧ active st' n ∧ aborted st' = aborted st)
  ∧ (¬ (∃ k s, registered st' k s) →
     aborted st' !! n = Some true ∧ ¬ active st' n
     ∧ subscribers st' = None ∧ abortController st' = None ∧ currentSource st' = None).
Proof.
  intros Hinv Hn. cbv zeta.
  pose proof (inv_removeSink key sink st Hinv) as Hinv'.
  pose proof (registered_current _ Hinv') as Hreg.
  destruct (removeSink_cases key sink st) as (_ & _ & Hcases).
  pose proof Hinv as [Hc Hs _ _ _]. pose proof Hinv' as [_ Hs' Hcur' _ _].
  split.
  - intros Hsome. apply Hreg in Hsome as [n' Hn'].
    destruct Hcases as [(Hsrc & _ & _ & Hab)|(Hsrc & _)]; [|congruence].
    assert (n' = n) as -> by congruence. split; [done|]. split; [|done].
    rewrite Hs' in Hn'. by destruct (Hcur' n Hn').
  - intros Hno. assert (Hnone : currentSource (removeSink key sink st) = None).
    { destruct (currentSource (removeSink key sink st)) eqn:Hsrc; [|done].
      exfalso. apply Hno, Hreg. by eexists. }
    destruct Hcases as [(Hsrc & _)|(_ & Hsub & Hctl & Hab)]; [congruence|].
    rewrite Hc, <- Hs, Hn in Hab. cbn in Hab.
    assert (Habn : aborted (removeSink key sink st) !! n = Some true)
      by (by rewrite Hab, lookup_insert_eq).
    split; [done|]. split; [|done]. intros [_ Hact]. congruence.
Qed.

Lemma loop_finally_fields (n : nat) (st : State) :
  next_source (loop_finally n st) = next_source st
  ∧ listeners (loop_finally n st) = listeners st
  ∧ (subscribers st ≠ Some n →
       subscribers (loop_finally n st) = subscribers st
       ∧ currentSource (loop_finally n st) = currentSource st)
  ∧ (subscribers st = Some n →
       subscribers (loop_finally n st) = None ∧ currentSource (loop_finally n st) = None).
Proof.
  unfold loop_finally. split; [done|]. split; [done|]. split; intros H; cbn.
  - by rewrite bool_decide_false.
  - by rewrite bool_decide_true.
Qed.

(** A value of the upstream leaves the subscribers and the upstream as they
    are. *)
Lemma loop_doc_frame (n : nat) (key : string) (value : T) (st : State) :
  inv st →
  subscribers (loop_doc n key value st) = subscribers st
  ∧ currentSource (loop_doc n key value st) = currentSource st
  ∧ listeners (loop_doc n key value st) = listeners st
  ∧ next_source (loop_doc n key value st) = next_source st.
Proof.
  intros [Hc Hs Hcur Hact Hfresh]. unfold loop_doc.
  destruct (bool_decide (n ∈ running st)); [|done].
  destruct (default false (aborted st !! n)
            || bool_decide (size (listeners_of st n) = 0%nat)) eqn:Htest.
  - assert (Hne : subscribers st ≠ Some n).
    { intros Hn. destruct (Hcur n Hn) as ([_ Hab] & Hnonempty & _).
      rewrite Hab in Htest. cbn in Htest. apply bool_decide_eq_true in Htest.
      by apply map_size_empty_iff in Htest. }
    unfold loop_catch.
    match goal with |- context [loop_finally n ?x] =>
      destruct (loop_finally_fields n x) as (Hnext & Hl & Hkeep & _) end.
    destruct (Hkeep Hne) as [Hsub Hsrc]. by rewrite Hsub, Hsrc, Hl, Hnext.
  - by destruct (listeners_of st n !! key).
Qed.

(** The end or the failure of a source: of the current one, it clears the
    subscribers; of another one, it leaves them. *)
Lemma loop_stop_fields (n : nat) (st st' : State) :
  inv st → st' = loop_end n st ∨ st' = loop_error n st →
  next_source st' = next_source st
  ∧ (currentSource st = Some n → currentSource st' = None ∧ subscribers st' = None)
  ∧ (currentSource st ≠ Some n →
       currentSource st' = currentSource st ∧ subscribers st' = subscribers st
       ∧ listeners st' = listeners st).
Proof.
  intros [Hc Hs Hcur Hact Hfresh] Hst'.
  assert (Hrun : currentSource st = Some n → n ∈ running st).
  { intros Hn. rewrite Hs in Hn. by destruct (Hcur n Hn) as ([? _] & _). }
  unfold loop_end, loop_error, loop_catch in Hst'.
  destruct (bool_decide (n ∈ running st)) eqn:Hin.
  2:{ apply bool_decide_eq_false in Hin.
      assert (st' = st) as -> by (by destruct Hst').
      split; [done|]. split; [|done]. intros Hn. exfalso. by apply Hin, Hrun. }
  destruct Hst' as [->| ->];
    match goal with |- context [loop_finally n ?x] =>
      destruct (loop_finally_fields n x) as (Hnext & Hl & Hkeep & Hclear) end;
    rewrite Hnext; (split; [done|]); split.
  - intros Hn. rewrite Hs in Hn. destruct (Hclear Hn) as [-> ->]. done.
  - intros Hn. rewrite Hs in Hn. destruct (Hkeep Hn) as [-> ->]. by rewrite Hl.
  - intros Hn. rewrite Hs in Hn. destruct (Hclear Hn) as [-> ->]. done.
  - intros Hn. rewrite Hs in Hn. destruct (Hkeep Hn) as [-> ->]. by rewrite Hl.
Qed.

Lemma registered_ext (st st' : State) (k : string) (s : nat) :
  subscribers st' = subscribers st → listeners st' = listeners st →
  registered st' k s ↔ registered st k s.
Proof. intros Hs Hl. unfold registered, listeners_of. by rewrite Hs, Hl. Qed.

(** [addSink] registers its sink next to those that are registered. *)
Lemma addSink_registered_iff (key : string) (sink : nat) (st st' : State) (n : nat) :
  inv st → addSink key sink st = Some (st', n) →
  ∀ k s, registered st' k s ↔ registered st k s ∨ (k = key ∧ s = sink).
Proof.
  intros Hinv Hadd. destruct (currentSource st) as [src|] eqn:Hsrc.
  - by destruct (addSink_shared_registered key sink st st' src n Hinv Hsrc Hadd)
      as (_ & _ & _ & Hreg').
  - destruct (addSink_start_registered key sink st st' n Hsrc Hadd) as (_ & _ & _ & Hreg').
    intros k s. rewrite Hreg'. split; [by right|].
    intros [Hr|?]; [|done]. exfalso. revert Hr. apply registered_none.
    destruct Hinv as [_ Hs _ _ _]. by rewrite <- Hs.
Qed.

Lemma follows_step (st : State) (u : Lifecycle) (op : Op) :
  follows st u → ∃ st', step st op = Some st' ∧ follows st' (lifecycle_step u op).
Proof.
  intros (Hinv & Hsrc & Hnext & Hreg & Hnone).
  destruct op as [key sink|key sink|n key value|n|n]; cbn [step lifecycle_step].
  - destruct (inv_addSink key sink st Hinv) as (st' & n & Hadd & Hinv').
    rewrite Hadd. exists st'. split; [done|].
    destruct (currentSource st) as [src|] eqn:Hcur.
    + destruct (addSink_shared_registered key sink st st' src n Hinv Hcur Hadd)
        as (-> & Hsrc' & Hnext' & Hreg').
      assert (Hne : members u ≠ ∅) by (intros H0%Hnone; congruence).
      rewrite bool_decide_false by done.
      split; [done|]. cbn. split; [congruence|]. split; [congruence|]. split.
      * intros k s. rewrite Hreg', Hreg, elem_of_union, elem_of_singleton.
        split; [intros [?|[-> ->]]; auto|intros [[= -> ->]|?]; auto].
      * split; [congruence|]. intros H0. exfalso. clear -H0. set_solver.
    + destruct (addSink_start_registered key sink st st' n Hcur Hadd)
        as (-> & Hsrc' & Hnext' & Hreg').
      assert (He : members u = ∅) by (by apply Hnone).
      rewrite bool_decide_true by done.
      split; [done|]. cbn. split; [congruence|]. split; [congruence|]. split.
      * intros k s. rewrite Hreg', elem_of_singleton.
        split; [by intros [-> ->]|by intros [= -> ->]].
      * split; [done|]. intros H0. exfalso. clear -H0. set_solver.
  - eexists. split; [done|].
    pose proof (inv_removeSink key sink st Hinv) as Hinv'.
    destruct (removeSink_cases key sink st) as (_ & Hnext' & Hcases).
    assert (Hreg' : ∀ k s, registered (removeSink key sink st) k s
                          ↔ (k, s) ∈ members u ∖ {[ (key, sink) ]}).
    { intros k s. rewrite removeSink_registered, Hreg, elem_of_difference, elem_of_singleton.
      split; intros [? Hn]; (split; [done|]);
        [intros [= -> ->]|intros [-> ->]]; by apply Hn. }
    pose proof (registered_current _ Hinv') as Hcur'.
    split; [done|]. cbn. split; [|split; [congruence|split; [done|]]].
    + case_bool_decide as Hrest.
      * destruct (currentSource (removeSink key sink st)) eqn:Hc'; [|done].
        exfalso. destruct Hcur' as [Hcur' _].
        destruct Hcur' as (k & s & Hks); [by eexists|].
        apply Hreg' in Hks. rewrite Hrest in Hks. by apply not_elem_of_empty in Hks.
      * destruct Hcases as [(Hc' & _)|(Hc' & _)]; [congruence|].
        exfalso. apply set_choose_L in Hrest as [[k s] Hks]. apply Hreg' in Hks.
        destruct Hcur' as [_ Hcur']. destruct Hcur' as [x Hx]; [by eauto|]. congruence.
    + case_bool_decide as Hrest; [done|]. split; [|done].
      intros Hup. exfalso. apply Hrest. apply Hnone in Hup. rewrite Hup.
      apply subseteq_empty_difference_L. done.
  - eexists. split; [done|].
    destruct (loop_doc_frame n key value st Hinv) as (Hsub' & Hsrc' & Hl' & Hnext').
    split; [by apply inv_loop_doc|]. split; [congruence|]. split; [congruence|].
    split; [|done]. intros k s. by rewrite (registered_ext st _ k s Hsub' Hl').
  - eexists. split; [done|].
    destruct (loop_stop_fields n st (loop_end n st) Hinv) as (Hnext' & Hclear & Hkeep);
      [by left|].
    split; [by apply inv_loop_end|].
    case_bool_decide as Hn.
    + rewrite <- Hsrc in Hn. destruct (Hclear Hn) as [Hc' Hs']. cbn.
      split; [done|]. split; [congruence|]. split; [|done].
      intros k s. split; [by intros ?%registered_none|by intros ?%not_elem_of_empty].
    + rewrite <- Hsrc in Hn. destruct (Hkeep Hn) as (Hc' & Hs' & Hl').
      split; [congruence|]. split; [congruence|]. split; [|done].
      intros k s. by rewrite (registered_ext st _ k s Hs' Hl').
  - eexists. split; [done|].
    destruct (loop_stop_fields n st (loop_error n st) Hinv) as (Hnext' & Hclear & Hkeep);
      [by right|].
    split; [by apply inv_loop_error|].
    case_bool_decide as Hn.
    + rewrite <- Hsrc in Hn. destruct (Hclear Hn) as [Hc' Hs']. cbn.
      split; [done|]. split; [congruence|]. split; [|done].
      intros k s. split; [by intros ?%registered_none|by intros ?%not_elem_of_empty].
    + rewrite <- Hsrc in Hn. destruct (Hkeep Hn) as (Hc' & Hs' & Hl').
      split; [congruence|]. split; [congruence|]. split; [|done].
      intros k s. by rewrite (registered_ext st _ k s Hs' Hl').
Qed.

Lemma follows_run (ops : list Op) (st : State) (u : Lifecycle) :
  follows st u → ∃ st', run st ops = Some st' ∧ follows st' (foldl lifecycle_step u ops).
Proof.
  revert st u. induction ops as [|op ops IH]; intros st u Hf; cbn.
  - by exists st.
  - destruct (follows_step st u op Hf) as (st1 & -> & Hf1). by apply IH.
Qed.

Lemma follows_initial :
  follows (@initial T) {| members := ∅; upstream := None; started := 0%nat |}.
Proof.
  split; [apply inv_initial|]. split; [done|]. split; [done|]. split; [|done].
  intros k s. split; [by intros ?%registered_none|by intros ?%not_elem_of_empty].
Qed.

(** C7.  Demultiplexer, at most one upstream with a lazy lifecycle.  After
    any sequence of [addSink] and [removeSink] calls and source events (no
    call fails):
    - at most one source is an active upstream subscription, and it is
      [currentSource];
    - [currentSource] is set if and only if there is at least one subscriber;
    - the sinks registered are exactly the pairs given to [addSink] and not
      taken out since by [removeSink] or by the end of their upstream;
      [currentSource] is the upstream that the calls made so far leave, and
      as many sources have been started as calls of [addSink] found no
      subscriber;
    - with no [currentSource], the first [addSink] starts a source, with
      that one subscriber;
    - with a [currentSource], [addSink] for any key returns that source and
      starts nothing; the new subscriber is registered next to the others,
      on the same active source;
    - [removeSink] takes out that one subscriber; while another one is left
      the source stays active and is not aborted; when none is left the
      source is aborted and [subscribers], [abortController] and
      [currentSource] are cleared. *)
Theorem demultiplexer_at_most_one_upstream (ops : list Op) :
  ∃ st : State,
    run initial ops = Some st
    ∧ (∀ n m, active st n → active st m → n = m)
    ∧ (∀ n, active st n ↔ currentSource st = Some n)
    ∧ (is_Some (currentSource st) ↔ has_subscribers st)
    ∧ (∀ key sink, currentSource st = None →
         ∃ st', addSink key sink st = Some (st', next_source st)
                ∧ currentSource st' = Some (next_source st)
                ∧ active st' (next_source st))
    ∧ (∀ key sink n, currentSource st = Some n →
         ∃ st', addSink key sink st = Some (st', n)
                ∧ currentSource st' = Some n
                ∧ next_source st' = next_source st
                ∧ running st' = running st
                ∧ aborted st' = aborted st)
    ∧ (∀ key sink n, currentSource st = Some n →
         listeners_of st n = {[ key := {[ sink ]} ]} →
         let st' := removeSink key sink st in
         aborted st' !! n = Some true ∧ ¬ active st' n
         ∧ subscribers st' = None ∧ abortController st' = None
         ∧ currentSource st' = None)
    ∧ (currentSource st = upstream (lifecycle_of ops)
       ∧ next_source st = started (lifecycle_of ops)
       ∧ (∀ key sink, registered st key sink ↔ (key, sink) ∈ members (lifecycle_of ops))
       ∧ (upstream (lifecycle_of ops) = None ↔ members (lifecycle_of ops) = ∅))
    ∧ (∀ key sink st' n, addSink key sink st = Some (st', n) →
         active st' n
         ∧ (∀ k s, registered st' k s ↔ registered st k s ∨ (k = key ∧ s = sink))
         ∧ (∀ k s, registered st k s → currentSource st = Some n))
    ∧ (∀ key sink n, currentSource st = Some n →
         let st' := removeSink key sink st in
         (∀ k s, registered st' k s ↔ registered st k s ∧ ¬ (k = key ∧ s = sink))
         ∧ ((∃ k s, registered st k s ∧ ¬ (k = key ∧ s = sink)) →
              currentSource st' = Some n ∧ active st' n ∧ aborted st' = aborted st)
         ∧ ((∀ k s, registered st k s → k = key ∧ s = sink) →
              aborted st' !! n = Some true ∧ ¬ active st' n
              ∧ subscribers st' = None ∧ abortController st' = None
              ∧ currentSource st' = None)).
Proof.
  destruct (follows_run ops initial _ follows_initial)
    as (st & Hrun & Hinv & Hup & Hstarted & Hmembers & Hlazy).
  exists st. split; [exact Hrun|].
  pose proof Hinv as [Hc Hs Hcur Hact Hfresh].
  assert (Hiff : ∀ n, active st n ↔ currentSource st = Some n).
  { intros n. split.
    - intros Ha. rewrite Hs. by apply Hact.
    - intros Hn. rewrite Hs in Hn. by destruct (Hcur n Hn). }
  split; [|split; [exact Hiff|split; [|split; [|split; [|split; [|split; [|split]]]]]]].
  - intros n m Hn Hm. apply Hiff in Hn, Hm. congruence.
  - split.
    + intros [n Hn]. rewrite Hs in Hn.
      destruct (Hcur n Hn) as (_ & Hne & Hsets).
      apply map_choose in Hne as (key & keySinks & Hkey).
      destruct (set_choose_L keySinks) as [sink Hsink]; [by eapply Hsets|].
      by exists n, key, keySinks, sink.
    + intros (m & _ & _ & _ & Hm & _). rewrite Hs, Hm. by eexists.
  - intros key sink Hnone. unfold addSink. rewrite Hnone.
    eexists. split; [done|]. split; [done|].
    split; cbn; [apply elem_of_union; left; by apply elem_of_singleton
                |by rewrite lookup_insert_eq].
  - intros key sink n Hn. unfold addSink. rewrite Hn.
    rewrite Hs in Hn. rewrite Hn. eexists. split; [done|]. by cbn.
  - intros key sink n Hn Hmap. cbv zeta. rewrite Hs in Hn.
    unfold removeSink. rewrite Hn, Hmap, lookup_singleton_eq.
    rewrite difference_diag_L, size_empty.
    rewrite (bool_decide_true (0%nat = 0%nat)) by done.
    rewrite delete_singleton_eq, map_size_empty.
    rewrite (bool_decide_true (0%nat = 0%nat)) by done.
    cbn. rewrite Hc, Hn. cbn. rewrite lookup_insert_eq.
    repeat split; try done. intros [_ Hab]. cbn in Hab.
    by rewrite lookup_insert_eq in Hab.
  - done.
  - intros key sink st' n Hadd.
    destruct (inv_addSink key sink st Hinv) as (st1 & n1 & Hadd1 & Hinv1).
    assert (st1 = st' ∧ n1 = n) as [-> ->] by (split; congruence).
    destruct (currentSource st) as [src|] eqn:Hsrc.
    + destruct (addSink_shared_registered key sink st st' src n Hinv Hsrc Hadd)
        as (-> & Hsrc' & _ & Hreg').
      split; [|split; [exact Hreg'|done]].
      pose proof Hinv1 as [_ Hs1 Hcur1 _ _]. rewrite Hs1 in Hsrc'.
      by destruct (Hcur1 src Hsrc').
    + destruct (addSink_start_registered key sink st st' n Hsrc Hadd)
        as (-> & Hsrc' & _ & Hreg').
      assert (Hnoreg : ∀ k s, ¬ registered st k s).
      { intros k s. apply registered_none. by rewrite <- Hs. }
      split; [|split].
      * pose proof Hinv1 as [_ Hs1 Hcur1 _ _]. rewrite Hs1 in Hsrc'.
        by destruct (Hcur1 _ Hsrc').
      * intros k s. rewrite Hreg'. split; [by right|].
        intros [Hr|?]; [by apply Hnoreg in Hr|done].
      * intros k s Hr. by apply Hnoreg in Hr.
  - intros key sink n Hn. cbv zeta.
    destruct (removeSink_upstream key sink st n Hinv Hn) as [Hkeep Hclear].
    split; [intros k s; apply removeSink_registered|]. split.
    + intros (k & s & Hks). apply Hkeep. exists k, s. by apply removeSink_registered.
    + intros Hall. apply Hclear. intros (k & s & Hks).
      apply removeSink_registered in Hks as [Hr Hne]. by apply Hne, Hall.
Qed.

End Facts.

(** The second subscriber keeps the upstream that the first one started:
    after the first one has left, source 0 is still the current and active
    one, with the second subscriber registered, and nothing was aborted. *)
Example second_subscriber_keeps_upstream :
  ∃ st, run initial first_of_two_leaves = Some st
    ∧ currentSource st = Some 0%nat
    ∧ next_source st = 1%nat
    ∧ aborted st !! 0%nat = Some false
    ∧ listeners_of st 0%nat = {[ "u2" := {[ 1%nat ]} ]}
    ∧ lifecycle_of first_of_two_leaves
      = {| members := {[ ("u2", 1%nat) ]}; upstream := Some 0%nat; started := 1%nat |}.
Proof.
  eexists. split; [reflexivity|]. repeat split; by vm_compute.
Qed.

End DemultiplexerUpstream.

(** ** Demultiplexer: key isolation *)

Module DemultiplexerKeys.
Import Demultiplexer DemultiplexerUpstream.

Section Facts.
Context {T : Type}.
Variable getFirstValue : nat → string → T.

Local Abbreviation State := (@State T).
Local Abbreviation handle := (handle getFirstValue).
Local Abbreviation handle_all := (handle_all getFirstValue).
Local Abbreviation yields_own_values := (yields_own_values getFirstValue).
Local Abbreviation consistent := (consistent getFirstValue).
Local Abbreviation delivering := (delivering getFirstValue).

Lemma inv_ext (st st' : State) :
  subscribers st' = subscribers st → abortController st' = abortController st →
  currentSource st' = currentSource st → listeners st' = listeners st →
  aborted st' = aborted st → running st' = running st →
  next_source st' = next_source st →
  inv st → inv st'.
Proof.
  intros H1 H2 H3 H4 H5 H6 H7 [Hc Hs Hcur Hact Hfresh].
  split; unfold active, listeners_of in *; rewrite ?H1, ?H2, ?H3, ?H4, ?H5, ?H6, ?H7; done.
Qed.

Lemma lookup_for_sinks (f : LastValueSink → LastValueSink) (targets : gset nat)
    (all : gmap nat (@LastValueSink T)) (s : nat) :
  for_sinks f targets all !! s
  = (fun x => if bool_decide (s ∈ targets) then f x else x) <$> all !! s.
Proof. unfold for_sinks. rewrite map_lookup_imap. by destruct (all !! s). Qed.

Lemma buffered_close (s : option (@LastValueSink T)) : buffered (sink_close <$> s) = [].
Proof. by destruct s. Qed.

Lemma upstream_values_snoc (n : nat) (key : string) (events : list (@Event T)) (e : Event) :
  upstream_values n key (events ++ [e])
  = upstream_values n key events
    ++ match e with
       | UpstreamValue n' key' v => if bool_decide (n' = n ∧ key' = key) then [v] else []
       | _ => []
       end.
Proof.
  unfold upstream_values. rewrite omap_app. f_equal.
  destruct e; cbn; try done. by destruct (bool_decide _).
Qed.

Lemma sublist_grow (l1 l2 extra : list T) : l1 `sublist_of` l2 → l1 `sublist_of` l2 ++ extra.
Proof. intros H. rewrite <- (app_nil_r l1). by apply sublist_app; [|apply sublist_nil_l]. Qed.


Lemma sublist_drop_r (l1 l2 k : list T) : l1 ++ l2 `sublist_of` k → l1 `sublist_of` k.
Proof. intros H. etrans; [|exact H]. by apply sublist_inserts_r. Qed.

Lemma values_mono (events : list (@Event T)) (e : Event) (st : State) (s : nat)
    (sub : @Subscription T) :
  yields_own_values events st s sub → yields_own_values (events ++ [e]) st s sub.
Proof.
  intros [Hp Hv]. split; [done|]. rewrite upstream_values_snoc. by apply sublist_grow.
Qed.

Lemma consistent_mono (events : list (@Event T)) (e : Event) (st : State) :
  consistent events st → consistent (events ++ [e]) st.
Proof.
  intros [Hinv Hreg Hsinks Hval]. split; try done.
  intros s sub Hs. by apply values_mono, Hval.
Qed.

(** Closing a set of sinks. *)
Lemma consistent_close (events : list (@Event T)) (st : State) (targets : gset nat) :
  consistent events st →
  consistent events (set_sinks (for_sinks sink_close targets (sinks st)) st).
Proof.
  intros [Hinv Hreg Hsinks Hval]. split; cbn; try done.
  - by eapply inv_ext; [..|exact Hinv].
  - intros s sub Hs. rewrite lookup_for_sinks.
    destruct (Hsinks s sub Hs) as [x ->]. by eexists.
  - intros s sub Hs. destruct (Hval s sub Hs) as [Hp Hv]. split; [done|]. cbn.
    rewrite lookup_for_sinks. destruct (bool_decide (s ∈ targets)).
    + destruct (sinks st !! s); cbn; [|done].
      rewrite app_nil_r. by eapply sublist_drop_r.
    + by destruct (sinks st !! s).
Qed.

Lemma consistent_objects (events : list (@Event T)) (st st' : State) :
  inv st' → listeners st' = listeners st → sinks st' = sinks st →
  subscriptions st' = subscriptions st →
  consistent events st → consistent events st'.
Proof.
  intros Hinv' Hl Hsk Hsub [Hinv Hreg Hsinks Hval].
  split; [done|rewrite Hl, Hsub; done|rewrite Hsub, Hsk; done|].
  intros s sub Hs. rewrite Hsub in Hs. destruct (Hval s sub Hs) as [Hp Hv].
  split; [done|]. by rewrite Hsk.
Qed.

Lemma consistent_loop_finally (events : list (@Event T)) (n : nat) (st : State) :
  consistent events st → inv (loop_finally n st) → consistent events (loop_finally n st).
Proof. intros Hc Hinv. by eapply consistent_objects; [exact Hinv|..|exact Hc]. Qed.

Lemma consistent_loop_catch (events : list (@Event T)) (n : nat) (st : State) :
  consistent events st → consistent events (loop_catch n st).
Proof.
  intros Hc. pose proof (inv_loop_catch n st (c_inv _ _ _ Hc)) as Hinv.
  apply (consistent_close events st (all_sinks (listeners_of st n))) in Hc.
  destruct Hc as [Hinv0 Hreg Hsinks Hval]. split; try done.
Qed.

Lemma consistent_loop_end (events : list (@Event T)) (n : nat) (st : State) :
  consistent events st → consistent events (loop_end n st).
Proof.
  intros Hc. pose proof (inv_loop_end n st (c_inv _ _ _ Hc)) as Hinv.
  unfold loop_end in *. destruct (bool_decide (n ∈ running st)); [|done].
  apply (consistent_close events st (all_sinks (listeners_of st n))) in Hc.
  destruct Hc as [Hinv0 Hreg Hsinks Hval]. split; try done.
Qed.

Lemma consistent_loop_error (events : list (@Event T)) (n : nat) (st : State) :
  consistent events st → consistent events (loop_error n st).
Proof.
  intros Hc. unfold loop_error. destruct (bool_decide (n ∈ running st)); [|done].
  by apply consistent_loop_catch.
Qed.


Lemma buffered_write (v : T) (x : @LastValueSink T) :
  buffered (Some (sink_write v x)) = if is_closed x then [] else [v].
Proof.
  unfold sink_write, is_closed. destruct x as [[[w|]|]]; by cbn.
Qed.

Lemma consistent_loop_doc (events : list (@Event T)) (n : nat) (key : string) (v : T)
    (st : State) :
  consistent events st →
  consistent (events ++ [UpstreamValue n key v]) (loop_doc n key v st).
Proof.
  intros Hc. unfold loop_doc.
  destruct (bool_decide (n ∈ running st)); [|by apply consistent_mono].
  destruct (_ || _); [by apply consistent_mono, consistent_loop_catch|].
  destruct (listeners_of st n !! key) as [keySinks|] eqn:Hkey; [|by apply consistent_mono].
  destruct Hc as [Hinv Hreg Hsinks Hval]. split; cbn; try done.
  - by eapply inv_ext; [..|exact Hinv].
  - intros s sub Hs. rewrite lookup_for_sinks.
    destruct (Hsinks s sub Hs) as [x ->]. by eexists.
  - intros s sub Hs. destruct (Hval s sub Hs) as [Hp Hv]. split; [done|]. cbn.
    rewrite lookup_for_sinks, upstream_values_snoc.
    destruct (bool_decide (s ∈ keySinks)) eqn:Hin.
    + apply bool_decide_eq_true in Hin.
      unfold listeners_of in Hkey.
      destruct (listeners st !! n) as [map|] eqn:Hmap; [|cbn in Hkey; by rewrite lookup_empty in Hkey].
      cbn in Hkey.
      destruct (Hreg n map key keySinks s Hmap Hkey Hin) as (sub' & Hs' & Hk' & Hn').
      assert (sub' = sub) as -> by congruence.
      rewrite bool_decide_true by done.
      destruct (Hsinks s sub Hs) as [x Hx]. rewrite Hx in *. cbn [fmap option_fmap option_map].
      rewrite buffered_write. destruct (is_closed x).
      * rewrite app_nil_r. apply sublist_grow. by eapply sublist_drop_r.
      * apply sublist_app; [|done]. by eapply sublist_drop_r.
    + destruct (sinks st !! s); cbn; by apply sublist_grow.
Qed.

Lemma consistent_removeSink (events : list (@Event T)) (key : string) (sink : nat)
    (st : State) :
  consistent events st → consistent events (removeSink key sink st).
Proof.
  intros Hc. pose proof (inv_removeSink key sink st (c_inv _ _ _ Hc)) as Hinv'.
  destruct Hc as [Hinv Hreg Hsinks Hval].
  assert (Hsk : sinks (removeSink key sink st) = sinks st).
  { unfold removeSink. by repeat (case_match; cbn). }
  assert (Hsub : subscriptions (removeSink key sink st) = subscriptions st).
  { unfold removeSink. by repeat (case_match; cbn). }
  split; [done| |rewrite Hsub, Hsk; done|].
  - rewrite Hsub. unfold removeSink.
    destruct (subscribers st) as [m|] eqn:Hm; [|done].
    destruct (listeners_of st m !! key) as [existing|] eqn:Hex; [|done].
    unfold listeners_of in Hex.
    destruct (listeners st !! m) as [map0|] eqn:Hmap0; [|cbn in Hex; by rewrite lookup_empty in Hex].
    cbn in Hex.
    assert (Hgoal : ∀ m' map key' keySinks s,
      <[m := if bool_decide (size (existing ∖ {[sink]}) = 0%nat)
             then delete key (listeners_of st m)
             else <[key := existing ∖ {[sink]}]> (listeners_of st m)]> (listeners st) !! m'
        = Some map →
      map !! key' = Some keySinks → s ∈ keySinks →
      ∃ sub, subscriptions st !! s = Some sub ∧ sub_key sub = key' ∧ sub_source sub = m').
    { intros m' map key' keySinks s Hl Hk Hin.
      destruct (decide (m' = m)) as [->|Hne].
      - rewrite lookup_insert_eq in Hl. injection Hl as <-.
        unfold listeners_of in Hk. rewrite Hmap0 in Hk. cbn in Hk.
        destruct (bool_decide (size (existing ∖ {[sink]}) = 0%nat)).
        + apply lookup_delete_Some in Hk as [_ Hk]. by eapply Hreg.
        + destruct (decide (key' = key)) as [->|Hkne].
          * rewrite lookup_insert_eq in Hk. injection Hk as <-.
            apply elem_of_difference in Hin as [Hin _]. by eapply Hreg.
          * rewrite lookup_insert_ne in Hk by done. by eapply Hreg.
      - rewrite lookup_insert_ne in Hl by done. by eapply Hreg. }
    by destruct (bool_decide (size _ = 0%nat)) in |- *; cbn.
  - intros s sub Hs. rewrite Hsub in Hs. destruct (Hval s sub Hs) as [Hp Hv].
    split; [done|]. by rewrite Hsk.
Qed.


Lemma consistent_set_subscription (events : list (@Event T)) (st : State) (s : nat)
    (sub sub' : @Subscription T) :
  consistent events st → subscriptions st !! s = Some sub →
  sub_key sub' = sub_key sub → sub_source sub' = sub_source sub →
  yields_own_values events st s sub' →
  consistent events (set_subscriptions (<[s := sub']> (subscriptions st)) st).
Proof.
  intros [Hinv Hreg Hsinks Hval] Hs Hk Hn Hv'. split; cbn.
  - by eapply inv_ext; [..|exact Hinv].
  - intros m map key keySinks s0 Hm Hkey Hin.
    destruct (Hreg m map key keySinks s0 Hm Hkey Hin) as (sub0 & Hs0 & Hk0 & Hn0).
    destruct (decide (s0 = s)) as [->|Hne].
    + exists sub'. rewrite lookup_insert_eq. split; [done|].
      assert (sub0 = sub) as -> by congruence. by rewrite Hk, Hn.
    + exists sub0. by rewrite lookup_insert_ne.
  - intros s0 sub0 Hs0. destruct (decide (s0 = s)) as [->|Hne].
    + by eapply Hsinks.
    + rewrite lookup_insert_ne in Hs0 by done. by eapply Hsinks.
  - intros s0 sub0 Hs0. destruct (decide (s0 = s)) as [->|Hne].
    + rewrite lookup_insert_eq in Hs0. injection Hs0 as <-. exact Hv'.
    + rewrite lookup_insert_ne in Hs0 by done. by apply Hval.
Qed.

Lemma sinks_removeSink (key : string) (sink : nat) (st : State) :
  sinks (removeSink key sink st) = sinks st
  ∧ subscriptions (removeSink key sink st) = subscriptions st.
Proof. unfold removeSink. by repeat (case_match; cbn). Qed.

Lemma consistent_subscribe_finally (events : list (@Event T)) (s : nat)
    (sub : @Subscription T) (st : State) :
  consistent events st → subscriptions st !! s = Some sub →
  consistent events (subscribe_finally s sub st).
Proof.
  intros Hc Hs. unfold subscribe_finally.
  destruct (sinks_removeSink (sub_key sub) s st) as [Hsk Hsub].
  pose proof (c_values _ _ _ Hc s sub Hs) as [Hp Hv].
  apply (consistent_removeSink events (sub_key sub) s) in Hc.
  rewrite <- Hsub.
  eapply consistent_set_subscription; [exact Hc|by rewrite Hsub|done|done|].
  split; cbn; [|by rewrite Hsk].
  destruct (phase sub); [by left|by right|done].
Qed.

Lemma consistent_subscribe_first (events : list (@Event T)) (s : nat) (st : State) :
  consistent events st → consistent events (subscribe_first getFirstValue s st).
Proof.
  intros Hc. unfold subscribe_first.
  destruct (subscriptions st !! s) as [sub|] eqn:Hs; [|done].
  destruct (phase sub) eqn:Hph; try done.
  pose proof (c_values _ _ _ Hc s sub Hs) as [Hp Hv]. rewrite Hph in Hp.
  eapply consistent_set_subscription; [exact Hc|exact Hs|done|done|].
  split; cbn; [by eexists|]. by rewrite Hp in Hv.
Qed.

Lemma consistent_subscribe_return (events : list (@Event T)) (s : nat) (st : State) :
  consistent events st → consistent events (subscribe_return s st).
Proof.
  intros Hc. unfold subscribe_return.
  destruct (subscriptions st !! s) as [sub|] eqn:Hs; [|done].
  destruct (phase sub); try done; by apply consistent_subscribe_finally.
Qed.

Lemma consistent_subscribe_next (events : list (@Event T)) (s : nat) (st : State) :
  consistent events st → consistent events (subscribe_next s st).
Proof.
  intros Hc. unfold subscribe_next.
  destruct (subscriptions st !! s) as [sub|] eqn:Hs; [|done].
  destruct (phase sub) eqn:Hph; try done.
  destruct (sinks st !! s) as [x|] eqn:Hx; [|done].
  destruct (buffer x) as [[v|]|] eqn:Hb; [| by apply consistent_subscribe_finally |done].
  pose proof (c_values _ _ _ Hc s sub Hs) as [Hp Hv]. rewrite Hph in Hp.
  destruct Hp as [vs Hvs]. rewrite Hx in Hv.
  assert (Hbuf : buffered (Some x) = [v]) by (destruct x; cbn in *; by subst).
  rewrite Hbuf, Hvs in Hv. cbn in Hv.
  destruct Hc as [Hinv Hreg Hsinks Hval]. split; cbn.
  - by eapply inv_ext; [..|exact Hinv].
  - intros m map key keySinks s0 Hm Hkey Hin.
    destruct (Hreg m map key keySinks s0 Hm Hkey Hin) as (sub0 & Hs0 & Hk0 & Hn0).
    destruct (decide (s0 = s)) as [->|Hne].
    + eexists. rewrite lookup_insert_eq. split; [done|].
      assert (sub0 = sub) as -> by congruence. done.
    + exists sub0. by rewrite lookup_insert_ne.
  - intros s0 sub0 Hs0. destruct (decide (s0 = s)) as [->|Hne].
    + by rewrite lookup_insert_eq.
    + rewrite lookup_insert_ne in Hs0 by done. rewrite lookup_insert_ne by done.
      by eapply Hsinks.
  - intros s0 sub0 Hs0. destruct (decide (s0 = s)) as [->|Hne].
    + rewrite lookup_insert_eq in Hs0. injection Hs0 as <-.
      split; cbn; [rewrite Hvs; by eexists|].
      rewrite lookup_insert_eq, Hvs. cbn. by rewrite app_nil_r.
    + rewrite lookup_insert_ne in Hs0 by done.
      destruct (Hval s0 sub0 Hs0) as [Hp0 Hv0]. split; [done|]. cbn.
      by rewrite lookup_insert_ne.
Qed.


Lemma listeners_of_Some (st : State) (m : nat) (key : string) (keySinks : gset nat) :
  listeners_of st m !! key = Some keySinks →
  ∃ map, listeners st !! m = Some map ∧ map !! key = Some keySinks.
Proof.
  unfold listeners_of. destruct (listeners st !! m) as [map|]; cbn.
  - intros H. by exists map.
  - by rewrite lookup_empty.
Qed.

Lemma addSink_registered (key : string) (s : nat) (st st1 : State) (src : nat) :
  inv st → addSink key s st = Some (st1, src) →
  sinks st1 = sinks st ∧ subscriptions st1 = subscriptions st
  ∧ ∀ m map key' keySinks s',
      listeners st1 !! m = Some map → map !! key' = Some keySinks → s' ∈ keySinks →
      (s' = s ∧ key' = key ∧ m = src)
      ∨ ∃ map0 keySinks0,
          listeners st !! m = Some map0 ∧ map0 !! key' = Some keySinks0 ∧ s' ∈ keySinks0.
Proof.
  intros [Hc Hs Hcur Hact Hfresh]. unfold addSink.
  destruct (currentSource st) as [src0|] eqn:Hsrc.
  - rewrite <- Hs. intros [= <- <-]. cbn. split; [done|]. split; [done|].
    intros m map key' keySinks s' Hm Hk Hin.
    destruct (decide (m = src0)) as [->|Hne].
    + rewrite lookup_insert_eq in Hm. injection Hm as <-.
      destruct (decide (key' = key)) as [->|Hkne].
      * destruct (listeners_of st src0 !! key) as [existing|] eqn:Hex;
          rewrite lookup_insert_eq in Hk; injection Hk as <-.
        -- apply elem_of_union in Hin as [Hin|Hin].
           ++ right. apply listeners_of_Some in Hex as (map0 & Hmap0 & Hex).
              by exists map0, existing.
           ++ left. by apply elem_of_singleton in Hin.
        -- left. by apply elem_of_singleton in Hin.
      * assert (Hk' : listeners_of st src0 !! key' = Some keySinks).
        { destruct (listeners_of st src0 !! key);
            by rewrite lookup_insert_ne in Hk. }
        right. apply listeners_of_Some in Hk' as (map0 & Hmap0 & Hk').
        by exists map0, keySinks.
    + rewrite lookup_insert_ne in Hm by done. right. by exists map, keySinks.
  - intros [= <- <-]. cbn. split; [done|]. split; [done|].
    intros m map key' keySinks s' Hm Hk Hin.
    destruct (decide (m = next_source st)) as [->|Hne].
    + rewrite lookup_insert_eq in Hm. injection Hm as <-.
      apply lookup_singleton_Some in Hk as [<- <-].
      left. by apply elem_of_singleton in Hin.
    + rewrite lookup_insert_ne in Hm by done. right. by exists map, keySinks.
Qed.

Lemma consistent_subscribe_start (events : list (@Event T)) (key : string) (s : nat)
    (st : State) :
  consistent events st →
  ∃ st', subscribe_start key s st = Some st' ∧ consistent events st'.
Proof.
  intros Hc. unfold subscribe_start.
  destruct (sinks st !! s) as [x|] eqn:Hx; [by exists st|].
  destruct Hc as [Hinv Hreg Hsinks Hval].
  assert (Hnew : subscriptions st !! s = None).
  { destruct (subscriptions st !! s) as [sub|] eqn:Hs; [|done].
    destruct (Hsinks s sub Hs) as [y Hy]. congruence. }
  set (st0 := set_sinks (<[s := {| buffer := None |}]> (sinks st)) st).
  assert (Hinv0 : inv st0) by (by eapply inv_ext; [..|exact Hinv]).
  destruct (inv_addSink key s st0 Hinv0) as (st1 & src & Hadd & Hinv1).
  rewrite Hadd. eexists. split; [done|].
  destruct (addSink_registered key s st0 st1 src Hinv0 Hadd) as (Hsk & Hsub & Hreg1).
  split; cbn.
  - by eapply inv_ext; [..|exact Hinv1].
  - intros m map key' keySinks s' Hm Hk Hin.
    destruct (Hreg1 m map key' keySinks s' Hm Hk Hin)
      as [(-> & -> & ->)|(map0 & keySinks0 & Hm0 & Hk0 & Hin0)].
    + eexists. rewrite lookup_insert_eq. by split.
    + destruct (Hreg m map0 key' keySinks0 s' Hm0 Hk0 Hin0) as (sub & Hs' & Hk' & Hn').
      exists sub. rewrite Hsub. cbn. rewrite lookup_insert_ne by congruence. done.
  - intros s' sub Hs'. cbn [sinks set_subscriptions]. rewrite Hsk. cbn.
    destruct (decide (s' = s)) as [->|Hne]; [by rewrite lookup_insert_eq|].
    rewrite lookup_insert_ne by done. rewrite Hsub in Hs'. cbn in Hs'.
    rewrite lookup_insert_ne in Hs' by done. by eapply Hsinks.
  - intros s' sub Hs'. rewrite Hsub in Hs'. cbn in Hs'.
    unfold yields_own_values. cbn [sinks set_subscriptions]. rewrite Hsk.
    cbn [sinks set_sinks st0].
    destruct (decide (s' = s)) as [->|Hne].
    + rewrite lookup_insert_eq in Hs'. injection Hs' as <-. cbn.
      rewrite lookup_insert_eq. cbn. split; [done|]. apply sublist_nil_l.
    + rewrite lookup_insert_ne in Hs' by done. rewrite lookup_insert_ne by done.
      by apply Hval.
Qed.

Lemma consistent_handle (events : list (@Event T)) (e : Event) (st : State) :
  consistent events st →
  ∃ st', handle st e = Some st' ∧ consistent (events ++ [e]) st'.
Proof.
  intros Hc. destruct e as [key s|s|s|s|n key v|n|n]; cbn.
  - destruct (consistent_subscribe_start events key s st Hc) as (st' & -> & Hc').
    exists st'. split; [done|]. by apply consistent_mono.
  - eexists. split; [done|]. by apply consistent_mono, consistent_subscribe_first.
  - eexists. split; [done|]. by apply consistent_mono, consistent_subscribe_next.
  - eexists. split; [done|]. by apply consistent_mono, consistent_subscribe_return.
  - eexists. split; [done|]. by apply consistent_loop_doc.
  - eexists. split; [done|]. by apply consistent_mono, consistent_loop_end.
  - eexists. split; [done|]. by apply consistent_mono, consistent_loop_error.
Qed.

Lemma consistent_initial : consistent [] (@initial T).
Proof.
  split; cbn; try done. apply inv_initial.
Qed.

Lemma consistent_handle_all (events : list (@Event T)) :
  ∃ st, handle_all initial events = Some st ∧ consistent events st.
Proof.
  induction events as [|e events IH] using rev_ind.
  - exists initial. split; [done|]. apply consistent_initial.
  - destruct IH as (st & Hrun & Hc).
    destruct (consistent_handle events e st Hc) as (st' & Hstep & Hc').
    exists st'. split; [|done].
    unfold Demultiplexer.handle_all in *. by rewrite foldl_app, Hrun.
Qed.

(** *** Delivery *)

Lemma elem_of_all_sinks (map : gmap string (gset nat)) (s : nat) :
  s ∈ all_sinks map ↔ ∃ key ks, map !! key = Some ks ∧ s ∈ ks.
Proof.
  unfold all_sinks.
  apply (map_fold_weak_ind
           (fun acc (m : gmap string (gset nat)) =>
              s ∈ acc ↔ ∃ key ks, m !! key = Some ks ∧ s ∈ ks)).
  - split; [by intros ?%not_elem_of_empty|].
    intros (k & ks & Hk & _). by rewrite lookup_empty in Hk.
  - intros k ks m acc Hnone IH. rewrite elem_of_union, IH. split.
    + intros [Hin|(k' & ks' & Hk' & Hin)].
      * exists k, ks. by rewrite lookup_insert_eq.
      * exists k', ks'. rewrite lookup_insert_ne by congruence. done.
    + intros (k' & ks' & Hk' & Hin). destruct (decide (k' = k)) as [->|Hne].
      * rewrite lookup_insert_eq in Hk'. injection Hk' as <-. by left.
      * rewrite lookup_insert_ne in Hk' by done. right. by exists k', ks'.
Qed.

Lemma is_closed_write (v : T) (x : @LastValueSink T) :
  is_closed (sink_write v x) = is_closed x.
Proof. unfold sink_write. by destruct (is_closed x) eqn:Hx. Qed.

Lemma subscribed_snoc (s : nat) (events : list (@Event T)) (e : Event) :
  subscribed s (events ++ [e])
  = subscribed s events
    || match e with Subscribe _ s' => bool_decide (s' = s) | _ => false end.
Proof. unfold subscribed. rewrite existsb_app. cbn. by rewrite orb_false_r. Qed.

Lemma since_subscribed_snoc (s : nat) (events : list (@Event T)) (e : Event) :
  since_subscribed s (events ++ [e])
  = if subscribed s events then since_subscribed s events ++ [e] else [].
Proof.
  induction events as [|e0 events IH]; cbn.
  - destruct e; try done. by destruct (bool_decide _).
  - destruct e0; cbn; try done. by destruct (bool_decide _).
Qed.

(** Where a registered sink is registered. *)
Lemma registered_source (events : list (@Event T)) (st : State) (s : nat)
    (sub : @Subscription T) (k : string) :
  consistent events st → subscriptions st !! s = Some sub → registered st k s →
  k = sub_key sub ∧ subscribers st = Some (sub_source sub)
  ∧ currentSource st = Some (sub_source sub)
  ∧ ∃ ks, listeners_of st (sub_source sub) !! sub_key sub = Some ks ∧ s ∈ ks.
Proof.
  intros [Hinv Hreg _ _] Hs (m & ks & Hm & Hk & Hin).
  destruct (listeners_of_Some st m k ks Hk) as (map & Hmap & Hk').
  destruct (Hreg m map k ks s Hmap Hk' Hin) as (sub' & Hs' & <- & <-).
  assert (sub' = sub) as -> by congruence.
  split; [done|]. split; [done|]. split; [|by exists ks].
  destruct Hinv as [_ Hsrc _ _ _]. by rewrite Hsrc.
Qed.

Lemma in_keySinks (events : list (@Event T)) (st : State) (s : nat)
    (sub : @Subscription T) (n : nat) (key : string) (ks : gset nat) :
  consistent events st → subscriptions st !! s = Some sub →
  listeners_of st n !! key = Some ks → s ∈ ks →
  sub_source sub = n ∧ sub_key sub = key.
Proof.
  intros [_ Hreg _ _] Hs Hk Hin.
  destruct (listeners_of_Some st n key ks Hk) as (map & Hmap & Hk').
  destruct (Hreg n map key ks s Hmap Hk' Hin) as (sub' & Hs' & <- & <-).
  by assert (sub' = sub) as -> by congruence.
Qed.

Lemma in_all_sinks (events : list (@Event T)) (st : State) (s : nat)
    (sub : @Subscription T) (n : nat) :
  consistent events st → subscriptions st !! s = Some sub →
  s ∈ all_sinks (listeners_of st n) → sub_source sub = n.
Proof.
  intros Hc Hs (key & ks & Hk & Hin)%elem_of_all_sinks.
  by destruct (in_keySinks events st s sub n key ks Hc Hs Hk Hin).
Qed.

(** The sink of a registered subscription after a value of source [n] under
    [key]: written when the value is for it, untouched otherwise. *)
Lemma loop_doc_sink (events : list (@Event T)) (st : State) (s : nat)
    (sub : @Subscription T) (n : nat) (key : string) (v : T) :
  consistent events st → subscriptions st !! s = Some sub →
  registered st (sub_key sub) s →
  sinks (loop_doc n key v st) !! s
  = if bool_decide (n = sub_source sub ∧ key = sub_key sub)
    then sink_write v <$> sinks st !! s
    else sinks st !! s.
Proof.
  intros Hc Hs Hr.
  destruct (registered_source events st s sub _ Hc Hs Hr) as (_ & Hsub & _ & ks & Hks & Hin).
  pose proof (c_inv _ _ _ Hc) as [_ _ Hcur _ _].
  destruct (Hcur _ Hsub) as ([Hrun Hab] & Hne & _).
  unfold loop_doc. destruct (decide (n = sub_source sub)) as [->|Hn].
  - rewrite bool_decide_true by done. rewrite Hab. cbn [default orb].
    rewrite bool_decide_false by (by intros ?%map_size_empty_iff).
    destruct (decide (key = sub_key sub)) as [->|Hk].
    + rewrite Hks, bool_decide_true by done. cbn.
      by rewrite lookup_for_sinks, bool_decide_true.
    + rewrite (bool_decide_false (_ ∧ _)) by (by intros [_ ?]).
      destruct (listeners_of st (sub_source sub) !! key) as [ks'|] eqn:Hks'; [|done].
      cbn. rewrite lookup_for_sinks. rewrite bool_decide_false.
      * by destruct (sinks st !! s).
      * intros Hin'. by destruct (in_keySinks events st s sub _ key ks' Hc Hs Hks' Hin').
  - rewrite (bool_decide_false (_ ∧ _)) by (by intros [? _]).
    destruct (bool_decide (n ∈ running st)); [|done].
    destruct (_ || _).
    + cbn. rewrite lookup_for_sinks. rewrite bool_decide_false.
      * by destruct (sinks st !! s).
      * intros Hin'. by apply (in_all_sinks events st s sub n Hc Hs) in Hin'.
    + destruct (listeners_of st n !! key) as [ks'|] eqn:Hks'; [|done].
      cbn. rewrite lookup_for_sinks. rewrite bool_decide_false.
      * by destruct (sinks st !! s).
      * intros Hin'. by destruct (in_keySinks events st s sub n key ks' Hc Hs Hks' Hin').
Qed.

(** The sinks after the end or the failure of source [n]. *)
Lemma loop_stop_sink (n : nat) (st st' : State) (s : nat) :
  st' = loop_end n st ∨ st' = loop_error n st ∨ st' = loop_catch n st →
  subscriptions st' = subscriptions st
  ∧ (sinks st' !! s = sinks st !! s
     ∨ sinks st' !! s = sink_close <$> sinks st !! s
       ∧ s ∈ all_sinks (listeners_of st n)).
Proof.
  assert (Hcatch : subscriptions (loop_catch n st) = subscriptions st
            ∧ (sinks (loop_catch n st) !! s = sinks st !! s
               ∨ sinks (loop_catch n st) !! s = sink_close <$> sinks st !! s
                 ∧ s ∈ all_sinks (listeners_of st n))).
  { split; [done|]. cbn. rewrite lookup_for_sinks. case_bool_decide; [by right|left].
    by destruct (sinks st !! s). }
  intros [->|[->| ->]]; [| |done].
  - unfold loop_end. destruct (bool_decide (n ∈ running st)); [|by split; [|left]].
    split; [done|]. cbn. rewrite lookup_for_sinks. case_bool_decide; [by right|left].
    by destruct (sinks st !! s).
  - unfold loop_error. destruct (bool_decide (n ∈ running st)); [done|by split; [|left]].
Qed.

Lemma last_value_wins_mono (events : list (@Event T)) (e : Event) (st : State) (s : nat)
    (sub : @Subscription T) :
  subscribed s events = true →
  (∀ n key v, e ≠ UpstreamValue n key v) →
  last_value_wins events st s sub → last_value_wins (events ++ [e]) st s sub.
Proof.
  intros Hsub He. unfold last_value_wins.
  rewrite since_subscribed_snoc, Hsub, upstream_values_snoc. intros ->.
  destruct e; rewrite ?app_nil_r; try done. by destruct (He n key value).
Qed.

(** An event that is no value of a source and creates no sink. *)
Lemma delivering_mono (events : list (@Event T)) (e : Event) (st : State) :
  (∀ n key v, e ≠ UpstreamValue n key v) →
  (∀ key s, e = Subscribe key s → is_Some (sinks st !! s)) →
  delivering events st → delivering (events ++ [e]) st.
Proof.
  intros He Hold [Hc Hsubd Hreg Hlast]. split.
  - by apply consistent_mono.
  - intros s. rewrite subscribed_snoc, Hsubd. split.
    + intros ->. done.
    + intros [?|Hs]%orb_true_iff; [done|]. destruct e; try done.
      apply bool_decide_eq_true in Hs as ->. apply Hsubd. by eapply Hold.
  - done.
  - intros s sub Hs Hl. apply last_value_wins_mono; [|done|by apply Hlast].
    apply Hsubd. by eapply (c_sinks _ _ _ Hc).
Qed.

(** A step that leaves to each listening subscription its registration and
    what it has received or has waiting. *)
Lemma delivering_frame (events : list (@Event T)) (st st' : State) :
  delivering events st → consistent events st' →
  (∀ s, is_Some (sinks st' !! s) ↔ is_Some (sinks st !! s)) →
  (∀ s sub', subscriptions st' !! s = Some sub' → listening st' s sub' →
     ∃ sub, subscriptions st !! s = Some sub ∧ listening st s sub
       ∧ sub_key sub' = sub_key sub ∧ sub_source sub' = sub_source sub
       ∧ (registered st (sub_key sub) s → registered st' (sub_key sub) s)
       ∧ tail (yielded sub') ++ buffered (sinks st' !! s)
         = tail (yielded sub) ++ buffered (sinks st !! s)) →
  delivering events st'.
Proof.
  intros [Hc Hsubd Hreg Hlast] Hc' Hsinks Hstep. split; [done| | |].
  - intros s. by rewrite Hsinks.
  - intros s sub' Hs' Hl'.
    destruct (Hstep s sub' Hs' Hl') as (sub & Hs & Hl & Hk & _ & Hr & _).
    rewrite Hk. by apply Hr, Hreg.
  - intros s sub' Hs' Hl'.
    destruct (Hstep s sub' Hs' Hl') as (sub & Hs & Hl & Hk & Hn & _ & Hv).
    unfold last_value_wins. rewrite Hv, Hk, Hn. by apply Hlast.
Qed.

Lemma delivering_subscribe_first (events : list (@Event T)) (s : nat) (st : State) :
  delivering events st → delivering events (subscribe_first getFirstValue s st).
Proof.
  intros Hd. pose proof (d_consistent _ _ _ Hd) as Hc.
  apply (delivering_frame events st); [done|by apply consistent_subscribe_first| |].
  - intros s0. unfold subscribe_first.
    destruct (subscriptions st !! s); [|done]. by destruct (phase _).
  - intros s0 sub' Hs' Hl'. unfold subscribe_first in *.
    destruct (subscriptions st !! s) as [sub|] eqn:Hs; [|by exists sub'].
    destruct (phase sub) eqn:Hph; try (by exists sub').
    destruct (decide (s0 = s)) as [->|Hne].
    + cbn in Hs'. rewrite lookup_insert_eq in Hs'. injection Hs' as <-.
      exists sub. split; [done|]. split.
      { split; [by rewrite Hph|]. by destruct Hl' as [_ Hx]. }
      split; [done|]. split; [done|]. split; [done|].
      destruct (c_values _ _ _ Hc s sub Hs) as [Hp _]. rewrite Hph in Hp.
      cbn. by rewrite Hp.
    + cbn in Hs'. rewrite lookup_insert_ne in Hs' by done. by exists sub'.
Qed.

Lemma delivering_subscribe_finally (events : list (@Event T)) (s : nat)
    (sub : @Subscription T) (st : State) :
  delivering events st → subscriptions st !! s = Some sub →
  delivering events (subscribe_finally s sub st).
Proof.
  intros Hd Hs. pose proof (d_consistent _ _ _ Hd) as Hc.
  destruct (sinks_removeSink (sub_key sub) s st) as [Hsk Hsub].
  apply (delivering_frame events st); [done|by apply consistent_subscribe_finally| |].
  - intros s0. unfold subscribe_finally. cbn. by rewrite Hsk.
  - intros s0 sub' Hs' [Hph' Hx']. unfold subscribe_finally in *.
    cbn [subscriptions sinks set_subscriptions] in Hs', Hx'.
    rewrite ?Hsub in Hs'. rewrite Hsk in Hx'.
    destruct (decide (s0 = s)) as [->|Hne].
    + rewrite lookup_insert_eq in Hs'. injection Hs' as <-. by cbn in Hph'.
    + rewrite lookup_insert_ne in Hs' by done. exists sub'.
      split; [done|]. split; [done|]. split; [done|]. split; [done|]. split.
      * intros Hr. apply (registered_ext (removeSink (sub_key sub) s st)); [done|done|].
        apply removeSink_registered. split; [done|]. by intros [_ ?].
      * cbn. by rewrite Hsk.
Qed.

Lemma delivering_subscribe_return (events : list (@Event T)) (s : nat) (st : State) :
  delivering events st → delivering events (subscribe_return s st).
Proof.
  intros Hd. unfold subscribe_return.
  destruct (subscriptions st !! s) as [sub|] eqn:Hs; [|done].
  destruct (phase sub); try done; by apply delivering_subscribe_finally.
Qed.

Lemma delivering_subscribe_next (events : list (@Event T)) (s : nat) (st : State) :
  delivering events st → delivering events (subscribe_next s st).
Proof.
  intros Hd. pose proof (d_consistent _ _ _ Hd) as Hc.
  pose proof (consistent_subscribe_next events s st Hc) as Hc'.
  unfold subscribe_next in *.
  destruct (subscriptions st !! s) as [sub|] eqn:Hs; [|done].
  destruct (phase sub) eqn:Hph; try done.
  destruct (sinks st !! s) as [x|] eqn:Hx; [|done].
  destruct (buffer x) as [[v|]|] eqn:Hb; [| by apply delivering_subscribe_finally |done].
  assert (Hbuf : buffered (Some x) = [v]) by (destruct x; cbn in *; by subst).
  assert (Hopen : is_closed x = false) by (unfold is_closed; by rewrite Hb).
  apply (delivering_frame events st); [done|done| |].
  - intros s0. cbn. destruct (decide (s0 = s)) as [->|Hne].
    + rewrite lookup_insert_eq, Hx. split; by eexists.
    + by rewrite lookup_insert_ne.
  - intros s0 sub' Hs' [Hph' Hx']. cbn in Hs', Hx'.
    destruct (decide (s0 = s)) as [->|Hne].
    + rewrite lookup_insert_eq in Hs'. injection Hs' as <-.
      exists sub. split; [done|]. split.
      { split; [by rewrite Hph|]. by exists x. }
      split; [done|]. split; [done|]. split; [done|].
      destruct (c_values _ _ _ Hc s sub Hs) as [Hp _]. rewrite Hph in Hp.
      destruct Hp as [vs Hvs]. cbn. rewrite lookup_insert_eq, Hx, Hbuf, Hvs. cbn.
      by rewrite app_nil_r.
    + rewrite lookup_insert_ne in Hs' by done. rewrite lookup_insert_ne in Hx' by done.
      exists sub'. split; [done|]. split; [done|]. split; [done|]. split; [done|].
      split; [done|]. cbn. by rewrite lookup_insert_ne.
Qed.

Lemma delivering_loop_stop (events : list (@Event T)) (n : nat) (st st' : State) :
  st' = loop_end n st ∨ st' = loop_error n st →
  delivering events st → delivering events st'.
Proof.
  intros Hst' Hd. pose proof (d_consistent _ _ _ Hd) as Hc.
  pose proof (c_inv _ _ _ Hc) as Hinv.
  assert (Hc' : consistent events st').
  { destruct Hst' as [->| ->]; [by apply consistent_loop_end|by apply consistent_loop_error]. }
  assert (Hst'' : st' = loop_end n st ∨ st' = loop_error n st ∨ st' = loop_catch n st)
    by (destruct Hst'; auto).
  apply (delivering_frame events st); [done|done| |].
  - intros s0. destruct (loop_stop_sink n st st' s0 Hst'') as [_ [->|[-> _]]]; [done|].
    by rewrite fmap_is_Some.
  - intros s0 sub' Hs' [Hph' (x' & Hx' & Hopen')].
    destruct (loop_stop_sink n st st' s0 Hst'') as [Hsub [Hsk|[Hsk _]]].
    2:{ rewrite Hsk in Hx'. destruct (sinks st !! s0); [|done].
        injection Hx' as <-. done. }
    rewrite Hsub in Hs'. rewrite Hsk in Hx'. exists sub'.
    split; [done|]. split; [by split; [|exists x']|]. split; [done|]. split; [done|].
    split; [|by rewrite Hsk].
    intros Hr.
    destruct (registered_source events st s0 sub' _ Hc Hs' Hr) as (_ & Hsubs & Hcur & ks & Hks & Hin).
    destruct (loop_stop_fields n st st' Hinv Hst') as (_ & Hclear & Hkeep).
    destruct (decide (sub_source sub' = n)) as [Hn|Hn].
    + exfalso. subst n.
      assert (Hall : s0 ∈ all_sinks (listeners_of st (sub_source sub')))
        by (apply elem_of_all_sinks; by exists (sub_key sub'), ks).
      assert (Hrun : sub_source sub' ∈ running st).
      { destruct Hinv as [_ _ Hcurinv _ _]. by destruct (Hcurinv _ Hsubs) as ([? _] & _). }
      assert (Hclosed : sinks st' !! s0 = sink_close <$> sinks st !! s0).
      { destruct Hst' as [->| ->]; unfold loop_end, loop_error, loop_catch;
          rewrite bool_decide_true by done; cbn;
          rewrite lookup_for_sinks, bool_decide_true by done; done. }
      rewrite Hsk, Hx' in Hclosed. injection Hclosed as Hclosed.
      rewrite Hclosed in Hopen'. done.
    + destruct Hkeep as (_ & Hs1 & Hl1); [congruence|].
      by apply (registered_ext st).
Qed.

Lemma delivering_loop_doc (events : list (@Event T)) (n : nat) (key : string) (v : T)
    (st : State) :
  delivering events st →
  delivering (events ++ [UpstreamValue n key v]) (loop_doc n key v st).
Proof.
  intros [Hc Hsubd Hreg Hlast]. pose proof (c_inv _ _ _ Hc) as Hinv.
  destruct (loop_doc_frame n key v st Hinv) as (Hsubs' & _ & Hl' & _).
  assert (Hsubscr : subscriptions (loop_doc n key v st) = subscriptions st).
  { unfold loop_doc. destruct (bool_decide _); [|done]. destruct (_ || _); [done|].
    by destruct (listeners_of st n !! key). }
  assert (Hsink : ∀ s, sinks (loop_doc n key v st) !! s = sinks st !! s
                       ∨ sinks (loop_doc n key v st) !! s = sink_close <$> sinks st !! s
                       ∨ sinks (loop_doc n key v st) !! s = sink_write v <$> sinks st !! s).
  { intros s. unfold loop_doc. destruct (bool_decide _); [|by left].
    destruct (_ || _).
    - cbn. rewrite lookup_for_sinks. case_bool_decide; [by right; left|left].
      by destruct (sinks st !! s).
    - destruct (listeners_of st n !! key); [|by left].
      cbn. rewrite lookup_for_sinks. case_bool_decide; [by right; right|left].
      by destruct (sinks st !! s). }
  assert (Hlisten : ∀ s sub, listening (loop_doc n key v st) s sub → listening st s sub).
  { intros s sub [Hph (x' & Hx' & Hopen')]. split; [done|].
    destruct (Hsink s) as [Hk|[Hk|Hk]]; rewrite Hk in Hx'.
    - by exists x'.
    - destruct (sinks st !! s); [|done]. injection Hx' as <-. done.
    - destruct (sinks st !! s) as [x|]; [|done]. injection Hx' as <-.
      exists x. split; [done|]. by rewrite is_closed_write in Hopen'. }
  split.
  - by apply consistent_loop_doc.
  - intros s. rewrite subscribed_snoc, orb_false_r, <- Hsubd.
    destruct (Hsink s) as [->|[->| ->]]; by rewrite ?fmap_is_Some.
  - intros s sub Hs Hl. rewrite Hsubscr in Hs. apply Hlisten in Hl.
    apply (registered_ext st); [done|done|]. by apply Hreg.
  - intros s sub Hs Hl. rewrite Hsubscr in Hs. apply Hlisten in Hl.
    pose proof (Hlast s sub Hs Hl) as Hlv. pose proof (Hreg s sub Hs Hl) as Hr.
    destruct Hl as [_ (x & Hx & Hopen)].
    assert (Hsubd' : subscribed s events = true) by (apply Hsubd; by rewrite Hx).
    unfold last_value_wins in *.
    rewrite (loop_doc_sink events st s sub n key v Hc Hs Hr).
    rewrite since_subscribed_snoc, Hsubd', upstream_values_snoc.
    case_bool_decide as Hmine.
    + rewrite Hx. cbn [fmap option_fmap option_map]. rewrite buffered_write, Hopen.
      by rewrite !last_snoc.
    + by rewrite app_nil_r.
Qed.

Lemma delivering_subscribe_start (events : list (@Event T)) (key : string) (s : nat)
    (st : State) :
  delivering events st →
  ∃ st', subscribe_start key s st = Some st'
         ∧ delivering (events ++ [Subscribe key s]) st'.
Proof.
  intros Hd. pose proof (d_consistent _ _ _ Hd) as Hc.
  destruct (consistent_subscribe_start events key s st Hc) as (st' & Hstart & Hc').
  exists st'. split; [done|].
  unfold subscribe_start in Hstart.
  destruct (sinks st !! s) as [x|] eqn:Hx.
  { injection Hstart as <-. apply delivering_mono; [done| |done].
    intros k s' [= _ <-]. by rewrite Hx. }
  destruct Hd as [_ Hsubd Hreg Hlast].
  set (st0 := set_sinks (<[s := {| buffer := None |}]> (sinks st)) st) in *.
  assert (Hinv0 : inv st0) by (by eapply inv_ext; [..|exact (c_inv _ _ _ Hc)]).
  destruct (addSink key s st0) as [[st1 src]|] eqn:Hadd; [|done].
  injection Hstart as <-.
  destruct (addSink_registered key s st0 st1 src Hinv0 Hadd) as (Hsk & Hsub & _).
  pose proof (addSink_registered_iff key s st0 st1 src Hinv0 Hadd) as Hreg1.
  assert (Hfresh : subscribed s events = false).
  { destruct (subscribed s events) eqn:Hse; [|done].
    apply Hsubd in Hse as [y Hy]. congruence. }
  split.
  - by apply consistent_mono.
  - intros s'. rewrite subscribed_snoc. cbn [sinks set_subscriptions]. rewrite Hsk. cbn.
    destruct (decide (s' = s)) as [->|Hne].
    + rewrite lookup_insert_eq, bool_decide_true, orb_true_r by done. split; by eauto.
    + rewrite lookup_insert_ne, bool_decide_false, orb_false_r by done. apply Hsubd.
  - intros s' sub' Hs' [Hph' (x' & Hx' & Hopen')]. cbn in Hs', Hx'.
    rewrite Hsk in Hx'. cbn in Hx'.
    apply (registered_ext st1); [done|done|]. apply Hreg1.
    destruct (decide (s' = s)) as [->|Hne].
    + rewrite lookup_insert_eq in Hs'. injection Hs' as <-. by right.
    + rewrite lookup_insert_ne in Hs' by done. rewrite lookup_insert_ne in Hx' by done.
      rewrite Hsub in Hs'. left. apply (registered_ext st); [done|done|].
      apply Hreg; [done|]. split; [done|]. by exists x'.
  - intros s' sub' Hs' [Hph' (x' & Hx' & Hopen')]. cbn in Hs', Hx'.
    rewrite Hsk in Hx'. cbn in Hx'. unfold last_value_wins.
    cbn [sinks set_subscriptions]. rewrite Hsk. cbn [sinks set_sinks st0].
    rewrite since_subscribed_snoc.
    destruct (decide (s' = s)) as [->|Hne].
    + rewrite lookup_insert_eq in Hs'. injection Hs' as <-.
      rewrite lookup_insert_eq, Hfresh. done.
    + rewrite lookup_insert_ne in Hs' by done. rewrite lookup_insert_ne in Hx' by done.
      rewrite lookup_insert_ne by done. rewrite Hsub in Hs'.
      assert (Hsubd' : subscribed s' events = true) by (apply Hsubd; by rewrite Hx').
      rewrite Hsubd', upstream_values_snoc, app_nil_r.
      apply Hlast; [done|]. split; [done|]. by exists x'.
Qed.

Lemma delivering_handle (events : list (@Event T)) (e : Event) (st : State) :
  delivering events st →
  ∃ st', handle st e = Some st' ∧ delivering (events ++ [e]) st'.
Proof.
  intros Hd. destruct e as [key s|s|s|s|n key v|n|n]; cbn.
  - by apply delivering_subscribe_start.
  - eexists. split; [done|]. by apply delivering_mono, delivering_subscribe_first.
  - eexists. split; [done|]. by apply delivering_mono, delivering_subscribe_next.
  - eexists. split; [done|]. by apply delivering_mono, delivering_subscribe_return.
  - eexists. split; [done|]. by apply delivering_loop_doc.
  - eexists. split; [done|].
    apply delivering_mono; [done|done|]. apply (delivering_loop_stop events n st); [by left|done].
  - eexists. split; [done|].
    apply delivering_mono; [done|done|]. apply (delivering_loop_stop events n st); [by right|done].
Qed.

Lemma delivering_initial : delivering [] (@initial T).
Proof.
  split; [apply consistent_initial| | |]; cbn.
  - intros s. rewrite lookup_empty. split; [by intros [? ?]|done].
  - intros s sub Hs. by rewrite lookup_empty in Hs.
  - intros s sub Hs. by rewrite lookup_empty in Hs.
Qed.

Lemma delivering_handle_all (events : list (@Event T)) :
  ∃ st, handle_all initial events = Some st ∧ delivering events st.
Proof.
  induction events as [|e events IH] using rev_ind.
  - exists initial. split; [done|]. apply delivering_initial.
  - destruct IH as (st & Hrun & Hd).
    destruct (delivering_handle events e st Hd) as (st' & Hstep & Hd').
    exists st'. split; [|done].
    unfold Demultiplexer.handle_all in *. by rewrite foldl_app, Hrun.
Qed.


End Facts.

(** Last value wins, per key: "u1" receives its initial value and then 11,
    the value 10 having been overwritten; "u2" receives its initial value and
    20. *)
Example two_subscribers_yield :
  ∃ st, handle_all first_value initial two_subscribers = Some st
    ∧ yielded <$> subscriptions st !! 0%nat = Some [0; 11]
    ∧ yielded <$> subscriptions st !! 1%nat = Some [0; 20].
Proof. eexists. split; [vm_compute; reflexivity|]. split; vm_compute; reflexivity. Qed.

(** Before "u1" asks for its next value, 11 waits in its sink and 20 in the
    sink of "u2"; both subscribers are listening. *)
Example two_subscribers_waiting :
  ∃ st sub0 sub1,
    handle_all first_value initial two_subscribers_published = Some st
    ∧ subscriptions st !! 0%nat = Some sub0 ∧ subscriptions st !! 1%nat = Some sub1
    ∧ listening st 0%nat sub0 ∧ listening st 1%nat sub1
    ∧ yielded sub0 = [0] ∧ buffered (sinks st !! 0%nat) = [11]
    ∧ yielded sub1 = [0] ∧ buffered (sinks st !! 1%nat) = [20]
    ∧ upstream_values 0%nat "u1" (since_subscribed 0%nat two_subscribers_published)
      = [10; 11].
Proof.
  eexists _, _, _. split; [vm_compute; reflexivity|].
  split; [vm_compute; reflexivity|]. split; [vm_compute; reflexivity|].
  split; [split; [done|eexists; split; [vm_compute; reflexivity|done]]|].
  split; [split; [done|eexists; split; [vm_compute; reflexivity|done]]|].
  repeat split; vm_compute; reflexivity.
Qed.

End DemultiplexerKeys.

(** ** Demultiplexer: a source that was left behind *)

Module DemultiplexerStale.
Import Demultiplexer DemultiplexerUpstream.

Section Facts.
Context {T : Type}.

Local Abbreviation State := (@State T).

Lemma listeners_of_insert_ne (st : State) (m n : nat) (map : gmap string (gset nat)) :
  n ≠ m → default ∅ (<[m := map]> (listeners st) !! n) = listeners_of st n.
Proof. intros Hne. by rewrite lookup_insert_ne. Qed.

Lemma stale_initial : stale_empty (@initial T).
Proof. intros n Hn. cbn in Hn. by apply not_elem_of_empty in Hn. Qed.

Lemma stale_addSink (key : string) (sink : nat) (st st' : State) (src : nat) :
  inv st → stale_empty st → addSink key sink st = Some (st', src) → stale_empty st'.
Proof.
  intros [Hc Hs Hcur Hact Hfresh] Hstale. unfold addSink.
  destruct (currentSource st) as [cur|] eqn:Hsrc.
  - rewrite <- Hs. intros [= <- <-]. intros n Hrun Hne. cbn in *.
    unfold listeners_of. cbn.
    rewrite lookup_insert_ne by congruence. apply Hstale; [done|congruence].
  - intros [= <- <-]. intros n Hrun Hne. cbn in *.
    assert (n ≠ next_source st) as Hn by congruence.
    apply elem_of_union in Hrun as [Hrun|Hrun]; [by apply elem_of_singleton in Hrun|].
    unfold listeners_of. cbn. rewrite lookup_insert_ne by done.
    apply Hstale; [done|]. by rewrite <- Hs.
Qed.

Lemma stale_removeSink (key : string) (sink : nat) (st : State) :
  stale_empty st → stale_empty (removeSink key sink st).
Proof.
  intros Hstale. unfold removeSink.
  destruct (subscribers st) as [m|] eqn:Hm; [|done].
  destruct (listeners_of st m !! key) as [existing|] eqn:Hex; [|done].
  destruct (bool_decide (size _ = 0%nat)) eqn:Hsize.
  - apply bool_decide_eq_true, map_size_empty_iff in Hsize.
    intros n Hrun _. cbn in *. unfold listeners_of. cbn.
    destruct (decide (n = m)) as [->|Hnm].
    + by rewrite lookup_insert_eq.
    + rewrite lookup_insert_ne by done. apply Hstale; [done|congruence].
  - intros n Hrun Hne. cbn in *. unfold listeners_of. cbn.
    rewrite lookup_insert_ne by congruence. apply Hstale; [done|congruence].
Qed.

Lemma stale_loop_finally (n : nat) (st st0 : State) :
  stale_empty st0 →
  subscribers st = subscribers st0 → listeners st = listeners st0 →
  running st = running st0 →
  stale_empty (loop_finally n st).
Proof.
  intros Hstale Hsub Hl Hr m Hrun Hne. cbn in *.
  apply elem_of_difference in Hrun as [Hrun Hmn]. rewrite Hr in Hrun.
  assert (m ≠ n) as Hmn' by (intros ->; apply Hmn; by apply elem_of_singleton).
  unfold listeners_of. cbn. rewrite Hl. apply Hstale; [done|].
  rewrite <- Hsub. destruct (bool_decide (subscribers st = Some n)) eqn:Hsame; [|done].
  apply bool_decide_eq_true in Hsame. congruence.
Qed.

Lemma stale_step (st st' : State) (op : Op) :
  inv st → stale_empty st → step st op = Some st' → stale_empty st'.
Proof.
  intros Hinv Hstale. destruct op as [key sink|key sink|n key value|n|n]; cbn.
  - destruct (addSink key sink st) as [[st1 src]|] eqn:E; [|done]. intros [= <-].
    by eapply stale_addSink.
  - intros [= <-]. by apply stale_removeSink.
  - intros [= <-]. unfold loop_doc.
    destruct (bool_decide (n ∈ running st)); [|done].
    destruct (_ || _); [by eapply (stale_loop_finally n _ st)|].
    by destruct (listeners_of st n !! key).
  - intros [= <-]. unfold loop_end.
    destruct (bool_decide (n ∈ running st)); [|done].
    by eapply (stale_loop_finally n _ st).
  - intros [= <-]. unfold loop_error.
    destruct (bool_decide (n ∈ running st)); [|done].
    by eapply (stale_loop_finally n _ st).
Qed.

Lemma stale_run (ops : list Op) (st st' : State) :
  inv st → stale_empty st → run st ops = Some st' → inv st' ∧ stale_empty st'.
Proof.
  revert st. induction ops as [|op ops IH]; intros st Hinv Hstale; cbn.
  - by intros [= <-].
  - destruct (inv_step st op Hinv) as (st1 & Hstep & Hinv1). rewrite Hstep.
    apply IH; [done|]. by apply (stale_step st st1 op).
Qed.

Lemma all_sinks_empty : all_sinks (∅ : gmap string (gset nat)) = ∅.
Proof. unfold all_sinks. by rewrite map_fold_empty. Qed.

Lemma for_sinks_none (f : @LastValueSink T → LastValueSink) (all : gmap nat LastValueSink) :
  for_sinks f ∅ all = all.
Proof.
  apply map_eq. intros i. unfold for_sinks. rewrite map_lookup_imap.
  destruct (all !! i) as [s|]; cbn; [|done].
  rewrite bool_decide_eq_false_2; [done|]. apply not_elem_of_empty.
Qed.


End Facts.


End DemultiplexerStale.

(** ** updateBucketPosition changes one bucket *)

Module BucketPosition.
Import BucketChecksumState.

(** C9.  The frame of [updateBucketPosition({bucket, nextAfter, hasMore})]:
    - the position of the named bucket, when it is tracked, is set to
      [nextAfter], its description kept; no bucket starts or stops being
      tracked, and every other position is unchanged;
    - the named bucket leaves [pendingBucketDownloads] exactly when [hasMore]
      is false; the membership of every other bucket is unchanged;
    - [lastChecksums], [lastWriteCheckpoint] and the parameter state are
      unchanged;
    - for an untracked bucket with [hasMore = true] nothing changes. *)
Theorem updateBucketPosition_frame (bucket : string) (nextAfter : Z) (hasMore : bool)
    (this : State) :
  let this' := updateBucketPosition bucket nextAfter hasMore this in
  bucketDataPositions this' !! bucket
  = (fun state => {| description := description state; start_op_id := nextAfter |})
      <$> bucketDataPositions this !! bucket
  ∧ (∀ other, other ≠ bucket →
       bucketDataPositions this' !! other = bucketDataPositions this !! other)
  ∧ (bucket ∈ pendingBucketDownloads this'
     ↔ bucket ∈ pendingBucketDownloads this ∧ hasMore = true)
  ∧ (∀ other, other ≠ bucket →
       other ∈ pendingBucketDownloads this' ↔ other ∈ pendingBucketDownloads this)
  ∧ lastChecksums this' = lastChecksums this
  ∧ lastWriteCheckpoint this' = lastWriteCheckpoint this
  ∧ parameterState this' = parameterState this
  ∧ (bucketDataPositions this !! bucket = None → hasMore = true → this' = this).
Proof.
  cbv zeta. unfold updateBucketPosition. cbn.
  split; [|split; [|split; [|split; [|split; [|split; [|split]]]]]]; try done.
  - destruct (bucketDataPositions this !! bucket) as [state|] eqn:Hb; cbn.
    + by rewrite lookup_insert_eq.
    + by rewrite Hb.
  - intros other Hne.
    destruct (bucketDataPositions this !! bucket); [|done].
    by rewrite lookup_insert_ne.
  - destruct hasMore; cbn.
    + tauto.
    + rewrite elem_of_difference, elem_of_singleton. split; [tauto|]. by intros [_ ?].
  - intros other Hne. destruct hasMore; cbn; [done|].
    rewrite elem_of_difference, elem_of_singleton. tauto.
  - intros Hnone ->. rewrite Hnone. cbn. by destruct this.
Qed.

End BucketPosition.

(** ** buildNextCheckpointLine: positions, lines and pending downloads *)

Module CheckpointLineFacts.
Import CheckpointLine.

Section Maps.
Context {V : Type}.

Lemma Map_get_set_eq (k : string) (v : V) (m : list (string * V)) :
  Map_get k (Map_set k v m) = Some v.
Proof.
  induction m as [|[k' v'] m IH]; cbn.
  - by rewrite bool_decide_eq_true_2.
  - case_bool_decide as Hk; cbn.
    + by rewrite bool_decide_eq_true_2.
    + by rewrite bool_decide_eq_false_2.
Qed.

Lemma Map_get_set_ne (k k' : string) (v : V) (m : list (string * V)) :
  k ≠ k' → Map_get k' (Map_set k v m) = Map_get k' m.
Proof.
  intros Hne. induction m as [|[k0 v0] m IH]; cbn.
  - by rewrite bool_decide_eq_false_2.
  - destruct (decide (k0 = k)) as [->|Hk].
    + rewrite (bool_decide_eq_true_2 (k = k)) by done. cbn.
      by rewrite !bool_decide_eq_false_2.
    + rewrite (bool_decide_eq_false_2 (k0 = k)) by done. cbn. by rewrite IH.
Qed.

Lemma Map_get_Some_keys (k : string) (m : list (string * V)) :
  is_Some (Map_get k m) ↔ k ∈ map fst m.
Proof.
  induction m as [|[k0 v0] m IH]; cbn.
  - split; [by intros [? ?]|by intros ?%elem_of_nil].
  - rewrite elem_of_cons. case_bool_decide as Hk.
    + split; [by left|by eexists].
    + rewrite IH. split; [by right|]. by intros [?|?].
Qed.

Lemma Map_set_keys (k : string) (v : V) (m : list (string * V)) :
  map fst (Map_set k v m)
  = if bool_decide (k ∈ map fst m) then map fst m else map fst m ++ [k].
Proof.
  induction m as [|[k0 v0] m IH]; cbn.
  - rewrite bool_decide_eq_false_2; [done|]. by intros ?%elem_of_nil.
  - destruct (decide (k0 = k)) as [->|Hk].
    + rewrite (bool_decide_eq_true_2 (k = k)) by done. cbn.
      rewrite bool_decide_eq_true_2; [done|]. by left.
    + rewrite (bool_decide_eq_false_2 (k0 = k)) by done. cbn. rewrite IH.
      destruct (decide (k ∈ map fst m)) as [Hin|Hin].
      * rewrite !bool_decide_eq_true_2; [done|by right|done].
      * rewrite !bool_decide_eq_false_2; [done| |done].
        intros [?|?]%elem_of_cons; [congruence|done].
Qed.

Lemma Map_set_NoDup (k : string) (v : V) (m : list (string * V)) :
  NoDup (map fst m) → NoDup (map fst (Map_set k v m)).
Proof.
  intros Hnd. rewrite Map_set_keys. case_bool_decide as Hin; [done|].
  apply NoDup_app. split; [done|]. split; [|apply NoDup_singleton].
  intros x Hx Hx'%list_elem_of_singleton. by subst x.
Qed.

End Maps.

Lemma Set_add_elem (x y : string) (s : list string) :
  y ∈ Set_add x s ↔ y = x ∨ y ∈ s.
Proof.
  induction s as [|z s IH]; cbn.
  - rewrite list_elem_of_singleton, elem_of_nil. tauto.
  - case_bool_decide as Hz.
    + subst z. rewrite elem_of_cons. tauto.
    + rewrite !elem_of_cons, IH. tauto.
Qed.

Lemma Set_add_NoDup (x : string) (s : list string) : NoDup s → NoDup (Set_add x s).
Proof.
  induction s as [|z s IH]; cbn; intros Hnd.
  - apply NoDup_singleton.
  - case_bool_decide as Hz; [done|].
    apply NoDup_cons in Hnd as [Hz' Hnd]. apply NoDup_cons. split; [|by apply IH].
    rewrite Set_add_elem. intros [?|?]; [congruence|done].
Qed.

Lemma Set_add_fresh (x : string) (s : list string) : x ∉ s → Set_add x s = s ++ [x].
Proof.
  induction s as [|z s IH]; cbn; intros Hx; [done|].
  apply not_elem_of_cons in Hx as [Hne Hx].
  rewrite bool_decide_eq_false_2 by congruence. by rewrite IH.
Qed.

Lemma foldl_Set_add_spec {A} (f : A → string) (l : list A) (s : list string) :
  NoDup s →
  NoDup (foldl (fun s e => Set_add (f e) s) s l)
  ∧ ∀ y, y ∈ foldl (fun s e => Set_add (f e) s) s l ↔ y ∈ s ∨ y ∈ map f l.
Proof.
  revert s. induction l as [|e l IH]; intros s Hnd; cbn.
  - split; [done|]. intros y. rewrite elem_of_nil. tauto.
  - destruct (IH (Set_add (f e) s) (Set_add_NoDup _ _ Hnd)) as [Hnd' Hin].
    split; [done|]. intros y. rewrite Hin, Set_add_elem, elem_of_cons. tauto.
Qed.

Lemma Set_of_spec (items : list string) :
  NoDup (Set_of items) ∧ ∀ y, y ∈ Set_of items ↔ y ∈ items.
Proof.
  unfold Set_of.
  destruct (foldl_Set_add_spec (fun x : string => x) items [] (NoDup_nil_2)) as [Hnd Hin].
  split; [done|]. intros y. rewrite Hin, map_id, elem_of_nil. tauto.
Qed.

Lemma Set_of_NoDup (items : list string) : NoDup items → Set_of items = items.
Proof.
  unfold Set_of. intros Hnd.
  enough (∀ s, (∀ x, x ∈ s → x ∉ items) →
               foldl (fun s x => Set_add x s) s items = s ++ items) as H.
  { apply (H []). by intros x ?%elem_of_nil. }
  induction Hnd as [|x items Hx Hnd IH]; intros s Hs; cbn.
  - by rewrite app_nil_r.
  - rewrite Set_add_fresh.
    + rewrite IH; [by rewrite <- app_assoc|].
      intros y [Hy|Hy%list_elem_of_singleton]%elem_of_app; [|by subst y].
      specialize (Hs y Hy). by apply not_elem_of_cons in Hs as [_ ?].
    + intros Hin. apply (Hs x Hin). by left.
Qed.

(** *** The new positions *)

Lemma described_last_snoc (l : list BucketDescription) (d : BucketDescription)
    (b : string) :
  described_last (l ++ [d]) b
  = if bool_decide (sync.bucket d = b) then Some d else described_last l b.
Proof.
  unfold described_last. rewrite filter_app. cbn.
  unfold filter at 2. cbn. destruct (decide (sync.bucket d = b)) as [E|E].
  - rewrite bool_decide_eq_true_2 by done. apply last_snoc.
  - rewrite bool_decide_eq_false_2 by done. by rewrite app_nil_r.
Qed.

Lemma new_positions_snoc (l : list BucketDescription) (d : BucketDescription)
    (positions : list (string * BucketSyncState)) :
  new_positions (l ++ [d]) positions
  = Map_set (sync.bucket d)
      {| BucketChecksumState.description := Some d;
         BucketChecksumState.start_op_id :=
           default 0 (BucketChecksumState.start_op_id
                        <$> Map_get (sync.bucket d) positions) |}
      (new_positions l positions).
Proof. unfold new_positions. by rewrite foldl_app. Qed.

Lemma new_positions_lookup (l : list BucketDescription)
    (positions : list (string * BucketSyncState)) (b : string) :
  Map_get b (new_positions l positions)
  = (fun d => {| BucketChecksumState.description := Some d;
                 BucketChecksumState.start_op_id :=
                   default 0 (BucketChecksumState.start_op_id <$> Map_get b positions) |})
      <$> described_last l b.
Proof.
  induction l as [|d l IH] using rev_ind; [done|].
  rewrite new_positions_snoc, described_last_snoc. case_bool_decide as E.
  - subst b. by rewrite Map_get_set_eq.
  - by rewrite Map_get_set_ne.
Qed.

Lemma new_positions_NoDup (l : list BucketDescription)
    (positions : list (string * BucketSyncState)) :
  NoDup (map fst (new_positions l positions)).
Proof.
  induction l as [|d l IH] using rev_ind; [apply NoDup_nil_2|].
  rewrite new_positions_snoc. by apply Map_set_NoDup.
Qed.

Lemma described_last_Some (l : list BucketDescription) (b : string) :
  is_Some (described_last l b) ↔ b ∈ map sync.bucket l.
Proof.
  induction l as [|d l IH] using rev_ind.
  - split; [by intros [? ?]|by intros ?%elem_of_nil].
  - rewrite described_last_snoc, map_app, elem_of_app. cbn.
    rewrite list_elem_of_singleton. case_bool_decide as E.
    + split; [by right|by eexists].
    + rewrite IH. split; [by left|]. intros [?|?]; [done|congruence].
Qed.

Lemma described_last_bucket (l : list BucketDescription) (b : string)
    (d : BucketDescription) :
  described_last l b = Some d → sync.bucket d = b ∧ d ∈ l.
Proof.
  unfold described_last. intros H.
  assert (d ∈ filter (fun d => sync.bucket d = b) l) as Hin.
  { destruct (filter _ l) as [|x xs] using rev_ind; [done|].
    rewrite last_snoc in H. injection H as ->. apply elem_of_app. right. by left. }
  by apply list_elem_of_filter in Hin.
Qed.

Lemma Set_add_present (x : string) (s : list string) : x ∈ s → Set_add x s = s.
Proof.
  induction s as [|z s IH]; cbn; intros Hx; [by apply elem_of_nil in Hx|].
  destruct (decide (z = x)) as [->|Hne].
  - by rewrite bool_decide_eq_true_2.
  - rewrite bool_decide_eq_false_2 by done. f_equal. apply IH.
    apply elem_of_cons in Hx as [?|?]; [congruence|done].
Qed.

Lemma Set_of_snoc (items : list string) (x : string) :
  Set_of (items ++ [x]) = Set_add x (Set_of items).
Proof. unfold Set_of. by rewrite foldl_app. Qed.

Lemma new_positions_keys (l : list BucketDescription)
    (positions : list (string * BucketSyncState)) :
  map fst (new_positions l positions) = Set_of (map sync.bucket l).
Proof.
  induction l as [|d l IH] using rev_ind; [done|].
  rewrite new_positions_snoc, Map_set_keys, map_app. cbn [map].
  rewrite Set_of_snoc, IH.
  case_bool_decide as Hin.
  - by rewrite Set_add_present.
  - by rewrite Set_add_fresh.
Qed.

Lemma foldl_Set_add_if (P : string → bool) (l s : list string) :
  NoDup s →
  NoDup (foldl (fun s b => if P b then Set_add b s else s) s l)
  ∧ ∀ y, y ∈ foldl (fun s b => if P b then Set_add b s else s) s l
         ↔ y ∈ s ∨ (y ∈ l ∧ P y = true).
Proof.
  revert s. induction l as [|b l IH]; intros s Hnd; cbn.
  - split; [done|]. intros y. rewrite elem_of_nil. tauto.
  - destruct (P b) eqn:Hb.
    + destruct (IH (Set_add b s) (Set_add_NoDup _ _ Hnd)) as [Hnd' Hin].
      split; [done|]. intros y. rewrite Hin, Set_add_elem, elem_of_cons.
      split; [|intros [?|[[->|?] ?]]; tauto].
      intros [[->|?]|[? ?]]; tauto.
    + destruct (IH s Hnd) as [Hnd' Hin].
      split; [done|]. intros y. rewrite Hin, elem_of_cons.
      split; [tauto|]. intros [?|[[->|?] ?]]; [tauto|congruence|tauto].
Qed.

Lemma priority_of_new (l : list BucketDescription)
    (positions : list (string * BucketSyncState)) (b : string) (p : Z) :
  priority_of (new_positions l positions) b = inl p
  ↔ ∃ d, described_last l b = Some d ∧ p = sync.priority d.
Proof.
  unfold priority_of. rewrite new_positions_lookup.
  destruct (described_last l b) as [d|]; cbn.
  - split; [intros [= <-]; by exists d|]. by intros (d' & [= <-] & ->).
  - split; [done|]. by intros (d' & ? & _).
Qed.

Lemma map_throwing_describe (positions : list (string * BucketSyncState))
    (names : list string) (ds : list BucketDescription) :
  map_throwing (describe positions) names = inl ds →
  map sync.bucket ds = names
  ∧ Forall (fun d => priority_of positions (sync.bucket d) = inl (sync.priority d)) ds.
Proof.
  revert ds. induction names as [|b names IH]; intros ds; cbn.
  - intros [= <-]. by split.
  - unfold describe at 1. destruct (priority_of positions b) as [p|] eqn:Hp; [|done].
    destruct (map_throwing _ names) as [ds'|]; [|done]. intros [= <-].
    destruct (IH ds' eq_refl) as [Hn Hall]. split; [cbn; by f_equal|].
    by apply List.Forall_cons.
Qed.

Lemma map_throwing_with_description (positions : list (string * BucketSyncState))
    (l : list BucketChecksum) (described : list BucketChecksumWithDescription) :
  map_throwing (with_description positions) l = inl described →
  map of_checksum described = l
  ∧ Forall (fun x => priority_of positions (BucketChecksumState.bucket (of_checksum x))
                     = inl (with_priority x)) described.
Proof.
  revert described. induction l as [|e l IH]; intros described; cbn.
  - intros [= <-]. by split.
  - unfold with_description at 1.
    destruct (priority_of positions _) as [p|] eqn:Hp; [|done].
    destruct (map_throwing _ l) as [ds'|]; [|done]. intros [= <-].
    destruct (IH ds' eq_refl) as [Hn Hall]. split; [cbn; by f_equal|].
    by apply List.Forall_cons.
Qed.

Lemma map_throwing_total {A B} (f : A → B + Error) (l : list A) :
  Forall (fun x => ∃ y, f x = inl y) l → ∃ ys, map_throwing f l = inl ys.
Proof.
  induction 1 as [|x l [y Hy] _ [ys IH]]; cbn; [by eexists|].
  rewrite Hy, IH. by eexists.
Qed.

Lemma getFiltered_lookup (l : list BucketDescription) (this : State) (b : string) :
  Map_get b (getFilteredBucketPositions l this)
  = if bool_decide (b ∈ map sync.bucket l)
    then BucketChecksumState.start_op_id <$> Map_get b (bucketDataPositions this)
    else None.
Proof.
  unfold getFilteredBucketPositions.
  induction l as [|d l IH] using rev_ind.
  - cbn. rewrite bool_decide_eq_false_2; [done|]. by intros ?%elem_of_nil.
  - rewrite foldl_app, map_app. cbn [foldl map].
    destruct (decide (sync.bucket d = b)) as [<-|Hne].
    + rewrite (bool_decide_eq_true_2 (_ ∈ _ ++ _))
        by (apply elem_of_app; right; by left).
      destruct (Map_get (sync.bucket d) (bucketDataPositions this)) as [state|] eqn:E; cbn.
      * by rewrite Map_get_set_eq.
      * rewrite IH. by destruct (bool_decide _).
    + assert (Hiff : b ∈ map sync.bucket l ++ [sync.bucket d] ↔ b ∈ map sync.bucket l).
      { rewrite elem_of_app, list_elem_of_singleton. split; [|tauto].
        intros [?|?]; [done|congruence]. }
      rewrite (bool_decide_ext _ _ Hiff).
      destruct (Map_get (sync.bucket d) (bucketDataPositions this)) as [state|]; cbn.
      * by rewrite Map_get_set_ne.
      * done.
Qed.

Section Facts.
Variable maxBuckets : Z.
Variable getChecksums : Z → list string → ChecksumMap.
Variable checksumsDiff : ChecksumMap → ChecksumMap → ChecksumsDiff.

Local Abbreviation buildNextCheckpointLine :=
  (buildNextCheckpointLine maxBuckets getChecksums checksumsDiff).

(** The outcomes of a call with an update, by the branch taken. *)
Lemma build_cases (next : StorageCheckpointUpdate) (update : CheckpointUpdate)
    (this : State) :
  let positions := new_positions (buckets update) (bucketDataPositions this) in
  let this1 := set_positions positions this in
  (∃ r, buildNextCheckpointLine next (Some update) this = (this1, r)
        ∧ ∀ line, r ≠ inl (Some line))
  ∨ (∃ checksumMap line,
       buildNextCheckpointLine next (Some update) this
       = (finish next checksumMap line this1, inl (Some line))
       ∧ (maxBuckets <? Z.of_nat (length positions)) = false
       ∧ checksums_for getChecksums next (updatedBuckets update) positions
           (lastChecksums this) = inl checksumMap
       ∧ match lastChecksums this with
         | Some last =>
             let diff := checksumsDiff last checksumMap in
             ∃ described,
               map_throwing (with_description positions) (diff_updatedBuckets diff)
               = inl described
               ∧ map_throwing (describe positions)
                   (generateBucketsToFetch diff (pendingBucketDownloads this) checksumMap)
                 = inl (bucketsToFetch line)
               ∧ checkpointLine line
                 = checkpoint_diff (checkpoint next)
                     (write_checkpoint_of (writeCheckpoint next))
                     (diff_removedBuckets diff) described
         | None =>
             ∃ described,
               map_throwing (with_description positions) (map snd checksumMap)
               = inl described
               ∧ bucketsToFetch line = buckets update
               ∧ checkpointLine line
                 = full_checkpoint (checkpoint next)
                     (write_checkpoint_of (writeCheckpoint next)) described
         end).
Proof.
  cbv zeta. unfold CheckpointLine.buildNextCheckpointLine. cbv zeta.
  set (positions := new_positions (buckets update) (bucketDataPositions this)).
  set (this1 := set_positions positions this).
  destruct (maxBuckets <? Z.of_nat (length positions)) eqn:Hmax.
  { left. eexists. split; [done|]. done. }
  change (lastChecksums this1) with (lastChecksums this).
  change (pendingBucketDownloads this1) with (pendingBucketDownloads this).
  change (lastWriteCheckpoint this1) with (lastWriteCheckpoint this).
  destruct (checksums_for _ _ _ _ _) as [checksumMap|e] eqn:Hsums.
  2: { left. eexists. split; [done|]. done. }
  destruct (lastChecksums this) as [last|] eqn:Hlast.
  - destruct (_ && _).
    { left. eexists. split; [done|]. done. }
    destruct (map_throwing (with_description positions) _) as [described|e] eqn:Hd.
    2: { left. eexists. split; [done|]. done. }
    destruct (map_throwing (describe positions) _) as [fetch|e] eqn:Hf.
    2: { left. eexists. split; [done|]. done. }
    right. eexists checksumMap, _. split; [done|]. split; [done|]. split; [done|].
    exists described. by rewrite Hd.
  - destruct (map_throwing (with_description positions) _) as [described|e] eqn:Hd.
    2: { left. eexists. split; [done|]. done. }
    right. eexists checksumMap, _. split; [done|]. split; [done|]. split; [done|].
    by exists described.
Qed.

(** Positions across checkpoints.  After [buildNextCheckpointLine] with
    an update, whatever it returns or throws (the limit on buckets is checked
    after the assignment), [bucketDataPositions] has exactly the buckets of
    the update, each once: a bucket has the description that the update gives
    last for its name, and the position that the state had for it before, or
    0 for a bucket that it did not have.  Buckets that the update leaves out
    are forgotten. *)
Theorem buildNextCheckpointLine_positions (next : StorageCheckpointUpdate)
    (update : CheckpointUpdate) (this : State) (b : string) :
  let this' := (buildNextCheckpointLine next (Some update) this).1 in
  map fst (bucketDataPositions this') = Set_of (map sync.bucket (buckets update))
  ∧ NoDup (map fst (bucketDataPositions this'))
  ∧ Map_get b (bucketDataPositions this')
    = (fun d => {| BucketChecksumState.description := Some d;
                   BucketChecksumState.start_op_id :=
                     default 0 (BucketChecksumState.start_op_id
                                  <$> Map_get b (bucketDataPositions this)) |})
        <$> described_last (buckets update) b.
Proof.
  cbv zeta.
  assert (bucketDataPositions (buildNextCheckpointLine next (Some update) this).1
          = new_positions (buckets update) (bucketDataPositions this)) as ->.
  { destruct (build_cases next update this) as [(r & -> & _)|(m & line & -> & _)]; done. }
  split; [apply new_positions_keys|]. split; [apply new_positions_NoDup|].
  apply new_positions_lookup.
Qed.

(** What is remembered is what was sent.  When [buildNextCheckpointLine]
    returns a line, the state afterwards holds the write checkpoint of the
    update, some checksums, and as pending downloads the buckets to fetch of
    the line.  When it returns [null] or throws, [lastChecksums],
    [lastWriteCheckpoint] and [pendingBucketDownloads] are as they were. *)
Theorem buildNextCheckpointLine_remembers_what_was_sent (next : StorageCheckpointUpdate)
    (update : option CheckpointUpdate) (this this' : State)
    (r : option CheckpointLine + Error) :
  buildNextCheckpointLine next update this = (this', r) →
  match r with
  | inl (Some line) =>
      is_Some (lastChecksums this')
      ∧ lastWriteCheckpoint this' = writeCheckpoint next
      ∧ NoDup (pendingBucketDownloads this')
      ∧ ∀ b, b ∈ pendingBucketDownloads this' ↔ b ∈ map sync.bucket (bucketsToFetch line)
  | _ =>
      lastChecksums this' = lastChecksums this
      ∧ lastWriteCheckpoint this' = lastWriteCheckpoint this
      ∧ pendingBucketDownloads this' = pendingBucketDownloads this
  end.
Proof.
  destruct update as [update|].
  - destruct (build_cases next update this) as [(r' & -> & Hr)|(m & line & -> & _)].
    + intros [= <- <-]. destruct r' as [[line|]|e]; [by destruct (Hr line)|done..].
    + intros [= <- <-]. cbn.
      destruct (Set_of_spec (map sync.bucket (bucketsToFetch line))) as [Hnd Hin].
      split; [by eexists|]. split; [done|]. by split.
  - unfold CheckpointLine.buildNextCheckpointLine.
    destruct (bool_decide _); by intros [= <- <-].
Qed.

(** The first checkpoint of a connection.  With no checksums sent before
    and no more buckets than [maxBuckets]:
    - an update that names updated buckets throws the assertion error
      "Bucket diff received without existing checksums";
    - an update that invalidates all buckets asks storage for the checksums
      of the distinct bucket names, in order, and (storage answering for
      buckets of the update only) returns a full [checkpoint] line with
      these checksums, each with the priority of its bucket, and all buckets
      of the update to fetch; the state then holds these checksums. *)
Theorem first_checkpoint_is_full (next : StorageCheckpointUpdate)
    (update : CheckpointUpdate) (this : State) :
  lastChecksums this = None →
  Z.of_nat (length (Set_of (map sync.bucket (buckets update)))) <= maxBuckets →
  match updatedBuckets update with
  | Updated _ =>
      (buildNextCheckpointLine next (Some update) this).2
      = inr (ServiceAssertionError "Bucket diff received without existing checksums")
  | INVALIDATE_ALL_BUCKETS =>
      let checksumMap :=
        getChecksums (checkpoint next) (Set_of (map sync.bucket (buckets update))) in
      Forall (fun e => BucketChecksumState.bucket e ∈ map sync.bucket (buckets update))
             (map snd checksumMap) →
      ∃ described this',
        buildNextCheckpointLine next (Some update) this
        = (this', inl (Some {| checkpointLine :=
                                 full_checkpoint (checkpoint next)
                                   (write_checkpoint_of (writeCheckpoint next)) described;
                               bucketsToFetch := buckets update |}))
        ∧ map of_checksum described = map snd checksumMap
        ∧ Forall (fun x =>
                    ∃ d, described_last (buckets update)
                           (BucketChecksumState.bucket (of_checksum x)) = Some d
                         ∧ with_priority x = sync.priority d) described
        ∧ lastChecksums this' = Some checksumMap
  end.
Proof.
  intros Hlast Hmax.
  unfold CheckpointLine.buildNextCheckpointLine. cbv zeta.
  set (positions := new_positions (buckets update) (bucketDataPositions this)).
  assert (Hkeys : map fst positions = Set_of (map sync.bucket (buckets update)))
    by apply new_positions_keys.
  assert (Hlen : (maxBuckets <? Z.of_nat (length positions)) = false).
  { apply Z.ltb_ge. rewrite <- (length_map fst), Hkeys. done. }
  rewrite Hlen. cbn [lastChecksums set_positions]. rewrite Hlast.
  destruct (updatedBuckets update) as [|updated]; cbn [checksums_for]; [|done].
  rewrite Hkeys. intros Hanswer.
  destruct (map_throwing_total (with_description positions)
              (map snd (getChecksums (checkpoint next)
                          (Set_of (map sync.bucket (buckets update))))))
    as [described Hd].
  { eapply Forall_impl; [exact Hanswer|]. intros e He. cbn in He.
    apply described_last_Some in He as [d Hdl].
    unfold with_description, positions.
    rewrite (proj2 (priority_of_new (buckets update) (bucketDataPositions this)
                      (BucketChecksumState.bucket e) (sync.priority d)))
      by (by exists d).
    by eexists. }
  rewrite Hd. eexists described, _. split; [reflexivity|].
  destruct (map_throwing_with_description _ _ _ Hd) as [Hmap Hall].
  split; [done|]. split; [|done].
  eapply Forall_impl; [exact Hall|]. intros x Hx. cbn in Hx.
  by apply priority_of_new in Hx.
Qed.

(** Pending downloads are fetched again.  When checksums were sent before
    and [buildNextCheckpointLine] returns a line, the line is a
    [checkpoint_diff] with the removed and the updated buckets of the diff
    against the checksums sent before, and the buckets to fetch are, each
    once, the updated buckets of the diff and the buckets still pending from
    an earlier checkpoint that the new checksums have, each with the priority
    of its bucket in the update.  These are the pending downloads
    afterwards. *)
Theorem pending_downloads_are_fetched_again (next : StorageCheckpointUpdate)
    (update : CheckpointUpdate) (this this' : State) (line : CheckpointLine)
    (last : ChecksumMap) :
  lastChecksums this = Some last →
  buildNextCheckpointLine next (Some update) this = (this', inl (Some line)) →
  ∃ checksumMap described,
    lastChecksums this' = Some checksumMap
    ∧ checkpointLine line
      = checkpoint_diff (checkpoint next) (write_checkpoint_of (writeCheckpoint next))
          (diff_removedBuckets (checksumsDiff last checksumMap)) described
    ∧ map of_checksum described = diff_updatedBuckets (checksumsDiff last checksumMap)
    ∧ NoDup (map sync.bucket (bucketsToFetch line))
    ∧ (∀ b, b ∈ map sync.bucket (bucketsToFetch line)
            ↔ b ∈ map BucketChecksumState.bucket
                    (diff_updatedBuckets (checksumsDiff last checksumMap))
              ∨ (b ∈ pendingBucketDownloads this ∧ Map_has b checksumMap = true))
    ∧ Forall (fun d => ∃ d', described_last (buckets update) (sync.bucket d) = Some d'
                             ∧ sync.priority d = sync.priority d')
             (bucketsToFetch line)
    ∧ pendingBucketDownloads this' = map sync.bucket (bucketsToFetch line).
Proof.
  intros Hlast Hbuild.
  destruct (build_cases next update this)
    as [(r & Hr & Hno)|(checksumMap & line' & Hr & _ & _ & Hline)];
    rewrite Hr in Hbuild.
  { injection Hbuild as <- Hl. by destruct (Hno line). }
  injection Hbuild as <- <-. rewrite Hlast in Hline. cbv zeta in Hline.
  destruct Hline as (described & Hd & Hf & Hcl).
  exists checksumMap, described. split; [done|]. split; [done|].
  destruct (map_throwing_with_description _ _ _ Hd) as [Hmap _].
  destruct (map_throwing_describe _ _ _ Hf) as [Hnames Hprio].
  split; [done|]. rewrite Hnames.
  unfold generateBucketsToFetch.
  destruct (foldl_Set_add_spec BucketChecksumState.bucket
              (diff_updatedBuckets (checksumsDiff last checksumMap)) [] NoDup_nil_2)
    as [Hnd0 Hin0].
  destruct (foldl_Set_add_if (fun b => Map_has b checksumMap)
              (pendingBucketDownloads this) _ Hnd0) as [Hnd Hin].
  split; [exact Hnd|]. split.
  - intros b. rewrite Hin, Hin0, elem_of_nil. tauto.
  - split.
    + eapply Forall_impl; [exact Hprio|]. intros d Hp. cbn in Hp.
      by apply priority_of_new in Hp.
    + cbn. rewrite Hnames. by apply Set_of_NoDup.
Qed.

(** Every bucket to fetch is requested from storage.  After
    [buildNextCheckpointLine] has returned a line,
    [getFilteredBucketPositions] of its buckets to fetch has an entry for
    each of them and for no other bucket: the position that the state had
    for the bucket before the call, or 0 for a bucket that it did not
    have. *)
Theorem fetched_buckets_have_positions (next : StorageCheckpointUpdate)
    (update : CheckpointUpdate) (this this' : State) (line : CheckpointLine)
    (b : string) :
  buildNextCheckpointLine next (Some update) this = (this', inl (Some line)) →
  Map_get b (getFilteredBucketPositions (bucketsToFetch line) this')
  = if bool_decide (b ∈ map sync.bucket (bucketsToFetch line))
    then Some (default 0 (BucketChecksumState.start_op_id
                            <$> Map_get b (bucketDataPositions this)))
    else None.
Proof.
  intros Hbuild. rewrite getFiltered_lookup.
  case_bool_decide as Hb; [|done].
  destruct (build_cases next update this)
    as [(r & Hr & Hno)|(checksumMap & line' & Hr & _ & _ & Hline)];
    rewrite Hr in Hbuild.
  { injection Hbuild as <- Hl. by destruct (Hno line). }
  injection Hbuild as <- <-. cbn [bucketDataPositions finish set_positions].
  rewrite new_positions_lookup.
  enough (is_Some (described_last (buckets update) b)) as [d ->] by done.
  destruct (lastChecksums this) as [last|]; cbv zeta in Hline.
  - destruct Hline as (described & _ & Hf & _).
    destruct (map_throwing_describe _ _ _ Hf) as [_ Hprio].
    apply list_elem_of_fmap in Hb as (d & -> & Hd).
    rewrite Forall_forall in Hprio. specialize (Hprio d Hd). cbn in Hprio.
    apply priority_of_new in Hprio as (d' & -> & _). by eexists.
  - destruct Hline as (described & _ & Hf & _). rewrite Hf in Hb.
    by apply described_last_Some.
Qed.

End Facts.

Lemma buildNextCheckpointLine_remembers_what_was_sent_witness :
  let r := buildNextCheckpointLine 1 flat_checksums changed at_10 (Some both_buckets)
             connected in
  r.2 = inr (TooManyBuckets 2 1)
  ∧ lastChecksums r.1 = lastChecksums connected
  ∧ lastWriteCheckpoint r.1 = lastWriteCheckpoint connected
  ∧ pendingBucketDownloads r.1 = pendingBucketDownloads connected.
Proof.
  intros r.
  assert (Hr : r = (r.1, inr (TooManyBuckets 2 1))) by (vm_compute; reflexivity).
  split; [vm_compute; reflexivity|].
  exact (buildNextCheckpointLine_remembers_what_was_sent 1 flat_checksums changed at_10
           (Some both_buckets) connected r.1 (inr (TooManyBuckets 2 1)) Hr).
Defined.

Lemma first_checkpoint_is_full_witness :
  ∃ described this',
    buildNextCheckpointLine 100 flat_checksums changed at_10 (Some both_buckets) connected
    = (this', inl (Some {| checkpointLine := full_checkpoint 10 None described;
                           bucketsToFetch := [sync.user_bucket; sync.global_bucket] |}))
    ∧ map of_checksum described
      = map snd (flat_checksums 10 ["by_user[u1]"; "global[]"])
    ∧ lastChecksums this' = Some (flat_checksums 10 ["by_user[u1]"; "global[]"]).
Proof.
  assert (Hlast : lastChecksums connected = None) by reflexivity.
  assert (Hmax : Z.of_nat (length (Set_of (map sync.bucket (buckets both_buckets)))) <= 100)
    by (vm_compute; discriminate).
  pose proof (first_checkpoint_is_full 100 flat_checksums changed at_10 both_buckets
                connected Hlast Hmax) as H.
  cbn [updatedBuckets both_buckets] in H.
  destruct H as (described & this' & Hb & Hd & _ & Hl).
  - vm_compute. repeat constructor.
  - exists described, this'. split; [exact Hb|]. split; [exact Hd|exact Hl].
Defined.

Lemma pending_downloads_are_fetched_again_witness :
  let r := buildNextCheckpointLine 100 flat_checksums changed at_11 (Some user_updated)
             interrupted in
  r.2 = inl (Some second_line)
  ∧ pendingBucketDownloads r.1 = ["by_user[u1]"; "global[]"]
  ∧ (∀ b, b ∈ map sync.bucket (bucketsToFetch second_line)
          ↔ b ∈ ["by_user[u1]"]
            ∨ (b ∈ ["global[]"]
               ∧ Map_has b [("global[]", {| BucketChecksumState.bucket := "global[]";
                                            BucketChecksumState.checksum := 10;
                                            BucketChecksumState.count := 1 |});
                            ("by_user[u1]", {| BucketChecksumState.bucket := "by_user[u1]";
                                               BucketChecksumState.checksum := 11;
                                               BucketChecksumState.count := 1 |})] = true)).
Proof.
  intros r.
  assert (Hr : r = (r.1, inl (Some second_line))) by (vm_compute; reflexivity).
  assert (Hlast : lastChecksums interrupted
                  = Some (flat_checksums 10 ["by_user[u1]"; "global[]"])) by reflexivity.
  destruct (pending_downloads_are_fetched_again 100 flat_checksums changed at_11
              user_updated interrupted r.1 second_line _ Hlast Hr)
    as (checksumMap & described & Hsums & _ & _ & _ & Hin & _ & Hpending).
  assert (checksumMap
          = [("global[]", {| BucketChecksumState.bucket := "global[]";
                             BucketChecksumState.checksum := 10;
                             BucketChecksumState.count := 1 |});
             ("by_user[u1]", {| BucketChecksumState.bucket := "by_user[u1]";
                                BucketChecksumState.checksum := 11;
                                BucketChecksumState.count := 1 |})]) as ->.
  { vm_compute in Hsums. congruence. }
  split; [vm_compute; reflexivity|]. split; [exact Hpending|]. exact Hin.
Defined.

Lemma fetched_buckets_have_positions_witness :
  let r := buildNextCheckpointLine 100 flat_checksums changed at_10 (Some both_buckets)
             connected in
  r.2 = inl (Some first_line)
  ∧ Map_get "by_user[u1]" (getFilteredBucketPositions (bucketsToFetch first_line) r.1)
    = Some 0
  ∧ Map_get "global[]" (getFilteredBucketPositions (bucketsToFetch first_line) r.1)
    = Some 7.
Proof.
  intros r.
  assert (Hr : r = (r.1, inl (Some first_line))) by (vm_compute; reflexivity).
  split; [vm_compute; reflexivity|]. split.
  - rewrite (fetched_buckets_have_positions 100 flat_checksums changed at_10 both_buckets
               connected r.1 first_line "by_user[u1]" Hr).
    vm_compute. reflexivity.
  - rewrite (fetched_buckets_have_positions 100 flat_checksums changed at_10 both_buckets
               connected r.1 first_line "global[]" Hr).
    vm_compute. reflexivity.
Defined.

(** A write checkpoint of 0 is not written on the line, but is
    remembered. *)
Example second_line_values :
  let r := buildNextCheckpointLine 100 flat_checksums changed at_11 (Some user_updated)
             interrupted in
  r.2 = inl (Some second_line) ∧ lastWriteCheckpoint r.1 = Some 0
  ∧ (buildNextCheckpointLine 100 flat_checksums changed at_11 (Some user_updated) r.1).2
    = inl None.
Proof. repeat split; vm_compute; reflexivity. Qed.

End CheckpointLineFacts.

(** ** MongoLSN: order and round trip *)

Module MongoLSNOrder.
Import MongoLSN.

Lemma sixteen_cases (d : Z) :
  0 <= d < 16 →
  d = 0 ∨ d = 1 ∨ d = 2 ∨ d = 3 ∨ d = 4 ∨ d = 5 ∨ d = 6 ∨ d = 7 ∨ d = 8 ∨ d = 9
  ∨ d = 10 ∨ d = 11 ∨ d = 12 ∨ d = 13 ∨ d = 14 ∨ d = 15.
Proof. lia. Qed.

Lemma digit_value_hex_digit (d : Z) : 0 <= d < 16 → digit_value (hex_digit d) = Some d.
Proof.
  intros H. apply sixteen_cases in H.
  repeat (destruct H as [->|H]; [reflexivity|]). by subst.
Qed.

Lemma hex_digit_code (d : Z) :
  0 <= d < 16 → Z.of_N (N_of_ascii (hex_digit d)) = if d <? 10 then 48 + d else 87 + d.
Proof.
  intros H. apply sixteen_cases in H.
  repeat (destruct H as [->|H]; [reflexivity|]). by subst.
Qed.

Lemma hex_digit_compare (d1 d2 : Z) :
  0 <= d1 < 16 → 0 <= d2 < 16 →
  Ascii.compare (hex_digit d1) (hex_digit d2) = (d1 ?= d2).
Proof.
  intros H1 H2. unfold Ascii.compare. rewrite <- N2Z.inj_compare, !hex_digit_code by done.
  destruct (Z.ltb_spec d1 10), (Z.ltb_spec d2 10), (Z.compare_spec d1 d2);
    try lia; (apply Z.compare_eq_iff || apply Z.compare_lt_iff || apply Z.compare_gt_iff); lia.
Qed.

Lemma length_append (s1 s2 : string) :
  String.length (s1 +:+ s2) = (String.length s1 + String.length s2)%nat.
Proof. induction s1 as [|c s1 IH]; simpl; [done|]. by f_equal. Qed.

Lemma all_hex_append (s1 s2 : string) : all_hex s1 → all_hex s2 → all_hex (s1 +:+ s2).
Proof.
  induction s1 as [|c s1 IH]; simpl; [done|]. intros [? ?] ?. split; [done|]. by apply IH.
Qed.

Lemma hex_value_bound (s : string) :
  all_hex s → 0 <= hex_value s < 16 ^ Z.of_nat (String.length s).
Proof.
  induction s as [|c s IH]; cbn -[Z.pow Z.of_nat]; [cbn; lia|].
  intros [(d & Hd & ->) Hs]. specialize (IH Hs).
  rewrite digit_value_hex_digit by done. cbn [default from_option id].
  rewrite Nat2Z.inj_succ, Z.pow_succ_r by lia. unfold id. nia.
Qed.

Lemma hex_value_append (s1 s2 : string) :
  hex_value (s1 +:+ s2)
  = hex_value s1 * 16 ^ Z.of_nat (String.length s2) + hex_value s2.
Proof.
  induction s1 as [|c s1 IH].
  { change (EmptyString +:+ s2) with s2. cbn [hex_value]. lia. }
  change (String c s1 +:+ s2) with (String c (s1 +:+ s2)).
  cbn [hex_value]. rewrite IH, length_append, Nat2Z.inj_add, Z.pow_add_r by lia. lia.
Qed.

Lemma lower_hex_digit (n : Z) : lower_hex (hex_digit (n mod 16)).
Proof. exists (n mod 16). split; [|done]. apply Z.mod_pos_bound. lia. Qed.

Lemma digits16_spec (fuel : nat) (n : Z) (acc : string) (k : nat) :
  0 <= n → n < 16 ^ Z.of_nat fuel → n < 16 ^ Z.of_nat k → all_hex acc →
  all_hex (digits16 fuel n acc)
  ∧ (String.length (digits16 fuel n acc) <= k + String.length acc)%nat
  ∧ hex_value (digits16 fuel n acc)
    = n * 16 ^ Z.of_nat (String.length acc) + hex_value acc.
Proof.
  revert n acc k. induction fuel as [|fuel IH]; intros n acc k Hn Hfuel Hk Hacc.
  - cbn in *. assert (n = 0) as -> by lia. split; [done|split; lia].
  - cbn [digits16]. destruct (Z.eqb_spec n 0) as [->|Hne].
    + split; [done|split; lia].
    + destruct k as [|k]; [cbn in Hk; lia|].
      rewrite Nat2Z.inj_succ, Z.pow_succ_r in Hfuel, Hk by lia.
      destruct (IH (n / 16) (String (hex_digit (n mod 16)) acc) k) as (Ha & Hl & Hv).
      * apply Z.div_pos; lia.
      * apply Z.div_lt_upper_bound; lia.
      * apply Z.div_lt_upper_bound; lia.
      * split; [apply lower_hex_digit|done].
      * split; [done|]. split; [cbn [String.length] in Hl; lia|].
        rewrite Hv. cbn [hex_value String.length].
        rewrite digit_value_hex_digit by (apply Z.mod_pos_bound; lia).
        cbn [default from_option]. unfold id.
        rewrite Nat2Z.inj_succ, Z.pow_succ_r by lia.
        pose proof (Z.div_mod n 16 ltac:(lia)). nia.
Qed.

Lemma toString16_spec (n : Z) (k : nat) :
  0 <= n → n < 16 ^ Z.of_nat k → (0 < k)%nat →
  all_hex (toString16 n)
  ∧ (String.length (toString16 n) <= k)%nat
  ∧ hex_value (toString16 n) = n.
Proof.
  intros Hn Hk Hpos. unfold toString16.
  destruct (Z.ltb_spec n 0) as [?|_]; [lia|].
  destruct (Z.eqb_spec n 0) as [->|Hne].
  - split; [split; [by exists 0|done]|]. split; [cbn; lia|done].
  - destruct (digits16_spec (S (Z.to_nat (Z.log2 n))) n EmptyString k) as (Ha & Hl & Hv);
      try done.
    + pose proof (Z.log2_spec n ltac:(lia)) as [_ Hlog].
      pose proof (Z.log2_nonneg n).
      rewrite Nat2Z.inj_succ, Z2Nat.id by lia.
      eapply Z.lt_le_trans; [exact Hlog|].
      change 16 with (2 ^ 4). rewrite <- Z.pow_mul_r by lia.
      apply Z.pow_le_mono_r; lia.
    + split; [done|]. split; [cbn [String.length] in Hl; lia|]. rewrite Hv.
      cbn [String.length hex_value]. change (Z.of_nat 0) with 0. lia.
Qed.

Lemma repeat_zero_spec (m : nat) (s : string) :
  all_hex s →
  all_hex (repeat_char "0" m +:+ s)
  ∧ String.length (repeat_char "0" m +:+ s) = (m + String.length s)%nat
  ∧ hex_value (repeat_char "0" m +:+ s) = hex_value s.
Proof.
  intros Hs. induction m as [|m (Ha & Hl & Hv)]; simpl; [done|].
  split; [split; [by exists 0|done]|]. split; [by rewrite Hl|].
  rewrite Hv. change (digit_value "0") with (Some 0). cbn. lia.
Qed.

(** A word between 0 and 2^32 - 1 is rendered as exactly 8 hex digits. *)
Lemma word_rendering (n : Z) :
  0 <= n < 2 ^ 32 →
  all_hex (padStart 8 "0" (toString16 n))
  ∧ String.length (padStart 8 "0" (toString16 n)) = 8%nat
  ∧ hex_value (padStart 8 "0" (toString16 n)) = n.
Proof.
  intros [Hn Hlt]. destruct (toString16_spec n 8) as (Ha & Hl & Hv); [done|lia|lia|].
  unfold padStart.
  destruct (repeat_zero_spec (8 - String.length (toString16 n)) (toString16 n) Ha)
    as (Ha' & Hl' & Hv').
  split; [done|]. split; [lia|]. by rewrite Hv'.
Qed.

Lemma compare_hex (s1 s2 : string) :
  all_hex s1 → all_hex s2 → String.length s1 = String.length s2 →
  String.compare s1 s2 = (hex_value s1 ?= hex_value s2).
Proof.
  revert s2. induction s1 as [|c1 s1 IH]; intros [|c2 s2]; cbn [String.length]; try done.
  intros [(d1 & Hd1 & ->) H1] [(d2 & Hd2 & ->) H2] Hlen.
  assert (Hl : String.length s1 = String.length s2) by lia.
  cbn [String.compare hex_value]. rewrite hex_digit_compare, IH by done.
  rewrite !digit_value_hex_digit by done. cbn [default from_option]. unfold id.
  rewrite Hl.
  pose proof (hex_value_bound s1 H1). pose proof (hex_value_bound s2 H2).
  rewrite Hl in *. set (p := 16 ^ Z.of_nat (String.length s2)) in *.
  destruct (Z.compare_spec d1 d2) as [->|Hlt|Hgt].
  - destruct (Z.compare_spec (hex_value s1) (hex_value s2));
      symmetry; (apply Z.compare_eq_iff || apply Z.compare_lt_iff || apply Z.compare_gt_iff);
      lia.
  - symmetry. apply Z.compare_lt_iff. nia.
  - symmetry. apply Z.compare_gt_iff. nia.
Qed.

Lemma parse_digits_hex (s : string) (acc : Z) :
  all_hex s →
  parse_digits s (Some acc) = Some (acc * 16 ^ Z.of_nat (String.length s) + hex_value s).
Proof.
  revert acc. induction s as [|c s IH]; intros acc; cbn [all_hex parse_digits].
  - intros _. cbn. f_equal. lia.
  - intros [(d & Hd & ->) Hs]. rewrite digit_value_hex_digit by done.
    cbn [default from_option]. unfold id. rewrite IH by done. f_equal.
    cbn [hex_value String.length]. rewrite digit_value_hex_digit by done.
    cbn [default from_option]. unfold id.
    rewrite Nat2Z.inj_succ, Z.pow_succ_r by lia. lia.
Qed.

Lemma hex_digit_plain (d : Z) :
  0 <= d < 16 →
  is_whitespace (hex_digit d) = false
  ∧ hex_digit d ≠ "-"%char ∧ hex_digit d ≠ "+"%char
  ∧ hex_digit d ≠ "x"%char ∧ hex_digit d ≠ "X"%char ∧ hex_digit d ≠ DELIMINATOR.
Proof.
  intros H. apply sixteen_cases in H.
  repeat (destruct H as [->|H]; [by repeat split|]). subst. by repeat split.
Qed.

Lemma parseInt16_hex (s : string) :
  all_hex s → s ≠ EmptyString → parseInt16 s = Some (hex_value s).
Proof.
  destruct s as [|c s]; [done|]. intros [(d & Hd & ->) Hs] _.
  destruct (hex_digit_plain d Hd) as (Hw & Hminus & Hplus & _).
  unfold parseInt16. cbn [skip_whitespace]. rewrite Hw.
  assert (Hsign : (match String (hex_digit d) s with
                   | String "-"%char s' => (true, s')
                   | String "+"%char s' => (false, s')
                   | _ => (false, String (hex_digit d) s)
                   end) = (false, String (hex_digit d) s)).
  { apply sixteen_cases in Hd.
    repeat (destruct Hd as [->|Hd]; [reflexivity|]). by subst. }
  rewrite Hsign.
  assert (Hprefix : (match String (hex_digit d) s with
                     | String "0"%char (String "x"%char s')
                     | String "0"%char (String "X"%char s') => s'
                     | _ => String (hex_digit d) s
                     end) = String (hex_digit d) s).
  { destruct s as [|c' s']; [|destruct Hs as [(d' & Hd' & ->) _]];
      apply sixteen_cases in Hd;
      repeat (destruct Hd as [->|Hd]; [try reflexivity|]); subst; try reflexivity.
    all: apply sixteen_cases in Hd';
      repeat (destruct Hd' as [->|Hd']; [reflexivity|]); by subst. }
  rewrite Hprefix. cbn [parse_digits].
  rewrite digit_value_hex_digit by done. cbn [default from_option]. unfold id.
  rewrite parse_digits_hex by done. cbn [fmap option_fmap option_map]. f_equal.
  cbn [hex_value]. rewrite digit_value_hex_digit by done. cbn. lia.
Qed.

Lemma split_nonempty (c : ascii) (s : string) : split c s ≠ [].
Proof.
  induction s as [|c' s IH]; simpl; [done|].
  destruct (Ascii.eqb c' c); [done|]. by destruct (split c s).
Qed.

Lemma split_hex_prefix (p rest : string) :
  all_hex p →
  split DELIMINATOR (p +:+ rest)
  = match split DELIMINATOR rest with
    | first :: others => (p +:+ first) :: others
    | [] => [p]
    end.
Proof.
  induction p as [|c p IH].
  - intros _. change (EmptyString +:+ rest) with rest.
    pose proof (split_nonempty DELIMINATOR rest).
    by destruct (split DELIMINATOR rest).
  - intros [(d & Hd & ->) Hp].
    destruct (hex_digit_plain d Hd) as (_ & _ & _ & _ & _ & Hdelim).
    change (String (hex_digit d) p +:+ rest) with (String (hex_digit d) (p +:+ rest)).
    cbn [split].
    destruct (Ascii.eqb_spec (hex_digit d) DELIMINATOR) as [?|_]; [done|].
    rewrite IH by done. by destruct (split DELIMINATOR rest).
Qed.

Lemma split_delimiter (s : string) :
  split DELIMINATOR (String DELIMINATOR s) = EmptyString :: split DELIMINATOR s.
Proof. reflexivity. Qed.

Lemma append_cons (c : ascii) (s t : string) : String c s +:+ t = String c (s +:+ t).
Proof. reflexivity. Qed.

Lemma append_nil_l (t : string) : EmptyString +:+ t = t.
Proof. reflexivity. Qed.

Lemma substring_prefix (a b : string) :
  String.substring 0 (String.length a) (a +:+ b) = a.
Proof.
  induction a as [|c a IH]; [rewrite append_nil_l; by destruct b|].
  rewrite append_cons. cbn [String.length String.substring]. by f_equal.
Qed.

Lemma substring_skip (a b : string) (n : nat) :
  String.substring (String.length a) n (a +:+ b) = String.substring 0 n b.
Proof.
  induction a as [|c a IH]; [done|].
  rewrite append_cons. cbn [String.length String.substring]. exact IH.
Qed.

Lemma substring_all (b : string) : String.substring 0 (String.length b) b = b.
Proof. induction b as [|c b IH]; cbn [String.length String.substring]; [done|]. by f_equal. Qed.

Lemma substring_halves (a b : string) (n m : nat) :
  String.length a = n → String.length b = m → String.substring 0 n (a +:+ b) = a.
Proof. intros <- _. apply substring_prefix. Qed.

Lemma substring_halves_snd (a b : string) (n m : nat) :
  String.length a = n → String.length b = m → String.substring n m (a +:+ b) = b.
Proof. intros <- <-. rewrite substring_skip. apply substring_all. Qed.

Lemma append_nil_r (s : string) : s +:+ EmptyString = s.
Proof. induction s as [|c s IH]; [done|]. rewrite append_cons. by f_equal. Qed.

Lemma append_assoc (a b c : string) : (a +:+ b) +:+ c = a +:+ (b +:+ c).
Proof. induction a as [|x a IH]; [done|]. rewrite !append_cons. by f_equal. Qed.

Lemma compare_append (p1 p2 s1 s2 : string) :
  String.length p1 = String.length p2 →
  String.compare (p1 +:+ s1) (p2 +:+ s2)
  = match String.compare p1 p2 with
    | Eq => String.compare s1 s2
    | r => r
    end.
Proof.
  revert p2. induction p1 as [|c1 p1 IH]; intros [|c2 p2]; try done.
  intros [= Hlen]. rewrite !append_cons. cbn [String.compare].
  destruct (Ascii.compare c1 c2); [by apply IH|done..].
Qed.

Lemma ToInt32_small (x : Z) : 0 <= x < 2 ^ 31 → ToInt32 x = x.
Proof.
  intros H. unfold ToInt32. cbv zeta. rewrite Z.mod_small by lia.
  destruct (Z.leb_spec (2 ^ 31) x); [lia|done].
Qed.

Lemma compare_refl (s : string) : String.compare s s = Eq.
Proof.
  induction s as [|c s IH]; cbn [String.compare]; [done|].
  unfold Ascii.compare. by rewrite N.compare_refl.
Qed.

Section Facts.
Context {ResumeToken : Type}.
Variable serialize_token : ResumeToken → string.
Variable deserialize_token : string → ResumeToken.

Local Abbreviation MongoLSNSpecification := (@MongoLSNSpecification ResumeToken).
Local Abbreviation comparable := (comparable serialize_token).
Local Abbreviation fromSerialized := (@fromSerialized ResumeToken deserialize_token).

Lemma comparable_shape (this : MongoLSNSpecification) :
  words_in_range (timestamp this) →
  ∃ a b suffix,
    comparable this = (a +:+ b) +:+ suffix
    ∧ all_hex a ∧ all_hex b
    ∧ String.length a = 8%nat ∧ String.length b = 8%nat
    ∧ hex_value a = high (timestamp this) ∧ hex_value b = low (timestamp this)
    ∧ match resume_token this with
      | Some token => suffix = String DELIMINATOR (serialize_token token)
      | None => suffix = EmptyString
      end.
Proof.
  intros [Hh Hl].
  destruct (word_rendering (high (timestamp this)) ltac:(lia)) as (Ha & Hla & Hva).
  destruct (word_rendering (low (timestamp this)) ltac:(lia)) as (Hb & Hlb & Hvb).
  exists (padStart 8 "0" (toString16 (high (timestamp this)))),
    (padStart 8 "0" (toString16 (low (timestamp this)))),
    (match resume_token this with
     | Some token => String DELIMINATOR (serialize_token token)
     | None => EmptyString
     end).
  split; [|repeat split; try assumption].
  - unfold MongoLSN.comparable. cbv zeta.
    destruct (resume_token this) as [token|]; cbn [app join]; [reflexivity|].
    symmetry. apply append_nil_r.
  - by destruct (resume_token this).
Qed.

(** C10, for words below 2^31.  MongoLSN serialization preserves order and
    round-trips.  For two LSNs whose timestamp words, as [timestamp.high]
    and [timestamp.low] give them, are between 0 and 2^31 - 1:
    - [comparable] starts with sixteen lowercase hex digits, zero-padded,
      that spell the cluster time, high word then low word;
    - the lexicographic order of the [comparable] strings follows the order
      of the cluster times, and is exactly that order when neither LSN has a
      resume token;
    - [fromSerialized(x.comparable)] has the timestamp of [x];
    - [ZERO_LSN] is below or equal to every [comparable]. *)
Theorem lsn_comparable_order_and_roundtrip (x y : MongoLSNSpecification) :
  words_in_range (timestamp x) → words_in_range (timestamp y) →
  order_and_roundtrip serialize_token deserialize_token x y.
Proof.
  intros Hx Hy. unfold order_and_roundtrip.
  destruct (comparable_shape x Hx) as (a & b & sx & Ex & Ha & Hb & Hla & Hlb & Hva & Hvb & Hsx).
  destruct (comparable_shape y Hy) as (c & d & sy & Ey & Hc & Hd & Hlc & Hld & Hvc & Hvd & Hsy).
  assert (Hab : all_hex (a +:+ b)) by (by apply all_hex_append).
  assert (Hcd : all_hex (c +:+ d)) by (by apply all_hex_append).
  assert (Hlab : String.length (a +:+ b) = 16%nat) by (rewrite length_append; lia).
  assert (Hlcd : String.length (c +:+ d) = 16%nat) by (rewrite length_append; lia).
  assert (Hvab : hex_value (a +:+ b) = time_of (timestamp x)).
  { rewrite hex_value_append, Hlb, Hva, Hvb. unfold time_of.
    change (16 ^ Z.of_nat 8) with (2 ^ 32). destruct Hx.
    by rewrite !Z.mod_small by lia. }
  assert (Hvcd : hex_value (c +:+ d) = time_of (timestamp y)).
  { rewrite hex_value_append, Hld, Hvc, Hvd. unfold time_of.
    change (16 ^ Z.of_nat 8) with (2 ^ 32). destruct Hy.
    by rewrite !Z.mod_small by lia. }
  assert (Hcmp : String.compare (a +:+ b) (c +:+ d)
                 = (time_of (timestamp x) ?= time_of (timestamp y))).
  { rewrite compare_hex by (done || congruence). by rewrite Hvab, Hvcd. }
  split; [by exists (a +:+ b), sx|].
  rewrite Ex, Ey, compare_append, Hcmp by congruence.
  split; [|split; [|split; [|split]]].
  - intros Hlt. by apply Z.compare_lt_iff in Hlt as ->.
  - intros Hgt. by apply Z.compare_gt_iff in Hgt as ->.
  - intros Hnx Hny. rewrite Hnx in Hsx. rewrite Hny in Hsy. subst sx sy.
    by destruct (_ ?= _).
  - unfold MongoLSN.fromSerialized, deserialize. cbv zeta.
    rewrite split_hex_prefix by done.
    assert (Hseg : ∃ others, split DELIMINATOR sx = EmptyString :: others).
    { destruct (resume_token x); subst sx; [by eexists|by exists []]. }
    destruct Hseg as [others ->]. rewrite append_nil_r. cbn [lookup list_lookup default from_option].
    unfold id, substring.
    change (8 - 0)%nat with 8%nat. change (16 - 8)%nat with 8%nat.
    rewrite (substring_halves a b 8 8 Hla Hlb), (substring_halves_snd a b 8 8 Hla Hlb).
    rewrite !parseInt16_hex by (done || (intros ->; done)).
    cbn. rewrite Hva, Hvb. unfold fromBits. destruct Hx.
    rewrite !ToInt32_small by done. by destruct (timestamp x).
  - unfold String.leb.
    change ZERO_LSN with (ZERO_LSN +:+ EmptyString).
    rewrite compare_append by (rewrite Hlab; reflexivity).
    rewrite compare_hex; [|by repeat split; exists 0|done|by rewrite Hlab].
    rewrite Hvab. change (hex_value ZERO_LSN) with 0.
    assert (0 <= time_of (timestamp x)).
    { destruct Hx. unfold time_of. rewrite !Z.mod_small by lia. lia. }
    destruct (Z.compare_spec 0 (time_of (timestamp x))); [|done|lia].
    by destruct sx.
Qed.
End Facts.

Lemma lsn_comparable_order_and_roundtrip_witness :
  words_in_range (timestamp lsn_plain) ∧ words_in_range (timestamp lsn_with_token)
  ∧ order_and_roundtrip (fun s => s) (fun s => s) lsn_plain lsn_with_token.
Proof.
  assert (H1 : words_in_range (timestamp lsn_plain)) by (unfold words_in_range; cbn; lia).
  assert (H2 : words_in_range (timestamp lsn_with_token))
    by (unfold words_in_range; cbn; lia).
  split; [exact H1|]. split; [exact H2|].
  exact (lsn_comparable_order_and_roundtrip (fun s => s) (fun s => s)
           lsn_plain lsn_with_token H1 H2).
Defined.

Example lsn_comparable_values :
  comparable (fun s => s) lsn_plain = "6553f10000000005"
  ∧ comparable (fun s => s) lsn_with_token = "6553f10000000006|gmVT8QAAAAY="
  ∧ fromSerialized (fun s => s) "6553f10000000006|gmVT8QAAAAY=" = Some lsn_with_token
  ∧ @ZERO string (fun s => s)
    = Some {| timestamp := {| high := 0; low := 0 |}; resume_token := None |}.
Proof. repeat split; vm_compute; reflexivity. Qed.

(** C10, counterexample.  The LSN of the cluster time 2^31 seconds (19
    January 2038), read from its sixteen hex digits: its high word is
    -2^31, [comparable] writes it with a sign, in seventeen characters that
    sort below the LSN of an earlier time, and reading [comparable] back gives
    another timestamp. *)
Lemma lsn_of_2038_not_ordered :
  ∃ x : MongoLSNSpecification,
    fromSerialized (fun s : string => s) "8000000000000000" = Some x
    ∧ timestamp x = fromBits 0 (2 ^ 31)
    ∧ high (timestamp x) = - 2 ^ 31
    ∧ comparable (fun s : string => s) x = "-8000000000000000"
    ∧ time_of (timestamp lsn_plain) < time_of (timestamp x)
    ∧ String.compare (comparable (fun s => s) lsn_plain) (comparable (fun s => s) x) = Gt
    ∧ timestamp <$> fromSerialized (fun s : string => s) (comparable (fun s => s) x)
      = Some {| high := - 134217728; low := 0 |}.
Proof.
  eexists. split; [vm_compute; reflexivity|].
  repeat split; vm_compute; reflexivity.
Qed.

(** [toString(16)] writes a negative word with a sign, and the sixteen
    characters are then no longer hex digits. *)
Example negative_word_rendering :
  comparable (fun s : string => s)
    {| timestamp := {| high := -1; low := 5 |}; resume_token := None |}
  = "000000-100000005".
Proof. vm_compute. reflexivity. Qed.

End MongoLSNOrder.

(** ** MongoLSN: resume tokens and the full round trip *)

Module MongoLSNTokens.
Import MongoLSN MongoLSNOrder.

Lemma from_hex_cons (hex : string) (b : Z) (bytes : list Z) :
  from_hex hex = b :: bytes →
  ∃ c1 c2 x y rest,
    hex = String c1 (String c2 rest)
    ∧ digit_value c1 = Some x ∧ digit_value c2 = Some y
    ∧ b = 16 * x + y ∧ from_hex rest = bytes.
Proof.
  destruct hex as [|c1 [|c2 rest]]; try done. cbn [from_hex].
  destruct (digit_value c1) as [x|] eqn:E1; [|done].
  destruct (digit_value c2) as [y|] eqn:E2; [|done].
  intros [= <- <-]. by exists c1, c2, x, y, rest.
Qed.

Lemma digit_value_range (c : ascii) (d : Z) : digit_value c = Some d → 0 <= d < 16.
Proof.
  unfold digit_value. cbv zeta.
  repeat case_match; intros [= <-]; lia.
Qed.

Lemma from_hex_bytes (hex : string) (bytes : list Z) :
  from_hex hex = bytes → Forall (fun b => 0 <= b < 256) bytes.
Proof.
  revert bytes.
  enough (∀ n hex, (String.length hex <= n)%nat →
                   Forall (fun b => 0 <= b < 256) (from_hex hex)) as H.
  { intros bytes <-. by apply (H (String.length hex)). }
  induction n as [|n IH]; intros [|c1 [|c2 rest]] Hlen; cbn [from_hex];
    try apply List.Forall_nil; cbn [String.length] in Hlen; try lia.
  destruct (digit_value c1) as [x|] eqn:Hx; [|apply List.Forall_nil].
  destruct (digit_value c2) as [y|] eqn:Hy; [|apply List.Forall_nil].
  apply digit_value_range in Hx, Hy. apply List.Forall_cons; [lia|].
  apply IH. lia.
Qed.

Lemma digit_value_8 (c : ascii) : digit_value c = Some 8 → c = "8"%char.
Proof. destruct c as [[] [] [] [] [] [] [] []]; vm_compute; congruence. Qed.

Lemma digit_value_2 (c : ascii) : digit_value c = Some 2 → c = "2"%char.
Proof. destruct c as [[] [] [] [] [] [] [] []]; vm_compute; congruence. Qed.

Lemma hex_digits_cons (c : ascii) (s : string) :
  hex_digits (String c s) = true ↔ (∃ d, digit_value c = Some d) ∧ hex_digits s = true.
Proof.
  cbn [hex_digits]. rewrite andb_true_iff, bool_decide_eq_true. done.
Qed.

(** Eight hex digits decode to four bytes that spell their value. *)
Lemma from_hex_word (t rest : string) :
  String.length t = 8%nat → hex_digits t = true →
  ∃ b1 b2 b3 b4,
    from_hex (t +:+ rest) = b1 :: b2 :: b3 :: b4 :: from_hex rest
    ∧ ((b1 * 256 + b2) * 256 + b3) * 256 + b4 = hex_value t.
Proof.
  intros Hlen Hhex.
  destruct t as [|c1 [|c2 [|c3 [|c4 [|c5 [|c6 [|c7 [|c8 [|? ?]]]]]]]]]; try done.
  repeat (apply hex_digits_cons in Hhex as [[? ?] Hhex]).
  rewrite !append_cons, append_nil_l. cbn [from_hex hex_value String.length].
  repeat match goal with H : digit_value _ = Some _ |- _ => rewrite H; clear H end.
  cbn [default from_option]. unfold id.
  eexists _, _, _, _. split; [reflexivity|].
  change (16 ^ Z.of_nat 7) with 268435456. change (16 ^ Z.of_nat 6) with 16777216.
  change (16 ^ Z.of_nat 5) with 1048576. change (16 ^ Z.of_nat 4) with 65536.
  change (16 ^ Z.of_nat 3) with 4096. change (16 ^ Z.of_nat 2) with 256.
  change (16 ^ Z.of_nat 1) with 16. change (16 ^ Z.of_nat 0) with 1. lia.
Qed.

(** Four decoded bytes come from eight hex digits. *)
Lemma from_hex_word_inv (hex : string) (b1 b2 b3 b4 : Z) (bytes : list Z) :
  from_hex hex = b1 :: b2 :: b3 :: b4 :: bytes →
  ∃ t rest, hex = t +:+ rest ∧ String.length t = 8%nat ∧ hex_digits t = true
            ∧ from_hex rest = bytes.
Proof.
  intros H.
  apply from_hex_cons in H as (c1 & c2 & x1 & y1 & r1 & -> & ? & ? & _ & H).
  apply from_hex_cons in H as (c3 & c4 & x2 & y2 & r2 & -> & ? & ? & _ & H).
  apply from_hex_cons in H as (c5 & c6 & x3 & y3 & r3 & -> & ? & ? & _ & H).
  apply from_hex_cons in H as (c7 & c8 & x4 & y4 & r4 & -> & ? & ? & _ & H).
  exists (String c1 (String c2 (String c3 (String c4 (String c5 (String c6
            (String c7 (String c8 EmptyString)))))))), r4.
  split; [done|]. split; [done|]. split; [|done].
  repeat (apply hex_digits_cons; split; [by eexists|]). done.
Qed.

Lemma split_undelimited (s : string) :
  undelimited s = true → split DELIMINATOR s = [s].
Proof.
  induction s as [|c s IH]; [done|]. cbn [undelimited split].
  intros [Hc Hs]%andb_true_iff. apply negb_true_iff in Hc. rewrite Hc.
  by rewrite (IH Hs).
Qed.

Section Tokens.
Context {ResumeToken : Type}.
Variable serialize_token : ResumeToken → string.
Variable deserialize_token : string → ResumeToken.
Variable _data : ResumeToken → string.

Local Abbreviation MongoLSNSpecification := (@MongoLSNSpecification ResumeToken).
Local Abbreviation comparable := (comparable serialize_token).
Local Abbreviation fromSerialized := (@fromSerialized ResumeToken deserialize_token).
Local Abbreviation parseResumeTokenTimestamp := (parseResumeTokenTimestamp _data).
Local Abbreviation fromResumeToken := (fromResumeToken _data).

Lemma parse_bytes (token : ResumeToken) (b : Z) (bytes : list Z) :
  from_hex (_data token) = b :: bytes →
  parseResumeTokenTimestamp token
  = if negb (b =? 130)
    then inr (InvalidResumeToken ("Invalid resume token: " +:+ _data token))
    else match bytes with
         | t1 :: t2 :: t3 :: t4 :: i1 :: i2 :: i3 :: i4 :: _ =>
             inl (fromBits (((i1 * 256 + i2) * 256 + i3) * 256 + i4)
                           (((t1 * 256 + t2) * 256 + t3) * 256 + t4))
         | _ => inr RangeError
         end.
Proof.
  intros H. unfold MongoLSN.parseResumeTokenTimestamp. cbv zeta. rewrite H.
  cbn [getUint8 lookup list_lookup]. destruct (negb (b =? 130)); [done|].
  destruct bytes as [|t1 [|t2 [|t3 [|t4 [|i1 [|i2 [|i3 [|i4 ?]]]]]]]]; reflexivity.
Qed.

(** The LSN of a resume token.  [fromResumeToken] returns exactly when
    [_data] is [82], eight hex digits [t], eight hex digits [i] (in either
    case), and anything after them; the LSN then keeps the token, and its
    timestamp has the number spelled by [t] as its high word and the number
    spelled by [i] as its low word, each as a signed 32-bit integer: a word
    from 2^31 on is read back negative, lower by 2^32.  The cluster time, as
    an unsigned 64-bit number, is the one spelled by the sixteen digits. *)
Theorem fromResumeToken_cluster_time (token : ResumeToken) (lsn : MongoLSNSpecification) :
  fromResumeToken token = inl lsn
  ↔ ∃ t i rest,
      _data token = "82" +:+ t +:+ i +:+ rest
      ∧ String.length t = 8%nat ∧ String.length i = 8%nat
      ∧ hex_digits t = true ∧ hex_digits i = true
      ∧ lsn = {| timestamp := {| high := ToInt32 (hex_value t);
                                 low := ToInt32 (hex_value i) |};
                 resume_token := Some token |}
      ∧ high (timestamp lsn)
        = (if hex_value t <? 2 ^ 31 then hex_value t else hex_value t - 2 ^ 32)
      ∧ low (timestamp lsn)
        = (if hex_value i <? 2 ^ 31 then hex_value i else hex_value i - 2 ^ 32)
      ∧ time_of (timestamp lsn) = hex_value (t +:+ i).
Proof.
  assert (Hword : ∀ w, String.length w = 8%nat → hex_digits w = true →
            0 <= hex_value w < 2 ^ 32).
  { intros w Hl Hh. destruct (from_hex_word w EmptyString Hl Hh)
      as (b1 & b2 & b3 & b4 & Hb & <-).
    rewrite append_nil_r in Hb.
    apply from_hex_bytes in Hb. repeat (apply Forall_cons in Hb as [? Hb]). lia. }
  assert (Hsigned : ∀ w, 0 <= w < 2 ^ 32 →
            ToInt32 w = (if w <? 2 ^ 31 then w else w - 2 ^ 32)
            ∧ ToInt32 w mod 2 ^ 32 = w).
  { intros w Hw. unfold ToInt32. cbv zeta. rewrite Z.mod_small by lia.
    destruct (Z.leb_spec (2 ^ 31) w), (Z.ltb_spec w (2 ^ 31)); try lia.
    - split; [done|]. rewrite <- (Z.mod_small w (2 ^ 32)) at 2 by lia.
      rewrite <- (Z_mod_plus_full w (-1) (2 ^ 32)). f_equal; lia.
    - split; [done|]. by rewrite Z.mod_small by lia. }
  unfold MongoLSN.fromResumeToken. split.
  - destruct (from_hex (_data token)) as [|b bytes] eqn:Hbytes.
    { unfold MongoLSN.parseResumeTokenTimestamp. cbv zeta. by rewrite Hbytes. }
    rewrite (parse_bytes token b bytes Hbytes).
    destruct (Z.eqb_spec b 130) as [->|]; [|done]. cbn [negb].
    destruct bytes as [|t1 [|t2 [|t3 [|t4 [|i1 [|i2 [|i3 [|i4 bytes]]]]]]]]; try done.
    intros [= <-].
    apply from_hex_cons in Hbytes as (c1 & c2 & x & y & r & Hdata & Hx & Hy & Hb & Hr).
    pose proof (digit_value_range _ _ Hx). pose proof (digit_value_range _ _ Hy).
    assert (x = 8 ∧ y = 2) as [-> ->] by lia.
    apply digit_value_8 in Hx as ->. apply digit_value_2 in Hy as ->.
    pose proof Hr as Hr'.
    apply from_hex_word_inv in Hr as (t & r' & -> & Hlt & Hht & Hr).
    pose proof Hr as Hr''.
    apply from_hex_word_inv in Hr as (i & rest & -> & Hli & Hhi & Hr).
    destruct (from_hex_word t (i +:+ rest) Hlt Hht) as (u1 & u2 & u3 & u4 & Eu & Hu).
    destruct (from_hex_word i rest Hli Hhi) as (v1 & v2 & v3 & v4 & Ev & Hv).
    rewrite Eu in Hr'. rewrite Ev in Hr''. simplify_eq.
    destruct (Hsigned _ (Hword t Hlt Hht)) as [Ht Ht'].
    destruct (Hsigned _ (Hword i Hli Hhi)) as [Hi Hi'].
    exists t, i, rest. rewrite Hu, Hv. unfold fromBits, time_of.
    cbn [timestamp high low]. rewrite Ht', Hi', hex_value_append, Hli.
    repeat split; done.
  - intros (t & i & rest & Hdata & Hlt & Hli & Hht & Hhi & -> & _).
    destruct (from_hex_word t (i +:+ rest) Hlt Hht) as (u1 & u2 & u3 & u4 & Eu & Hu).
    destruct (from_hex_word i rest Hli Hhi) as (v1 & v2 & v3 & v4 & Ev & Hv).
    rewrite (parse_bytes token 130 (u1 :: u2 :: u3 :: u4 :: v1 :: v2 :: v3 :: v4 :: from_hex rest)).
    + cbn [Z.eqb Pos.eqb negb]. by rewrite Hu, Hv.
    + rewrite Hdata. change ("82" +:+ t +:+ i +:+ rest)
        with (String "8" (String "2" (t +:+ i +:+ rest))).
      cbn [from_hex]. change (digit_value "8") with (Some 8).
      change (digit_value "2") with (Some 2). cbv iota. by rewrite Eu, Ev.
Qed.

(** What [parseResumeTokenTimestamp] throws.
    - When [_data] starts with two hex digits that are not [82], the error
      is "Invalid resume token: " followed by [_data], whatever follows.
    - When [_data] does not start with two hex digits (the empty string
      among them), it is the [RangeError] of the read of byte 0.
    - When [_data] starts with [82] and fewer than eight further bytes
      decode, it is the [RangeError] of a read past the end. *)
Theorem parseResumeTokenTimestamp_errors (token : ResumeToken) :
  (∀ c1 c2 rest,
     _data token = String c1 (String c2 rest) →
     hex_digits (String c1 (String c2 "")) = true →
     String c1 (String c2 "") ≠ "82" →
     parseResumeTokenTimestamp token
     = inr (InvalidResumeToken ("Invalid resume token: " +:+ _data token)))
  ∧ (hex_digits (String.substring 0 2 (_data token)) = false
     ∨ (String.length (_data token) < 2)%nat →
     parseResumeTokenTimestamp token = inr RangeError)
  ∧ (∀ rest,
     _data token = "82" +:+ rest → (length (from_hex rest) < 8)%nat →
     parseResumeTokenTimestamp token = inr RangeError).
Proof.
  split; [|split].
  - intros c1 c2 rest Hdata Hhex Hne.
    apply hex_digits_cons in Hhex as [[x Hx] Hhex].
    apply hex_digits_cons in Hhex as [[y Hy] _].
    rewrite (parse_bytes token (16 * x + y) (from_hex rest))
      by (rewrite Hdata; cbn [from_hex]; by rewrite Hx, Hy).
    destruct (Z.eqb_spec (16 * x + y) 130) as [E|]; [|done].
    pose proof (digit_value_range _ _ Hx). pose proof (digit_value_range _ _ Hy).
    assert (x = 8 ∧ y = 2) as [-> ->] by lia.
    apply digit_value_8 in Hx as ->. by apply digit_value_2 in Hy as ->.
  - intros H. unfold MongoLSN.parseResumeTokenTimestamp. cbv zeta.
    enough (from_hex (_data token) = []) as -> by done.
    destruct (_data token) as [|c1 [|c2 rest]]; [done..|].
    destruct H as [H|H]; [|cbn in H; lia].
    cbn [from_hex]. cbn [String.substring] in H.
    replace (String.substring 0 0 rest) with EmptyString in H by (by destruct rest).
    destruct (digit_value c1) as [x|] eqn:Hx; [|done].
    destruct (digit_value c2) as [y|] eqn:Hy; [|done].
    exfalso. cbn [hex_digits] in H. rewrite Hx, Hy in H.
    rewrite !bool_decide_eq_true_2 in H by by eexists. done.
  - intros rest Hdata Hlen.
    rewrite (parse_bytes token 130 (from_hex rest)) by (by rewrite Hdata).
    cbn [Z.eqb Pos.eqb negb].
    destruct (from_hex rest) as [|t1 [|t2 [|t3 [|t4 [|i1 [|i2 [|i3 [|i4 ?]]]]]]]];
      try done.
    cbn [length] in Hlen. lia.
Qed.

(** The full round trip.  For an LSN whose timestamp words are between 0
    and 2^31 - 1, and whose resume token, if it has one, serializes to a
    text that is not empty, has no [|] and deserializes to the token,
    [fromSerialized(x.comparable)] is [x]: the timestamp and the resume
    token. *)
Theorem fromSerialized_comparable (x : MongoLSNSpecification) :
  words_in_range (timestamp x) →
  (∀ token, resume_token x = Some token →
     serialize_token token ≠ EmptyString
     ∧ undelimited (serialize_token token) = true
     ∧ deserialize_token (serialize_token token) = token) →
  fromSerialized (comparable x) = Some x.
Proof.
  intros Hx Htoken.
  destruct (comparable_shape serialize_token x Hx)
    as (a & b & sx & Ex & Ha & Hb & Hla & Hlb & Hva & Hvb & Hsx).
  assert (Hab : all_hex (a +:+ b)) by (by apply all_hex_append).
  unfold MongoLSN.fromSerialized, deserialize. cbv zeta.
  rewrite Ex, split_hex_prefix by done.
  assert (Hseg : split DELIMINATOR sx
                 = EmptyString :: match resume_token x with
                                  | Some token => [serialize_token token]
                                  | None => []
                                  end).
  { destruct (resume_token x) as [token|] eqn:E; subst sx; [|done].
    destruct (Htoken token eq_refl) as (_ & Hun & _).
    by rewrite split_delimiter, split_undelimited. }
  rewrite Hseg, append_nil_r. cbn [lookup list_lookup default from_option].
  unfold id, substring.
  change (8 - 0)%nat with 8%nat. change (16 - 8)%nat with 8%nat.
  rewrite (substring_halves a b 8 8 Hla Hlb), (substring_halves_snd a b 8 8 Hla Hlb).
  rewrite !parseInt16_hex by (done || (intros ->; done)).
  cbn [mbind option_bind]. rewrite Hva, Hvb. unfold fromBits. destruct Hx.
  rewrite !ToInt32_small by done.
  destruct x as [[h l] [token|]]; cbn in *; [|done].
  destruct (Htoken token eq_refl) as (Hne & _ & Hback).
  destruct (String.eqb_spec (serialize_token token) "") as [?|_]; [done|].
  by rewrite Hback.
Qed.

End Tokens.

Lemma fromSerialized_comparable_witness :
  words_in_range (timestamp lsn_with_token)
  ∧ fromSerialized (fun s => s) (comparable (fun s => s) lsn_with_token)
    = Some lsn_with_token.
Proof.
  assert (H : words_in_range (timestamp lsn_with_token))
    by (unfold words_in_range; cbn; lia).
  split; [exact H|].
  apply (fromSerialized_comparable (fun s => s) (fun s => s) lsn_with_token H).
  intros token [= <-]. repeat split. intros ?. discriminate.
Defined.

(** The token of a change at (1700000000, 6), a token whose seconds are
    ffffffff, a token of another kind, and tokens cut short. *)
Example resume_token_values :
  fromResumeToken (fun s => s) token_data
  = inl {| timestamp := {| high := 1700000000; low := 6 |};
           resume_token := Some token_data |}
  ∧ parseResumeTokenTimestamp (fun s : string => s) "82FFFFFFFF000000012B"
    = inl {| high := -1; low := 1 |}
  ∧ parseResumeTokenTimestamp (fun s : string => s) "836553F100000000062B"
    = inr (InvalidResumeToken "Invalid resume token: 836553F100000000062B")
  ∧ parseResumeTokenTimestamp (fun s : string => s) "" = inr RangeError
  ∧ parseResumeTokenTimestamp (fun s : string => s) "826553F1000000" = inr RangeError.
Proof. repeat split; vm_compute; reflexivity. Qed.

End MongoLSNTokens.
